(** * Filtered-sum kernels of the DoD-vs-repository benchmark

    A shallow embedding of the reducers of
    [bench-dod.cpp], [bench-dod-avx2-double.cpp], [bench-dod-znver2.cpp]
    and [bench-repository.cpp], and the properties the specification
    states about them.

    The kernels are written once over an arithmetic interface ([Arith])
    whose operations are the scalar float operations and the AVX2
    intrinsics the sources call.  Two instances are given:
    - [IEEE]: binary32 / binary64 with round-to-nearest-even, built on the
      Standard Library's [SpecFloat];
    - [Exact]: the rationals [Qc], i.e. the same programs run without
      rounding.

    Under [Exact] the vector kernels and the scalar reducer are equal.
    Under [IEEE] they differ by rounding; the second half of the file
    proves that [SpecFloat]'s rounding is to nearest, derives the
    relative error of one addition, and bounds the distance of every
    reducer from the real sum of the qualifying balances. *)

From Stdlib Require Import ZArith List Bool Lia Permutation.
From Stdlib Require Import Strings.Byte.
From Stdlib Require Import Floats.SpecFloat.
From Stdlib Require Import QArith Qcanon.
From Stdlib Require Import Reals Lra.
Import ListNotations.

Set Implicit Arguments.

(** ** The arithmetic the kernels use *)

Class Arith := {
  f32 : Type;                          (* float *)
  f64 : Type;                          (* double *)
  mask32 : Type;                       (* one lane of a compare result *)
  zero32 : f32;                        (* 0.0f *)
  one32 : f32;                         (* 1.0f *)
  add32 : f32 -> f32 -> f32;           (* float +, _mm256_add_ps, _mm_add_ps *)
  mul32 : f32 -> f32 -> f32;           (* float *, _mm256_mul_ps *)
  ge32 : f32 -> f32 -> bool;           (* float >= *)
  cvtepi32_ps : Z -> f32;              (* _mm256_cvtepi32_ps, one lane *)
  min_ps : f32 -> f32 -> f32;          (* _mm256_min_ps, one lane *)
  cmp_ge_oq : f32 -> f32 -> mask32;    (* _mm256_cmp_ps(.,.,_CMP_GE_OQ), one lane *)
  and_ps : mask32 -> f32 -> f32;       (* _mm256_and_ps, one lane *)
  zero64 : f64;                        (* 0.0 *)
  add64 : f64 -> f64 -> f64;           (* double +, _mm256_add_pd, _mm_add_pd *)
  cvtps_pd : f32 -> f64;               (* _mm256_cvtps_pd, static_cast<double> *)
  cvtpd_ps : f64 -> f32                (* double -> float on return *)
}.

(** ** SIMD registers

    A 256-bit register is the pair of its two 128-bit halves, low half
    first, so that [_mm256_castps256_ps128] is [lo] and
    [_mm256_extractf128_ps (., 1)] is [hi]. *)

Record m128 (A : Type) := M128 { x0 : A; x1 : A; x2 : A; x3 : A }.
Record m128d (A : Type) := M128d { d0 : A; d1 : A }.
Record m256 (A : Type) := M256 { lo : m128 A; hi : m128 A }.
Record m256d (A : Type) := M256d { dlo : m128d A; dhi : m128d A }.

Definition m128_map {A B} (f : A -> B) (a : m128 A) : m128 B :=
  M128 (f (x0 a)) (f (x1 a)) (f (x2 a)) (f (x3 a)).
Definition m128_map2 {A B C} (f : A -> B -> C) (a : m128 A) (b : m128 B) : m128 C :=
  M128 (f (x0 a) (x0 b)) (f (x1 a) (x1 b)) (f (x2 a) (x2 b)) (f (x3 a) (x3 b)).
Definition m128d_map2 {A B C} (f : A -> B -> C) (a : m128d A) (b : m128d B) : m128d C :=
  M128d (f (d0 a) (d0 b)) (f (d1 a) (d1 b)).
Definition m256_map {A B} (f : A -> B) (a : m256 A) : m256 B :=
  M256 (m128_map f (lo a)) (m128_map f (hi a)).
Definition m256_map2 {A B C} (f : A -> B -> C) (a : m256 A) (b : m256 B) : m256 C :=
  M256 (m128_map2 f (lo a) (lo b)) (m128_map2 f (hi a) (hi b)).
Definition m256d_map2 {A B C} (f : A -> B -> C) (a : m256d A) (b : m256d B) : m256d C :=
  M256d (m128d_map2 f (dlo a) (dlo b)) (m128d_map2 f (dhi a) (dhi b)).

Definition m128_set1 {A} (a : A) : m128 A := M128 a a a a.
Definition m256_set1 {A} (a : A) : m256 A := M256 (m128_set1 a) (m128_set1 a).
Definition m256d_set1 {A} (a : A) : m256d A := M256d (M128d a a) (M128d a a).

Definition m128_lanes {A} (a : m128 A) : list A := [x0 a; x1 a; x2 a; x3 a].
Definition m256_lanes {A} (a : m256 A) : list A := m128_lanes (lo a) ++ m128_lanes (hi a).
Definition m256d_lanes {A} (a : m256d A) : list A :=
  [d0 (dlo a); d1 (dlo a); d0 (dhi a); d1 (dhi a)].

(** ** Loops

    [for (; i < bound; i += step) st = body(i, st);] with the loop
    variable returned, since the tail loops continue from it.  The
    counters are [size_t]; no kernel lets one pass [Count], so [nat]
    loses nothing. *)

Fixpoint for_loop {S : Type} (fuel step bound : nat)
    (body : nat -> S -> S) (i : nat) (st : S) : nat * S :=
  match fuel with
  | O => (i, st)
  | Datatypes.S fuel' =>
      if i <? bound
      then for_loop fuel' step bound body (i + step) (body i st)
      else (i, st)
  end.

(** Reads through a pointer: [p[i]].  Reading past the array is undefined
    in the source; here it yields the default [d]. *)
Definition rd {A} (p : list A) (i : nat) (d : A) : A := nth i p d.

(** Eight consecutive elements starting at [p + i], lane 0 first. *)
Definition load8 {A} (p : list A) (i : nat) (d : A) : m256 A :=
  M256 (M128 (rd p i d) (rd p (i + 1) d) (rd p (i + 2) d) (rd p (i + 3) d))
       (M128 (rd p (i + 4) d) (rd p (i + 5) d) (rd p (i + 6) d) (rd p (i + 7) d)).

(** [uint8_t] in a condition: nonzero is true. *)
Definition byte_true (b : byte) : bool := negb (Byte.eqb b x00).

(** Zero extension of a byte to a 32-bit integer lane. *)
Definition cvtepu8_epi32 (b : byte) : Z := Z.of_N (Byte.to_N b).

(** The sixteen bytes of an [__m128i], as its low and high quadwords. *)
Record m128i := M128i { epi8_lo : m256 byte; epi8_hi : m256 byte }.

(** [_mm_loadl_epi64]: eight bytes into the low quadword, the high one
    cleared. *)
Definition mm_loadl_epi64 (p : list byte) (i : nat) : m128i :=
  M128i (load8 p i x00) (m256_set1 x00).

(** [_mm256_cvtepu8_epi32]: the low eight bytes, each zero-extended. *)
Definition mm256_cvtepu8_epi32 (a : m128i) : m256 Z :=
  m256_map cvtepu8_epi32 (epi8_lo a).

(** [_mm_prefetch] is a hint; it has no effect on the values computed. *)
Definition mm_prefetch {A} (p : list A) (i : nat) (distance : Z) : unit := tt.

(** The eight indices a group starting at [i] covers, lane 0 first. *)
Definition lane_indices (i : nat) : m256 nat :=
  M256 (M128 i (i + 1) (i + 2) (i + 3))%nat
       (M128 (i + 4) (i + 5) (i + 6) (i + 7))%nat.

(** Lane-wise combination of a list of accumulators with a list of
    inputs. *)
Fixpoint zip_with {A B : Type} (f : A -> B -> A) (la : list A) (lb : list B) : list A :=
  match la, lb with
  | a :: la', b :: lb' => f a b :: zip_with f la' lb'
  | _, _ => []
  end.

(** The lanes of the two accumulator registers of a vector kernel, those of
    [acc0] first. *)
Definition lanes64 {A} (acc : m256d A * m256d A) : list A :=
  m256d_lanes (fst acc) ++ m256d_lanes (snd acc).
Definition lanes32 {A} (acc : m256 A * m256 A) : list A :=
  m256_lanes (fst acc) ++ m256_lanes (snd acc).

(** The loop counters a [for (i = start; ...; i += step)] loop of [n]
    iterations goes through. *)
Definition counters (start step n : nat) : list nat :=
  map (fun j => start + j * step)%nat (seq 0 n).

(** ** The kernels, over any arithmetic *)

Section Kernels.
Context {AR : Arith}.

(** [struct UsersView], the same in the three flat-array sources. *)
Record UsersView := {
  Ids : list Z;
  Balances : list f32;
  Active : list byte;
  Count : nat
}.

(** [_mm256_cvtps_pd]: four floats widened to four doubles. *)
Definition mm256_cvtps_pd (a : m128 f32) : m256d f64 :=
  M256d (M128d (cvtps_pd (x0 a)) (cvtps_pd (x1 a)))
        (M128d (cvtps_pd (x2 a)) (cvtps_pd (x3 a))).

(** [_mm_unpackhi_pd (a, b)] is [(a[1], b[1])]. *)
Definition mm_unpackhi_pd (a b : m128d f64) : m128d f64 := M128d (d1 a) (d1 b).

(** [_mm_hadd_ps (a, b)] is [(a0+a1, a2+a3, b0+b1, b2+b3)]. *)
Definition mm_hadd_ps (a b : m128 f32) : m128 f32 :=
  M128 (add32 (x0 a) (x1 a)) (add32 (x2 a) (x3 a))
       (add32 (x0 b) (x1 b)) (add32 (x2 b) (x3 b)).

(** The predicate-and-multiply pipeline both vector kernels run on one
    group of eight: load, widen the bytes, clamp, compare, and, multiply. *)
Definition contrib8 (balances : list f32) (activeFlags : list byte)
    (threshold one : m256 f32) (i : nat) : m256 f32 :=
  let b := load8 balances i zero32 in
  let bytes := mm_loadl_epi64 activeFlags i in
  let ints := mm256_cvtepu8_epi32 bytes in
  let activeM := m256_map cvtepi32_ps ints in
  let activeM := m256_map2 min_ps activeM one in
  let cmpMask := m256_map2 cmp_ge_oq b threshold in
  let take := m256_map2 and_ps cmpMask activeM in
  m256_map2 mul32 b take.

(** The scalar reducer, textually the same in [bench-dod.cpp]
    (where it is [SumActiveBalances]) and in the two AVX2 sources. *)
Definition scalar_body (usersView : UsersView) (thresholdBalance : f32)
    (i : nat) (accumulatedBalance : f32) : f32 :=
  let balanceValue := rd (Balances usersView) i zero32 in
  let takeValue :=
    if byte_true (rd (Active usersView) i x00) && ge32 balanceValue thresholdBalance
    then one32 else zero32 in
  add32 accumulatedBalance (mul32 balanceValue takeValue).

Definition SumActiveBalancesScalar (usersView : UsersView) (minimumBalance : f32) : f32 :=
  let accumulatedBalance := zero32 in
  let thresholdBalance := minimumBalance in
  snd (for_loop (Count usersView) 1 (Count usersView)
         (scalar_body usersView thresholdBalance) 0 accumulatedBalance).
End Kernels.

Arguments UsersView : clear implicits.
Arguments UsersView {AR}.

(** *** bench-dod.cpp *)
Module Dod.
Section Dod.
Context {AR : Arith}.

Definition SumActiveBalances (usersView : UsersView) (minimumBalance : f32) : f32 :=
  let accumulatedBalance := zero32 in
  let thresholdBalance := minimumBalance in
  snd (for_loop (Count usersView) 1 (Count usersView)
         (fun i accumulatedBalance =>
            let balanceValue := rd (Balances usersView) i zero32 in
            let takeValue :=
              if byte_true (rd (Active usersView) i x00)
                 && ge32 balanceValue thresholdBalance
              then one32 else zero32 in
            add32 accumulatedBalance (mul32 balanceValue takeValue))
         0 accumulatedBalance).
End Dod.
End Dod.

(** How a binary was built and what the CPU it runs on reports. *)
Record Build := {
  AVX2_defined : bool;       (* defined(__AVX2__) *)
  COMPILER_CLANG : bool;
  COMPILER_GCC : bool
}.

(** *** bench-dod-avx2-double.cpp *)
Module Avx2Double.
Section Avx2Double.
Context {AR : Arith}.

Definition main_body (balances : list f32) (activeFlags : list byte)
    (threshold one : m256 f32) (i : nat) (acc : m256d f64 * m256d f64)
    : m256d f64 * m256d f64 :=
  let '(acc0, acc1) := acc in
  let contrib := contrib8 balances activeFlags threshold one i in
  let low := lo contrib in
  let high := hi contrib in
  (m256d_map2 add64 acc0 (mm256_cvtps_pd low),
   m256d_map2 add64 acc1 (mm256_cvtps_pd high)).

Definition tail_body (balances : list f32) (activeFlags : list byte)
    (minimumBalance : f32) (i : nat) (accumulatedBalance : f64) : f64 :=
  if byte_true (rd activeFlags i x00) && ge32 (rd balances i zero32) minimumBalance
  then add64 accumulatedBalance (cvtps_pd (rd balances i zero32))
  else accumulatedBalance.

(** The reduction of the two accumulators to one double, after the
    main loop. *)
Definition horizontal_sum (acc0 acc1 : m256d f64) : f64 :=
  let acc := m256d_map2 add64 acc0 acc1 in
  let low := dlo acc in
  let high := dhi acc in
  let sum := m128d_map2 add64 low high in
  add64 (d0 sum) (d0 (mm_unpackhi_pd sum sum)).

Definition SumActiveBalancesAvx2 (usersView : UsersView) (minimumBalance : f32) : f64 :=
  let count := Count usersView in
  let balances := Balances usersView in
  let activeFlags := Active usersView in
  let threshold := m256_set1 minimumBalance in
  let one := m256_set1 one32 in
  let acc0 := m256d_set1 zero64 in
  let acc1 := m256d_set1 zero64 in
  let vectorWidth := 8%nat in
  let n8 := ((count / vectorWidth) * vectorWidth)%nat in
  let '(i, (acc0, acc1)) :=
    for_loop n8 vectorWidth n8
      (main_body balances activeFlags threshold one) 0%nat (acc0, acc1) in
  let accumulatedBalance := horizontal_sum acc0 acc1 in
  snd (for_loop count 1 count
         (tail_body balances activeFlags minimumBalance) i accumulatedBalance).

Definition SumActiveBalancesScalar := @SumActiveBalancesScalar AR.

(** The two loops as folds over their counters (see [Avx2Double_fold]). *)
Definition main_loop (v : UsersView) (t : f32) : m256d f64 * m256d f64 :=
  fold_left
    (fun acc g => main_body (Balances v) (Active v) (m256_set1 t) (m256_set1 one32) g acc)
    (counters 0 8 (Count v / 8))
    (m256d_set1 zero64, m256d_set1 zero64).

Definition tail_loop (v : UsersView) (t : f32) (acc : f64) : f64 :=
  fold_left
    (fun acc i => tail_body (Balances v) (Active v) t i acc)
    (seq (Count v / 8 * 8) (Count v - Count v / 8 * 8))
    acc.

(** The dispatcher is declared [float]: the AVX2 kernel's [double] is
    converted on return. *)
Definition SumActiveBalances (build : Build) (cpu_supports_avx2 : bool)
    (usersView : UsersView) (minimumBalance : f32) : f32 :=
  if AVX2_defined build then
    if (COMPILER_CLANG build || COMPILER_GCC build) && cpu_supports_avx2
    then cvtpd_ps (SumActiveBalancesAvx2 usersView minimumBalance)
    else SumActiveBalancesScalar usersView minimumBalance
  else SumActiveBalancesScalar usersView minimumBalance.
End Avx2Double.
End Avx2Double.

(** *** bench-dod-znver2.cpp *)
Module Znver2.
Section Znver2.
Context {AR : Arith}.

Definition prefetchDistance : Z := 256.

Definition main_body (balances : list f32) (activeFlags : list byte)
    (threshold one : m256 f32) (i : nat) (acc : m256 f32 * m256 f32)
    : m256 f32 * m256 f32 :=
  let '(acc0, acc1) := acc in
  let _ := mm_prefetch balances i prefetchDistance in
  let _ := mm_prefetch activeFlags i prefetchDistance in
  let contrib0 := contrib8 balances activeFlags threshold one i in
  let acc0 := m256_map2 add32 acc0 contrib0 in
  let contrib1 := contrib8 balances activeFlags threshold one (i + 8) in
  let acc1 := m256_map2 add32 acc1 contrib1 in
  (acc0, acc1).

Definition tail_body (balances : list f32) (activeFlags : list byte)
    (minimumBalance : f32) (i : nat) (accumulatedBalance : f32) : f32 :=
  if byte_true (rd activeFlags i x00) && ge32 (rd balances i zero32) minimumBalance
  then add32 accumulatedBalance (rd balances i zero32)
  else accumulatedBalance.

(** The reduction of the two accumulators to one float, after the
    main loop. *)
Definition horizontal_sum (acc0 acc1 : m256 f32) : f32 :=
  let acc := m256_map2 add32 acc0 acc1 in
  let low := lo acc in
  let high := hi acc in
  let sum := m128_map2 add32 low high in
  let sum := mm_hadd_ps sum sum in
  let sum := mm_hadd_ps sum sum in
  x0 sum.

Definition SumActiveBalancesAvx2 (usersView : UsersView) (minimumBalance : f32) : f32 :=
  let count := Count usersView in
  let balances := Balances usersView in
  let activeFlags := Active usersView in
  let threshold := m256_set1 minimumBalance in
  let one := m256_set1 one32 in
  let acc0 := m256_set1 zero32 in
  let acc1 := m256_set1 zero32 in
  let vectorWidth := 16%nat in
  let n16 := ((count / vectorWidth) * vectorWidth)%nat in
  let '(i, (acc0, acc1)) :=
    for_loop n16 vectorWidth n16
      (main_body balances activeFlags threshold one) 0%nat (acc0, acc1) in
  let accumulatedBalance := horizontal_sum acc0 acc1 in
  snd (for_loop count 1 count
         (tail_body balances activeFlags minimumBalance) i accumulatedBalance).

Definition SumActiveBalancesScalar := @SumActiveBalancesScalar AR.

(** The two loops as folds over their counters (see [Znver2_fold]). *)
Definition main_loop (v : UsersView) (t : f32) : m256 f32 * m256 f32 :=
  fold_left
    (fun acc g => main_body (Balances v) (Active v) (m256_set1 t) (m256_set1 one32) g acc)
    (counters 0 16 (Count v / 16))
    (m256_set1 zero32, m256_set1 zero32).

Definition tail_loop (v : UsersView) (t : f32) (acc : f32) : f32 :=
  fold_left
    (fun acc i => tail_body (Balances v) (Active v) t i acc)
    (seq (Count v / 16 * 16) (Count v - Count v / 16 * 16))
    acc.

Definition SumActiveBalances (build : Build) (cpu_supports_avx2 : bool)
    (usersView : UsersView) (minimumBalance : f32) : f32 :=
  if AVX2_defined build then
    if (COMPILER_CLANG build || COMPILER_GCC build) && cpu_supports_avx2
    then SumActiveBalancesAvx2 usersView minimumBalance
    else SumActiveBalancesScalar usersView minimumBalance
  else SumActiveBalancesScalar usersView minimumBalance.
End Znver2.
End Znver2.

(** *** bench-repository.cpp *)
Module Repository.
Section Repository.
Context {AR : Arith}.

(** The activity bytes of a flat-array view ([User] below has a field of
    the same name). *)
Definition view_flags (usersView : UsersView) : list byte := Active usersView.

Record User := { Id : Z; Balance : f32; Active : bool }.

(** [struct IUserRepository]: the visitor of [ForEach] may update what
    it captured by reference, so it threads a state [S]. *)
Record IUserRepository := {
  ForEach : forall S : Type, (User -> S -> S) -> S -> S;
  FindById : Z -> option User
}.

Fixpoint VectorUserRepository_ForEach (Users : list User)
    (S : Type) (fn : User -> S -> S) (st : S) : S :=
  match Users with
  | [] => st
  | user :: rest => VectorUserRepository_ForEach rest fn (fn user st)
  end.

Fixpoint VectorUserRepository_FindById (Users : list User) (id : Z) : option User :=
  match Users with
  | [] => None
  | user :: rest =>
      if (Id user =? id)%Z then Some user
      else VectorUserRepository_FindById rest id
  end.

Definition VectorUserRepository (Users : list User) : IUserRepository :=
  {| ForEach := VectorUserRepository_ForEach Users;
     FindById := VectorUserRepository_FindById Users |}.

Definition Qualifies (user : User) (minimumBalance : f32) : bool :=
  let bQualifies := Active user && ge32 (Balance user) minimumBalance in
  bQualifies.

Definition SumActiveBalances (repository : IUserRepository) (minimumBalance : f32) : f32 :=
  let accumulatedBalance := zero32 in
  ForEach repository
    (fun user accumulatedBalance =>
       if Qualifies user minimumBalance
       then add32 accumulatedBalance (Balance user)
       else accumulatedBalance)
    accumulatedBalance.

(** The flat-array view holding the same values as a record sequence:
    equal ids and balances at each index, and an activity byte that is
    nonzero exactly when the record is active. *)
Definition same_values (users : list User) (usersView : UsersView) : Prop :=
  Count usersView = length users /\
  Ids usersView = map Id users /\
  Balances usersView = map Balance users /\
  map byte_true (view_flags usersView) = map Active users.
End Repository.
End Repository.

(** ** IEEE 754 arithmetic: binary32 and binary64, round to nearest even *)

Module IEEE.
Definition prec32 : Z := 24.
Definition emax32 : Z := 128.
Definition prec64 : Z := 53.
Definition emax64 : Z := 1024.

Definition pzero : spec_float := S754_zero false.
Definition nzero : spec_float := S754_zero true.
(** 1.0f is 2^23 * 2^-23. *)
Definition one : spec_float := S754_finite false 8388608 (-23).

(** The 32 bits of a binary32 value (a NaN as the default quiet NaN). *)
Definition bits_of_b32 (x : spec_float) : Z :=
  match x with
  | S754_zero s => if s then 0x80000000 else 0
  | S754_infinity s => (if s then 0x80000000 else 0) + 0x7F800000
  | S754_nan => 0x7FC00000
  | S754_finite s m e =>
      (if s then 0x80000000 else 0) +
      (if Zpos m <? 0x800000 then Zpos m
       else (e + 150) * 0x800000 + (Zpos m - 0x800000))
  end%Z.

Definition b32_of_bits (z : Z) : spec_float :=
  (let s := Z.testbit z 31 in
   let E := Z.land (Z.shiftr z 23) 0xFF in
   let f := Z.land z 0x7FFFFF in
   if E =? 0 then
     match f with Zpos m => S754_finite s m (-149) | _ => S754_zero s end
   else if E =? 255 then
     if f =? 0 then S754_infinity s else S754_nan
   else
     match f + 0x800000 with
     | Zpos m => S754_finite s m (E - 150)
     | _ => S754_nan
     end)%Z.

(** Conversion between formats (and from integers): the value, rounded
    to the target format. *)
Definition convert (prec emax : Z) (x : spec_float) : spec_float :=
  match x with
  | S754_finite s m e => binary_normalize prec emax (cond_Zopp s (Zpos m)) e s
  | _ => x
  end.

(** [a >= b], false when either is a NaN. *)
Definition ge (a b : spec_float) : bool := SFleb b a.

(** MINPS: the first operand if it is less than the second, else the
    second (so the second when either is a NaN or both are zero). *)
Definition minps (a b : spec_float) : spec_float := if SFltb a b then a else b.

(** CMPPS with predicate GE_OQ: all ones when ordered and [a >= b]. *)
Definition cmpps_ge_oq (a b : spec_float) : Z := (if ge a b then 0xFFFFFFFF else 0)%Z.

(** ANDPS on one lane. *)
Definition andps (m : Z) (x : spec_float) : spec_float :=
  b32_of_bits (Z.land m (bits_of_b32 x)).

Definition arith : Arith := {|
  f32 := spec_float;
  f64 := spec_float;
  mask32 := Z;
  zero32 := pzero;
  one32 := one;
  add32 := SFadd prec32 emax32;
  mul32 := SFmul prec32 emax32;
  ge32 := ge;
  cvtepi32_ps := fun z => binary_normalize prec32 emax32 z 0 false;
  min_ps := minps;
  cmp_ge_oq := cmpps_ge_oq;
  and_ps := andps;
  zero64 := pzero;
  add64 := SFadd prec64 emax64;
  cvtps_pd := convert prec64 emax64;
  cvtpd_ps := convert prec32 emax32
|}.

(** A float of the source is a binary32 datum. *)
Definition is_b32 (x : spec_float) : bool := valid_binary prec32 emax32 x.

Definition is_finite (x : spec_float) : bool :=
  match x with
  | S754_zero _ | S754_finite _ _ _ => true
  | _ => false
  end.

(** A finite value whose exponent is not below the least exponent of the
    format ([emin]); every value an operation returns is such. *)
Definition expo_ok (prec emax : Z) (x : spec_float) : Prop :=
  match x with
  | S754_finite _ _ e => (SpecFloat.emin prec emax <= e)%Z
  | _ => True
  end.

(** Anything but the negative zero. *)
Definition not_nzero (x : spec_float) : Prop := x <> S754_zero true.

(** What the accumulators of the kernels are at all times. *)
Definition good (prec emax : Z) (x : spec_float) : Prop :=
  not_nzero x /\ expo_ok prec emax x.
End IEEE.

(** ** Exact arithmetic: the rationals *)

Module Exact.
Definition arith : Arith := {|
  f32 := Qc;
  f64 := Qc;
  mask32 := bool;
  zero32 := 0%Qc;
  one32 := 1%Qc;
  add32 := Qcplus;
  mul32 := Qcmult;
  ge32 := fun a b => Qle_bool b a;
  cvtepi32_ps := fun z => Q2Qc (inject_Z z);
  min_ps := fun a b => if negb (Qle_bool b a) then a else b;
  cmp_ge_oq := fun a b => Qle_bool b a;
  and_ps := fun m x => if m then x else 0%Qc;
  zero64 := 0%Qc;
  add64 := Qcplus;
  cvtps_pd := fun x => x;
  cvtpd_ps := fun x => x
|}.
End Exact.

(** ** Specification-side definitions *)

(** The laws of the interface the kernels' predicate construction rests
    on: clamping a widened activity byte gives 1 for a nonzero byte and 0
    for a zero one, and and-ing a compare mask with 0 or 1 keeps the
    value exactly where the comparison holds. *)
Class ArithLaws (AR : Arith) : Prop := {
  active_clamp : forall a : byte,
    min_ps (cvtepi32_ps (cvtepu8_epi32 a)) one32
    = if byte_true a then one32 else zero32;
  and_cmp_one : forall b t : f32,
    and_ps (cmp_ge_oq b t) one32 = if ge32 b t then one32 else zero32;
  and_cmp_zero : forall b t : f32,
    and_ps (cmp_ge_oq b t) zero32 = zero32
}.

(** The indices the main loop of a kernel of width [w] covers, group by
    group, and the indices its tail loop covers. *)
Definition main_indices (w count : nat) : list nat :=
  flat_map (fun g => seq g w) (counters 0 w (count / w)).
Definition tail_indices (w count : nat) : list nat :=
  seq (count / w * w) (count - count / w * w).

Section SpecSide.
Context {AR : Arith}.

(** The arrays have [Count] elements each. *)
Definition wf_view (v : UsersView) : Prop :=
  length (Ids v) = Count v /\
  length (Balances v) = Count v /\
  length (Active v) = Count v.

(** Element [i] qualifies: active and balance at least the threshold. *)
Definition qualifies (v : UsersView) (t : f32) (i : nat) : bool :=
  byte_true (rd (Active v) i x00) && ge32 (rd (Balances v) i zero32) t.

(** The 0/1 factor of element [i]. *)
Definition take_value (v : UsersView) (t : f32) (i : nat) : f32 :=
  if qualifies v t i then one32 else zero32.

(** The factor one vector lane computes from an activity byte [a], a
    balance [b] and the threshold [t] (the lane-wise steps of [contrib8]
    before the multiplication). *)
Definition vector_take (a : byte) (b t : f32) : f32 :=
  and_ps (cmp_ge_oq b t) (min_ps (cvtepi32_ps (cvtepu8_epi32 a)) one32).

(** The product the scalar loop and the vector lanes add for element [i]. *)
Definition contribution (v : UsersView) (t : f32) (i : nat) : f32 :=
  mul32 (rd (Balances v) i zero32) (take_value v t i).

(** The balances of the qualifying elements, in index order. *)
Definition qualifying_balances (v : UsersView) (t : f32) : list f32 :=
  map (fun i => rd (Balances v) i zero32)
      (filter (qualifies v t) (seq 0 (Count v))).

(** The sum the scalar loop computes over a list of indices, from [acc]. *)
Definition scalar_sum (v : UsersView) (t : f32) (l : list nat) (acc : f32) : f32 :=
  fold_left (fun acc i => add32 acc (contribution v t i)) l acc.

(** A view with its activity bytes replaced. *)
Definition with_flags (v : UsersView) (flags : list byte) : UsersView :=
  {| Ids := Ids v; Balances := Balances v; Active := flags; Count := Count v |}.

(** The three arrays rearranged by the same index list [p]:
    position [k] of the result holds element [p[k]]. *)
Definition permute_view (p : list nat) (v : UsersView) : UsersView :=
  {| Ids := map (fun j => rd (Ids v) j 0%Z) p;
     Balances := map (fun j => rd (Balances v) j zero32) p;
     Active := map (fun j => rd (Active v) j x00) p;
     Count := Count v |}.
End SpecSide.

(** ** The reducers as the specification words them *)

Section Selection.
Context {AR : Arith}.

(** What the specification has element [i] do to an accumulator: add its
    balance (as it is, or widened to the accumulator's type) when its
    activity byte is nonzero and its balance reaches the threshold, and
    nothing otherwise. *)
Definition adds_qualifying {A : Type} (add : A -> A -> A) (widen : f32 -> A)
    (v : UsersView) (t : f32) (acc : A) (i : nat) : A :=
  if qualifies v t i then add acc (widen (rd (Balances v) i zero32)) else acc.
End Selection.

(** The indices lane [j] of a main loop of width [w] goes through, one
    per iteration. *)
Definition lane_run (w count j : nat) : list nat :=
  map (fun g => (g + j)%nat) (counters 0 w (count / w)).

(** The sum of a list of rationals. *)
Definition Qcsum (l : list Qc) : Qc := fold_right Qcplus 0%Qc l.


(** The sum of the lanes of an accumulator register, in exact arithmetic. *)
Definition total256d (acc : m256d Qc) : Qc := Qcsum (m256d_lanes acc).
Definition total256 (acc : m256 Qc) : Qc := Qcsum (m256_lanes acc).

(** ** Views of IEEE floats *)

(** No balance among the [Count] elements is an infinity or a NaN. *)
Definition all_finite (v : @UsersView IEEE.arith) : Prop :=
  forall i, (i < Count v)%nat ->
    IEEE.is_finite (rd (Balances v) i IEEE.pzero) = true.

(** No element qualifies. *)
Definition none_qualifies (v : @UsersView IEEE.arith) (t : spec_float) : Prop :=
  forall i, (i < Count v)%nat -> qualifies v t i = false.

(** Two products that are equal, or both a zero. *)
Definition zsim (c1 c2 : spec_float) : Prop :=
  c1 = c2 \/ exists s1 s2, c1 = S754_zero s1 /\ c2 = S754_zero s2.

(** Every record's balance is a finite binary32 number. *)
Definition all_finite_users (users : list (@Repository.User IEEE.arith)) : Prop :=
  Forall (fun u : @Repository.User IEEE.arith =>
            IEEE.is_b32 (Repository.Balance u) = true /\
            IEEE.is_finite (Repository.Balance u) = true) users.

(** ** The real value of a float, and rounding errors *)

(** The real number a float stands for (0 for infinities and NaNs). *)
Definition SF2R (x : spec_float) : R :=
  match x with
  | S754_finite s m e => (IZR (cond_Zopp s (Zpos m)) * powerRZ 2 e)%R
  | _ => 0%R
  end.

(** What a shift record says about the number [m] it was shifted from by
    [k] places: twice [m] is the record's mantissa and round bit above a
    rest [T] below the round bit, the sticky bit telling whether the rest
    is zero. *)
Definition shifted (m k : Z) (mrs : shr_record) : Prop :=
  exists T,
    (2 * m = (2 * shr_m mrs + Z.b2z (shr_r mrs)) * 2 ^ k + T
     /\ 0 <= T < 2 ^ k
     /\ (shr_s mrs = true <-> 0 < T)
     /\ 0 <= shr_m mrs)%Z.

(** The unit roundoffs of the two formats. *)
Definition u32 : R := powerRZ 2 (- IEEE.prec32).
Definition u64 : R := powerRZ 2 (- IEEE.prec64).

(** The growth of the relative error through [k] rounded additions. *)
Definition gamma (u : R) (k : nat) : R := ((1 + u) ^ k - 1)%R.

(** [a] approximates [e], a sum of terms of total magnitude [M], through
    at most [k] additions rounded to [prec] bits. *)
Definition approx (prec : Z) (k : nat) (a e M : R) : Prop :=
  (Rabs (a - e) <= gamma (powerRZ 2 (- prec)) k * M /\ Rabs e <= M)%R.

(** The float [x], if finite, is in the format and approximates [e]. *)
Definition tracks (prec emax : Z) (k : nat) (x : spec_float) (e M : R) : Prop :=
  IEEE.is_finite x = true ->
  IEEE.expo_ok prec emax x /\ approx prec k (SF2R x) e M.

(** Every balance among the [Count] elements is a finite binary32 number. *)
Definition finite_b32_view (v : @UsersView IEEE.arith) : Prop :=
  forall i, (i < Count v)%nat ->
    IEEE.is_b32 (rd (Balances v) i IEEE.pzero) = true
    /\ IEEE.is_finite (rd (Balances v) i IEEE.pzero) = true.

Definition Rsum (l : list R) : R := fold_right Rplus 0%R l.

(** The real number element [i] contributes to the filtered sum. *)
Definition rcontrib (v : @UsersView IEEE.arith) (t : spec_float) (i : nat) : R :=
  if qualifies v t i then SF2R (rd (Balances v) i IEEE.pzero) else 0%R.

(** The filtered sum over a list of indices, and the sum of the magnitudes
    of its terms. *)
Definition exact_sum (v : @UsersView IEEE.arith) (t : spec_float) (l : list nat) : R :=
  Rsum (map (rcontrib v t) l).
Definition magnitude (v : @UsersView IEEE.arith) (t : spec_float) (l : list nat) : R :=
  Rsum (map (fun i => Rabs (rcontrib v t i)) l).

(** The filtered sum of a view, in real numbers, and its magnitude. *)
Definition filtered_sum (v : @UsersView IEEE.arith) (t : spec_float) : R :=
  exact_sum v t (seq 0 (Count v)).
Definition filtered_magnitude (v : @UsersView IEEE.arith) (t : spec_float) : R :=
  magnitude v t (seq 0 (Count v)).

(** ** Concrete inputs *)

Module Inputs.
(** The float nearest an integer. *)
Definition f (z : Z) : spec_float := @cvtepi32_ps IEEE.arith z.

Definition view (balances : list spec_float) (flags : list byte) : @UsersView IEEE.arith :=
  @Build_UsersView IEEE.arith
    (map Z.of_nat (seq 0 (length balances))) balances flags (length balances).

(** The example of the specification: balances 100, 300, 250, 999,
    flags 1, 1, 0, 1, threshold 250. *)
Definition spec_example : @UsersView IEEE.arith :=
  view [f 100; f 300; f 250; f 999] [x01; x01; x00; x01].

(** The same with another balance in the inactive slot. *)
Definition spec_example' : @UsersView IEEE.arith :=
  view [f 100; f 300; f 777; f 999] [x01; x01; x00; x01].

Definition pinf : spec_float := S754_infinity false.
Definition ninf : spec_float := S754_infinity true.

(** One inactive element whose balance is +infinity. *)
Definition inf_inactive : @UsersView IEEE.arith := view [pinf] [x00].

(** One active element whose balance is -infinity. *)
Definition ninf_active : @UsersView IEEE.arith := view [ninf] [x01].

(** The record sequence holding the values of [spec_example]. *)
Definition spec_example_users : list (@Repository.User IEEE.arith) :=
  [@Repository.Build_User IEEE.arith 0%Z (f 100) true;
   @Repository.Build_User IEEE.arith 1%Z (f 300) true;
   @Repository.Build_User IEEE.arith 2%Z (f 250) false;
   @Repository.Build_User IEEE.arith 3%Z (f 999) true].

(** The record sequence holding the values of [inf_inactive]. *)
Definition inf_inactive_users : list (@Repository.User IEEE.arith) :=
  [@Repository.Build_User IEEE.arith 0%Z pinf false].

(** Nine (resp. seventeen) inactive elements, the first +infinity, and the
    exchange of the first with the last. *)
Definition inf_first (n : nat) : @UsersView IEEE.arith :=
  view (pinf :: repeat IEEE.pzero n) (repeat x00 (Datatypes.S n)).
Definition swap_first_last (n : nat) : list nat :=
  n :: seq 1 (n - 1) ++ [0%nat].

(** The same with the infinity last, in the tail of the vector kernels. *)
Definition inf_last (n : nat) : @UsersView IEEE.arith :=
  view (repeat IEEE.pzero n ++ [pinf]) (repeat x00 (Datatypes.S n)).

(** 1.0 and 2^-24, both active: their sum needs 25 bits. *)
Definition one_plus_tiny : @UsersView IEEE.arith :=
  view [IEEE.one; S754_finite false 8388608 (-47)] [x01; x01].

(** The example of the specification, in exact arithmetic. *)
Definition q (z : Z) : Qc := Q2Qc (inject_Z z).
Definition exact_example : @UsersView Exact.arith :=
  @Build_UsersView Exact.arith [0; 1; 2; 3]%Z [q 100; q 300; q 250; q 999]
    [x01; x01; x00; x01] 4.

Definition gcc_avx2 : Build :=
  {| AVX2_defined := true; COMPILER_CLANG := false; COMPILER_GCC := true |}.
Definition no_avx2 : Build :=
  {| AVX2_defined := false; COMPILER_CLANG := false; COMPILER_GCC := true |}.
End Inputs.
(** ** More concrete inputs *)

Module Samples.
(** The example of the specification followed by an active infinite
    balance past [Count], and with other ids. *)
Definition spec_example_padded : @UsersView IEEE.arith :=
  @Build_UsersView IEEE.arith [7; 7; 7; 7; 7]%Z
    [Inputs.f 100; Inputs.f 300; Inputs.f 250; Inputs.f 999; Inputs.pinf]
    [x01; x01; x00; x01; x01] 4.

(** Two records of the same id. *)
Definition twins : list (@Repository.User IEEE.arith) :=
  [@Repository.Build_User IEEE.arith 5%Z (Inputs.f 100) true;
   @Repository.Build_User IEEE.arith 5%Z (Inputs.f 300) false].

(** The example of the specification as records, in exact arithmetic. *)
Definition exact_users : list (@Repository.User Exact.arith) :=
  [@Repository.Build_User Exact.arith 0%Z (Inputs.q 100) true;
   @Repository.Build_User Exact.arith 1%Z (Inputs.q 300) true;
   @Repository.Build_User Exact.arith 2%Z (Inputs.q 250) false;
   @Repository.Build_User Exact.arith 3%Z (Inputs.q 999) true].

(** A world that is its clock: reading the clock takes one tick, the
    timed callable five; a tick is a second. *)
Definition ticking_now (w : Z) : Z * Z := (w, (w + 1)%Z).
Definition five_ticks (w : Z) : spec_float * Z := (IEEE.pzero, (w + 5)%Z).
Definition tick_seconds (d : Z) : spec_float :=
  binary_normalize IEEE.prec64 IEEE.emax64 d 0 false.

(** An engine that counts its draws: the balances drawn cycle through
    100, 300, 250, 999 by the number of the draw, the flags are true on
    even draws. *)
Definition counting_balance (e : nat) : spec_float * nat :=
  (nth (e mod 4) [Inputs.f 100; Inputs.f 300; Inputs.f 250; Inputs.f 999] (Inputs.f 0),
   Datatypes.S e).
Definition counting_active (e : nat) : bool * nat := (Nat.even e, Datatypes.S e).

(** Nineteen elements, so that the main loop of either vector kernel runs
    (two groups of 8, one of 16) and leaves a tail of three; the nonzero
    activity bytes are not all 1. *)
Definition nineteen : @UsersView IEEE.arith :=
  Inputs.view
    (map Inputs.f [100; 300; 250; 999; 120; 400; 260; 50; 700; 251;
                   249; 800; 10; 333; 500; 90; 600; 275; 1000]%Z)
    [x01; x01; x00; x01; x02; xff; x00; x07; x01; x80;
     x01; x00; x01; x03; x01; x01; x00; x10; x01].

(** The activity bytes of [nineteen] with every nonzero byte set to 1. *)
Definition nineteen_flags01 : list byte :=
  [x01; x01; x00; x01; x01; x01; x00; x01; x01; x01;
   x01; x00; x01; x01; x01; x01; x00; x01; x01].
End Samples.

(** ** NaNs and infinities in the data *)

(** The product the scalar loop and the vector lanes add for element [i]
    is a NaN: the balance is a NaN, or it is an infinity and the element
    does not qualify (the infinity is then multiplied by 0.0f). *)
Definition nan_product (v : @UsersView IEEE.arith) (t : spec_float) (i : nat) : Prop :=
  rd (Balances v) i IEEE.pzero = S754_nan
  \/ ((exists s, rd (Balances v) i IEEE.pzero = S754_infinity s)
      /\ qualifies v t i = false).

(** ** lib.hpp: the timing harness *)

Section Timing.
Context {AR : Arith}.

(** The world the timed callable runs in: the clock, and whatever the
    callable touches.  [now] is [std::chrono::steady_clock::now()], in
    ticks of the clock; [seconds] is
    [std::chrono::duration<double>(d).count()]. *)
Variable World : Type.
Variable now : World -> Z * World.
Variable seconds : Z -> f64.

Definition MeasureExecutionTime (iterations : nat) (f : World -> f32 * World)
    (w : World) : f64 * World :=
  let '(start, w) := now w in
  let sink := zero32 in
  let '(_, (sink, w)) :=
    for_loop iterations 1 iterations
      (fun (i : nat) (st : f32 * World) => f (snd st)) 0%nat (sink, w) in
  let '(end_, w) := now w in
  let time := seconds (end_ - start)%Z in
  (time, w).
End Timing.

(** ** The data the four [main] functions generate *)

(** [static_cast<std::int32_t>(i)] of a [size_t]: the low 32 bits, as a
    signed number. *)
Definition static_cast_int32 (i : nat) : Z :=
  let z := (Z.of_nat i mod 4294967296)%Z in
  if (z <? 2147483648)%Z then z else (z - 4294967296)%Z.

(** [p[i] = x] on a [std::vector].  Writing past the end is undefined in
    the source; here it leaves the vector as it is. *)
Fixpoint store {A : Type} (p : list A) (i : nat) (x : A) : list A :=
  match p, i with
  | [], _ => []
  | _ :: p', O => x :: p'
  | a :: p', Datatypes.S i' => a :: store p' i' x
  end.

Section Generation.
Context {AR : Arith}.

(** The state of the [std::mt19937] engine, and a draw from each of the
    two distributions: a balance from
    [std::uniform_real_distribution<float>{0.0f, 1000.0f}] and a flag from
    [std::bernoulli_distribution{0.6}]. *)
Variable Engine : Type.
Variable balanceDistribution : Engine -> f32 * Engine.
Variable activeDistribution : Engine -> bool * Engine.

(** The three vectors of the flat-array binaries. *)
Record Arrays := {
  userIds : list Z;
  userBalances : list f32;
  userActiveFlags : list byte
}.

(** The body of the generating loop of [bench-dod.cpp],
    [bench-dod-avx2-double.cpp] and [bench-dod-znver2.cpp]. *)
Definition fill_body (i : nat) (st : Arrays * Engine) : Arrays * Engine :=
  let '(arrays, randomEngine) := st in
  let ids := store (userIds arrays) i (static_cast_int32 i) in
  let '(balance, randomEngine) := balanceDistribution randomEngine in
  let balances := store (userBalances arrays) i balance in
  let '(active, randomEngine) := activeDistribution randomEngine in
  let flags := store (userActiveFlags arrays) i (if active then x01 else x00) in
  ({| userIds := ids; userBalances := balances; userActiveFlags := flags |},
   randomEngine).

(** The three vectors, value-initialised with [elementsCount] elements and
    then filled, and the view [main] builds over them. *)
Definition generate_arrays (elementsCount : nat) (randomEngine : Engine)
    : Arrays * Engine :=
  let arrays :=
    {| userIds := repeat 0%Z elementsCount;
       userBalances := repeat zero32 elementsCount;
       userActiveFlags := repeat x00 elementsCount |} in
  snd (for_loop elementsCount 1 elementsCount fill_body 0%nat (arrays, randomEngine)).

Definition make_view (arrays : Arrays) (elementsCount : nat) : UsersView :=
  {| Ids := userIds arrays;
     Balances := userBalances arrays;
     Active := userActiveFlags arrays;
     Count := elementsCount |}.

(** The generating loop of [bench-repository.cpp]: the members of the
    braced initialiser are evaluated in order, the balance before the
    flag, and the record is appended. *)
Definition emplace_body (i : nat) (st : list Repository.User * Engine)
    : list Repository.User * Engine :=
  let '(users, randomEngine) := st in
  let '(balance, randomEngine) := balanceDistribution randomEngine in
  let '(active, randomEngine) := activeDistribution randomEngine in
  let user :=
    {| Repository.Id := static_cast_int32 i;
       Repository.Balance := balance;
       Repository.Active := active |} in
  (users ++ [user], randomEngine).

Definition generate_users (elementsCount : nat) (randomEngine : Engine)
    : list Repository.User * Engine :=
  snd (for_loop elementsCount 1 elementsCount emplace_body 0%nat ([], randomEngine)).

(** The warm-up loop of every [main]: the checksum it prints is the
    result of the last warm-up call, and its initial value if there is
    none. *)
Definition warm_up {T : Type} (checksum : T) (warmupIterations : nat)
    (reduce : unit -> T) : T :=
  snd (for_loop warmupIterations 1 warmupIterations
         (fun (i : nat) (checksum : T) => reduce tt) 0%nat checksum).

(** The checksum each [main] prints.  Those of [bench-dod.cpp],
    [bench-dod-znver2.cpp] and [bench-repository.cpp] are [float]; that of
    [bench-dod-avx2-double.cpp] is a [double] assigned from the [float]
    the dispatcher returns. *)
Definition dod_checksum (elementsCount : nat) (minimumBalance : f32)
    (warmupIterations : nat) (randomEngine : Engine) : f32 :=
  let '(arrays, _) := generate_arrays elementsCount randomEngine in
  let usersView := make_view arrays elementsCount in
  warm_up zero32 warmupIterations
    (fun _ => Dod.SumActiveBalances usersView minimumBalance).

Definition avx2_double_checksum (build : Build) (cpu_supports_avx2 : bool)
    (elementsCount : nat) (minimumBalance : f32)
    (warmupIterations : nat) (randomEngine : Engine) : f64 :=
  let '(arrays, _) := generate_arrays elementsCount randomEngine in
  let usersView := make_view arrays elementsCount in
  warm_up zero64 warmupIterations
    (fun _ => cvtps_pd (Avx2Double.SumActiveBalances build cpu_supports_avx2
                          usersView minimumBalance)).

Definition znver2_checksum (build : Build) (cpu_supports_avx2 : bool)
    (elementsCount : nat) (minimumBalance : f32)
    (warmupIterations : nat) (randomEngine : Engine) : f32 :=
  let '(arrays, _) := generate_arrays elementsCount randomEngine in
  let usersView := make_view arrays elementsCount in
  warm_up zero32 warmupIterations
    (fun _ => Znver2.SumActiveBalances build cpu_supports_avx2
                usersView minimumBalance).

Definition repository_checksum (elementsCount : nat) (minimumBalance : f32)
    (warmupIterations : nat) (randomEngine : Engine) : f32 :=
  let '(users, _) := generate_users elementsCount randomEngine in
  let repository := Repository.VectorUserRepository users in
  warm_up zero32 warmupIterations
    (fun _ => Repository.SumActiveBalances repository minimumBalance).
End Generation.

(** ** Results that stay finite *)

(** The float [x] tracks [e] as in [tracks], its terms have total
    magnitude [M], and it is finite as soon as [M], grown by [k]
    roundings, stays below 2^(emax - prec - 1). *)
Definition safe (prec emax : Z) (k : nat) (x : spec_float) (e M : R) : Prop :=
  (0 <= M)%R
  /\ tracks prec emax k x e M
  /\ (((1 + powerRZ 2 (- prec)) ^ k * M < powerRZ 2 (emax - prec - 1))%R ->
      IEEE.is_finite x = true).

(** ** Sums that are exact *)

(** The float [x] is the integer [e], a sum of terms of total magnitude
    [M], as soon as [M] is below 2^prec. *)
Definition exactly (prec emax : Z) (x : spec_float) (e M : R) : Prop :=
  (Rabs e <= M)%R
  /\ (exists n : Z, e = IZR n)
  /\ ((M < powerRZ 2 prec)%R ->
      IEEE.is_finite x = true /\ IEEE.expo_ok prec emax x /\ SF2R x = e).

(** Every balance among the [Count] elements is an integer. *)
Definition integer_view (v : @UsersView IEEE.arith) : Prop :=
  forall i, (i < Count v)%nat ->
    exists z : Z, SF2R (rd (Balances v) i IEEE.pzero) = IZR z.

(** A finite float in the one representation its format gives it: the
    exponent is the one the format assigns to a mantissa of that many
    digits. *)
Definition canonical (prec emax : Z) (x : spec_float) : Prop :=
  match x with
  | S754_finite _ m e => e = SpecFloat.fexp prec emax (Zpos (digits2_pos m) + e)
  | _ => True
  end.

(** Canonical, with an exponent of the format; the step count and the
    real values of the reducers' invariants play no part. *)
Definition formed (prec emax : Z) (k : nat) (x : spec_float) (e M : R) : Prop :=
  canonical prec emax x /\ IEEE.expo_ok prec emax x.
Unset Implicit Arguments.

(** ** Tactics for concrete inputs *)

(** Facts about a concrete view, index by index. *)
Ltac index_case :=
  first [ reflexivity
        | exfalso; cbv in *; first [discriminate | lia] ].
Ltac by_index i :=
  do 20 (try (destruct i as [|i]; [index_case|])); index_case.

(** [Permutation (a :: l) l'] for concrete lists: find [a] in [l']. *)
Ltac perm_step :=
  lazymatch goal with
  | |- Permutation [] [] => apply perm_nil
  | |- Permutation (?a :: ?l) ?l' =>
      let rec go pre post :=
        lazymatch post with
        | a :: ?rest => apply (@Permutation_cons_app _ l pre rest a)
        | ?b :: ?rest => let pre' := eval cbv [app] in (pre ++ [b]) in go pre' rest
        end in
      go (@nil nat) l'; cbv [app]
  end.
Ltac perm := cbv; repeat perm_step.

(** ** The loops as folds over their counters *)

Lemma for_loop_counters : forall (S : Type) (body : nat -> S -> S) step bound n fuel i st,
  (n <= fuel)%nat ->
  (forall j, j < n -> i + j * step < bound)%nat ->
  (bound <= i + n * step)%nat ->
  for_loop fuel step bound body i st
  = ((i + n * step)%nat, fold_left (fun s k => body k s) (counters i step n) st).
Proof.
  intros S body step bound n; induction n as [|n IH]; intros fuel i st Hfuel Hin Hout.
  - simpl in Hout. rewrite Nat.add_0_r in *.
    assert (Hge : (i <? bound)%nat = false) by (apply Nat.ltb_ge; lia).
    destruct fuel; simpl; [reflexivity | rewrite Hge; reflexivity].
  - destruct fuel as [|fuel]; [lia|].
    simpl for_loop.
    assert (Hlt : (i <? bound)%nat = true).
    { apply Nat.ltb_lt. specialize (Hin 0%nat ltac:(lia)). simpl in Hin. lia. }
    rewrite Hlt.
    rewrite (IH fuel (i + step)%nat (body i st)).
    + f_equal; [simpl; lia|].
      unfold counters. simpl. rewrite Nat.add_0_r. f_equal.
      rewrite <- seq_shift, map_map.
      apply map_ext. intros j. simpl. lia.
    + lia.
    + intros j Hj. specialize (Hin (Datatypes.S j) ltac:(lia)). simpl in Hin. lia.
    + simpl in Hout. lia.
Qed.

Lemma counters_step1 : forall i n, counters i 1 n = seq i n.
Proof.
  intros i n. unfold counters.
  assert (H : forall k, map (fun j => i + j * 1)%nat (seq k n) = seq (i + k) n).
  { induction n as [|n IH]; intros k; simpl; [reflexivity|].
    f_equal; [lia|]. rewrite IH. f_equal. lia. }
  rewrite H. f_equal. lia.
Qed.

(** A [for (; i < count; ++i)] loop entered with [i <= count]. *)
Lemma for_loop_unit_step : forall (S : Type) (body : nat -> S -> S) count i st,
  (i <= count)%nat ->
  for_loop count 1 count body i st
  = (count, fold_left (fun s k => body k s) (seq i (count - i)) st).
Proof.
  intros S body count i st Hi.
  rewrite (@for_loop_counters S body 1 count (count - i)).
  - rewrite counters_step1. f_equal. lia.
  - lia.
  - intros j Hj. lia.
  - lia.
Qed.

(** The main loop of a kernel of width [w]: [count / w] groups. *)
Lemma for_loop_groups : forall (S : Type) (body : nat -> S -> S) w count st,
  (0 < w)%nat ->
  for_loop (count / w * w) w (count / w * w) body 0 st
  = ((count / w * w)%nat,
     fold_left (fun s k => body k s) (counters 0 w (count / w)) st).
Proof.
  intros S body w count st Hw.
  rewrite (@for_loop_counters S body w (count / w * w) (count / w)).
  - reflexivity.
  - nia.
  - intros j Hj. nia.
  - lia.
Qed.

(** ** The kernels as folds *)

Section KernelFolds.
Context {AR : Arith}.

Lemma Scalar_fold : forall v t,
SumActiveBalancesScalar v t = scalar_sum v t (seq 0 (Count v)) zero32.
Proof.
intros v t. unfold SumActiveBalancesScalar.
rewrite for_loop_unit_step by lia.
rewrite Nat.sub_0_r. reflexivity.
Qed.

Lemma Dod_is_Scalar : forall v t,
Dod.SumActiveBalances v t = SumActiveBalancesScalar v t.
Proof. reflexivity. Qed.

Lemma Avx2Double_fold : forall v t,
  Avx2Double.SumActiveBalancesAvx2 v t
  = Avx2Double.tail_loop v t
      (Avx2Double.horizontal_sum (fst (Avx2Double.main_loop v t))
                                 (snd (Avx2Double.main_loop v t))).
Proof.
  intros v t. unfold Avx2Double.SumActiveBalancesAvx2, Avx2Double.main_loop.
  rewrite for_loop_groups by lia.
  cbv zeta.
  destruct (fold_left _ (counters 0 8 (Count v / 8)) _) as [acc0 acc1].
  rewrite for_loop_unit_step by (pose proof (Nat.Div0.mul_div_le (Count v) 8); lia).
  reflexivity.
Qed.

Lemma Znver2_fold : forall v t,
  Znver2.SumActiveBalancesAvx2 v t
  = Znver2.tail_loop v t
      (Znver2.horizontal_sum (fst (Znver2.main_loop v t))
                             (snd (Znver2.main_loop v t))).
Proof.
  intros v t. unfold Znver2.SumActiveBalancesAvx2, Znver2.main_loop.
  rewrite for_loop_groups by lia.
  cbv zeta.
  destruct (fold_left _ (counters 0 16 (Count v / 16)) _) as [acc0 acc1].
  rewrite for_loop_unit_step by (pose proof (Nat.Div0.mul_div_le (Count v) 16); lia).
  reflexivity.
Qed.

Context {LAWS : ArithLaws AR}.

(** One lane of the vector predicate is the scalar 0/1 factor. *)
Lemma take_lane : forall (a : byte) (b t : f32),
vector_take a b t = if byte_true a && ge32 b t then one32 else zero32.
Proof.
intros a b t. unfold vector_take. rewrite active_clamp.
destruct (byte_true a); simpl.
- apply and_cmp_one.
- apply and_cmp_zero.
Qed.

(** The eight lanes of a group hold the contributions of its eight
  elements. *)
Lemma contrib8_lanes : forall v t i,
contrib8 (Balances v) (Active v) (m256_set1 t) (m256_set1 one32) i
= m256_map (contribution v t) (lane_indices i).
Proof.
intros v t i.
unfold contrib8, mm256_cvtepu8_epi32, mm_loadl_epi64, load8, lane_indices,
  m256_map2, m256_map, m128_map2, m128_map, m256_set1, m128_set1; simpl.
fold (vector_take (rd (Active v) i x00) (rd (Balances v) i zero32) t).
fold (vector_take (rd (Active v) (i + 1) x00) (rd (Balances v) (i + 1) zero32) t).
fold (vector_take (rd (Active v) (i + 2) x00) (rd (Balances v) (i + 2) zero32) t).
fold (vector_take (rd (Active v) (i + 3) x00) (rd (Balances v) (i + 3) zero32) t).
fold (vector_take (rd (Active v) (i + 4) x00) (rd (Balances v) (i + 4) zero32) t).
fold (vector_take (rd (Active v) (i + 5) x00) (rd (Balances v) (i + 5) zero32) t).
fold (vector_take (rd (Active v) (i + 6) x00) (rd (Balances v) (i + 6) zero32) t).
fold (vector_take (rd (Active v) (i + 7) x00) (rd (Balances v) (i + 7) zero32) t).
rewrite !take_lane. reflexivity.
Qed.
End KernelFolds.

(** ** Both arithmetics satisfy the laws *)

Lemma IEEE_laws : ArithLaws IEEE.arith.
Proof.
  constructor.
  - intros a. destruct a; vm_compute; reflexivity.
  - intros b t. simpl. unfold IEEE.cmpps_ge_oq.
    destruct (IEEE.ge b t); vm_compute; reflexivity.
  - intros b t. simpl. unfold IEEE.cmpps_ge_oq.
    destruct (IEEE.ge b t); vm_compute; reflexivity.
Qed.

Lemma Exact_laws : ArithLaws Exact.arith.
Proof.
  constructor.
  - intros a. destruct a; reflexivity.
  - intros b t. simpl. destruct (Qle_bool t b); reflexivity.
  - intros b t. simpl. destruct (Qle_bool t b); reflexivity.
Qed.

(** ** Dispatch *)

(** C3: when the vector path is unavailable (the binary was built without
    AVX2, or by a compiler for which the run-time query is not compiled,
    or the CPU reports no AVX2), each dispatcher returns the very value of
    the scalar reducer, in any arithmetic. *)
Theorem dispatch_unavailable_returns_scalar :
  forall (AR : Arith) (build : Build) (cpu_supports_avx2 : bool)
         (usersView : UsersView) (minimumBalance : f32),
    AVX2_defined build = false \/
    COMPILER_CLANG build || COMPILER_GCC build = false \/
    cpu_supports_avx2 = false ->
    Avx2Double.SumActiveBalances build cpu_supports_avx2 usersView minimumBalance
    = Avx2Double.SumActiveBalancesScalar usersView minimumBalance
    /\ Znver2.SumActiveBalances build cpu_supports_avx2 usersView minimumBalance
       = Znver2.SumActiveBalancesScalar usersView minimumBalance.
Proof.
  intros AR build cpu v t H.
  unfold Avx2Double.SumActiveBalances, Znver2.SumActiveBalances.
  destruct (AVX2_defined build); [|split; reflexivity].
  destruct H as [H | [H | H]]; [discriminate | rewrite H | rewrite H].
  - split; reflexivity.
  - rewrite andb_false_r. split; reflexivity.
Qed.

Lemma dispatch_unavailable_returns_scalar_witness :
  Avx2Double.SumActiveBalances Inputs.gcc_avx2 false Inputs.spec_example (Inputs.f 250)
  = Avx2Double.SumActiveBalancesScalar Inputs.spec_example (Inputs.f 250)
  /\ Znver2.SumActiveBalances Inputs.gcc_avx2 false Inputs.spec_example (Inputs.f 250)
     = Znver2.SumActiveBalancesScalar Inputs.spec_example (Inputs.f 250).
Proof.
  apply (@dispatch_unavailable_returns_scalar IEEE.arith
           Inputs.gcc_avx2 false Inputs.spec_example (Inputs.f 250)).
  right; right; reflexivity.
Defined.

(** ** Point lookup in the repository *)

(** C9: [FindById] returns the first record, in storage order, whose [Id]
    is the one asked for, and nothing when no record has it. *)
Theorem FindById_first_match :
  forall (AR : Arith) (users : list Repository.User) (id : Z),
    match Repository.FindById (Repository.VectorUserRepository users) id with
    | Some user =>
        exists before after,
          users = before ++ user :: after /\
          Repository.Id user = id /\
          Forall (fun u => Repository.Id u <> id) before
    | None => Forall (fun u => Repository.Id u <> id) users
    end.
Proof.
  intros AR users id. simpl.
  induction users as [|u rest IH]; simpl.
  - constructor.
  - destruct (Z.eqb_spec (Repository.Id u) id) as [Heq | Hne].
    + exists [], rest. repeat split; [assumption | constructor].
    + destruct (Repository.VectorUserRepository_FindById rest id) as [user|].
      * destruct IH as (before & after & Hsplit & Hid & Hbefore).
        exists (u :: before), after. rewrite Hsplit.
        repeat split; [assumption | constructor; assumption].
      * constructor; assumption.
Qed.

(** ** Saturation of the activity byte *)

Lemma fold_left_ext_in : forall (A B : Type) (f g : A -> B -> A) (l : list B) (a : A),
  (forall a x, In x l -> f a x = g a x) ->
  fold_left f l a = fold_left g l a.
Proof.
  intros A B f g l; induction l as [|x l IH]; intros a H; simpl; [reflexivity|].
  rewrite H by (left; reflexivity).
  apply IH. intros a' y Hy. apply H. right; assumption.
Qed.

Section Saturation.
Context {AR : Arith} {LAWS : ArithLaws AR}.
Variable v : UsersView.
Variable flags : list byte.
Hypothesis same_truth :
forall i, byte_true (rd flags i x00) = byte_true (rd (Active v) i x00).

Lemma qualifies_with_flags : forall t i,
qualifies (with_flags v flags) t i = qualifies v t i.
Proof. intros t i. unfold qualifies. simpl. rewrite same_truth. reflexivity. Qed.

Lemma contribution_with_flags : forall t i,
contribution (with_flags v flags) t i = contribution v t i.
Proof.
intros t i. unfold contribution, take_value.
rewrite qualifies_with_flags. reflexivity.
Qed.

Lemma contrib8_with_flags : forall t g,
contrib8 (Balances v) flags (m256_set1 t) (m256_set1 one32) g
= contrib8 (Balances v) (Active v) (m256_set1 t) (m256_set1 one32) g.
Proof.
intros t g.
rewrite (contrib8_lanes v t g).
change (contrib8 (Balances v) flags (m256_set1 t) (m256_set1 one32) g)
  with (contrib8 (Balances (with_flags v flags)) (Active (with_flags v flags))
          (m256_set1 t) (m256_set1 one32) g).
rewrite (contrib8_lanes (with_flags v flags) t g).
unfold m256_map, m128_map. simpl.
rewrite !contribution_with_flags. reflexivity.
Qed.

Lemma Scalar_with_flags : forall t,
SumActiveBalancesScalar (with_flags v flags) t = SumActiveBalancesScalar v t.
Proof.
intros t. rewrite !Scalar_fold. unfold scalar_sum. simpl.
apply fold_left_ext_in. intros a i _. rewrite contribution_with_flags. reflexivity.
Qed.

Lemma main64_with_flags : forall t,
  Avx2Double.main_loop (with_flags v flags) t = Avx2Double.main_loop v t.
Proof.
  intros t. unfold Avx2Double.main_loop. simpl.
  apply fold_left_ext_in. intros [acc0 acc1] g _. unfold Avx2Double.main_body.
  rewrite contrib8_with_flags. reflexivity.
Qed.

Lemma main32_with_flags : forall t,
  Znver2.main_loop (with_flags v flags) t = Znver2.main_loop v t.
Proof.
  intros t. unfold Znver2.main_loop. simpl.
  apply fold_left_ext_in. intros [acc0 acc1] g _. unfold Znver2.main_body.
  rewrite !contrib8_with_flags. reflexivity.
Qed.

Lemma Avx2Double_with_flags : forall t,
  Avx2Double.SumActiveBalancesAvx2 (with_flags v flags) t
  = Avx2Double.SumActiveBalancesAvx2 v t.
Proof.
  intros t. rewrite !Avx2Double_fold, main64_with_flags.
  unfold Avx2Double.tail_loop. simpl.
  apply fold_left_ext_in. intros a i _.
  unfold Avx2Double.tail_body. rewrite same_truth. reflexivity.
Qed.

Lemma Znver2_with_flags : forall t,
  Znver2.SumActiveBalancesAvx2 (with_flags v flags) t
  = Znver2.SumActiveBalancesAvx2 v t.
Proof.
  intros t. rewrite !Znver2_fold, main32_with_flags.
  unfold Znver2.tail_loop. simpl.
  apply fold_left_ext_in. intros a i _.
  unfold Znver2.tail_body. rewrite same_truth. reflexivity.
Qed.
End Saturation.

Lemma byte_true_iff_nonzero : forall a : byte, byte_true a = false <-> a = x00.
Proof.
  intros a. unfold byte_true. split.
  - intros H. apply negb_false_iff in H. apply Byte.byte_dec_bl in H. exact H.
  - intros ->. reflexivity.
Qed.

(** ** The reducers in exact arithmetic *)

Section ExactSums.
Local Existing Instance Exact.arith.
Local Open Scope Qc_scope.
Implicit Types (v : @UsersView Exact.arith) (t : Qc).

Ltac exact_arith :=
  change (@f32 Exact.arith) with Qc in *;
  change (@f64 Exact.arith) with Qc in *;
  change (@add32 Exact.arith) with Qcplus in *;
  change (@add64 Exact.arith) with Qcplus in *;
  change (@mul32 Exact.arith) with Qcmult in *;
  change (@zero32 Exact.arith) with (Q2Qc 0) in *;
  change (@zero64 Exact.arith) with (Q2Qc 0) in *;
  change (@one32 Exact.arith) with (Q2Qc 1) in *;
  change (@cvtps_pd Exact.arith) with (fun x : Qc => x) in *;
  change (@cvtpd_ps Exact.arith) with (fun x : Qc => x) in *;
  cbv beta in *.

Lemma Qcsum_cons : forall x l, Qcsum (x :: l) = x + Qcsum l.
Proof. reflexivity. Qed.

Lemma Exact_contribution : forall v t i,
  contribution v t i = if qualifies v t i then rd (Balances v) i 0 else 0.
Proof.
  intros v t i. unfold contribution, take_value.
  destruct (qualifies v t i); exact_arith; ring.
Qed.

Lemma Qcsum_app : forall l1 l2, Qcsum (l1 ++ l2) = Qcsum l1 + Qcsum l2.
Proof.
  induction l1 as [|x l1 IH]; intros l2; simpl.
  - ring.
  - rewrite IH. ring.
Qed.

Lemma Qcsum_Permutation : forall l1 l2, Permutation l1 l2 -> Qcsum l1 = Qcsum l2.
Proof.
  induction 1; simpl; try congruence; ring.
Qed.

Lemma Exact_scalar_sum : forall v t l acc,
  scalar_sum v t l acc = acc + Qcsum (map (contribution v t) l).
Proof.
  intros v t l. unfold scalar_sum.
  induction l as [|i l IH]; intros acc; simpl.
  - exact_arith. ring.
  - rewrite IH. exact_arith. ring.
Qed.

Lemma Exact_tail64 : forall v t l acc,
  fold_left (fun acc i => Avx2Double.tail_body (Balances v) (Active v) t i acc) l acc
  = acc + Qcsum (map (contribution v t) l).
Proof.
  intros v t l. induction l as [|i l IH]; intros acc;
    cbn [fold_left map].
  - exact_arith. unfold Qcsum; simpl. ring.
  - rewrite IH. rewrite Exact_contribution.
    unfold Avx2Double.tail_body, qualifies.
    destruct (byte_true _ && _); exact_arith; rewrite Qcsum_cons; ring.
Qed.

Lemma Exact_tail32 : forall v t l acc,
  fold_left (fun acc i => Znver2.tail_body (Balances v) (Active v) t i acc) l acc
  = acc + Qcsum (map (contribution v t) l).
Proof.
  intros v t l. induction l as [|i l IH]; intros acc;
    cbn [fold_left map].
  - exact_arith. unfold Qcsum; simpl. ring.
  - rewrite IH. rewrite Exact_contribution.
    unfold Znver2.tail_body, qualifies.
    destruct (byte_true _ && _); exact_arith; rewrite Qcsum_cons; ring.
Qed.

Ltac lanes :=
  cbn [m256d_map2 m128d_map2 m256_map2 m128_map2 m256_map m128_map
       dlo dhi d0 d1 lo hi x0 x1 x2 x3 m256d_lanes m256_lanes m128_lanes
       mm_unpackhi_pd mm_hadd_ps mm256_cvtps_pd lane_indices
       m256d_set1 m256_set1 m128_set1
       fold_right app map fst snd].

Lemma Exact_horizontal_sum64 : forall acc0 acc1 : m256d Qc,
  Avx2Double.horizontal_sum acc0 acc1 = total256d acc0 + total256d acc1.
Proof.
  intros [[a0 a1] [a2 a3]] [[b0 b1] [b2 b3]].
  unfold Avx2Double.horizontal_sum, total256d, Qcsum. lanes. exact_arith. ring.
Qed.

Lemma Exact_horizontal_sum32 : forall acc0 acc1 : m256 Qc,
  Znver2.horizontal_sum acc0 acc1 = total256 acc0 + total256 acc1.
Proof.
  intros [[a0 a1 a2 a3] [a4 a5 a6 a7]] [[b0 b1 b2 b3] [b4 b5 b6 b7]].
  unfold Znver2.horizontal_sum, total256, Qcsum. lanes. exact_arith. ring.
Qed.

Lemma lane_indices_seq : forall g, m256_lanes (lane_indices g) = seq g 8.
Proof.
  intros g. unfold m256_lanes, m128_lanes, lane_indices. cbn [lo hi x0 x1 x2 x3 app seq].
  repeat (f_equal; try lia).
Qed.

Lemma total256_map : forall (f : nat -> Qc) (ix : m256 nat),
  total256 (m256_map f ix) = Qcsum (map f (m256_lanes ix)).
Proof. intros f [[? ? ? ?] [? ? ? ?]]. reflexivity. Qed.

Lemma Exact_main64 : forall v t g acc0 acc1,
  let '(acc0', acc1') :=
    Avx2Double.main_body (Balances v) (Active v) (m256_set1 t) (m256_set1 one32)
      g (acc0, acc1) in
  total256d acc0' + total256d acc1'
  = total256d acc0 + total256d acc1 + Qcsum (map (contribution v t) (seq g 8)).
Proof.
  intros v t g [[a0 a1] [a2 a3]] [[b0 b1] [b2 b3]].
  unfold Avx2Double.main_body.
  rewrite (@contrib8_lanes _ Exact_laws).
  rewrite <- lane_indices_seq.
  generalize (contribution v t). intros c.
  unfold total256d, Qcsum. lanes. exact_arith. ring.
Qed.

Lemma Exact_main32 : forall v t g acc0 acc1,
  let '(acc0', acc1') :=
    Znver2.main_body (Balances v) (Active v) (m256_set1 t) (m256_set1 one32)
      g (acc0, acc1) in
  total256 acc0' + total256 acc1'
  = total256 acc0 + total256 acc1 + Qcsum (map (contribution v t) (seq g 16)).
Proof.
  intros v t g [[a0 a1 a2 a3] [a4 a5 a6 a7]] [[b0 b1 b2 b3] [b4 b5 b6 b7]].
  unfold Znver2.main_body.
  rewrite !(@contrib8_lanes _ Exact_laws).
  replace (seq g 16) with (seq g 8 ++ seq (g + 8) 8) by (rewrite <- seq_app; reflexivity).
  rewrite <- !lane_indices_seq.
  generalize (contribution v t). intros c.
  unfold total256, Qcsum. lanes. exact_arith. ring.
Qed.

Lemma flat_map_counters : forall w n,
  flat_map (fun g => seq g w) (counters 0 w n) = seq 0 (n * w).
Proof.
  intros w n. unfold counters. induction n as [|n IH]; [reflexivity|].
  rewrite seq_S, map_app, flat_map_app, IH. cbn [map flat_map Nat.add].
  rewrite app_nil_r, <- seq_app. f_equal. lia.
Qed.

Lemma Exact_groups64 : forall v t groups acc0 acc1,
  let '(acc0', acc1') :=
    fold_left
      (fun acc g => Avx2Double.main_body (Balances v) (Active v)
                      (m256_set1 t) (m256_set1 one32) g acc)
      groups (acc0, acc1) in
  total256d acc0' + total256d acc1'
  = total256d acc0 + total256d acc1
    + Qcsum (map (contribution v t) (flat_map (fun g => seq g 8) groups)).
Proof.
  intros v t groups. induction groups as [|g groups IH]; intros acc0 acc1.
  - cbn [fold_left flat_map map]. unfold Qcsum at 1. cbn [fold_right]. ring.
  - cbn [fold_left flat_map].
    pose proof (Exact_main64 v t g acc0 acc1) as Hg.
    destruct (Avx2Double.main_body _ _ _ _ g (acc0, acc1)) as [b0 b1].
    specialize (IH b0 b1).
    destruct (fold_left _ groups (b0, b1)) as [c0 c1].
    rewrite IH, Hg, map_app, Qcsum_app. ring.
Qed.

Lemma Exact_groups32 : forall v t groups acc0 acc1,
  let '(acc0', acc1') :=
    fold_left
      (fun acc g => Znver2.main_body (Balances v) (Active v)
                      (m256_set1 t) (m256_set1 one32) g acc)
      groups (acc0, acc1) in
  total256 acc0' + total256 acc1'
  = total256 acc0 + total256 acc1
    + Qcsum (map (contribution v t) (flat_map (fun g => seq g 16) groups)).
Proof.
  intros v t groups. induction groups as [|g groups IH]; intros acc0 acc1.
  - cbn [fold_left flat_map map]. unfold Qcsum at 1. cbn [fold_right]. ring.
  - cbn [fold_left flat_map].
    pose proof (Exact_main32 v t g acc0 acc1) as Hg.
    destruct (Znver2.main_body _ _ _ _ g (acc0, acc1)) as [b0 b1].
    specialize (IH b0 b1).
    destruct (fold_left _ groups (b0, b1)) as [c0 c1].
    rewrite IH, Hg, map_app, Qcsum_app. ring.
Qed.

(** The whole index range in groups of [w] and a tail. *)
Lemma seq_groups_tail : forall w count,
  seq 0 (count / w * w) ++ seq (count / w * w) (count - count / w * w) = seq 0 count.
Proof.
  intros w count. rewrite <- seq_app. f_equal.
  pose proof (Nat.Div0.mul_div_le count w). lia.
Qed.

Theorem Exact_Scalar : forall v t,
  SumActiveBalancesScalar v t = Qcsum (map (contribution v t) (seq 0 (Count v))).
Proof.
  intros v t. rewrite Scalar_fold, Exact_scalar_sum. exact_arith. ring.
Qed.

Theorem Exact_Avx2Double : forall v t,
  Avx2Double.SumActiveBalancesAvx2 v t
  = Qcsum (map (contribution v t) (seq 0 (Count v))).
Proof.
  intros v t. rewrite Avx2Double_fold.
  unfold Avx2Double.tail_loop, Avx2Double.main_loop.
  pose proof (Exact_groups64 v t (counters 0 8 (Count v / 8))
                (m256d_set1 zero64) (m256d_set1 zero64)) as Hg.
  destruct (fold_left _ (counters 0 8 (Count v / 8)) _) as [acc0 acc1].
  cbn [fst snd].
  rewrite Exact_tail64, Exact_horizontal_sum64, Hg, flat_map_counters.
  rewrite <- (seq_groups_tail 8 (Count v)).
  rewrite map_app, Qcsum_app.
  unfold total256d, Qcsum at 1 2. lanes. exact_arith. ring.
Qed.

Theorem Exact_Znver2 : forall v t,
  Znver2.SumActiveBalancesAvx2 v t
  = Qcsum (map (contribution v t) (seq 0 (Count v))).
Proof.
  intros v t. rewrite Znver2_fold.
  unfold Znver2.tail_loop, Znver2.main_loop.
  pose proof (Exact_groups32 v t (counters 0 16 (Count v / 16))
                (m256_set1 zero32) (m256_set1 zero32)) as Hg.
  destruct (fold_left _ (counters 0 16 (Count v / 16)) _) as [acc0 acc1].
  cbn [fst snd].
  rewrite Exact_tail32, Exact_horizontal_sum32, Hg, flat_map_counters.
  rewrite <- (seq_groups_tail 16 (Count v)).
  rewrite map_app, Qcsum_app.
  unfold total256, Qcsum at 1 2. lanes. exact_arith. ring.
Qed.

(** The sum of the contributions is the sum of the qualifying balances. *)
Lemma Exact_contributions_qualifying : forall v t l,
  Qcsum (map (contribution v t) l)
  = Qcsum (map (fun i => rd (Balances v) i zero32) (filter (qualifies v t) l)).
Proof.
  intros v t l. induction l as [|i l IH]; [reflexivity|].
  cbn [map filter]. rewrite Qcsum_cons, IH, Exact_contribution.
  destruct (qualifies v t i); [reflexivity | exact_arith; ring].
Qed.
End ExactSums.

(** ** Facts of IEEE arithmetic

    Rounding never returns a zero from a nonzero sum, so an accumulator
    that starts at +0 is never the negative zero, and adding a zero of
    either sign to it changes nothing. *)

Section FloatFacts.
Variables prec emax : Z.
Hypothesis prec_pos : (0 < prec)%Z.
Local Open Scope Z_scope.
Local Notation "'emin'" := (SpecFloat.emin prec emax).
Local Notation "'fexp'" := (SpecFloat.fexp prec emax).
Local Notation "'expo_ok'" := (IEEE.expo_ok prec emax).
Local Notation "'not_nzero'" := IEEE.not_nzero.

Lemma fexp_ge_emin : forall e, emin <= fexp e.
Proof. intros e. unfold SpecFloat.fexp. lia. Qed.

Lemma iter_pos_nat : forall (A : Type) (f : A -> A) (p : positive) (x : A),
  SpecFloat.iter_pos f p x = Nat.iter (Pos.to_nat p) f x.
Proof.
  intros A f p. induction p as [p IH | p IH |]; intros x; cbn [SpecFloat.iter_pos].
  - rewrite !IH, Pos2Nat.inj_xI.
    rewrite <- Nat.iter_succ_r, <- Nat.iter_add.
    f_equal. lia.
  - rewrite !IH, Pos2Nat.inj_xO, <- Nat.iter_add. f_equal. lia.
  - reflexivity.
Qed.

(** Shifting right by fewer places than the mantissa has digits leaves a
    positive mantissa, with that many digits fewer. *)
Lemma shr_digits : forall (n : nat) (p : positive) (r s : bool),
  Z.of_nat n < Zpos (digits2_pos p) ->
  exists q r' s',
    Nat.iter n shr_1 (Build_shr_record (Zpos p) r s) = Build_shr_record (Zpos q) r' s'
    /\ Zpos (digits2_pos q) = Zpos (digits2_pos p) - Z.of_nat n.
Proof.
  induction n as [|n IH]; intros p r s Hn.
  - exists p, r, s. split; [reflexivity | lia].
  - rewrite Nat.iter_succ_r.
    destruct p as [p | p |]; cbn [shr_1 digits2_pos] in *.
    + destruct (IH p true (r || s)%bool) as (q & r' & s' & Hq & Hd); [lia|].
      exists q, r', s'. split; [exact Hq | lia].
    + destruct (IH p false (r || s)%bool) as (q & r' & s' & Hq & Hd); [lia|].
      exists q, r', s'. split; [exact Hq | lia].
    + lia.
Qed.

Lemma shr_fexp_exponent : forall m e l,
  snd (shr_fexp prec emax m e l) = Z.max e (fexp (Zdigits2 m + e)).
Proof.
  intros m e l. unfold shr_fexp, shr.
  destruct (fexp (Zdigits2 m + e) - e) eqn:Hn; simpl; lia.
Qed.

Lemma shr_fexp_positive : forall (m : positive) e l,
  emin <= e ->
  exists q, shr_m (fst (shr_fexp prec emax (Zpos m) e l)) = Zpos q.
Proof.
  intros m e l He. unfold shr_fexp, shr.
  destruct (fexp (Zdigits2 (Zpos m) + e) - e) as [|n|n] eqn:Hn.
  - exists m. destruct l as [|[| |]]; reflexivity.
  - cbn [fst]. rewrite iter_pos_nat.
    assert (Hlt : Z.of_nat (Pos.to_nat n) < Zpos (digits2_pos m)).
    { rewrite positive_nat_Z. unfold SpecFloat.fexp in Hn. simpl Zdigits2 in Hn. lia. }
    destruct l as [|[| |]]; cbn [shr_record_of_loc];
      match goal with |- context [Build_shr_record _ ?r ?s] =>
        destruct (shr_digits (Pos.to_nat n) m r s Hlt) as (q & r' & s' & Hq & _)
      end; rewrite Hq; exists q; reflexivity.
  - exists m. destruct l as [|[| |]]; reflexivity.
Qed.

Lemma round_nearest_even_positive : forall (q : positive) l,
  exists q', round_nearest_even (Zpos q) l = Zpos q'.
Proof.
  intros q l. destruct l as [|[| |]]; simpl.
  - exists q; reflexivity.
  - destruct q; simpl; eexists; reflexivity.
  - exists q; reflexivity.
  - destruct q; simpl; eexists; reflexivity.
Qed.

(** What rounding returns has an exponent of the format. *)
Lemma binary_round_aux_expo : forall s m e l,
  expo_ok (binary_round_aux prec emax s m e l).
Proof.
  intros s m e l. unfold binary_round_aux.
  destruct (shr_fexp prec emax m e l) as [mrs' e'].
  pose proof (shr_fexp_exponent
                (round_nearest_even (shr_m mrs') (loc_of_shr_record mrs')) e' loc_Exact) as He.
  destruct (shr_fexp prec emax _ e' loc_Exact) as [mrs'' e''].
  simpl in He.
  destruct (shr_m mrs''); simpl; trivial.
  destruct (e'' <=? emax - prec); simpl; trivial.
  pose proof (fexp_ge_emin
    (Zdigits2 (round_nearest_even (shr_m mrs') (loc_of_shr_record mrs')) + e')). lia.
Qed.

(** Rounding a positive mantissa whose exponent is in the format gives a
    finite nonzero number or an infinity, never a zero. *)
Lemma binary_round_aux_not_zero : forall s (m : positive) e l sz,
  emin <= e ->
  binary_round_aux prec emax s (Zpos m) e l <> S754_zero sz.
Proof.
  intros s m e l sz He. unfold binary_round_aux.
  destruct (shr_fexp_positive m e l He) as (q & Hq).
  pose proof (shr_fexp_exponent (Zpos m) e l) as He'.
  destruct (shr_fexp prec emax (Zpos m) e l) as [mrs' e'].
  cbn [fst snd] in Hq, He'. rewrite Hq.
  destruct (round_nearest_even_positive q (loc_of_shr_record mrs')) as (q' & Hq').
  rewrite Hq'.
  assert (He'' : emin <= e') by lia.
  destruct (shr_fexp_positive q' e' loc_Exact He'') as (q'' & Hq'').
  destruct (shr_fexp prec emax (Zpos q') e' loc_Exact) as [mrs'' e''].
  cbn [fst] in Hq''. rewrite Hq''.
  destruct (e'' <=? emax - prec); discriminate.
Qed.

Lemma binary_normalize_expo : forall m e sz,
  expo_ok (binary_normalize prec emax m e sz).
Proof.
  intros m e sz. unfold binary_normalize, binary_round.
  destruct m as [|m|m]; simpl; trivial;
    destruct (shl_align m e _) as [mz ez]; apply binary_round_aux_expo.
Qed.

Lemma shl_align_exponent : forall m e e',
  snd (shl_align m e e') = Z.min e e'.
Proof.
  intros m e e'. unfold shl_align.
  destruct (e' - e) eqn:H; simpl; lia.
Qed.

Lemma binary_normalize_not_neg_zero : forall m e,
  emin <= e ->
  binary_normalize prec emax m e false <> S754_zero true.
Proof.
  intros m e He. unfold binary_normalize, binary_round.
  destruct m as [|m|m]; [discriminate | |];
    (pose proof (shl_align_exponent m e (fexp (Zpos (digits2_pos m) + e))) as Hs;
     pose proof (fexp_ge_emin (Zpos (digits2_pos m) + e));
     destruct (shl_align m e _) as [mz ez]; cbn [snd] in Hs;
     apply binary_round_aux_not_zero; lia).
Qed.

Lemma SFadd_expo : forall x y,
  expo_ok x -> expo_ok y -> expo_ok (SFadd prec emax x y).
Proof.
  intros x y Hx Hy.
  destruct x as [sx|sx| |sx mx ex], y as [sy|sy| |sy my ey]; simpl; trivial;
    try (destruct sx, sy; simpl; trivial; fail).
  apply binary_normalize_expo.
Qed.

Lemma SFadd_not_nzero : forall x y,
  not_nzero x -> expo_ok x -> expo_ok y -> not_nzero (SFadd prec emax x y).
Proof.
  unfold IEEE.not_nzero. intros x y Hx Ex Ey.
  destruct x as [sx|sx| |sx mx ex], y as [sy|sy| |sy my ey]; simpl in *;
    try discriminate;
    try (destruct sx, sy; try discriminate; congruence).
  apply binary_normalize_not_neg_zero. lia.
Qed.

(** Adding a zero of either sign to such an accumulator changes nothing. *)
Lemma SFadd_zero_r : forall x sz,
  not_nzero x -> SFadd prec emax x (S754_zero sz) = x.
Proof.
  unfold IEEE.not_nzero. intros x sz Hx.
  destruct x as [sx|sx| |sx mx ex]; simpl; try reflexivity.
  destruct sx, sz; try reflexivity. congruence.
Qed.

Lemma SFmul_expo : forall x y, expo_ok (SFmul prec emax x y).
Proof.
  intros x y.
  destruct x as [sx|sx| |sx mx ex], y as [sy|sy| |sy my ey]; simpl; trivial.
  apply binary_round_aux_expo.
Qed.

Lemma SFmul_finite_zero : forall x sz,
  IEEE.is_finite x = true ->
  exists s, SFmul prec emax x (S754_zero sz) = S754_zero s.
Proof.
  intros x sz Hx. destruct x as [sx|sx| |sx mx ex]; try discriminate; simpl; eexists; reflexivity.
Qed.
End FloatFacts.

(** ** Simulation of two runs, lane by lane *)

Lemma fold_left_sim : forall (S X : Type) (f g : S -> X -> S) (R : S -> Prop) (l : list X) (s : S),
  R s ->
  (forall s x, In x l -> R s -> f s x = g s x /\ R (f s x)) ->
  fold_left f l s = fold_left g l s /\ R (fold_left f l s).
Proof.
  intros S X f g R l; induction l as [|x l IH]; intros s Hs H; simpl.
  - split; [reflexivity | assumption].
  - destruct (H s x (or_introl eq_refl) Hs) as [Heq HR].
    rewrite <- Heq. apply IH; [assumption|].
    intros s' y Hy. apply H. right; assumption.
Qed.

Lemma fold_left_inv : forall (S X : Type) (f : S -> X -> S) (R : S -> Prop) (l : list X) (s : S),
  R s ->
  (forall s x, In x l -> R s -> R (f s x)) ->
  R (fold_left f l s).
Proof.
  intros S X f R l s Hs H.
  apply (fold_left_sim S X f f R l s Hs).
  intros s' x Hx Hs'. split; [reflexivity | apply H; assumption].
Qed.

Lemma zip_with_sim : forall (A B : Type) (f g : A -> B -> A) (R : A -> Prop) (la : list A) (lb : list B),
  Forall R la ->
  (forall a b, In b lb -> R a -> f a b = g a b /\ R (f a b)) ->
  zip_with f la lb = zip_with g la lb /\ Forall R (zip_with f la lb).
Proof.
  intros A B f g R la; induction la as [|a la IH]; intros lb Hla H.
  - split; [reflexivity | constructor].
  - destruct lb as [|b lb]; [split; [reflexivity | constructor]|].
    inversion Hla as [|? ? Ha Hla']; subst.
    destruct (H a b (or_introl eq_refl) Ha) as [Heq HR].
    destruct (IH lb Hla') as [IHeq IHR].
    { intros a' b' Hb'. apply H. right; assumption. }
    simpl. split; [rewrite Heq, IHeq; reflexivity | constructor; assumption].
Qed.

Lemma lanes64_inj : forall (A : Type) (s1 s2 : m256d A * m256d A),
  lanes64 s1 = lanes64 s2 -> s1 = s2.
Proof.
  intros A [[[a0 a1] [a2 a3]] [[a4 a5] [a6 a7]]] [[[b0 b1] [b2 b3]] [[b4 b5] [b6 b7]]] H.
  unfold lanes64 in H. simpl in H. injection H; intros; subst; reflexivity.
Qed.

Lemma lanes32_inj : forall (A : Type) (s1 s2 : m256 A * m256 A),
  lanes32 s1 = lanes32 s2 -> s1 = s2.
Proof.
  intros A [[[a0 a1 a2 a3] [a4 a5 a6 a7]] [[a8 a9 a10 a11] [a12 a13 a14 a15]]]
           [[[b0 b1 b2 b3] [b4 b5 b6 b7]] [[b8 b9 b10 b11] [b12 b13 b14 b15]]] H.
  unfold lanes32 in H. simpl in H. injection H; intros; subst; reflexivity.
Qed.

Section MainLanes.
Context {AR : Arith} {LAWS : ArithLaws AR}.

(** One iteration of the wide kernel adds, lane by lane, the widened
    contributions of the eight elements of its group. *)
Lemma main64_lanes : forall v t g acc,
  lanes64 (Avx2Double.main_body (Balances v) (Active v)
             (m256_set1 t) (m256_set1 one32) g acc)
  = zip_with (fun a i => add64 a (cvtps_pd (contribution v t i)))
      (lanes64 acc) (seq g 8).
Proof.
  intros v t g [[[a0 a1] [a2 a3]] [[a4 a5] [a6 a7]]].
  unfold Avx2Double.main_body. rewrite contrib8_lanes.
  rewrite <- lane_indices_seq. reflexivity.
Qed.

(** One iteration of the same-precision kernel adds, lane by lane, the
    contributions of the sixteen elements of its two groups. *)
Lemma main32_lanes : forall v t g acc,
  lanes32 (Znver2.main_body (Balances v) (Active v)
             (m256_set1 t) (m256_set1 one32) g acc)
  = zip_with (fun a i => add32 a (contribution v t i))
      (lanes32 acc) (seq g 16).
Proof.
  intros v t g [[[a0 a1 a2 a3] [a4 a5 a6 a7]] [[a8 a9 a10 a11] [a12 a13 a14 a15]]].
  unfold Znver2.main_body. rewrite !contrib8_lanes.
  replace (seq g 16) with (seq g 8 ++ seq (g + 8) 8) by (rewrite <- seq_app; reflexivity).
  rewrite <- !lane_indices_seq. reflexivity.
Qed.
End MainLanes.

(** The elements a group of the main loop covers lie below [count]. *)
Lemma group_lane_bound : forall w count g i,
  In g (counters 0 w (count / w)) -> In i (seq g w) -> (i < count)%nat.
Proof.
  intros w count g i Hg Hi. unfold counters in Hg.
  apply in_map_iff in Hg. destruct Hg as (j & Hj & Hin).
  apply in_seq in Hin. apply in_seq in Hi.
  destruct w as [|w]; [simpl in Hi; lia|].
  pose proof (Nat.Div0.mul_div_le count (Datatypes.S w)). nia.
Qed.

(** ** The accumulators under IEEE arithmetic *)

Section IEEEKernels.
Local Notation "'good32'" := (IEEE.good IEEE.prec32 IEEE.emax32).
Local Notation "'good64'" := (IEEE.good IEEE.prec64 IEEE.emax64).
Local Notation "'View'" := (@UsersView IEEE.arith).

Lemma prec32_pos : (0 < IEEE.prec32)%Z.
Proof. reflexivity. Qed.
Lemma prec64_pos : (0 < IEEE.prec64)%Z.
Proof. reflexivity. Qed.

Lemma good_pzero : forall prec emax, IEEE.good prec emax IEEE.pzero.
Proof. intros prec emax. split; [discriminate | exact I]. Qed.

Lemma SFadd_good : forall prec emax x y,
  (0 < prec)%Z ->
  IEEE.good prec emax x -> IEEE.expo_ok prec emax y ->
  IEEE.good prec emax (SFadd prec emax x y).
Proof.
  intros prec emax x y Hp [Hx Ex] Ey. split.
  - apply SFadd_not_nzero; assumption.
  - apply SFadd_expo; assumption.
Qed.

Lemma convert_expo : forall prec emax x,
  IEEE.expo_ok prec emax (IEEE.convert prec emax x).
Proof.
  intros prec emax x. destruct x as [s|s| |s m e]; simpl; trivial.
  apply binary_normalize_expo.
Qed.

Lemma add32_good : forall (acc c1 c2 : spec_float),
  good32 acc -> good32 (@add32 IEEE.arith acc (@mul32 IEEE.arith c1 c2)).
Proof.
  intros acc c1 c2 H. apply SFadd_good; [apply prec32_pos | assumption | apply SFmul_expo].
Qed.

Lemma add64_good : forall (acc c : spec_float),
  good64 acc -> good64 (@add64 IEEE.arith acc (@cvtps_pd IEEE.arith c)).
Proof.
  intros acc c H. apply SFadd_good; [apply prec64_pos | assumption | apply convert_expo].
Qed.

Lemma add_zsim : forall prec emax acc c1 c2,
  IEEE.good prec emax acc -> zsim c1 c2 ->
  SFadd prec emax acc c1 = SFadd prec emax acc c2.
Proof.
  intros prec emax acc c1 c2 [Hn _] [-> | (s1 & s2 & -> & ->)]; [reflexivity|].
  rewrite !SFadd_zero_r by assumption. reflexivity.
Qed.

Lemma add_zero_good : forall prec emax acc s,
  IEEE.good prec emax acc -> SFadd prec emax acc (S754_zero s) = acc.
Proof. intros prec emax acc s [Hn _]. apply SFadd_zero_r; assumption. Qed.

Lemma convert_zsim : forall prec emax c1 c2,
  zsim c1 c2 -> zsim (IEEE.convert prec emax c1) (IEEE.convert prec emax c2).
Proof.
  intros prec emax c1 c2 [-> | (s1 & s2 & -> & ->)]; [left; reflexivity|].
  right. exists s1, s2. split; reflexivity.
Qed.

(** A finite balance that does not qualify is multiplied to a zero. *)
Lemma contribution_not_qualifying : forall (v : View) t i,
  IEEE.is_finite (rd (Balances v) i IEEE.pzero) = true ->
  qualifies v t i = false ->
  exists s, contribution v t i = S754_zero s.
Proof.
  intros v t i Hf Hq. unfold contribution, take_value. rewrite Hq.
  apply SFmul_finite_zero. exact Hf.
Qed.
End IEEEKernels.

(** ** Two views that add the same products *)

Section Simulation.
Local Notation "'good32'" := (IEEE.good IEEE.prec32 IEEE.emax32).
Local Notation "'good64'" := (IEEE.good IEEE.prec64 IEEE.emax64).
Local Notation "'View'" := (@UsersView IEEE.arith).

(** Two views of the same length whose elements add, index by index, the
    same product up to the sign of a zero, and whose tails take the same
    branch with the same balance. *)
Variables (v1 v2 : View) (t : spec_float).
Hypothesis same_count : Count v1 = Count v2.
Hypothesis same_products : forall i, (i < Count v1)%nat ->
  zsim (contribution v1 t i) (contribution v2 t i).
Hypothesis same_tail : forall i, (i < Count v1)%nat ->
  qualifies v1 t i = qualifies v2 t i /\
  (qualifies v1 t i = true ->
   rd (Balances v1) i zero32 = rd (Balances v2) i zero32).

Lemma sim_Scalar : SumActiveBalancesScalar v1 t = SumActiveBalancesScalar v2 t.
Proof.
  rewrite !Scalar_fold. unfold scalar_sum. rewrite <- same_count.
  apply (fold_left_sim _ _ _ _ good32).
  - apply good_pzero.
  - intros acc i Hi Hacc. apply in_seq in Hi. split.
    + apply add_zsim with (1 := Hacc). apply same_products. lia.
    + apply add32_good. assumption.
Qed.

Lemma sim_tail64 : forall acc,
  Avx2Double.tail_loop v1 t acc = Avx2Double.tail_loop v2 t acc.
Proof.
  intros acc. unfold Avx2Double.tail_loop. rewrite <- same_count.
  apply fold_left_ext_in. intros a i Hi. apply in_seq in Hi.
  assert (Hlt : (i < Count v1)%nat)
    by (pose proof (Nat.Div0.mul_div_le (Count v1) 8); lia).
  destruct (same_tail i Hlt) as [Hq Hb].
  unfold Avx2Double.tail_body. fold (qualifies v1 t i). fold (qualifies v2 t i).
  rewrite <- Hq. destruct (qualifies v1 t i); [rewrite Hb|]; reflexivity.
Qed.

Lemma sim_tail32 : forall acc,
  Znver2.tail_loop v1 t acc = Znver2.tail_loop v2 t acc.
Proof.
  intros acc. unfold Znver2.tail_loop. rewrite <- same_count.
  apply fold_left_ext_in. intros a i Hi. apply in_seq in Hi.
  assert (Hlt : (i < Count v1)%nat)
    by (pose proof (Nat.Div0.mul_div_le (Count v1) 16); lia).
  destruct (same_tail i Hlt) as [Hq Hb].
  unfold Znver2.tail_body. fold (qualifies v1 t i). fold (qualifies v2 t i).
  rewrite <- Hq. destruct (qualifies v1 t i); [rewrite Hb|]; reflexivity.
Qed.

Lemma good_lanes64_init :
  Forall good64 (lanes64 (m256d_set1 (@zero64 IEEE.arith), m256d_set1 (@zero64 IEEE.arith))).
Proof. repeat (constructor; [apply good_pzero|]). constructor. Qed.

Lemma good_lanes32_init :
  Forall good32 (lanes32 (m256_set1 (@zero32 IEEE.arith), m256_set1 (@zero32 IEEE.arith))).
Proof. repeat (constructor; [apply good_pzero|]). constructor. Qed.

Lemma sim_main64 : Avx2Double.main_loop v1 t = Avx2Double.main_loop v2 t.
Proof.
  unfold Avx2Double.main_loop. rewrite <- same_count.
  apply (fold_left_sim _ _ _ _ (fun acc => Forall good64 (lanes64 acc))).
  - apply good_lanes64_init.
  - intros acc g Hg Hacc.
    pose proof (@main64_lanes _ IEEE_laws v1 t g acc) as H1.
    pose proof (@main64_lanes _ IEEE_laws v2 t g acc) as H2.
    destruct (zip_with_sim _ _
                (fun a i => @add64 IEEE.arith a (cvtps_pd (contribution v1 t i)))
                (fun a i => @add64 IEEE.arith a (cvtps_pd (contribution v2 t i)))
                good64 (lanes64 acc) (seq g 8) Hacc) as [Heq HR].
    { intros a i Hi Ha. split.
      - apply add_zsim with (1 := Ha). apply convert_zsim.
        apply same_products. apply (group_lane_bound 8 _ g); assumption.
      - apply add64_good. assumption. }
    cbv beta. split.
    + apply lanes64_inj. exact (eq_trans H1 (eq_trans Heq (eq_sym H2))).
    + exact (eq_ind _ (Forall good64) HR _ (eq_sym H1)).
Qed.

Lemma sim_main32 : Znver2.main_loop v1 t = Znver2.main_loop v2 t.
Proof.
  unfold Znver2.main_loop. rewrite <- same_count.
  apply (fold_left_sim _ _ _ _ (fun acc => Forall good32 (lanes32 acc))).
  - apply good_lanes32_init.
  - intros acc g Hg Hacc.
    pose proof (@main32_lanes _ IEEE_laws v1 t g acc) as H1.
    pose proof (@main32_lanes _ IEEE_laws v2 t g acc) as H2.
    destruct (zip_with_sim _ _
                (fun a i => @add32 IEEE.arith a (contribution v1 t i))
                (fun a i => @add32 IEEE.arith a (contribution v2 t i))
                good32 (lanes32 acc) (seq g 16) Hacc) as [Heq HR].
    { intros a i Hi Ha. split.
      - apply add_zsim with (1 := Ha).
        apply same_products. apply (group_lane_bound 16 _ g); assumption.
      - apply add32_good. assumption. }
    cbv beta. split.
    + apply lanes32_inj. exact (eq_trans H1 (eq_trans Heq (eq_sym H2))).
    + exact (eq_ind _ (Forall good32) HR _ (eq_sym H1)).
Qed.

Lemma sim_Avx2Double :
  Avx2Double.SumActiveBalancesAvx2 v1 t = Avx2Double.SumActiveBalancesAvx2 v2 t.
Proof. rewrite !Avx2Double_fold, sim_main64. apply sim_tail64. Qed.

Lemma sim_Znver2 :
  Znver2.SumActiveBalancesAvx2 v1 t = Znver2.SumActiveBalancesAvx2 v2 t.
Proof. rewrite !Znver2_fold, sim_main32. apply sim_tail32. Qed.
End Simulation.

(** ** Views in which no element qualifies *)

Lemma compare_cont_antisym_Eq : forall p q,
  Pos.compare_cont Eq q p = CompOpp (Pos.compare_cont Eq p q).
Proof.
  intros p q. rewrite (Pos.compare_cont_antisym p q Eq). reflexivity.
Qed.

Lemma SFcompare_antisym : forall x y,
  SFcompare y x = option_map CompOpp (SFcompare x y).
Proof.
  intros x y.
  destruct x as [sx|sx| |sx mx ex], y as [sy|sy| |sy my ey]; simpl; try reflexivity;
    try (destruct sx; reflexivity); try (destruct sy; reflexivity);
    try (destruct sx, sy; reflexivity).
  rewrite (Z.compare_antisym ex ey), (compare_cont_antisym_Eq mx my).
  destruct sx, sy; simpl; try reflexivity;
    destruct (ex ?= ey)%Z; simpl; try reflexivity;
    destruct (Pos.compare_cont Eq mx my); reflexivity.
Qed.

(** A balance strictly below the threshold does not reach it. *)
Lemma SFltb_not_ge : forall b t, SFltb b t = true -> IEEE.ge b t = false.
Proof.
  intros b t H. unfold IEEE.ge, SFleb, SFltb in *.
  rewrite (SFcompare_antisym b t).
  destruct (SFcompare b t) as [[| |]|]; try discriminate. reflexivity.
Qed.

Section ZeroCases.
Local Notation "'good32'" := (IEEE.good IEEE.prec32 IEEE.emax32).
Local Notation "'good64'" := (IEEE.good IEEE.prec64 IEEE.emax64).
Local Notation "'View'" := (@UsersView IEEE.arith).
Variables (v : View) (t : spec_float).
Hypothesis finite : all_finite v.
Hypothesis none : none_qualifies v t.

Lemma zero_product : forall i, (i < Count v)%nat ->
  exists s, contribution v t i = S754_zero s.
Proof.
  intros i Hi. apply contribution_not_qualifying; [apply finite | apply none]; assumption.
Qed.

Lemma zero_Scalar : SumActiveBalancesScalar v t = IEEE.pzero.
Proof.
  rewrite Scalar_fold. unfold scalar_sum.
  apply (fold_left_inv _ _ _ (fun acc => acc = IEEE.pzero)); [reflexivity|].
  intros acc i Hi ->. apply in_seq in Hi.
  destruct (zero_product i) as [s ->]; [lia|].
  destruct s; reflexivity.
Qed.

Lemma zero_main64 :
  Forall (fun a => a = IEEE.pzero) (lanes64 (Avx2Double.main_loop v t)).
Proof.
  unfold Avx2Double.main_loop.
  apply (fold_left_inv _ _ _ (fun acc => Forall (fun a => a = IEEE.pzero) (lanes64 acc))).
  - repeat (constructor; [reflexivity|]). constructor.
  - intros acc g Hg Hacc.
    pose proof (@main64_lanes _ IEEE_laws v t g acc) as H1.
    refine (eq_ind _ (Forall (fun a => a = IEEE.pzero)) _ _ (eq_sym H1)).
    apply (zip_with_sim _ _
             (fun a i => @add64 IEEE.arith a (cvtps_pd (contribution v t i)))
             (fun a i => @add64 IEEE.arith a (cvtps_pd (contribution v t i)))
             (fun a => a = IEEE.pzero) (lanes64 acc) (seq g 8) Hacc).
    intros a i Hi ->. split; [reflexivity|].
    destruct (zero_product i) as [s ->]; [apply (group_lane_bound 8 _ g); assumption|].
    destruct s; reflexivity.
Qed.

Lemma zero_main32 :
  Forall (fun a => a = IEEE.pzero) (lanes32 (Znver2.main_loop v t)).
Proof.
  unfold Znver2.main_loop.
  apply (fold_left_inv _ _ _ (fun acc => Forall (fun a => a = IEEE.pzero) (lanes32 acc))).
  - repeat (constructor; [reflexivity|]). constructor.
  - intros acc g Hg Hacc.
    pose proof (@main32_lanes _ IEEE_laws v t g acc) as H1.
    refine (eq_ind _ (Forall (fun a => a = IEEE.pzero)) _ _ (eq_sym H1)).
    apply (zip_with_sim _ _
             (fun a i => @add32 IEEE.arith a (contribution v t i))
             (fun a i => @add32 IEEE.arith a (contribution v t i))
             (fun a => a = IEEE.pzero) (lanes32 acc) (seq g 16) Hacc).
    intros a i Hi ->. split; [reflexivity|].
    destruct (zero_product i) as [s ->]; [apply (group_lane_bound 16 _ g); assumption|].
    destruct s; reflexivity.
Qed.

Lemma zero_tail64 : forall acc, Avx2Double.tail_loop v t acc = acc.
Proof.
  intros acc. unfold Avx2Double.tail_loop.
  apply (fold_left_inv _ _ _ (fun a => a = acc)); [reflexivity|].
  intros a i Hi ->. apply in_seq in Hi.
  unfold Avx2Double.tail_body. fold (qualifies v t i).
  rewrite none; [reflexivity|].
  pose proof (Nat.Div0.mul_div_le (Count v) 8). lia.
Qed.

Lemma zero_tail32 : forall acc, Znver2.tail_loop v t acc = acc.
Proof.
  intros acc. unfold Znver2.tail_loop.
  apply (fold_left_inv _ _ _ (fun a => a = acc)); [reflexivity|].
  intros a i Hi ->. apply in_seq in Hi.
  unfold Znver2.tail_body. fold (qualifies v t i).
  rewrite none; [reflexivity|].
  pose proof (Nat.Div0.mul_div_le (Count v) 16). lia.
Qed.

Lemma zero_Avx2Double : Avx2Double.SumActiveBalancesAvx2 v t = IEEE.pzero.
Proof.
  rewrite Avx2Double_fold, zero_tail64.
  pose proof zero_main64 as H.
  destruct (Avx2Double.main_loop v t) as [[[a0 a1] [a2 a3]] [[a4 a5] [a6 a7]]].
  cbv [lanes64 m256d_lanes app fst snd dlo dhi d0 d1] in H.
  repeat match goal with
         | H : Forall _ (_ :: _) |- _ => inversion H; clear H; subst
         end.
  reflexivity.
Qed.

Lemma zero_Znver2 : Znver2.SumActiveBalancesAvx2 v t = IEEE.pzero.
Proof.
  rewrite Znver2_fold, zero_tail32.
  pose proof zero_main32 as H.
  destruct (Znver2.main_loop v t)
    as [[[a0 a1 a2 a3] [a4 a5 a6 a7]] [[a8 a9 a10 a11] [a12 a13 a14 a15]]].
  cbv [lanes32 m256_lanes m128_lanes app fst snd lo hi x0 x1 x2 x3] in H.
  repeat match goal with
         | H : Forall _ (_ :: _) |- _ => inversion H; clear H; subst
         end.
  reflexivity.
Qed.
End ZeroCases.

(** ** Inactive balances do not matter *)

(** C10: two views of IEEE floats with the same count and the same
    activity bytes, all balances finite, and equal balances wherever the
    activity byte is nonzero, give the same result in each reducer. *)
Theorem inactive_balances_do_not_matter :
  forall (v1 v2 : @UsersView IEEE.arith) (t : spec_float),
    Count v1 = Count v2 ->
    Active v1 = Active v2 ->
    all_finite v1 ->
    all_finite v2 ->
    (forall i, (i < Count v1)%nat ->
       byte_true (rd (Active v1) i x00) = true ->
       rd (Balances v1) i IEEE.pzero = rd (Balances v2) i IEEE.pzero) ->
    SumActiveBalancesScalar v1 t = SumActiveBalancesScalar v2 t
    /\ Avx2Double.SumActiveBalancesAvx2 v1 t = Avx2Double.SumActiveBalancesAvx2 v2 t
    /\ Znver2.SumActiveBalancesAvx2 v1 t = Znver2.SumActiveBalancesAvx2 v2 t.
Proof.
  intros v1 v2 t Hcount Hflags Hf1 Hf2 Hb.
  change IEEE.pzero with (@zero32 IEEE.arith) in Hb.
  assert (Hq : forall i, (i < Count v1)%nat ->
            qualifies v1 t i = qualifies v2 t i /\
            (qualifies v1 t i = true ->
             rd (Balances v1) i zero32 = rd (Balances v2) i zero32)).
  { intros i Hi. unfold qualifies. rewrite <- Hflags.
    destruct (byte_true (rd (Active v1) i x00)) eqn:Ha; cbn [andb].
    - rewrite (Hb i Hi Ha). split; [reflexivity | intros _; reflexivity].
    - split; [reflexivity | discriminate]. }
  assert (Hp : forall i, (i < Count v1)%nat ->
            zsim (contribution v1 t i) (contribution v2 t i)).
  { intros i Hi. destruct (Hq i Hi) as [He Hv].
    destruct (qualifies v1 t i) eqn:Hq1.
    - left. unfold contribution, take_value. rewrite <- He, Hq1, (Hv eq_refl). reflexivity.
    - right.
      destruct (contribution_not_qualifying v1 t i (Hf1 i Hi) Hq1) as [s1 H1].
      destruct (contribution_not_qualifying v2 t i) as [s2 H2].
      + apply Hf2. lia.
      + rewrite <- He. reflexivity.
      + exists s1, s2. split; assumption. }
  split; [|split].
  - apply sim_Scalar; assumption.
  - apply sim_Avx2Double; assumption.
  - apply sim_Znver2; assumption.
Qed.

Lemma inactive_balances_do_not_matter_witness :
  SumActiveBalancesScalar Inputs.spec_example (Inputs.f 250)
  = SumActiveBalancesScalar Inputs.spec_example' (Inputs.f 250)
  /\ Avx2Double.SumActiveBalancesAvx2 Inputs.spec_example (Inputs.f 250)
     = Avx2Double.SumActiveBalancesAvx2 Inputs.spec_example' (Inputs.f 250)
  /\ Znver2.SumActiveBalancesAvx2 Inputs.spec_example (Inputs.f 250)
     = Znver2.SumActiveBalancesAvx2 Inputs.spec_example' (Inputs.f 250).
Proof.
  apply (inactive_balances_do_not_matter Inputs.spec_example Inputs.spec_example').
  - reflexivity.
  - reflexivity.
  - intros i Hi. by_index i.
  - intros i Hi. by_index i.
  - intros i Hi Ha. by_index i.
Defined.

(** ** Zero results *)

Lemma none_qualifies_empty : forall (v : @UsersView IEEE.arith) t,
  Count v = 0%nat -> all_finite v /\ none_qualifies v t.
Proof.
  intros v t H. split; intros i Hi; lia.
Qed.

Lemma none_qualifies_threshold : forall (v : @UsersView IEEE.arith) t,
  (forall i, (i < Count v)%nat -> SFltb (rd (Balances v) i IEEE.pzero) t = true) ->
  none_qualifies v t.
Proof.
  intros v t H i Hi. unfold qualifies.
  change (@ge32 IEEE.arith) with IEEE.ge.
  change (@zero32 IEEE.arith) with IEEE.pzero.
  rewrite (SFltb_not_ge _ _ (H i Hi)). apply andb_false_r.
Qed.

Lemma none_qualifies_flags : forall (v : @UsersView IEEE.arith) t,
  (forall i, (i < Count v)%nat -> rd (Active v) i x00 = x00) ->
  none_qualifies v t.
Proof.
  intros v t H i Hi. unfold qualifies. rewrite (H i Hi). reflexivity.
Qed.

(** C8, as it holds: each reducer and each dispatcher returns +0 when
    the view is empty, and, the balances being finite, when the threshold
    is above every balance or every activity byte is 0. *)
Theorem zero_cases :
  forall (v : @UsersView IEEE.arith) (t : spec_float),
    Count v = 0%nat
    \/ (all_finite v /\
        forall i, (i < Count v)%nat -> SFltb (rd (Balances v) i IEEE.pzero) t = true)
    \/ (all_finite v /\
        forall i, (i < Count v)%nat -> rd (Active v) i x00 = x00) ->
    SumActiveBalancesScalar v t = IEEE.pzero
    /\ Avx2Double.SumActiveBalancesAvx2 v t = IEEE.pzero
    /\ Znver2.SumActiveBalancesAvx2 v t = IEEE.pzero
    /\ (forall build cpu, Avx2Double.SumActiveBalances build cpu v t = IEEE.pzero)
    /\ (forall build cpu, Znver2.SumActiveBalances build cpu v t = IEEE.pzero).
Proof.
  intros v t H.
  assert (Hfn : all_finite v /\ none_qualifies v t).
  { destruct H as [H | [[Hf H] | [Hf H]]].
    - apply none_qualifies_empty; assumption.
    - split; [assumption | apply none_qualifies_threshold; assumption].
    - split; [assumption | apply none_qualifies_flags; assumption]. }
  destruct Hfn as [Hf Hn].
  pose proof (zero_Scalar v t Hf Hn) as HS.
  pose proof (zero_Avx2Double v t Hf Hn) as HA.
  pose proof (zero_Znver2 v t Hf Hn) as HZ.
  repeat split; try assumption.
  - intros build cpu. unfold Avx2Double.SumActiveBalances, Avx2Double.SumActiveBalancesScalar.
    rewrite HA, HS.
    destruct (AVX2_defined build), ((COMPILER_CLANG build || COMPILER_GCC build) && cpu);
      reflexivity.
  - intros build cpu. unfold Znver2.SumActiveBalances, Znver2.SumActiveBalancesScalar.
    rewrite HZ, HS.
    destruct (AVX2_defined build), ((COMPILER_CLANG build || COMPILER_GCC build) && cpu);
      reflexivity.
Qed.

Lemma zero_cases_witness :
  SumActiveBalancesScalar Inputs.spec_example (Inputs.f 1000) = IEEE.pzero
  /\ Avx2Double.SumActiveBalancesAvx2 Inputs.spec_example (Inputs.f 1000) = IEEE.pzero
  /\ Znver2.SumActiveBalancesAvx2 Inputs.spec_example (Inputs.f 1000) = IEEE.pzero
  /\ (forall build cpu,
        Avx2Double.SumActiveBalances build cpu Inputs.spec_example (Inputs.f 1000)
        = IEEE.pzero)
  /\ (forall build cpu,
        Znver2.SumActiveBalances build cpu Inputs.spec_example (Inputs.f 1000)
        = IEEE.pzero).
Proof.
  apply (zero_cases Inputs.spec_example (Inputs.f 1000)).
  right; left. split; intros i Hi; by_index i.
Defined.

(** C8 as stated fails: with every activity byte 0, and with the
    threshold above every balance, the scalar reducer returns a NaN when a
    balance is infinite. *)
Lemma zero_cases_counterexample :
  (forall i, (i < Count Inputs.inf_inactive)%nat ->
     rd (Active Inputs.inf_inactive) i x00 = x00)
  /\ SumActiveBalancesScalar Inputs.inf_inactive (Inputs.f 0) = S754_nan
  /\ SumActiveBalancesScalar Inputs.inf_inactive (Inputs.f 0) <> IEEE.pzero
  /\ (forall i, (i < Count Inputs.ninf_active)%nat ->
        SFltb (rd (Balances Inputs.ninf_active) i IEEE.pzero) (Inputs.f 0) = true)
  /\ SumActiveBalancesScalar Inputs.ninf_active (Inputs.f 0) = S754_nan
  /\ SumActiveBalancesScalar Inputs.ninf_active (Inputs.f 0) <> IEEE.pzero.
Proof.
  split; [intros i Hi; by_index i|].
  split; [reflexivity|].
  split; [discriminate|].
  split; [intros i Hi; by_index i|].
  split; [reflexivity | discriminate].
Qed.

(** ** Multiplying by 1.0f is exact *)

Section MulOne.
Local Open Scope Z_scope.

Lemma valid_expo_ok : forall prec emax x,
  valid_binary prec emax x = true -> IEEE.expo_ok prec emax x.
Proof.
  intros prec emax x H. destruct x as [s|s| |s m e]; simpl; trivial.
  simpl in H. unfold bounded, canonical_mantissa in H.
  apply andb_prop in H. destruct H as [H _]. apply Z.eqb_eq in H.
  rewrite <- H. apply fexp_ge_emin.
Qed.

Lemma SFmul_one_r : forall b,
  IEEE.is_b32 b = true -> IEEE.is_finite b = true ->
  SFmul IEEE.prec32 IEEE.emax32 b IEEE.one = b.
Proof.
  intros b Hv Hf. destruct b as [s|s| |s m e]; try discriminate.
  - destruct s; reflexivity.
  - unfold IEEE.is_b32 in Hv. simpl in Hv. unfold bounded, canonical_mantissa in Hv.
    apply andb_prop in Hv. destruct Hv as [Hc Hb].
    apply Z.eqb_eq in Hc. apply Z.leb_le in Hb.
    unfold IEEE.one. cbn [SFmul].
    rewrite xorb_false_r, Pos.mul_comm. cbn [Pos.mul].
    unfold binary_round_aux.
    assert (Hd : Zdigits2 (Zpos m~0~0~0~0~0~0~0~0~0~0~0~0~0~0~0~0~0~0~0~0~0~0~0)
                 = Zpos (digits2_pos m) + 23).
    { cbn [Zdigits2 digits2_pos]. rewrite !Pos2Z.inj_succ. lia. }
    assert (H1 : shr_fexp IEEE.prec32 IEEE.emax32
                   (Zpos m~0~0~0~0~0~0~0~0~0~0~0~0~0~0~0~0~0~0~0~0~0~0~0) (e + -23) loc_Exact
                 = (Build_shr_record (Zpos m) false false, e)).
    { unfold shr_fexp. rewrite Hd.
      replace (Zpos (digits2_pos m) + 23 + (e + -23)) with (Zpos (digits2_pos m) + e) by lia.
      rewrite Hc. replace (e - (e + -23)) with 23 by lia.
      cbn. f_equal. lia. }
    rewrite H1. cbn [shr_m loc_of_shr_record round_nearest_even].
    assert (H2 : shr_fexp IEEE.prec32 IEEE.emax32 (Zpos m) e loc_Exact
                 = (Build_shr_record (Zpos m) false false, e)).
    { unfold shr_fexp. cbn [Zdigits2]. rewrite Hc, Z.sub_diag. reflexivity. }
    rewrite H2. cbn [shr_m].
    apply Z.leb_le in Hb. rewrite Hb. reflexivity.
Qed.
End MulOne.

(** ** The repository path against the flat-array scalar reducer *)

Lemma map_nth_seq : forall (X : Type) (l : list X) (d : X),
  map (fun i => nth i l d) (seq 0 (length l)) = l.
Proof.
  intros X l d. induction l as [|x l IH]; [reflexivity|].
  simpl. f_equal. rewrite <- seq_shift, map_map. exact IH.
Qed.

Lemma fold_left_map : forall (S X Y : Type) (f : S -> Y -> S) (h : X -> Y) (l : list X) (s : S),
  fold_left f (map h l) s = fold_left (fun s x => f s (h x)) l s.
Proof.
  intros S X Y f h l. induction l as [|x l IH]; intros s; simpl; [reflexivity | apply IH].
Qed.

Lemma ForEach_fold : forall (AR : Arith) (users : list Repository.User)
    (S : Type) (fn : Repository.User -> S -> S) (st : S),
  @Repository.ForEach AR (Repository.VectorUserRepository users) S fn st
  = fold_left (fun st user => fn user st) users st.
Proof.
  intros AR users S fn. simpl.
  induction users as [|u users IH]; intros st; simpl; [reflexivity | apply IH].
Qed.

Section RepositoryPath.
Local Notation "'good32'" := (IEEE.good IEEE.prec32 IEEE.emax32).
Local Notation "'User'" := (@Repository.User IEEE.arith).
Local Notation "'View'" := (@UsersView IEEE.arith).
Variables (users : list User) (v : View) (t : spec_float).
Hypothesis same : Repository.same_values users v.

Let nobody : User := @Repository.Build_User IEEE.arith 0%Z IEEE.pzero false.

Lemma same_balance : forall i,
  rd (Balances v) i zero32 = Repository.Balance (nth i users nobody).
Proof.
  intros i. destruct same as (_ & _ & Hb & _). rewrite Hb. unfold rd.
  change (@zero32 IEEE.arith) with (Repository.Balance nobody).
  apply map_nth.
Qed.

Lemma same_active : forall i,
  byte_true (rd (Active v) i x00) = Repository.Active (nth i users nobody).
Proof.
  intros i. destruct same as (_ & _ & _ & Ha). unfold Repository.view_flags in Ha.
  unfold rd.
  rewrite <- (map_nth (@Repository.Active IEEE.arith) users nobody i).
  rewrite <- Ha.
  change (Repository.Active nobody) with (byte_true x00).
  rewrite map_nth. reflexivity.
Qed.

(** The scalar reducer, as a fold over the records. *)
Lemma Scalar_over_records :
  SumActiveBalancesScalar v t
  = fold_left
      (fun (acc : spec_float) (user : User) =>
         @add32 IEEE.arith acc
           (@mul32 IEEE.arith (Repository.Balance user)
              (if @Repository.Qualifies IEEE.arith user t
               then @one32 IEEE.arith else @zero32 IEEE.arith)))
      users (@zero32 IEEE.arith).
Proof.
  rewrite Scalar_fold. unfold scalar_sum.
  destruct same as (Hc & _).
  rewrite Hc.
  rewrite <- (map_nth_seq _ users nobody) at 2.
  rewrite fold_left_map.
  apply fold_left_ext_in. intros acc i _.
  unfold contribution, take_value, qualifies, Repository.Qualifies.
  rewrite same_balance, same_active. reflexivity.
Qed.

End RepositoryPath.

(** C6, as it holds: over records whose balances are finite binary32
    numbers, the repository path returns the very float the scalar
    flat-array reducer returns on the view holding the same values. *)
Theorem repository_sum_is_scalar_sum :
  forall (users : list (@Repository.User IEEE.arith)) (v : @UsersView IEEE.arith)
         (t : spec_float),
    Repository.same_values users v ->
    all_finite_users users ->
    Repository.SumActiveBalances (Repository.VectorUserRepository users) t
    = Dod.SumActiveBalances v t.
Proof.
  intros users v t same finite.
  rewrite Dod_is_Scalar, (Scalar_over_records users v t same).
  unfold Repository.SumActiveBalances. rewrite ForEach_fold.
  symmetry.
  apply (fold_left_sim _ _ _ _ (IEEE.good IEEE.prec32 IEEE.emax32)).
  - apply good_pzero.
  - intros acc u Hu Hacc.
    unfold all_finite_users in finite. rewrite Forall_forall in finite.
    destruct (finite u Hu) as [Hv Hf].
    split; [|apply add32_good; assumption].
    destruct (Repository.Qualifies u t).
    + change (@mul32 IEEE.arith (Repository.Balance u) one32)
        with (SFmul IEEE.prec32 IEEE.emax32 (Repository.Balance u) IEEE.one).
      rewrite SFmul_one_r by assumption. reflexivity.
    + destruct (SFmul_finite_zero IEEE.prec32 IEEE.emax32 (Repository.Balance u) false Hf)
        as [s Hs].
      change (@mul32 IEEE.arith (Repository.Balance u) zero32)
        with (SFmul IEEE.prec32 IEEE.emax32 (Repository.Balance u) (S754_zero false)).
      rewrite Hs. apply add_zero_good. assumption.
Qed.

Lemma repository_sum_is_scalar_sum_witness :
  Repository.SumActiveBalances
    (Repository.VectorUserRepository Inputs.spec_example_users) (Inputs.f 250)
  = Dod.SumActiveBalances Inputs.spec_example (Inputs.f 250).
Proof.
  apply (repository_sum_is_scalar_sum Inputs.spec_example_users Inputs.spec_example).
  - repeat split.
  - repeat constructor.
Defined.

(** C6 as stated fails: an inactive record with an infinite balance is
    skipped by the repository path, which returns +0, while the scalar
    reducer multiplies it by 0 and returns a NaN. *)
Lemma repository_sum_counterexample :
  Repository.same_values Inputs.inf_inactive_users Inputs.inf_inactive
  /\ Repository.SumActiveBalances
       (Repository.VectorUserRepository Inputs.inf_inactive_users) (Inputs.f 0)
     = IEEE.pzero
  /\ Dod.SumActiveBalances Inputs.inf_inactive (Inputs.f 0) = S754_nan
  /\ Repository.SumActiveBalances
       (Repository.VectorUserRepository Inputs.inf_inactive_users) (Inputs.f 0)
     <> Dod.SumActiveBalances Inputs.inf_inactive (Inputs.f 0).
Proof.
  split; [repeat split|].
  split; [reflexivity|].
  split; [reflexivity | discriminate].
Qed.

(** ** The dispatcher of the wide-accumulation binary *)

(** What the dispatcher does when it selects the AVX2 kernel: it converts
    the kernel's double to float. *)
Lemma dispatch_avx2_double_converts :
  forall (AR : Arith) (build : Build) (v : UsersView) (t : f32),
    AVX2_defined build = true ->
    COMPILER_CLANG build || COMPILER_GCC build = true ->
    Avx2Double.SumActiveBalances build true v t
    = cvtpd_ps (Avx2Double.SumActiveBalancesAvx2 v t).
Proof.
  intros AR build v t H1 H2. unfold Avx2Double.SumActiveBalances.
  rewrite H1, H2. reflexivity.
Qed.

(** The same-precision dispatcher returns its kernel's float as it is. *)
Lemma dispatch_znver2_unchanged :
  forall (AR : Arith) (build : Build) (v : UsersView) (t : f32),
    AVX2_defined build = true ->
    COMPILER_CLANG build || COMPILER_GCC build = true ->
    Znver2.SumActiveBalances build true v t = Znver2.SumActiveBalancesAvx2 v t.
Proof.
  intros AR build v t H1 H2. unfold Znver2.SumActiveBalances.
  rewrite H1, H2. reflexivity.
Qed.

(** C2, at the balances 1.0 and 2^-24 (both active, threshold 0), built by
    gcc with AVX2 on a CPU that has it: the AVX2 kernel returns the double
    1 + 2^-24, the dispatcher returns the float 1.0, and that float as a
    double is not the kernel's result. *)
Theorem dispatcher_rounds_kernel_double :
  Avx2Double.SumActiveBalancesAvx2 Inputs.one_plus_tiny (Inputs.f 0)
  = S754_finite false 4503599895805952 (-52)
  /\ Avx2Double.SumActiveBalances Inputs.gcc_avx2 true Inputs.one_plus_tiny (Inputs.f 0)
     = IEEE.one
  /\ @cvtps_pd IEEE.arith
       (Avx2Double.SumActiveBalances Inputs.gcc_avx2 true Inputs.one_plus_tiny (Inputs.f 0))
     <> Avx2Double.SumActiveBalancesAvx2 Inputs.one_plus_tiny (Inputs.f 0).
Proof.
  split; [reflexivity|]. split; [reflexivity|].
  vm_compute. discriminate.
Qed.

(** ** Coverage of the index range *)

Lemma main_indices_seq : forall w count,
  main_indices w count = seq 0 (count / w * w).
Proof. intros w count. apply flat_map_counters. Qed.

Lemma indices_cover : forall w count,
  main_indices w count ++ tail_indices w count = seq 0 count.
Proof.
  intros w count. rewrite main_indices_seq. apply seq_groups_tail.
Qed.

Lemma tail_indices_length : forall w count,
  (0 < w)%nat -> length (tail_indices w count) = (count mod w)%nat.
Proof.
  intros w count Hw. unfold tail_indices. rewrite length_seq.
  pose proof (Nat.div_mod_eq count w). lia.
Qed.

(** ** Permuting the arrays *)

Lemma nth_map_in_range : forall (X Y : Type) (f : X -> Y) (l : list X) (i : nat) (d : Y) (d' : X),
  (i < length l)%nat -> nth i (map f l) d = f (nth i l d').
Proof.
  intros X Y f l i d d' Hi.
  rewrite (nth_indep (map f l) d (f d')) by (rewrite length_map; exact Hi).
  apply map_nth.
Qed.

Section Permuted.
Context {AR : Arith}.
Variables (v : UsersView) (t : f32) (p : list nat).
Hypothesis p_perm : Permutation p (seq 0 (Count v)).

Lemma p_length : length p = Count v.
Proof. rewrite (Permutation_length p_perm). apply length_seq. Qed.

(** Position [i] of the permuted view holds element [p[i]] of the view. *)
Lemma contribution_permuted : forall i, (i < Count v)%nat ->
  contribution (permute_view p v) t i = contribution v t (nth i p 0%nat).
Proof.
  intros i Hi. rewrite <- p_length in Hi.
  unfold contribution, take_value, qualifies, permute_view, rd. cbn [Balances Active].
  rewrite (nth_map_in_range _ _ _ p i zero32 0%nat Hi).
  rewrite (nth_map_in_range _ _ _ p i x00 0%nat Hi).
  reflexivity.
Qed.

(** The products of the permuted view are those of the view, permuted. *)
Lemma contributions_permuted :
  Permutation (map (contribution (permute_view p v) t) (seq 0 (Count v)))
              (map (contribution v t) (seq 0 (Count v))).
Proof.
  rewrite (map_ext_in _ (fun i => contribution v t (nth i p 0%nat))).
  - rewrite <- (map_map (fun i => nth i p 0%nat) (contribution v t)).
    rewrite <- p_length at 1. rewrite map_nth_seq.
    apply Permutation_map. exact p_perm.
  - intros i Hi. apply in_seq in Hi. apply contribution_permuted. lia.
Qed.
End Permuted.

(** ** Rounding to nearest even is correct

    The Standard Library gives the operations of [SpecFloat] without
    their error bounds; what the summation analysis needs is proved here:
    rounding is within half a unit in the last place, hence addition is
    within a relative 2^-prec of the exact sum. *)

Section Digits.
Local Open Scope Z_scope.

Lemma digits2_bounds : forall p : positive,
  2 ^ (Zpos (digits2_pos p) - 1) <= Zpos p < 2 ^ Zpos (digits2_pos p).
Proof.
  induction p as [p IH | p IH |]; cbn [digits2_pos].
  - rewrite Pos2Z.inj_succ.
    replace (Z.succ (Zpos (digits2_pos p)) - 1) with (Z.succ (Zpos (digits2_pos p) - 1)) by lia.
    rewrite !Z.pow_succ_r by lia. change (Zpos p~1) with (2 * Zpos p + 1).
    remember (2 ^ (Zpos (digits2_pos p) - 1)) as a.
    remember (2 ^ Zpos (digits2_pos p)) as b. lia.
  - rewrite Pos2Z.inj_succ.
    replace (Z.succ (Zpos (digits2_pos p)) - 1) with (Z.succ (Zpos (digits2_pos p) - 1)) by lia.
    rewrite !Z.pow_succ_r by lia. change (Zpos p~0) with (2 * Zpos p).
    remember (2 ^ (Zpos (digits2_pos p) - 1)) as a.
    remember (2 ^ Zpos (digits2_pos p)) as b. lia.
  - simpl. lia.
Qed.

Lemma digits2_unique : forall (p : positive) (d : Z),
  2 ^ (d - 1) <= Zpos p < 2 ^ d -> Zpos (digits2_pos p) = d.
Proof.
  intros p d [Hlo Hhi].
  pose proof (digits2_bounds p) as [Dlo Dhi].
  assert (Hd : 0 < d).
  { destruct (Z_lt_le_dec 0 d) as [H|H]; [exact H|].
    destruct (Z.eq_dec d 0) as [->|Hn].
    - simpl in Hhi. lia.
    - rewrite Z.pow_neg_r in Hhi by lia. lia. }
  destruct (Z_lt_le_dec (Zpos (digits2_pos p)) d) as [H1|H1].
  - exfalso.
    pose proof (Z.pow_le_mono_r 2 (Zpos (digits2_pos p)) (d - 1)). lia.
  - destruct (Z_lt_le_dec d (Zpos (digits2_pos p))) as [H2|H2]; [|lia].
    exfalso.
    pose proof (Z.pow_le_mono_r 2 d (Zpos (digits2_pos p) - 1)). lia.
Qed.

Lemma shifted_init : forall m, 0 <= m -> shifted m 0 (Build_shr_record m false false).
Proof.
  intros m Hm. exists 0. cbn [shr_m shr_r shr_s Z.b2z]. rewrite Z.pow_0_r.
  repeat split; try lia; discriminate.
Qed.

Lemma shifted_step : forall m k mrs,
  0 <= k -> shifted m k mrs -> shifted m (k + 1) (shr_1 mrs).
Proof.
  intros m k [m' r s] Hk (T & H2m & HT & Hs & Hm').
  cbn [shr_m shr_r shr_s] in *.
  exists (Z.b2z r * 2 ^ k + T).
  rewrite Z.pow_add_r, Z.pow_1_r by lia.
  assert (Hsticky : (r || s)%bool = true <-> 0 < Z.b2z r * 2 ^ k + T).
  { destruct r; cbn [orb Z.b2z].
    - split; [intros _; lia | reflexivity].
    - rewrite Hs. lia. }
  assert (HT' : 0 <= Z.b2z r * 2 ^ k + T < 2 ^ k * 2) by (destruct r; cbn [Z.b2z]; lia).
  destruct m' as [|[p|p|]|p]; cbn [shr_1 shr_m shr_r shr_s Z.b2z]; try lia.
  - repeat split; try lia; try apply Hsticky. 
  - change (Zpos p~1) with (2 * Zpos p + 1) in H2m. repeat split; try lia; apply Hsticky.
  - change (Zpos p~0) with (2 * Zpos p) in H2m. repeat split; try lia; apply Hsticky.
  - repeat split; try lia; apply Hsticky.
Qed.

Lemma shifted_iter : forall (n : nat) m mrs,
  shifted m 0 mrs -> shifted m (Z.of_nat n) (Nat.iter n shr_1 mrs).
Proof.
  induction n as [|n IH]; intros m mrs H.
  - exact H.
  - rewrite Nat2Z.inj_succ. cbn [Nat.iter nat_rect].
    unfold Z.succ. apply shifted_step; [lia | apply IH; exact H].
Qed.
End Digits.

Section Rounding.
Local Open Scope Z_scope.
Variables prec emax : Z.
Hypothesis prec_pos : 0 < prec.
Local Notation "'emin'" := (SpecFloat.emin prec emax).
Local Notation "'fexp'" := (SpecFloat.fexp prec emax).

Lemma shr_fexp_exact_spec : forall m e,
  0 <= m ->
  exists mrs e',
    shr_fexp prec emax m e loc_Exact = (mrs, e')
    /\ e' = Z.max e (fexp (Zdigits2 m + e))
    /\ shifted m (e' - e) mrs.
Proof.
  intros m e Hm. unfold shr_fexp, shr. cbn [shr_record_of_loc].
  destruct (fexp (Zdigits2 m + e) - e) as [|n|n] eqn:Hn.
  - eexists _, _. split; [reflexivity|]. split; [lia|].
    rewrite Z.sub_diag. apply shifted_init; exact Hm.
  - eexists _, _. split; [reflexivity|]. split; [lia|].
    rewrite iter_pos_nat.
    replace (e + Zpos n - e) with (Z.of_nat (Pos.to_nat n)) by (rewrite positive_nat_Z; lia).
    apply shifted_iter. apply shifted_init; exact Hm.
  - eexists _, _. split; [reflexivity|]. split; [lia|].
    rewrite Z.sub_diag. apply shifted_init; exact Hm.
Qed.

(** Rounding the shifted mantissa to nearest, ties to even, is within half
    a unit of the number shifted. *)
Lemma round_shifted : forall m k mrs,
  0 <= k -> shifted m k mrs ->
  let m1 := round_nearest_even (shr_m mrs) (loc_of_shr_record mrs) in
  shr_m mrs <= m1 <= shr_m mrs + 1
  /\ Z.abs (2 * m1 * 2 ^ k - 2 * m) <= 2 ^ k.
Proof.
  intros m k [q r s] Hk (T & H2m & HT & Hs & Hq). cbn [shr_m shr_r shr_s] in *.
  assert (HP : 0 < 2 ^ k) by (apply Z.pow_pos_nonneg; lia).
  remember (2 ^ k) as P.
  destruct r, s; cbn [loc_of_shr_record round_nearest_even Z.b2z] in *.
  - split; [lia|]. nia.
  - assert (T = 0) by (destruct (Z_lt_le_dec 0 T) as [H|H]; [apply Hs in H; discriminate | lia]).
    subst T. destruct (Z.even q); split; try lia; nia.
  - split; [lia|]. nia.
  - assert (T = 0) by (destruct (Z_lt_le_dec 0 T) as [H|H]; [apply Hs in H; discriminate | lia]).
    subst T. split; [lia|]. nia.
Qed.

(** A record shifted by no place is the number itself. *)
Lemma shifted_0 : forall m mrs,
  shifted m 0 mrs -> mrs = Build_shr_record m false false.
Proof.
  intros m [q r s] (T & H2m & HT & Hs & Hq). cbn [shr_m shr_r shr_s] in *.
  rewrite Z.pow_0_r in *.
  assert (T = 0) by lia. subst T.
  destruct r; cbn [Z.b2z] in H2m; [lia|].
  destruct s; [exfalso; assert (0 < 0) by (apply Hs; reflexivity); lia|].
  f_equal. lia.
Qed.

(** Rounding a positive mantissa whose exponent is in the format: the
    result is within 2^-prec, relatively, of the number rounded, and is
    the number itself when it fits the format. *)
Lemma binary_round_aux_correct : forall s (mz : positive) ez,
  emin <= ez ->
  exists (m2 : positive) (e2 : Z),
    binary_round_aux prec emax s (Zpos mz) ez loc_Exact
    = (if e2 <=? emax - prec then S754_finite s m2 e2 else S754_infinity s)
    /\ ez <= e2
    /\ 2 ^ prec * Z.abs (Zpos m2 * 2 ^ (e2 - ez) - Zpos mz) <= Zpos mz
    /\ (fexp (Zpos (digits2_pos mz) + ez) <= ez -> m2 = mz /\ e2 = ez).
Proof.
  intros s mz ez Hez. unfold binary_round_aux.
  destruct (shr_fexp_exact_spec (Zpos mz) ez) as (mrs1 & e1 & H1 & He1 & S1); [lia|].
  rewrite H1. cbn [Zdigits2] in He1.
  set (d := Zpos (digits2_pos mz)) in *.
  pose proof (digits2_bounds mz) as [Dlo Dhi]. fold d in Dlo, Dhi.
  destruct (Z_le_gt_dec (fexp (d + ez)) ez) as [Hfit | Hshift].
  - (* the mantissa fits: nothing is shifted out *)
    assert (Hee : e1 = ez) by lia. rewrite Hee in *. clear Hee. rewrite Z.sub_diag in S1.
    apply shifted_0 in S1. subst mrs1.
    cbn [shr_m loc_of_shr_record round_nearest_even].
    destruct (shr_fexp_exact_spec (Zpos mz) ez) as (mrs2 & e2 & H2 & He2 & S2); [lia|].
    rewrite H2. cbn [Zdigits2] in He2. fold d in He2.
    assert (Hee : e2 = ez) by lia. rewrite Hee in *. clear Hee. rewrite Z.sub_diag in S2.
    apply shifted_0 in S2. subst mrs2. cbn [shr_m].
    exists mz, ez. split; [reflexivity|]. split; [lia|].
    rewrite Z.sub_diag, Z.pow_0_r, Z.mul_1_r, Z.sub_diag. cbn [Z.abs].
    split; [lia | intros _; split; reflexivity].
  - (* the mantissa has more than prec digits *)
    assert (Hf : fexp (d + ez) = d + ez - prec) by (unfold SpecFloat.fexp in *; lia).
    assert (Hk1 : e1 - ez = d - prec) by lia.
    assert (Hk1pos : 0 < d - prec) by lia.
    rewrite Hk1 in S1.
    pose proof (round_shifted (Zpos mz) (d - prec) mrs1 ltac:(lia) S1) as [Hm1 Herr].
    set (m1 := round_nearest_even (shr_m mrs1) (loc_of_shr_record mrs1)) in *.
    destruct S1 as (T & H2m & HT & _ & Hq).
    assert (HP : 0 < 2 ^ (d - prec)) by (apply Z.pow_pos_nonneg; lia).
    assert (Hd : 2 ^ d = 2 ^ prec * 2 ^ (d - prec)).
    { rewrite <- Z.pow_add_r by lia. f_equal. lia. }
    assert (Hd1 : 2 ^ (d - 1) = 2 ^ (prec - 1) * 2 ^ (d - prec)).
    { rewrite <- Z.pow_add_r by lia. f_equal. lia. }
    assert (Hpp : 2 ^ prec = 2 * 2 ^ (prec - 1)).
    { rewrite <- Z.pow_succ_r by lia. f_equal. lia. }
    assert (Hpp1 : 0 < 2 ^ (prec - 1)) by (apply Z.pow_pos_nonneg; lia).
    assert (Hhalf : 2 ^ (d - prec) = 2 * 2 ^ (d - prec - 1)).
    { rewrite <- Z.pow_succ_r by lia. f_equal. lia. }
    assert (Hq_hi : shr_m mrs1 < 2 ^ prec).
    { assert (Z.b2z (shr_r mrs1) = 0 \/ Z.b2z (shr_r mrs1) = 1) by (destruct (shr_r mrs1); auto).
      remember (2 ^ (d - prec)) as P. remember (2 ^ prec) as Q. nia. }
    assert (Hq_lo : 2 ^ (prec - 1) <= shr_m mrs1).
    { assert (Z.b2z (shr_r mrs1) = 0 \/ Z.b2z (shr_r mrs1) = 1) by (destruct (shr_r mrs1); auto).
      remember (2 ^ (d - prec)) as P. remember (2 ^ (prec - 1)) as Q. nia. }
    assert (Hm1pos : 0 < m1) by lia.
    destruct m1 as [|m1p|m1p] eqn:Em1; try lia.
    assert (Herr' : 2 ^ prec * Z.abs (Zpos m1p * 2 ^ (d - prec) - Zpos mz) <= Zpos mz).
    { remember (2 ^ (d - prec - 1)) as P'. remember (2 ^ (prec - 1)) as Q.
      rewrite Hhalf in Herr. rewrite Hd1, Hhalf in Dlo. rewrite Hpp, Hhalf.
      nia. }
    destruct (shr_fexp_exact_spec (Zpos m1p) e1) as (mrs2 & e2 & H2 & He2 & S2); [lia|].
    rewrite H2. cbn [Zdigits2] in He2.
    destruct (Z_lt_le_dec (Zpos m1p) (2 ^ prec)) as [Hnorm | Hcarry].
    + (* no carry: prec digits *)
      assert (Hdig : Zpos (digits2_pos m1p) = prec) by (apply digits2_unique; lia).
      rewrite Hdig in He2.
      assert (Hee : e2 = e1) by (unfold SpecFloat.fexp in *; lia). rewrite Hee in *. clear Hee.
      rewrite Z.sub_diag in S2. apply shifted_0 in S2. subst mrs2. cbn [shr_m].
      exists m1p, e1. split; [reflexivity|]. split; [lia|].
      rewrite Hk1. split; [exact Herr' | intros Hc; lia].
    + (* carry: the rounded mantissa is 2^prec *)
      assert (Hm1eq : Zpos m1p = 2 ^ prec) by lia.
      assert (Hdig : Zpos (digits2_pos m1p) = prec + 1).
      { apply digits2_unique. replace (prec + 1 - 1) with prec by lia.
        rewrite Z.pow_add_r, Z.pow_1_r by lia. lia. }
      rewrite Hdig in He2.
      assert (Hk2 : e2 - e1 = 1) by (unfold SpecFloat.fexp in *; lia).
      rewrite Hk2 in S2.
      destruct S2 as (T2 & H2m2 & HT2 & _ & Hm2).
      rewrite Z.pow_1_r in *.
      assert (T2 = 0) by lia. subst T2.
      assert (Hb2 : Z.b2z (shr_r mrs2) = 0).
      { destruct (shr_r mrs2); cbn [Z.b2z] in *; lia. }
      rewrite Hb2 in H2m2.
      destruct (shr_m mrs2) as [|m2p|m2p] eqn:Em2; try lia.
      exists m2p, e2. split; [reflexivity|]. split; [lia|].
      replace (e2 - ez) with (1 + (d - prec)) by lia.
      rewrite Z.pow_add_r, Z.pow_1_r by lia.
      replace (Zpos m2p * (2 * 2 ^ (d - prec))) with (Zpos m1p * 2 ^ (d - prec)) by lia.
      split; [exact Herr' | intros Hc; lia].
Qed.
End Rounding.

Section RoundingR.
Variables prec emax : Z.
Hypothesis prec_pos : (0 < prec)%Z.
Local Notation "'emin'" := (SpecFloat.emin prec emax).
Local Notation "'fexp'" := (SpecFloat.fexp prec emax).
Local Notation "'u'" := (powerRZ 2 (- prec)).

Lemma IZR_pow2 : forall k, (0 <= k)%Z -> IZR (2 ^ k) = powerRZ 2 k.
Proof.
  intros k Hk. rewrite <- (Z2Nat.id k Hk) at 1 2.
  rewrite <- pow_IZR, <- pow_powerRZ. reflexivity.
Qed.

Lemma powerRZ_2_pos : forall e, (0 < powerRZ 2 e)%R.
Proof. intros e. apply powerRZ_lt. lra. Qed.

Lemma powerRZ_2_split : forall e e', (e <= e')%Z ->
  powerRZ 2 e' = (IZR (2 ^ (e' - e)) * powerRZ 2 e)%R.
Proof.
  intros e e' H. rewrite IZR_pow2 by lia.
  rewrite <- powerRZ_add by lra. f_equal. lia.
Qed.

Lemma u_pow : (IZR (2 ^ prec) * u = 1)%R.
Proof.
  rewrite IZR_pow2 by lia. rewrite <- powerRZ_add by lra.
  replace (prec + - prec)%Z with 0%Z by lia. reflexivity.
Qed.

(** From integers to reals: a relative error of 2^-prec. *)
Lemma relative_error_R : forall (m2 mz : positive) (e2 ez : Z),
  (ez <= e2)%Z ->
  (2 ^ prec * Z.abs (Zpos m2 * 2 ^ (e2 - ez) - Zpos mz) <= Zpos mz)%Z ->
  (Rabs (IZR (Zpos m2) * powerRZ 2 e2 - IZR (Zpos mz) * powerRZ 2 ez)
   <= u * (IZR (Zpos mz) * powerRZ 2 ez))%R.
Proof.
  intros m2 mz e2 ez He H.
  rewrite (powerRZ_2_split ez e2 He).
  replace (IZR (Zpos m2) * (IZR (2 ^ (e2 - ez)) * powerRZ 2 ez)
           - IZR (Zpos mz) * powerRZ 2 ez)%R
    with (IZR (Zpos m2 * 2 ^ (e2 - ez) - Zpos mz) * powerRZ 2 ez)%R
    by (rewrite minus_IZR, mult_IZR; ring).
  rewrite Rabs_mult, (Rabs_pos_eq (powerRZ 2 ez)) by (left; apply powerRZ_2_pos).
  rewrite <- abs_IZR.
  apply IZR_le in H. rewrite mult_IZR in H.
  pose proof u_pow as Hu.
  pose proof (powerRZ_2_pos ez) as Hp.
  pose proof (powerRZ_2_pos (- prec)) as Hup.
  set (X := IZR (Z.abs (Zpos m2 * 2 ^ (e2 - ez) - Zpos mz))) in *.
  assert (HX : (X <= u * IZR (Zpos mz))%R).
  { replace X with (IZR (2 ^ prec) * u * X)%R by (rewrite Hu; ring).
    replace (IZR (2 ^ prec) * u * X)%R with (u * (IZR (2 ^ prec) * X))%R by ring.
    apply Rmult_le_compat_l; [lra | exact H]. }
  replace (u * (IZR (Zpos mz) * powerRZ 2 ez))%R
    with (u * IZR (Zpos mz) * powerRZ 2 ez)%R by ring.
  apply Rmult_le_compat_r; [lra | exact HX].
Qed.

Lemma iter_xO_spec : forall (p m : positive),
  Zpos (Pos.iter xO m p) = (Zpos m * 2 ^ Zpos p)%Z
  /\ Zpos (digits2_pos (Pos.iter xO m p)) = (Zpos (digits2_pos m) + Zpos p)%Z.
Proof.
  intros p m. rewrite Pos2Nat.inj_iter. rewrite <- (positive_nat_Z p).
  induction (Pos.to_nat p) as [|n [IH1 IH2]].
  - simpl. split; lia.
  - cbn [Nat.iter nat_rect]. rewrite Nat2Z.inj_succ, Z.pow_succ_r by lia.
    cbn [digits2_pos]. rewrite Pos2Z.inj_succ.
    change (Zpos (Nat.iter n xO m)~0) with (2 * Zpos (Nat.iter n xO m))%Z.
    split; lia.
Qed.

Lemma shl_align_spec : forall m e e',
  let '(mz, ez) := shl_align m e e' in
  ez = Z.min e e'
  /\ Zpos mz = (Zpos m * 2 ^ (e - ez))%Z
  /\ Zpos (digits2_pos mz) = (Zpos (digits2_pos m) + (e - ez))%Z.
Proof.
  intros m e e'. unfold shl_align.
  destruct (e' - e)%Z as [|p|p] eqn:H.
  - replace (e - e)%Z with 0%Z by lia. rewrite Z.pow_0_r. repeat split; lia.
  - replace (e - e)%Z with 0%Z by lia. rewrite Z.pow_0_r. repeat split; lia.
  - destruct (iter_xO_spec p m) as [H1 H2].
    replace (e - e')%Z with (Zpos p) by lia. repeat split; try lia; assumption.
Qed.

Lemma binary_round_correct : forall s m e,
  (emin <= e)%Z ->
  exists (m2 : positive) (e2 : Z),
    binary_round prec emax s m e
    = (if (e2 <=? emax - prec)%Z then S754_finite s m2 e2 else S754_infinity s)
    /\ (Rabs (IZR (Zpos m2) * powerRZ 2 e2 - IZR (Zpos m) * powerRZ 2 e)
        <= u * (IZR (Zpos m) * powerRZ 2 e))%R
    /\ ((fexp (Zpos (digits2_pos m) + e) <= e)%Z ->
        (IZR (Zpos m2) * powerRZ 2 e2 = IZR (Zpos m) * powerRZ 2 e)%R
        /\ (e2 <= e)%Z).
Proof.
  intros s m e He. unfold binary_round.
  pose proof (shl_align_spec m e (fexp (Zpos (digits2_pos m) + e))) as Hs.
  destruct (shl_align m e _) as [mz ez]. destruct Hs as (Hez & Hmz & Hdz).
  pose proof (fexp_ge_emin prec emax (Zpos (digits2_pos m) + e)) as Hfe.
  destruct (binary_round_aux_correct prec emax prec_pos s mz ez)
    as (m2 & e2 & Hr & Hle & Herr & Hfit); [lia|].
  exists m2, e2. split; [exact Hr|].
  assert (Hval : (IZR (Zpos mz) * powerRZ 2 ez = IZR (Zpos m) * powerRZ 2 e)%R).
  { rewrite Hmz, mult_IZR, (powerRZ_2_split ez e) by lia. ring. }
  split.
  - rewrite <- Hval. apply relative_error_R; assumption.
  - intros Hf.
    assert (Hfz : (fexp (Zpos (digits2_pos mz) + ez) <= ez)%Z).
    { rewrite Hdz. replace (Zpos (digits2_pos m) + (e - ez) + ez)%Z
        with (Zpos (digits2_pos m) + e)%Z by lia. lia. }
    destruct (Hfit Hfz) as [-> ->]. split; [exact Hval | lia].
Qed.

Lemma SF2R_cond_Zopp : forall s m e,
  SF2R (S754_finite s m e)
  = ((if s then -1 else 1) * (IZR (Zpos m) * powerRZ 2 e))%R.
Proof.
  intros s m e. destruct s; cbn [SF2R cond_Zopp].
  - change (Z.opp (Zpos m)) with (Zneg m). rewrite <- (Pos2Z.opp_pos m), opp_IZR. ring.
  - ring.
Qed.

(** Normalizing an integer times a power of two: the value, within a
    relative error of 2^-prec when the result is finite. *)
Lemma binary_normalize_error : forall z e sz,
  (emin <= e)%Z ->
  IEEE.is_finite (binary_normalize prec emax z e sz) = true ->
  (Rabs (SF2R (binary_normalize prec emax z e sz) - IZR z * powerRZ 2 e)
   <= u * Rabs (IZR z * powerRZ 2 e))%R.
Proof.
  intros z e sz He Hfin. unfold binary_normalize in *.
  pose proof (powerRZ_2_pos e) as Hp.
  destruct z as [|m|m].
  - cbn [SF2R]. rewrite Rmult_0_l, Rminus_0_r, Rabs_R0. lra.
  - destruct (binary_round_correct false m e He) as (m2 & e2 & Hr & Herr & _).
    rewrite Hr in *. destruct (e2 <=? emax - prec)%Z; [|discriminate].
    rewrite SF2R_cond_Zopp, Rmult_1_l.
    rewrite (Rabs_pos_eq (IZR (Zpos m) * powerRZ 2 e)); [exact Herr|].
    apply Rmult_le_pos; [apply IZR_le; lia | lra].
  - destruct (binary_round_correct true m e He) as (m2 & e2 & Hr & Herr & _).
    rewrite Hr in *. destruct (e2 <=? emax - prec)%Z; [|discriminate].
    rewrite SF2R_cond_Zopp.
    rewrite <- (Pos2Z.opp_pos m), opp_IZR.
    replace (-1 * (IZR (Zpos m2) * powerRZ 2 e2) - - IZR (Zpos m) * powerRZ 2 e)%R
      with (- (IZR (Zpos m2) * powerRZ 2 e2 - IZR (Zpos m) * powerRZ 2 e))%R by ring.
    rewrite Rabs_Ropp.
    replace (- IZR (Zpos m) * powerRZ 2 e)%R with (- (IZR (Zpos m) * powerRZ 2 e))%R by ring.
    rewrite Rabs_Ropp, (Rabs_pos_eq (IZR (Zpos m) * powerRZ 2 e)); [exact Herr|].
    apply Rmult_le_pos; [apply IZR_le; lia | lra].
Qed.

Lemma SFadd_finite_inv : forall x y,
  IEEE.is_finite (SFadd prec emax x y) = true ->
  IEEE.is_finite x = true /\ IEEE.is_finite y = true.
Proof.
  intros x y H.
  destruct x as [sx|sx| |sx mx ex], y as [sy|sy| |sy my ey]; simpl in *;
    try discriminate; try (split; reflexivity);
    destruct sx, sy; discriminate.
Qed.

(** The aligned mantissa of an operand is worth the operand. *)
Lemma aligned_value : forall s m e ez,
  (ez <= e)%Z ->
  (IZR (cond_Zopp s (Zpos (fst (shl_align m e ez)))) * powerRZ 2 ez
   = SF2R (S754_finite s m e))%R.
Proof.
  intros s m e ez He.
  pose proof (shl_align_spec m e ez) as Hs.
  destruct (shl_align m e ez) as [mz ez']. destruct Hs as (Hez & Hmz & _).
  cbn [fst]. replace ez' with ez in * by lia.
  rewrite SF2R_cond_Zopp.
  destruct s; cbn [cond_Zopp].
  - rewrite opp_IZR, Hmz, mult_IZR, (powerRZ_2_split ez e He). ring.
  - rewrite Hmz, mult_IZR, (powerRZ_2_split ez e He). ring.
Qed.

(** The standard model of floating-point addition: the sum of the values,
    within a relative error of 2^-prec, when the result is finite. *)
Theorem SFadd_error : forall x y,
  IEEE.expo_ok prec emax x -> IEEE.expo_ok prec emax y ->
  IEEE.is_finite (SFadd prec emax x y) = true ->
  (Rabs (SF2R (SFadd prec emax x y) - (SF2R x + SF2R y))
   <= u * Rabs (SF2R x + SF2R y))%R.
Proof.
  intros x y Ex Ey Hfin.
  pose proof (powerRZ_2_pos (- prec)) as Hu.
  assert (Hexact : forall a b : R, (a = b -> Rabs (a - b) <= u * Rabs b)%R).
  { intros a b ->. rewrite Rminus_diag, Rabs_R0.
    apply Rmult_le_pos; [lra | apply Rabs_pos]. }
  destruct x as [sx|sx| |sx mx ex], y as [sy|sy| |sy my ey];
    try discriminate;
    try (apply Hexact; destruct sx, sy; cbn [SFadd SF2R]; ring);
    try (destruct sx, sy; discriminate).
  cbn [SFadd] in *. cbn [IEEE.expo_ok] in Ex, Ey.
  match goal with
  | |- context [binary_normalize _ _ _ ?e _] =>
      assert (Hez : (e <= ex /\ e <= ey /\ emin <= e)%Z) by lia;
      set (ez := e) in *
  end.
  rewrite <- (aligned_value sx mx ex ez) by lia.
  rewrite <- (aligned_value sy my ey ez) by lia.
  rewrite <- Rmult_plus_distr_r, <- plus_IZR.
  apply binary_normalize_error; [lia | exact Hfin].
Qed.
End RoundingR.

(** Widening a finite float to double changes nothing of its value. *)
Lemma cvtps_pd_exact : forall x,
  IEEE.is_b32 x = true -> IEEE.is_finite x = true ->
  IEEE.is_finite (IEEE.convert IEEE.prec64 IEEE.emax64 x) = true
  /\ SF2R (IEEE.convert IEEE.prec64 IEEE.emax64 x) = SF2R x.
Proof.
  intros x Hv Hf. destruct x as [s|s| |s m e]; try discriminate.
  - split; reflexivity.
  - unfold IEEE.is_b32 in Hv. cbn [valid_binary] in Hv.
    unfold bounded, canonical_mantissa in Hv.
    apply andb_prop in Hv. destruct Hv as [Hc Hb].
    apply Z.eqb_eq in Hc. apply Z.leb_le in Hb.
    assert (Hconv : IEEE.convert IEEE.prec64 IEEE.emax64 (S754_finite s m e)
                    = binary_round IEEE.prec64 IEEE.emax64 s m e)
      by (destruct s; reflexivity).
    rewrite Hconv.
    destruct (binary_round_correct IEEE.prec64 IEEE.emax64 prec64_pos s m e)
      as (m2 & e2 & Hr & _ & Hfit).
    { unfold SpecFloat.fexp, SpecFloat.emin, IEEE.prec32, IEEE.emax32,
        IEEE.prec64, IEEE.emax64 in *. lia. }
    destruct Hfit as [Hval He2].
    { unfold SpecFloat.fexp, SpecFloat.emin, IEEE.prec32, IEEE.emax32,
        IEEE.prec64, IEEE.emax64 in *. lia. }
    rewrite Hr.
    assert (Hle : (e2 <=? IEEE.emax64 - IEEE.prec64)%Z = true).
    { apply Z.leb_le. unfold IEEE.prec32, IEEE.emax32, IEEE.prec64, IEEE.emax64 in *. lia. }
    rewrite Hle. split; [reflexivity|].
    rewrite !SF2R_cond_Zopp, Hval. reflexivity.
Qed.

Section ErrorAccumulation.
Variables prec emax : Z.
Hypothesis prec_pos : (0 < prec)%Z.
Local Notation "'u'" := (powerRZ 2 (- prec)).
Local Open Scope R_scope.

Lemma u_pos : 0 < u.
Proof. apply powerRZ_2_pos. Qed.

Lemma growth_nonneg : forall k, 0 <= (1 + u) ^ k - 1.
Proof.
  intros k. pose proof u_pos.
  assert (1 <= (1 + u) ^ k) by (apply pow_R1_Rle; lra). lra.
Qed.

Lemma growth_mono : forall k k', (k <= k')%nat -> (1 + u) ^ k - 1 <= (1 + u) ^ k' - 1.
Proof.
  intros k k' H. pose proof u_pos.
  assert ((1 + u) ^ k <= (1 + u) ^ k') by (apply Rle_pow; [lra | exact H]). lra.
Qed.

Lemma approx_weaken : forall k k' a e M,
  (k <= k')%nat -> approx prec k a e M -> approx prec k' a e M.
Proof.
  intros k k' a e M H [H1 H2]. unfold gamma in *. split; [|exact H2].
  apply Rle_trans with (1 := H1).
  apply Rmult_le_compat_r; [|apply growth_mono; exact H].
  apply Rle_trans with (2 := H2). apply Rabs_pos.
Qed.

Lemma tracks_weaken : forall k k' x e M,
  (k <= k')%nat -> tracks prec emax k x e M -> tracks prec emax k' x e M.
Proof.
  intros k k' x e M H T Hf. destruct (T Hf) as [E A].
  split; [exact E | apply approx_weaken with (1 := H); exact A].
Qed.

Lemma tracks_exact : forall x,
  IEEE.expo_ok prec emax x -> tracks prec emax 0 x (SF2R x) (Rabs (SF2R x)).
Proof.
  intros x E _. split; [exact E|]. split.
  - rewrite Rminus_diag, Rabs_R0. unfold gamma. simpl. lra.
  - lra.
Qed.

Lemma tracks_zero : forall s, tracks prec emax 0 (S754_zero s) 0 0.
Proof.
  intros s _. split; [exact I|]. split; unfold gamma; simpl.
  - rewrite Rminus_diag, Rabs_R0. lra.
  - rewrite Rabs_R0. lra.
Qed.

Lemma tracks_eq : forall k x e e' M M',
  e = e' -> M = M' -> tracks prec emax k x e M -> tracks prec emax k x e' M'.
Proof. intros k x e e' M M' -> ->. trivial. Qed.

(** One rounded addition of two tracked floats. *)
Lemma approx_add : forall k a b fl ea eb Ma Mb,
  approx prec k a ea Ma -> approx prec k b eb Mb ->
  Rabs (fl - (a + b)) <= u * Rabs (a + b) ->
  approx prec (S k) fl (ea + eb) (Ma + Mb).
Proof.
  intros k a b fl ea eb Ma Mb [Ha1 Ha2] [Hb1 Hb2] Hfl.
  unfold approx, gamma in *.
  pose proof u_pos as Hu. pose proof (growth_nonneg k) as HG.
  set (G := (1 + u) ^ k - 1) in *.
  assert (HG' : (1 + u) ^ S k - 1 = u * (1 + G) + G) by (unfold G; simpl; ring).
  assert (HMa : 0 <= Ma) by (apply Rle_trans with (2 := Ha2); apply Rabs_pos).
  assert (HMb : 0 <= Mb) by (apply Rle_trans with (2 := Hb2); apply Rabs_pos).
  assert (Hsum : Rabs (a + b) <= (1 + G) * (Ma + Mb)).
  { replace (a + b) with ((a - ea) + (b - eb) + (ea + eb)) by ring.
    pose proof (Rabs_triang ((a - ea) + (b - eb)) (ea + eb)).
    pose proof (Rabs_triang (a - ea) (b - eb)).
    pose proof (Rabs_triang ea eb). lra. }
  split.
  - rewrite HG'.
    replace (fl - (ea + eb)) with ((fl - (a + b)) + ((a - ea) + (b - eb))) by ring.
    pose proof (Rabs_triang (fl - (a + b)) ((a - ea) + (b - eb))).
    pose proof (Rabs_triang (a - ea) (b - eb)).
    assert (u * Rabs (a + b) <= u * ((1 + G) * (Ma + Mb)))
      by (apply Rmult_le_compat_l; lra).
    lra.
  - pose proof (Rabs_triang ea eb). lra.
Qed.

Lemma tracks_add : forall k a b ea eb Ma Mb,
  tracks prec emax k a ea Ma -> tracks prec emax k b eb Mb ->
  tracks prec emax (S k) (SFadd prec emax a b) (ea + eb) (Ma + Mb).
Proof.
  intros k a b ea eb Ma Mb Ta Tb Hf.
  destruct (SFadd_finite_inv prec emax a b Hf) as [Hfa Hfb].
  destruct (Ta Hfa) as [Ea Aa]. destruct (Tb Hfb) as [Eb Ab].
  split.
  - apply SFadd_expo; assumption.
  - apply approx_add with (1 := Aa) (2 := Ab).
    apply SFadd_error; assumption.
Qed.

(** Adding a fresh term to an accumulator. *)
Lemma tracks_accumulate : forall k acc c e M x,
  tracks prec emax k acc e M -> tracks prec emax 0 c x (Rabs x) ->
  tracks prec emax (S k) (SFadd prec emax acc c) (e + x) (M + Rabs x).
Proof.
  intros k acc c e M x Ta Tc.
  apply tracks_add; [exact Ta|].
  apply tracks_weaken with (2 := Tc). lia.
Qed.

(** An accumulator left as it is, for a term that is zero. *)
Lemma tracks_skip : forall k acc e M,
  tracks prec emax k acc e M -> tracks prec emax (S k) acc (e + 0) (M + Rabs 0).
Proof.
  intros k acc e M T.
  apply tracks_eq with (e := e) (M := M); [ring | rewrite Rabs_R0; ring|].
  apply tracks_weaken with (2 := T). lia.
Qed.
End ErrorAccumulation.

(** ** Rounding errors of the reducers *)

Section KernelErrors.
Local Notation "'tracks32'" := (tracks IEEE.prec32 IEEE.emax32).
Local Notation "'tracks64'" := (tracks IEEE.prec64 IEEE.emax64).
Variables (v : @UsersView IEEE.arith) (t : spec_float).
Hypothesis valid : finite_b32_view v.
Local Open Scope R_scope.

Lemma contribution_value : forall i, (i < Count v)%nat ->
  contribution v t i
  = if qualifies v t i then rd (Balances v) i IEEE.pzero
    else S754_zero (match rd (Balances v) i IEEE.pzero with
                    | S754_zero s | S754_finite s _ _ => xorb s false
                    | _ => false end).
Proof.
  intros i Hi. destruct (valid i Hi) as [Hv Hf].
  unfold contribution, take_value.
  change (@zero32 IEEE.arith) with IEEE.pzero.
  destruct (qualifies v t i).
  - apply SFmul_one_r; assumption.
  - change (@mul32 IEEE.arith) with (SFmul IEEE.prec32 IEEE.emax32).
    destruct (rd (Balances v) i IEEE.pzero) as [s|s| |s m e]; try discriminate; reflexivity.
Qed.

Lemma balance_tracks32 : forall i, (i < Count v)%nat -> qualifies v t i = true ->
  tracks32 0 (rd (Balances v) i IEEE.pzero) (rcontrib v t i) (Rabs (rcontrib v t i)).
Proof.
  intros i Hi Hq. destruct (valid i Hi) as [Hv Hf].
  unfold rcontrib. rewrite Hq. apply tracks_exact. apply valid_expo_ok. exact Hv.
Qed.

Lemma balance_tracks64 : forall i, (i < Count v)%nat -> qualifies v t i = true ->
  tracks64 0 (IEEE.convert IEEE.prec64 IEEE.emax64 (rd (Balances v) i IEEE.pzero))
    (rcontrib v t i) (Rabs (rcontrib v t i)).
Proof.
  intros i Hi Hq. destruct (valid i Hi) as [Hv Hf].
  destruct (cvtps_pd_exact _ Hv Hf) as [_ Hval].
  unfold rcontrib. rewrite Hq, <- Hval. apply tracks_exact. apply convert_expo.
Qed.

Lemma contribution_tracks32 : forall i, (i < Count v)%nat ->
  tracks32 0 (contribution v t i) (rcontrib v t i) (Rabs (rcontrib v t i)).
Proof.
  intros i Hi. rewrite (contribution_value i Hi).
  destruct (qualifies v t i) eqn:Hq.
  - apply balance_tracks32; assumption.
  - unfold rcontrib. rewrite Hq, Rabs_R0. apply tracks_zero.
Qed.

Lemma contribution_tracks64 : forall i, (i < Count v)%nat ->
  tracks64 0 (IEEE.convert IEEE.prec64 IEEE.emax64 (contribution v t i))
    (rcontrib v t i) (Rabs (rcontrib v t i)).
Proof.
  intros i Hi. rewrite (contribution_value i Hi).
  destruct (qualifies v t i) eqn:Hq.
  - apply balance_tracks64; assumption.
  - unfold rcontrib. rewrite Hq, Rabs_R0. apply tracks_zero.
Qed.

(** A run of additions of products, in single precision. *)
Lemma products32_tracks : forall l,
  (forall i, In i l -> (i < Count v)%nat) ->
  forall k acc e M,
    tracks32 k acc e M ->
    tracks32 (k + length l) (scalar_sum v t l acc)
      (e + exact_sum v t l) (M + magnitude v t l).
Proof.
  induction l as [|i l IH]; intros Hl k acc e M T.
  - unfold exact_sum, magnitude. simpl. rewrite Nat.add_0_r, !Rplus_0_r. exact T.
  - unfold exact_sum, magnitude in *. cbn [map Rsum fold_right length scalar_sum fold_left].
    replace (k + S (length l))%nat with (S k + length l)%nat by lia.
    rewrite <- !Rplus_assoc.
    apply (IH (fun j Hj => Hl j (or_intror Hj))).
    apply (tracks_accumulate IEEE.prec32 IEEE.emax32 prec32_pos).
    + exact T.
    + apply contribution_tracks32. apply Hl. left; reflexivity.
Qed.

(** The same with each product widened and added in double precision. *)
Lemma products64_tracks : forall l,
  (forall i, In i l -> (i < Count v)%nat) ->
  forall k acc e M,
    tracks64 k acc e M ->
    tracks64 (k + length l)
      (fold_left (fun a i => SFadd IEEE.prec64 IEEE.emax64 a
                               (IEEE.convert IEEE.prec64 IEEE.emax64 (contribution v t i)))
                 l acc)
      (e + exact_sum v t l) (M + magnitude v t l).
Proof.
  induction l as [|i l IH]; intros Hl k acc e M T.
  - unfold exact_sum, magnitude. simpl. rewrite Nat.add_0_r, !Rplus_0_r. exact T.
  - unfold exact_sum, magnitude in *. cbn [map Rsum fold_right length fold_left].
    replace (k + S (length l))%nat with (S k + length l)%nat by lia.
    rewrite <- !Rplus_assoc.
    apply (IH (fun j Hj => Hl j (or_intror Hj))).
    apply (tracks_accumulate IEEE.prec64 IEEE.emax64 prec64_pos).
    + exact T.
    + apply contribution_tracks64. apply Hl. left; reflexivity.
Qed.

(** The tail loops. *)
Lemma tail32_tracks : forall l,
  (forall i, In i l -> (i < Count v)%nat) ->
  forall k acc e M,
    tracks32 k acc e M ->
    tracks32 (k + length l)
      (fold_left (fun a i => Znver2.tail_body (Balances v) (Active v) t i a) l acc)
      (e + exact_sum v t l) (M + magnitude v t l).
Proof.
  induction l as [|i l IH]; intros Hl k acc e M T.
  - unfold exact_sum, magnitude. simpl. rewrite Nat.add_0_r, !Rplus_0_r. exact T.
  - unfold exact_sum, magnitude in *. cbn [map Rsum fold_right length fold_left].
    replace (k + S (length l))%nat with (S k + length l)%nat by lia.
    rewrite <- !Rplus_assoc.
    apply (IH (fun j Hj => Hl j (or_intror Hj))).
    assert (Hi : (i < Count v)%nat) by (apply Hl; left; reflexivity).
    unfold Znver2.tail_body. fold (qualifies v t i).
    destruct (qualifies v t i) eqn:Hq.
    + apply (tracks_accumulate IEEE.prec32 IEEE.emax32 prec32_pos); [exact T|].
      apply balance_tracks32; assumption.
    + unfold rcontrib. rewrite Hq. apply tracks_skip. exact T.
Qed.

Lemma tail64_tracks : forall l,
  (forall i, In i l -> (i < Count v)%nat) ->
  forall k acc e M,
    tracks64 k acc e M ->
    tracks64 (k + length l)
      (fold_left (fun a i => Avx2Double.tail_body (Balances v) (Active v) t i a) l acc)
      (e + exact_sum v t l) (M + magnitude v t l).
Proof.
  induction l as [|i l IH]; intros Hl k acc e M T.
  - unfold exact_sum, magnitude. simpl. rewrite Nat.add_0_r, !Rplus_0_r. exact T.
  - unfold exact_sum, magnitude in *. cbn [map Rsum fold_right length fold_left].
    replace (k + S (length l))%nat with (S k + length l)%nat by lia.
    rewrite <- !Rplus_assoc.
    apply (IH (fun j Hj => Hl j (or_intror Hj))).
    assert (Hi : (i < Count v)%nat) by (apply Hl; left; reflexivity).
    unfold Avx2Double.tail_body. fold (qualifies v t i).
    destruct (qualifies v t i) eqn:Hq.
    + apply (tracks_accumulate IEEE.prec64 IEEE.emax64 prec64_pos); [exact T|].
      apply balance_tracks64; assumption.
    + unfold rcontrib. rewrite Hq. apply tracks_skip. exact T.
Qed.
End KernelErrors.

(** ** Lanes as sequential accumulations *)

Lemma zip_with_length : forall (A B : Type) (f : A -> B -> A) (la : list A) (lb : list B),
  length (zip_with f la lb) = Nat.min (length la) (length lb).
Proof.
  intros A B f la; induction la as [|a la IH]; intros [|b lb]; simpl; try reflexivity.
  rewrite IH. reflexivity.
Qed.

Lemma zip_with_seq_nth : forall (A : Type) (f : A -> nat -> A) (la : list A) (g w j : nat) (d : A),
  (j < length la)%nat -> (j < w)%nat ->
  nth j (zip_with f la (seq g w)) d = f (nth j la d) (g + j)%nat.
Proof.
  intros A f la; induction la as [|a la IH]; intros g w j d Hj Hw; [simpl in Hj; lia|].
  destruct w as [|w]; [lia|]. destruct j as [|j]; simpl.
  - rewrite Nat.add_0_r. reflexivity.
  - rewrite IH by (simpl in Hj; lia). f_equal. lia.
Qed.

(** Lane [j] of a register updated group after group is an accumulation
    over the indices [g + j]. *)
Lemma lane_fold : forall (A : Type) (f : A -> nat -> A) (w : nat) (gs : list nat)
    (L : list A) (j : nat) (d : A),
  length L = w -> (j < w)%nat ->
  nth j (fold_left (fun L g => zip_with f L (seq g w)) gs L) d
  = fold_left f (map (fun g => g + j)%nat gs) (nth j L d).
Proof.
  intros A f w gs; induction gs as [|g gs IH]; intros L j d HL Hj; [reflexivity|].
  cbn [fold_left map]. rewrite IH.
  - rewrite zip_with_seq_nth by lia. reflexivity.
  - rewrite zip_with_length, length_seq. lia.
  - exact Hj.
Qed.

Lemma counters_length : forall start step n, length (counters start step n) = n.
Proof. intros. unfold counters. rewrite length_map, length_seq. reflexivity. Qed.

Section LaneRuns.
Context {AR : Arith} {LAWS : ArithLaws AR}.

Lemma lanes64_fold : forall v t gs acc,
  lanes64 (fold_left (fun acc g => Avx2Double.main_body (Balances v) (Active v)
                                     (m256_set1 t) (m256_set1 one32) g acc) gs acc)
  = fold_left (fun L g => zip_with (fun a i => add64 a (cvtps_pd (contribution v t i)))
                            L (seq g 8))
      gs (lanes64 acc).
Proof.
  intros v t gs; induction gs as [|g gs IH]; intros acc; [reflexivity|].
  cbn [fold_left]. rewrite IH, main64_lanes. reflexivity.
Qed.

Lemma lanes32_fold : forall v t gs acc,
  lanes32 (fold_left (fun acc g => Znver2.main_body (Balances v) (Active v)
                                     (m256_set1 t) (m256_set1 one32) g acc) gs acc)
  = fold_left (fun L g => zip_with (fun a i => add32 a (contribution v t i))
                            L (seq g 16))
      gs (lanes32 acc).
Proof.
  intros v t gs; induction gs as [|g gs IH]; intros acc; [reflexivity|].
  cbn [fold_left]. rewrite IH, main32_lanes. reflexivity.
Qed.
End LaneRuns.

(** ** Sums of reals *)

Section RealSums.
Local Open Scope R_scope.

Lemma Rsum_app : forall l1 l2, Rsum (l1 ++ l2) = Rsum l1 + Rsum l2.
Proof.
  induction l1 as [|x l1 IH]; intros l2; simpl; [ring | rewrite IH; ring].
Qed.

Lemma Rsum_map_plus : forall (X : Type) (f g : X -> R) (l : list X),
  Rsum (map (fun x => f x + g x) l) = Rsum (map f l) + Rsum (map g l).
Proof.
  intros X f g l; induction l as [|x l IH]; simpl; [ring | rewrite IH; ring].
Qed.

Lemma Rsum_zero : forall (X : Type) (l : list X), Rsum (map (fun _ => 0) l) = 0.
Proof. intros X l; induction l as [|x l IH]; simpl; [reflexivity | rewrite IH; ring]. Qed.

Lemma Rsum_Permutation : forall l1 l2, Permutation.Permutation l1 l2 -> Rsum l1 = Rsum l2.
Proof. induction 1; simpl; try lra. Qed.

Lemma seq_shift_map : forall g w, seq g w = map (fun j => g + j)%nat (seq 0 w).
Proof.
  intros g w. revert g. induction w as [|w IH]; intros g; [reflexivity|].
  simpl. rewrite Nat.add_0_r. f_equal.
  rewrite (IH (S g)), <- (seq_shift w 0), map_map. apply map_ext. intros j. lia.
Qed.

(** Summing lane by lane is summing group by group. *)
Lemma Rsum_lanes : forall (x : nat -> R) (w : nat) (gs : list nat),
  Rsum (map (fun j => Rsum (map x (map (fun g => g + j)%nat gs))) (seq 0 w))
  = Rsum (map x (flat_map (fun g => seq g w) gs)).
Proof.
  intros x w gs. induction gs as [|g gs IH].
  - simpl. apply Rsum_zero.
  - cbn [map flat_map]. rewrite map_app, Rsum_app, <- IH.
    rewrite (seq_shift_map g w), map_map.
    rewrite <- Rsum_map_plus. reflexivity.
Qed.
End RealSums.

Lemma nth_all_equal : forall (A : Type) (l : list A) (d : A) (j : nat),
  Forall (fun a => a = d) l -> nth j l d = d.
Proof.
  intros A l d j H. revert j. induction H as [|a l Ha _ IH]; intros [|j]; simpl; auto.
Qed.

Section VectorErrors.
Local Notation "'tracks32'" := (tracks IEEE.prec32 IEEE.emax32).
Local Notation "'tracks64'" := (tracks IEEE.prec64 IEEE.emax64).
Variables (v : @UsersView IEEE.arith) (t : spec_float).
Hypothesis valid : finite_b32_view v.
Local Open Scope R_scope.

Lemma lane32_tracks : forall j, (j < 16)%nat ->
  tracks32 (Count v / 16)
    (nth j (lanes32 (Znver2.main_loop v t)) IEEE.pzero)
    (exact_sum v t (map (fun g => g + j)%nat (counters 0 16 (Count v / 16))))
    (magnitude v t (map (fun g => g + j)%nat (counters 0 16 (Count v / 16)))).
Proof.
  intros j Hj. unfold Znver2.main_loop.
  rewrite (@lanes32_fold IEEE.arith IEEE_laws).
  rewrite (lane_fold _ _ 16) by (reflexivity || exact Hj).
  rewrite nth_all_equal by (repeat constructor).
  set (l := map (fun g => (g + j)%nat) (counters 0 16 (Count v / 16))).
  apply (tracks_eq IEEE.prec32 IEEE.emax32 (Count v / 16) _
           (0 + exact_sum v t l) _ (0 + magnitude v t l)); [ring | ring |].
  replace (Count v / 16)%nat with (0 + length l)%nat
    by (unfold l; rewrite length_map, counters_length; reflexivity).
  apply (products32_tracks v t valid l).
  - intros i Hi. unfold l in Hi. apply in_map_iff in Hi. destruct Hi as (g & <- & Hg).
    apply (group_lane_bound 16 (Count v) g); [exact Hg|]. apply in_seq. lia.
  - apply tracks_zero.
Qed.

Lemma lane64_tracks : forall j, (j < 8)%nat ->
  tracks64 (Count v / 8)
    (nth j (lanes64 (Avx2Double.main_loop v t)) IEEE.pzero)
    (exact_sum v t (map (fun g => g + j)%nat (counters 0 8 (Count v / 8))))
    (magnitude v t (map (fun g => g + j)%nat (counters 0 8 (Count v / 8)))).
Proof.
  intros j Hj. unfold Avx2Double.main_loop.
  rewrite (@lanes64_fold IEEE.arith IEEE_laws).
  rewrite (lane_fold _ _ 8) by (reflexivity || exact Hj).
  rewrite nth_all_equal by (repeat constructor).
  set (l := map (fun g => (g + j)%nat) (counters 0 8 (Count v / 8))).
  apply (tracks_eq IEEE.prec64 IEEE.emax64 (Count v / 8) _
           (0 + exact_sum v t l) _ (0 + magnitude v t l)); [ring | ring |].
  replace (Count v / 8)%nat with (0 + length l)%nat
    by (unfold l; rewrite length_map, counters_length; reflexivity).
  apply (products64_tracks v t valid l).
  - intros i Hi. unfold l in Hi. apply in_map_iff in Hi. destruct Hi as (g & <- & Hg).
    apply (group_lane_bound 8 (Count v) g); [exact Hg|]. apply in_seq. lia.
  - apply tracks_zero.
Qed.
End VectorErrors.

Section HorizontalSums.
Local Notation "'tracks32'" := (tracks IEEE.prec32 IEEE.emax32).
Local Notation "'tracks64'" := (tracks IEEE.prec64 IEEE.emax64).
Local Open Scope R_scope.

(** The horizontal sums are balanced trees of additions: four levels
    over sixteen float lanes, three over eight double lanes. *)
Lemma hsum32_tracks : forall (acc : m256 spec_float * m256 spec_float) (K : nat) (E M : nat -> R),
  (forall j, (j < 16)%nat -> tracks32 K (nth j (lanes32 acc) IEEE.pzero) (E j) (M j)) ->
  tracks32 (K + 4) (@Znver2.horizontal_sum IEEE.arith (fst acc) (snd acc))
    (Rsum (map E (seq 0 16))) (Rsum (map M (seq 0 16))).
Proof.
  intros [[[a0 a1 a2 a3] [a4 a5 a6 a7]] [[b0 b1 b2 b3] [b4 b5 b6 b7]]] K E M H.
  pose proof (H 0%nat ltac:(lia)) as H0. pose proof (H 1%nat ltac:(lia)) as H1.
  pose proof (H 2%nat ltac:(lia)) as H2. pose proof (H 3%nat ltac:(lia)) as H3.
  pose proof (H 4%nat ltac:(lia)) as H4. pose proof (H 5%nat ltac:(lia)) as H5.
  pose proof (H 6%nat ltac:(lia)) as H6. pose proof (H 7%nat ltac:(lia)) as H7.
  pose proof (H 8%nat ltac:(lia)) as H8. pose proof (H 9%nat ltac:(lia)) as H9.
  pose proof (H 10%nat ltac:(lia)) as H10. pose proof (H 11%nat ltac:(lia)) as H11.
  pose proof (H 12%nat ltac:(lia)) as H12. pose proof (H 13%nat ltac:(lia)) as H13.
  pose proof (H 14%nat ltac:(lia)) as H14. pose proof (H 15%nat ltac:(lia)) as H15.
  clear H.
  cbv [lanes32 m256_lanes m128_lanes fst snd lo hi x0 x1 x2 x3 app nth] in *.
  replace (K + 4)%nat with (S (S (S (S K)))) by lia.
  cbv [Znver2.horizontal_sum mm_hadd_ps m256_map2 m128_map2 fst snd lo hi x0 x1 x2 x3].
  change (@add32 IEEE.arith) with (SFadd IEEE.prec32 IEEE.emax32).
  eapply tracks_eq;
    [ | | repeat (apply (tracks_add IEEE.prec32 IEEE.emax32 prec32_pos)); eassumption ].
  - cbv [seq map Rsum fold_right]. ring.
  - cbv [seq map Rsum fold_right]. ring.
Qed.

Lemma hsum64_tracks : forall (acc : m256d spec_float * m256d spec_float) (K : nat) (E M : nat -> R),
  (forall j, (j < 8)%nat -> tracks64 K (nth j (lanes64 acc) IEEE.pzero) (E j) (M j)) ->
  tracks64 (K + 3) (@Avx2Double.horizontal_sum IEEE.arith (fst acc) (snd acc))
    (Rsum (map E (seq 0 8))) (Rsum (map M (seq 0 8))).
Proof.
  intros [[[a0 a1] [a2 a3]] [[b0 b1] [b2 b3]]] K E M H.
  pose proof (H 0%nat ltac:(lia)) as H0. pose proof (H 1%nat ltac:(lia)) as H1.
  pose proof (H 2%nat ltac:(lia)) as H2. pose proof (H 3%nat ltac:(lia)) as H3.
  pose proof (H 4%nat ltac:(lia)) as H4. pose proof (H 5%nat ltac:(lia)) as H5.
  pose proof (H 6%nat ltac:(lia)) as H6. pose proof (H 7%nat ltac:(lia)) as H7.
  clear H.
  cbv [lanes64 m256d_lanes fst snd dlo dhi d0 d1 app nth] in *.
  replace (K + 3)%nat with (S (S (S K))) by lia.
  cbv [Avx2Double.horizontal_sum mm_unpackhi_pd m256d_map2 m128d_map2 fst snd dlo dhi d0 d1].
  change (@add64 IEEE.arith) with (SFadd IEEE.prec64 IEEE.emax64).
  eapply tracks_eq;
    [ | | repeat (apply (tracks_add IEEE.prec64 IEEE.emax64 prec64_pos)); eassumption ].
  - cbv [seq map Rsum fold_right]. ring.
  - cbv [seq map Rsum fold_right]. ring.
Qed.
End HorizontalSums.

Section ReducerErrors.
Local Notation "'tracks32'" := (tracks IEEE.prec32 IEEE.emax32).
Local Notation "'tracks64'" := (tracks IEEE.prec64 IEEE.emax64).
Variables (v : @UsersView IEEE.arith) (t : spec_float).
Hypothesis valid : finite_b32_view v.
Local Open Scope R_scope.

Lemma exact_sum_cover : forall w,
  exact_sum v t (main_indices w (Count v)) + exact_sum v t (tail_indices w (Count v))
  = exact_sum v t (seq 0 (Count v)).
Proof.
  intros w. unfold exact_sum. rewrite <- Rsum_app, <- map_app, indices_cover. reflexivity.
Qed.

Lemma magnitude_cover : forall w,
  magnitude v t (main_indices w (Count v)) + magnitude v t (tail_indices w (Count v))
  = magnitude v t (seq 0 (Count v)).
Proof.
  intros w. unfold magnitude. rewrite <- Rsum_app, <- map_app, indices_cover. reflexivity.
Qed.

Lemma tail_indices_bound : forall w i,
  In i (tail_indices w (Count v)) -> (i < Count v)%nat.
Proof.
  intros w i Hi. unfold tail_indices in Hi. apply in_seq in Hi.
  pose proof (Nat.Div0.mul_div_le (Count v) w). lia.
Qed.

Lemma Scalar_tracks :
  tracks32 (Count v) (SumActiveBalancesScalar v t)
    (exact_sum v t (seq 0 (Count v))) (magnitude v t (seq 0 (Count v))).
Proof.
  rewrite Scalar_fold.
  apply (tracks_eq IEEE.prec32 IEEE.emax32 (Count v) _
           (0 + exact_sum v t (seq 0 (Count v))) _
           (0 + magnitude v t (seq 0 (Count v)))); [ring | ring |].
  replace (Count v) with (0 + length (seq 0 (Count v)))%nat at 1
    by (rewrite length_seq; reflexivity).
  apply (products32_tracks v t valid).
  - intros i Hi. apply in_seq in Hi. lia.
  - apply tracks_zero.
Qed.

Lemma Znver2_tracks :
  tracks32 (Count v / 16 + 4 + Count v mod 16) (Znver2.SumActiveBalancesAvx2 v t)
    (exact_sum v t (seq 0 (Count v))) (magnitude v t (seq 0 (Count v))).
Proof.
  rewrite Znver2_fold. unfold Znver2.tail_loop.
  fold (tail_indices 16 (Count v)).
  rewrite <- (exact_sum_cover 16), <- (magnitude_cover 16).
  rewrite <- (tail_indices_length 16 (Count v)) by lia.
  apply (tail32_tracks v t valid).
  - apply tail_indices_bound.
  - unfold main_indices, exact_sum, magnitude.
    rewrite <- (Rsum_lanes (rcontrib v t) 16).
    rewrite <- (Rsum_lanes (fun i => Rabs (rcontrib v t i)) 16).
    apply (hsum32_tracks (Znver2.main_loop v t) (Count v / 16)
             (fun j => exact_sum v t (map (fun g => (g + j)%nat) (counters 0 16 (Count v / 16))))
             (fun j => magnitude v t (map (fun g => (g + j)%nat) (counters 0 16 (Count v / 16))))).
    intros j Hj. apply lane32_tracks; assumption.
Qed.

Lemma Avx2Double_tracks :
  tracks64 (Count v / 8 + 3 + Count v mod 8) (Avx2Double.SumActiveBalancesAvx2 v t)
    (exact_sum v t (seq 0 (Count v))) (magnitude v t (seq 0 (Count v))).
Proof.
  rewrite Avx2Double_fold. unfold Avx2Double.tail_loop.
  fold (tail_indices 8 (Count v)).
  rewrite <- (exact_sum_cover 8), <- (magnitude_cover 8).
  rewrite <- (tail_indices_length 8 (Count v)) by lia.
  apply (tail64_tracks v t valid).
  - apply tail_indices_bound.
  - unfold main_indices, exact_sum, magnitude.
    rewrite <- (Rsum_lanes (rcontrib v t) 8).
    rewrite <- (Rsum_lanes (fun i => Rabs (rcontrib v t i)) 8).
    apply (hsum64_tracks (Avx2Double.main_loop v t) (Count v / 8)
             (fun j => exact_sum v t (map (fun g => (g + j)%nat) (counters 0 8 (Count v / 8))))
             (fun j => magnitude v t (map (fun g => (g + j)%nat) (counters 0 8 (Count v / 8))))).
    intros j Hj. apply lane64_tracks; assumption.
Qed.
End ReducerErrors.

(** ** Tolerances between the reducers *)

Lemma powerRZ_2_mono : forall a b, (a <= b)%Z -> (powerRZ 2 a <= powerRZ 2 b)%R.
Proof.
  intros a b H. rewrite (powerRZ_2_split a b H).
  pose proof (powerRZ_2_pos a) as Hp.
  assert (H1 : (1 <= IZR (2 ^ (b - a)))%R).
  { apply IZR_le. assert (0 < 2 ^ (b - a))%Z by (apply Z.pow_pos_nonneg; lia). lia. }
  nra.
Qed.

Lemma u64_le_u32 : (u64 <= u32)%R.
Proof.
  unfold u64, u32. apply powerRZ_2_mono.
  unfold IEEE.prec32, IEEE.prec64. lia.
Qed.

(** The wide-accumulation bound is the tighter one. *)
Lemma gamma_u64_le_u32 : forall k, (gamma u64 k <= gamma u32 k)%R.
Proof.
  intros k. unfold gamma.
  assert (0 < u64)%R by (apply powerRZ_lt; lra).
  pose proof u64_le_u32.
  assert ((1 + u64) ^ k <= (1 + u32) ^ k)%R by (apply pow_incr; lra).
  lra.
Qed.

(** Two approximations of one sum are close to each other. *)
Lemma approx_distance : forall p1 p2 k1 k2 a1 a2 e M,
  approx p1 k1 a1 e M -> approx p2 k2 a2 e M ->
  (Rabs (a1 - a2)
   <= (gamma (powerRZ 2 (- p1)) k1 + gamma (powerRZ 2 (- p2)) k2) * M)%R.
Proof.
  intros p1 p2 k1 k2 a1 a2 e M [H1 _] [H2 _].
  replace (a1 - a2)%R with ((a1 - e) + - (a2 - e))%R by ring.
  pose proof (Rabs_triang (a1 - e) (- (a2 - e))) as Ht.
  rewrite Rabs_Ropp in Ht. lra.
Qed.

Section Tolerance.
Variables (v : @UsersView IEEE.arith) (t : spec_float).
Hypothesis valid : finite_b32_view v.

Lemma Scalar_error :
  IEEE.is_finite (SumActiveBalancesScalar v t) = true ->
  approx IEEE.prec32 (Count v) (SF2R (SumActiveBalancesScalar v t))
    (filtered_sum v t) (filtered_magnitude v t).
Proof. intros Hf. apply (Scalar_tracks v t valid Hf). Qed.

Lemma Znver2_error :
  IEEE.is_finite (Znver2.SumActiveBalancesAvx2 v t) = true ->
  approx IEEE.prec32 (Count v / 16 + 4 + Count v mod 16)
    (SF2R (Znver2.SumActiveBalancesAvx2 v t))
    (filtered_sum v t) (filtered_magnitude v t).
Proof. intros Hf. apply (Znver2_tracks v t valid Hf). Qed.

Lemma Avx2Double_error :
  IEEE.is_finite (Avx2Double.SumActiveBalancesAvx2 v t) = true ->
  approx IEEE.prec64 (Count v / 8 + 3 + Count v mod 8)
    (SF2R (Avx2Double.SumActiveBalancesAvx2 v t))
    (filtered_sum v t) (filtered_magnitude v t).
Proof. intros Hf. apply (Avx2Double_tracks v t valid Hf). Qed.

(** The tolerance between each vector kernel and the scalar reducer. *)
Lemma Znver2_Scalar_tolerance :
  IEEE.is_finite (SumActiveBalancesScalar v t) = true ->
  IEEE.is_finite (Znver2.SumActiveBalancesAvx2 v t) = true ->
  (Rabs (SF2R (Znver2.SumActiveBalancesAvx2 v t) - SF2R (SumActiveBalancesScalar v t))
   <= (gamma u32 (Count v / 16 + 4 + Count v mod 16) + gamma u32 (Count v))
      * filtered_magnitude v t)%R.
Proof.
  intros HS HV.
  apply (approx_distance IEEE.prec32 IEEE.prec32 _ _ _ _ (filtered_sum v t)).
  - apply Znver2_error; assumption.
  - apply Scalar_error; assumption.
Qed.

Lemma Avx2Double_Scalar_tolerance :
  IEEE.is_finite (SumActiveBalancesScalar v t) = true ->
  IEEE.is_finite (Avx2Double.SumActiveBalancesAvx2 v t) = true ->
  (Rabs (SF2R (Avx2Double.SumActiveBalancesAvx2 v t) - SF2R (SumActiveBalancesScalar v t))
   <= (gamma u64 (Count v / 8 + 3 + Count v mod 8) + gamma u32 (Count v))
      * filtered_magnitude v t)%R.
Proof.
  intros HS HV.
  apply (approx_distance IEEE.prec64 IEEE.prec32 _ _ _ _ (filtered_sum v t)).
  - apply Avx2Double_error; assumption.
  - apply Scalar_error; assumption.
Qed.
End Tolerance.

(** ** Permuted views under IEEE arithmetic *)

Section PermutedIEEE.
Variables (v : @UsersView IEEE.arith) (t : spec_float) (p : list nat).
Hypothesis p_perm : Permutation p (seq 0 (Count v)).

Lemma permuted_index : forall i, (i < Count v)%nat -> (nth i p 0 < Count v)%nat.
Proof.
  intros i Hi.
  assert (Hin : In (nth i p 0%nat) p).
  { apply nth_In. rewrite (p_length v p p_perm). exact Hi. }
  apply (Permutation_in _ p_perm) in Hin. apply in_seq in Hin. lia.
Qed.

Lemma permuted_balance : forall i, (i < Count v)%nat ->
  rd (Balances (permute_view p v)) i IEEE.pzero
  = rd (Balances v) (nth i p 0%nat) IEEE.pzero.
Proof.
  intros i Hi. rewrite <- (p_length v p p_perm) in Hi.
  exact (nth_map_in_range _ _ (fun j => nth j (Balances v) IEEE.pzero) p i
           IEEE.pzero 0%nat Hi).
Qed.

Lemma permuted_qualifies : forall i, (i < Count v)%nat ->
  qualifies (permute_view p v) t i = qualifies v t (nth i p 0%nat).
Proof.
  intros i Hi. rewrite <- (p_length v p p_perm) in Hi.
  unfold qualifies, permute_view, rd. cbn [Balances Active].
  rewrite (nth_map_in_range _ _ _ p i zero32 0%nat Hi).
  rewrite (nth_map_in_range _ _ _ p i x00 0%nat Hi).
  reflexivity.
Qed.

Lemma permuted_finite : finite_b32_view v -> finite_b32_view (permute_view p v).
Proof.
  intros H i Hi. cbn [permute_view Count] in Hi.
  rewrite (permuted_balance i Hi). apply H. apply permuted_index. exact Hi.
Qed.

Lemma permuted_terms : forall (h : R -> R),
  Rsum (map (fun i => h (rcontrib (permute_view p v) t i)) (seq 0 (Count v)))
  = Rsum (map (fun i => h (rcontrib v t i)) (seq 0 (Count v))).
Proof.
  intros h.
  rewrite (map_ext_in _ (fun i => h (rcontrib v t (nth i p 0%nat)))).
  - rewrite <- (map_map (fun i => nth i p 0%nat) (fun j => h (rcontrib v t j))).
    rewrite <- (p_length v p p_perm) at 1. rewrite map_nth_seq.
    apply Rsum_Permutation. apply Permutation_map. exact p_perm.
  - intros i Hi. apply in_seq in Hi. unfold rcontrib.
    rewrite permuted_qualifies, permuted_balance by lia. reflexivity.
Qed.

Lemma permuted_filtered_sum : filtered_sum (permute_view p v) t = filtered_sum v t.
Proof. apply (permuted_terms (fun x => x)). Qed.

Lemma permuted_filtered_magnitude :
  filtered_magnitude (permute_view p v) t = filtered_magnitude v t.
Proof. apply (permuted_terms Rabs). Qed.
End PermutedIEEE.

(** ** The reducers as sums over the qualifying elements *)

Lemma lanes_of_length : forall (A : Type) (L : list A) (w : nat) (d : A),
  length L = w -> L = map (fun j => nth j L d) (seq 0 w).
Proof. intros A L w d H. subst w. symmetry. apply map_nth_seq. Qed.

Lemma lane_run_bound : forall w count j i,
  (j < w)%nat -> In i (lane_run w count j) -> (i < count)%nat.
Proof.
  intros w count j i Hj Hi. unfold lane_run in Hi.
  apply in_map_iff in Hi. destruct Hi as (g & <- & Hg).
  apply (group_lane_bound w count g); [exact Hg|]. apply in_seq. lia.
Qed.

Section Branching.
Local Notation "'good32'" := (IEEE.good IEEE.prec32 IEEE.emax32).
Local Notation "'good64'" := (IEEE.good IEEE.prec64 IEEE.emax64).
Variables (v : @UsersView IEEE.arith) (t : spec_float).
Hypothesis valid : finite_b32_view v.

(** On a finite balance, adding the product to an accumulator is adding
    the balance when the element qualifies and leaving the accumulator
    otherwise. *)
Lemma add32_selects : forall acc i, (i < Count v)%nat -> good32 acc ->
  @add32 IEEE.arith acc (contribution v t i)
  = adds_qualifying (@add32 IEEE.arith) (fun b => b) v t acc i.
Proof.
  intros acc i Hi Hacc. rewrite (contribution_value v t valid i Hi).
  unfold adds_qualifying. destruct (qualifies v t i); [reflexivity|].
  apply add_zero_good. exact Hacc.
Qed.

Lemma add64_selects : forall acc i, (i < Count v)%nat -> good64 acc ->
  @add64 IEEE.arith acc (@cvtps_pd IEEE.arith (contribution v t i))
  = adds_qualifying (@add64 IEEE.arith) (@cvtps_pd IEEE.arith) v t acc i.
Proof.
  intros acc i Hi Hacc. rewrite (contribution_value v t valid i Hi).
  unfold adds_qualifying. destruct (qualifies v t i); [reflexivity|].
  apply add_zero_good. exact Hacc.
Qed.

Lemma run32_selects : forall l, (forall i, In i l -> (i < Count v)%nat) ->
  fold_left (fun acc i => @add32 IEEE.arith acc (contribution v t i)) l IEEE.pzero
  = fold_left (adds_qualifying (@add32 IEEE.arith) (fun b => b) v t) l IEEE.pzero.
Proof.
  intros l Hl. apply (fold_left_sim _ _ _ _ good32); [apply good_pzero|].
  intros acc i Hi Hacc. split.
  - apply add32_selects; [apply Hl; exact Hi | exact Hacc].
  - apply add32_good. exact Hacc.
Qed.

Lemma run64_selects : forall l, (forall i, In i l -> (i < Count v)%nat) ->
  fold_left (fun acc i => @add64 IEEE.arith acc (@cvtps_pd IEEE.arith (contribution v t i)))
    l IEEE.pzero
  = fold_left (adds_qualifying (@add64 IEEE.arith) (@cvtps_pd IEEE.arith) v t) l IEEE.pzero.
Proof.
  intros l Hl. apply (fold_left_sim _ _ _ _ good64); [apply good_pzero|].
  intros acc i Hi Hacc. split.
  - apply add64_selects; [apply Hl; exact Hi | exact Hacc].
  - apply add64_good. exact Hacc.
Qed.

Lemma Scalar_selects :
  SumActiveBalancesScalar v t
  = fold_left (adds_qualifying (@add32 IEEE.arith) (fun b => b) v t)
      (seq 0 (Count v)) IEEE.pzero.
Proof.
  rewrite Scalar_fold. unfold scalar_sum. apply run32_selects.
  intros i Hi. apply in_seq in Hi. lia.
Qed.

Lemma main64_selects :
  lanes64 (Avx2Double.main_loop v t)
  = map (fun j => fold_left (adds_qualifying (@add64 IEEE.arith) (@cvtps_pd IEEE.arith) v t)
                    (lane_run 8 (Count v) j) IEEE.pzero)
        (seq 0 8).
Proof.
  unfold Avx2Double.main_loop. rewrite (@lanes64_fold IEEE.arith IEEE_laws).
  set (step := fun (a : spec_float) (i : nat) =>
                 @add64 IEEE.arith a (@cvtps_pd IEEE.arith (contribution v t i))).
  set (L := fold_left _ _ _).
  assert (HL : length L = 8%nat).
  { unfold L. apply (fold_left_inv _ _ _ (fun l : list spec_float => length l = 8%nat));
      [reflexivity|].
    intros l g _ Hl. cbv beta in *. rewrite zip_with_length, length_seq.
    exact (f_equal (fun n => Nat.min n _) Hl). }
  rewrite (lanes_of_length _ L 8 IEEE.pzero HL).
  apply map_ext_in. intros j Hj. apply in_seq in Hj.
  unfold L. rewrite (lane_fold _ step 8) by (reflexivity || lia).
  rewrite <- run64_selects by (intros i Hi; apply (lane_run_bound 8 _ j); [lia | exact Hi]).
  unfold lane_run. f_equal.
  do 8 (destruct j as [|j]; [reflexivity|]). lia.
Qed.

Lemma main32_selects :
  lanes32 (Znver2.main_loop v t)
  = map (fun j => fold_left (adds_qualifying (@add32 IEEE.arith) (fun b => b) v t)
                    (lane_run 16 (Count v) j) IEEE.pzero)
        (seq 0 16).
Proof.
  unfold Znver2.main_loop. rewrite (@lanes32_fold IEEE.arith IEEE_laws).
  set (step := fun (a : spec_float) (i : nat) => @add32 IEEE.arith a (contribution v t i)).
  set (L := fold_left _ _ _).
  assert (HL : length L = 16%nat).
  { unfold L. apply (fold_left_inv _ _ _ (fun l : list spec_float => length l = 16%nat));
      [reflexivity|].
    intros l g _ Hl. cbv beta in *. rewrite zip_with_length, length_seq.
    exact (f_equal (fun n => Nat.min n _) Hl). }
  rewrite (lanes_of_length _ L 16 IEEE.pzero HL).
  apply map_ext_in. intros j Hj. apply in_seq in Hj.
  unfold L. rewrite (lane_fold _ step 16) by (reflexivity || lia).
  rewrite <- run32_selects by (intros i Hi; apply (lane_run_bound 16 _ j); [lia | exact Hi]).
  unfold lane_run. f_equal.
  do 16 (destruct j as [|j]; [reflexivity|]). lia.
Qed.
End Branching.

(** The tail loops branch on the predicate in the source already. *)
Lemma tail64_selects : forall (AR : Arith) (v : @UsersView AR) (t : f32) acc,
  Avx2Double.tail_loop v t acc
  = fold_left (adds_qualifying add64 cvtps_pd v t) (tail_indices 8 (Count v)) acc.
Proof. reflexivity. Qed.

Lemma tail32_selects : forall (AR : Arith) (v : @UsersView AR) (t : f32) acc,
  Znver2.tail_loop v t acc
  = fold_left (adds_qualifying add32 (fun b => b) v t) (tail_indices 16 (Count v)) acc.
Proof. reflexivity. Qed.

(** ** The two vector bounds compared *)

Section Tighter.
Local Open Scope R_scope.

(** The longest path of the wide kernel is at most twice as long as that
    of the same-precision kernel. *)
Lemma wide_depth : forall count : nat,
  (count / 8 + 3 + count mod 8 <= 2 * (count / 16 + 4 + count mod 16))%nat.
Proof.
  intros count.
  pose proof (Nat.div_mod_eq count 8). pose proof (Nat.div_mod_eq count 16).
  pose proof (Nat.mod_upper_bound count 8 ltac:(lia)).
  pose proof (Nat.mod_upper_bound count 16 ltac:(lia)).
  lia.
Qed.

Lemma pow_lt_base : forall (x y : R) (n : nat), 0 <= x < y -> x ^ S n < y ^ S n.
Proof.
  intros x y n [H0 Hxy]. induction n as [|n IH]; [simpl; lra|].
  change (x ^ S (S n)) with (x * x ^ S n). change (y ^ S (S n)) with (y * y ^ S n).
  assert (0 <= x ^ S n) by (apply pow_le; exact H0).
  apply Rle_lt_trans with (x * y ^ S n).
  - apply Rmult_le_compat_l; lra.
  - apply Rmult_lt_compat_r; lra.
Qed.

(** Two roundings in double precision cost less than one in single
    precision. *)
Lemma two_wide_roundings : (1 + u64) ^ 2 < 1 + u32.
Proof.
  assert (H64 : u64 = u32 * powerRZ 2 (-29)).
  { unfold u64, u32, IEEE.prec64, IEEE.prec32.
    rewrite <- powerRZ_add by lra. reflexivity. }
  assert (H29 : powerRZ 2 (-29) <= / 4).
  { change (/ 4) with (/ (2 * 2)). replace (/ (2 * 2)) with (powerRZ 2 (-2)).
    - apply powerRZ_2_mono. lia.
    - simpl. field. }
  pose proof (powerRZ_2_pos (-29)) as Hp.
  assert (H32 : 0 < u32) by (apply powerRZ_2_pos).
  assert (H1 : u32 <= 1).
  { unfold u32. change 1 with (powerRZ 2 0). apply powerRZ_2_mono.
    unfold IEEE.prec32. lia. }
  assert (Hu : 0 < u64 <= u32 * / 4).
  { rewrite H64. split; [apply Rmult_lt_0_compat; assumption|].
    apply Rmult_le_compat_l; lra. }
  simpl. nra.
Qed.

(** The wide kernel's rounding bound is below the same-precision kernel's,
    each at its own depth. *)
Lemma gamma_wide_lt : forall count : nat,
  gamma u64 (count / 8 + 3 + count mod 8)
  < gamma u32 (count / 16 + 4 + count mod 16).
Proof.
  intros count. unfold gamma.
  set (ks := (count / 16 + 4 + count mod 16)%nat).
  assert (H64 : 0 < u64) by (apply powerRZ_2_pos).
  pose proof two_wide_roundings as H2.
  assert (Hle : (1 + u64) ^ (count / 8 + 3 + count mod 8) <= (1 + u64) ^ (2 * ks)).
  { apply Rle_pow; [lra | apply wide_depth]. }
  rewrite pow_mult in Hle.
  assert (Hlt : ((1 + u64) ^ 2) ^ ks < (1 + u32) ^ ks).
  { assert (Hks : ks = S (count / 16 + 3 + count mod 16)) by (unfold ks; lia).
    rewrite Hks. apply pow_lt_base. split; [apply pow_le; lra | exact H2]. }
  lra.
Qed.

Lemma magnitude_nonneg : forall (v : @UsersView IEEE.arith) (t : spec_float) (l : list nat),
  0 <= magnitude v t l.
Proof.
  intros v t l. unfold magnitude, Rsum.
  induction l as [|i l IH]; cbn [map fold_right]; [lra|].
  pose proof (Rabs_pos (rcontrib v t i)). lra.
Qed.

(** Hence the tolerance of the wide kernel against the scalar reducer is
    the smaller of the two, strictly when something qualifies with a
    nonzero balance. *)
Lemma wide_tolerance_le : forall (v : @UsersView IEEE.arith) (t : spec_float),
  (gamma u64 (Count v / 8 + 3 + Count v mod 8) + gamma u32 (Count v))
    * filtered_magnitude v t
  <= (gamma u32 (Count v / 16 + 4 + Count v mod 16) + gamma u32 (Count v))
       * filtered_magnitude v t.
Proof.
  intros v t. pose proof (gamma_wide_lt (Count v)).
  pose proof (magnitude_nonneg v t (seq 0 (Count v))).
  unfold filtered_magnitude. apply Rmult_le_compat_r; lra.
Qed.

Lemma wide_tolerance_lt : forall (v : @UsersView IEEE.arith) (t : spec_float),
  0 < filtered_magnitude v t ->
  (gamma u64 (Count v / 8 + 3 + Count v mod 8) + gamma u32 (Count v))
    * filtered_magnitude v t
  < (gamma u32 (Count v / 16 + 4 + Count v mod 16) + gamma u32 (Count v))
      * filtered_magnitude v t.
Proof.
  intros v t HM. pose proof (gamma_wide_lt (Count v)).
  apply Rmult_lt_compat_r; lra.
Qed.
End Tighter.

(** ** The activity byte, reducer by reducer *)

(** C4, as it holds.  In every view a reducer sees an activity byte only
    through "is it nonzero": a vector lane turns the byte into the factor
    1.0 exactly when the byte is nonzero and the balance reaches the
    threshold (and into 0.0 otherwise), only the byte 0 is false, replacing
    the flags by flags that are nonzero at the same indices changes no
    reducer's result, and each kernel is the loop that adds the balance of
    each qualifying element of its tail and skips the others, run from the
    horizontal sum of its main loop.  For a view of finite binary32
    balances an element of the scalar loop or of a main loop contributes
    its balance exactly when it qualifies: the scalar reducer is the loop
    that adds the balance of each qualifying element and skips the others,
    and so is each lane of a main loop, over the indices of the lane. *)
Theorem activity_byte_saturates :
  forall (v : @UsersView IEEE.arith) (t : spec_float),
    (forall (a : byte) (b : spec_float),
        @vector_take IEEE.arith a b t
        = if byte_true a && IEEE.ge b t then IEEE.one else IEEE.pzero)
    /\ (forall a : byte, byte_true a = false <-> a = x00)
    /\ (forall g,
          contrib8 (Balances v) (Active v) (m256_set1 t) (m256_set1 one32) g
          = m256_map (fun i =>
                        SFmul IEEE.prec32 IEEE.emax32 (rd (Balances v) i IEEE.pzero)
                          (if qualifies v t i then IEEE.one else IEEE.pzero))
                     (lane_indices g))
    /\ (forall flags : list byte,
          (forall i, byte_true (rd flags i x00) = byte_true (rd (Active v) i x00)) ->
          SumActiveBalancesScalar (with_flags v flags) t = SumActiveBalancesScalar v t
          /\ Avx2Double.SumActiveBalancesAvx2 (with_flags v flags) t
             = Avx2Double.SumActiveBalancesAvx2 v t
          /\ Znver2.SumActiveBalancesAvx2 (with_flags v flags) t
             = Znver2.SumActiveBalancesAvx2 v t)
    /\ Avx2Double.SumActiveBalancesAvx2 v t
       = fold_left
           (adds_qualifying (AR := IEEE.arith) (SFadd IEEE.prec64 IEEE.emax64)
              (IEEE.convert IEEE.prec64 IEEE.emax64) v t)
           (tail_indices 8 (Count v))
           (Avx2Double.horizontal_sum (fst (Avx2Double.main_loop v t))
                                      (snd (Avx2Double.main_loop v t)))
    /\ Znver2.SumActiveBalancesAvx2 v t
       = fold_left
           (adds_qualifying (AR := IEEE.arith)
              (SFadd IEEE.prec32 IEEE.emax32) (fun b => b) v t)
           (tail_indices 16 (Count v))
           (Znver2.horizontal_sum (fst (Znver2.main_loop v t))
                                  (snd (Znver2.main_loop v t)))
    /\ (finite_b32_view v ->
          SumActiveBalancesScalar v t
          = fold_left
              (adds_qualifying (AR := IEEE.arith)
                 (SFadd IEEE.prec32 IEEE.emax32) (fun b => b) v t)
              (seq 0 (Count v)) IEEE.pzero
          /\ lanes64 (Avx2Double.main_loop v t)
             = map (fun j =>
                      fold_left
                        (adds_qualifying (AR := IEEE.arith) (SFadd IEEE.prec64 IEEE.emax64)
                           (IEEE.convert IEEE.prec64 IEEE.emax64) v t)
                        (lane_run 8 (Count v) j) IEEE.pzero)
                   (seq 0 8)
          /\ lanes32 (Znver2.main_loop v t)
             = map (fun j =>
                      fold_left
                        (adds_qualifying (AR := IEEE.arith)
                           (SFadd IEEE.prec32 IEEE.emax32) (fun b => b) v t)
                        (lane_run 16 (Count v) j) IEEE.pzero)
                   (seq 0 16)).
Proof.
  intros v t.
  pose proof IEEE_laws as L.
  split; [|split; [|split; [|split; [|split; [|split]]]]].
  - intros a b. apply (take_lane (AR := IEEE.arith)).
  - apply byte_true_iff_nonzero.
  - intros g. apply (contrib8_lanes (AR := IEEE.arith)).
  - intros flags H. split; [|split].
    + apply Scalar_with_flags; assumption.
    + apply Avx2Double_with_flags; assumption.
    + apply Znver2_with_flags; assumption.
  - rewrite Avx2Double_fold. apply tail64_selects.
  - rewrite Znver2_fold. apply tail32_selects.
  - intros valid. split; [|split].
    + apply Scalar_selects. exact valid.
    + apply main64_selects. exact valid.
    + apply main32_selects. exact valid.
Qed.

Lemma activity_byte_saturates_witness :
  (SumActiveBalancesScalar
     (with_flags Samples.nineteen Samples.nineteen_flags01) (Inputs.f 250)
   = SumActiveBalancesScalar Samples.nineteen (Inputs.f 250)
   /\ Avx2Double.SumActiveBalancesAvx2
        (with_flags Samples.nineteen Samples.nineteen_flags01) (Inputs.f 250)
      = Avx2Double.SumActiveBalancesAvx2 Samples.nineteen (Inputs.f 250)
   /\ Znver2.SumActiveBalancesAvx2
        (with_flags Samples.nineteen Samples.nineteen_flags01) (Inputs.f 250)
      = Znver2.SumActiveBalancesAvx2 Samples.nineteen (Inputs.f 250))
  /\ (SumActiveBalancesScalar Samples.nineteen (Inputs.f 250)
      = fold_left
          (adds_qualifying (AR := IEEE.arith)
             (SFadd IEEE.prec32 IEEE.emax32) (fun b => b)
             Samples.nineteen (Inputs.f 250))
          (seq 0 (Count Samples.nineteen)) IEEE.pzero
      /\ lanes64 (Avx2Double.main_loop Samples.nineteen (Inputs.f 250))
         = map (fun j =>
                  fold_left
                    (adds_qualifying (AR := IEEE.arith) (SFadd IEEE.prec64 IEEE.emax64)
                       (IEEE.convert IEEE.prec64 IEEE.emax64)
                       Samples.nineteen (Inputs.f 250))
                    (lane_run 8 (Count Samples.nineteen) j) IEEE.pzero)
               (seq 0 8)
      /\ lanes32 (Znver2.main_loop Samples.nineteen (Inputs.f 250))
         = map (fun j =>
                  fold_left
                    (adds_qualifying (AR := IEEE.arith)
                       (SFadd IEEE.prec32 IEEE.emax32) (fun b => b)
                       Samples.nineteen (Inputs.f 250))
                    (lane_run 16 (Count Samples.nineteen) j) IEEE.pzero)
               (seq 0 16)).
Proof.
  destruct (activity_byte_saturates Samples.nineteen (Inputs.f 250))
    as (_ & _ & _ & Hflags & _ & _ & Hsel).
  split.
  - apply Hflags. intros i. by_index i.
  - apply Hsel. intros i Hi. split; by_index i.
Defined.

(** C4 as stated fails under IEEE arithmetic: an activity byte of 0 does
    not exclude an element whose balance is infinite.  On one inactive
    element of balance +infinity the scalar reducer returns a NaN, where
    adding the balances of the qualifying elements gives +0, which is also
    what it returns when the balance is 0; the same element in the first
    lane of a main loop turns both vector kernels' results into a NaN. *)
Lemma activity_byte_counterexample :
  rd (Active Inputs.inf_inactive) 0 x00 = x00
  /\ qualifies Inputs.inf_inactive (Inputs.f 0) 0 = false
  /\ SumActiveBalancesScalar Inputs.inf_inactive (Inputs.f 0) = S754_nan
  /\ fold_left
       (adds_qualifying (AR := IEEE.arith) (SFadd IEEE.prec32 IEEE.emax32) (fun b => b)
          Inputs.inf_inactive (Inputs.f 0))
       (seq 0 (Count Inputs.inf_inactive)) IEEE.pzero
     = IEEE.pzero
  /\ SumActiveBalancesScalar (Inputs.view [IEEE.pzero] [x00]) (Inputs.f 0) = IEEE.pzero
  /\ qualifies (Inputs.inf_first 8) (Inputs.f 0) 0 = false
  /\ Avx2Double.SumActiveBalancesAvx2 (Inputs.inf_first 8) (Inputs.f 0) = S754_nan
  /\ fold_left
       (adds_qualifying (AR := IEEE.arith) (SFadd IEEE.prec64 IEEE.emax64)
          (IEEE.convert IEEE.prec64 IEEE.emax64) (Inputs.inf_first 8) (Inputs.f 0))
       (lane_run 8 (Count (Inputs.inf_first 8)) 0) IEEE.pzero
     = IEEE.pzero
  /\ nth 0 (lanes64 (Avx2Double.main_loop (Inputs.inf_first 8) (Inputs.f 0))) IEEE.pzero
     = S754_nan
  /\ qualifies (Inputs.inf_first 16) (Inputs.f 0) 0 = false
  /\ Znver2.SumActiveBalancesAvx2 (Inputs.inf_first 16) (Inputs.f 0) = S754_nan
  /\ fold_left
       (adds_qualifying (AR := IEEE.arith) (SFadd IEEE.prec32 IEEE.emax32) (fun b => b)
          (Inputs.inf_first 16) (Inputs.f 0))
       (lane_run 16 (Count (Inputs.inf_first 16)) 0) IEEE.pzero
     = IEEE.pzero
  /\ nth 0 (lanes32 (Znver2.main_loop (Inputs.inf_first 16) (Inputs.f 0))) IEEE.pzero
     = S754_nan.
Proof. repeat split. Qed.

(** ** The vector kernels against the scalar reducer *)

(** C1, as it holds.  In every view a vector lane multiplies the balance
    by the factor the scalar reducer uses, so the reducers select the same
    elements.  For a view of finite binary32 balances each reducer, when
    its result is finite, is within [gamma u k * M] of the real filtered
    sum, [M] being the sum of the magnitudes of the qualifying balances,
    [u] the unit roundoff (2^-24 for the scalar and the same-precision
    kernel, 2^-53 for the wide kernel) and [k] the number of additions on
    the longest path (count; count/16 + 4 + count mod 16; count/8 + 3 +
    count mod 8); hence the tolerance between each vector kernel and the
    scalar reducer.  The wide kernel's bound is the tighter: its rounding
    bound at its own depth is below the same-precision kernel's at its
    depth, whatever the count, so its tolerance is at most the
    same-precision kernel's, and below it when a nonzero balance
    qualifies.  In exact arithmetic the three reducers return the same
    number, the sum of the qualifying balances. *)
Theorem vector_reducers_match_scalar :
  forall (v : @UsersView IEEE.arith) (t : spec_float),
    (forall g,
        contrib8 (Balances v) (Active v) (m256_set1 t) (m256_set1 one32) g
        = m256_map (contribution v t) (lane_indices g))
    /\ (finite_b32_view v ->
        (IEEE.is_finite (SumActiveBalancesScalar v t) = true ->
         Rabs (SF2R (SumActiveBalancesScalar v t) - filtered_sum v t)
         <= gamma u32 (Count v) * filtered_magnitude v t)%R
        /\ (IEEE.is_finite (Znver2.SumActiveBalancesAvx2 v t) = true ->
            Rabs (SF2R (Znver2.SumActiveBalancesAvx2 v t) - filtered_sum v t)
            <= gamma u32 (Count v / 16 + 4 + Count v mod 16) * filtered_magnitude v t)%R
        /\ (IEEE.is_finite (Avx2Double.SumActiveBalancesAvx2 v t) = true ->
            Rabs (SF2R (Avx2Double.SumActiveBalancesAvx2 v t) - filtered_sum v t)
            <= gamma u64 (Count v / 8 + 3 + Count v mod 8) * filtered_magnitude v t)%R
        /\ (IEEE.is_finite (SumActiveBalancesScalar v t) = true ->
            IEEE.is_finite (Znver2.SumActiveBalancesAvx2 v t) = true ->
            Rabs (SF2R (Znver2.SumActiveBalancesAvx2 v t)
                  - SF2R (SumActiveBalancesScalar v t))
            <= (gamma u32 (Count v / 16 + 4 + Count v mod 16) + gamma u32 (Count v))
               * filtered_magnitude v t)%R
        /\ (IEEE.is_finite (SumActiveBalancesScalar v t) = true ->
            IEEE.is_finite (Avx2Double.SumActiveBalancesAvx2 v t) = true ->
            Rabs (SF2R (Avx2Double.SumActiveBalancesAvx2 v t)
                  - SF2R (SumActiveBalancesScalar v t))
            <= (gamma u64 (Count v / 8 + 3 + Count v mod 8) + gamma u32 (Count v))
               * filtered_magnitude v t)%R)
    /\ (forall k, gamma u64 k <= gamma u32 k)%R
    /\ (forall count : nat,
          gamma u64 (count / 8 + 3 + count mod 8)
          < gamma u32 (count / 16 + 4 + count mod 16))%R
    /\ ((gamma u64 (Count v / 8 + 3 + Count v mod 8) + gamma u32 (Count v))
          * filtered_magnitude v t
        <= (gamma u32 (Count v / 16 + 4 + Count v mod 16) + gamma u32 (Count v))
             * filtered_magnitude v t)%R
    /\ (0 < filtered_magnitude v t ->
        (gamma u64 (Count v / 8 + 3 + Count v mod 8) + gamma u32 (Count v))
          * filtered_magnitude v t
        < (gamma u32 (Count v / 16 + 4 + Count v mod 16) + gamma u32 (Count v))
            * filtered_magnitude v t)%R
    /\ (forall (w : @UsersView Exact.arith) (s : Qc),
          Avx2Double.SumActiveBalancesAvx2 w s = SumActiveBalancesScalar w s
          /\ Znver2.SumActiveBalancesAvx2 w s = SumActiveBalancesScalar w s
          /\ SumActiveBalancesScalar w s = Qcsum (qualifying_balances w s)).
Proof.
  intros v t.
  split; [|split; [|split; [|split; [|split; [|split]]]]].
  - intros g. apply (@contrib8_lanes IEEE.arith IEEE_laws).
  - intros valid. split; [|split; [|split; [|split]]].
    + intros Hf. apply (Scalar_error v t valid Hf).
    + intros Hf. apply (Znver2_error v t valid Hf).
    + intros Hf. apply (Avx2Double_error v t valid Hf).
    + apply Znver2_Scalar_tolerance; assumption.
    + apply Avx2Double_Scalar_tolerance; assumption.
  - apply gamma_u64_le_u32.
  - apply gamma_wide_lt.
  - apply wide_tolerance_le.
  - apply wide_tolerance_lt.
  - intros w s. rewrite Exact_Avx2Double, Exact_Znver2, Exact_Scalar.
    repeat split. apply Exact_contributions_qualifying.
Qed.

Lemma vector_reducers_match_scalar_witness :
  (Rabs (SF2R (Znver2.SumActiveBalancesAvx2 Samples.nineteen (Inputs.f 250))
         - SF2R (SumActiveBalancesScalar Samples.nineteen (Inputs.f 250)))
   <= (gamma u32 (Count Samples.nineteen / 16 + 4 + Count Samples.nineteen mod 16)
       + gamma u32 (Count Samples.nineteen))
      * filtered_magnitude Samples.nineteen (Inputs.f 250))%R
  /\ (Rabs (SF2R (Avx2Double.SumActiveBalancesAvx2 Samples.nineteen (Inputs.f 250))
            - SF2R (SumActiveBalancesScalar Samples.nineteen (Inputs.f 250)))
      <= (gamma u64 (Count Samples.nineteen / 8 + 3 + Count Samples.nineteen mod 8)
          + gamma u32 (Count Samples.nineteen))
         * filtered_magnitude Samples.nineteen (Inputs.f 250))%R.
Proof.
  destruct (vector_reducers_match_scalar Samples.nineteen (Inputs.f 250))
    as (_ & Hfinite & _).
  destruct Hfinite as (_ & _ & _ & H32 & H64).
  - intros i Hi. split; by_index i.
  - split; [apply H32 | apply H64]; reflexivity.
Defined.

(** C1 as stated fails under IEEE arithmetic: on one inactive element of
    balance +infinity the scalar reducer returns a NaN and both vector
    kernels return +0, so no tolerance bounds their difference. *)
Lemma vector_scalar_counterexample :
  SumActiveBalancesScalar Inputs.inf_inactive (Inputs.f 0) = S754_nan
  /\ Avx2Double.SumActiveBalancesAvx2 Inputs.inf_inactive (Inputs.f 0) = IEEE.pzero
  /\ Znver2.SumActiveBalancesAvx2 Inputs.inf_inactive (Inputs.f 0) = IEEE.pzero
  /\ (forall epsilon,
        SFleb (SFabs (SFsub IEEE.prec64 IEEE.emax64
                        (Avx2Double.SumActiveBalancesAvx2 Inputs.inf_inactive (Inputs.f 0))
                        (IEEE.convert IEEE.prec64 IEEE.emax64
                           (SumActiveBalancesScalar Inputs.inf_inactive (Inputs.f 0)))))
              epsilon = false)
  /\ (forall epsilon,
        SFleb (SFabs (SFsub IEEE.prec32 IEEE.emax32
                        (Znver2.SumActiveBalancesAvx2 Inputs.inf_inactive (Inputs.f 0))
                        (SumActiveBalancesScalar Inputs.inf_inactive (Inputs.f 0))))
              epsilon = false).
Proof.
  split; [reflexivity|]. split; [reflexivity|]. split; [reflexivity|].
  split; intros epsilon; destruct epsilon; reflexivity.
Qed.

(** ** The remainder of the vector kernels *)

(** C5, as it holds.  In every view the groups of the main loop and the
    tail loop together go through every index below [count] once, in
    order, the tail having [count mod width] indices; each kernel is its
    tail loop run from the horizontal sum of its main loop, the main loop
    adding to its lanes the products of the indices of its groups and the
    tail loop adding the balance when the scalar predicate holds, in double
    precision in the wide kernel and in single precision in the other.
    For a view of finite binary32 balances the finite results are within
    the rounding tolerance of the scalar reducer's; and in exact
    arithmetic both kernels return what the scalar reducer returns. *)
Theorem remainder_handled_once :
  forall (v : @UsersView IEEE.arith) (t : spec_float),
    (forall count : nat,
        main_indices 8 count ++ tail_indices 8 count = seq 0 count
        /\ length (tail_indices 8 count) = (count mod 8)%nat
        /\ main_indices 16 count ++ tail_indices 16 count = seq 0 count
        /\ length (tail_indices 16 count) = (count mod 16)%nat)
    /\ Avx2Double.SumActiveBalancesAvx2 v t
       = fold_left
           (fun acc i =>
              if qualifies v t i
              then SFadd IEEE.prec64 IEEE.emax64 acc
                     (IEEE.convert IEEE.prec64 IEEE.emax64 (rd (Balances v) i IEEE.pzero))
              else acc)
           (tail_indices 8 (Count v))
           (Avx2Double.horizontal_sum (fst (Avx2Double.main_loop v t))
                                      (snd (Avx2Double.main_loop v t)))
    /\ Znver2.SumActiveBalancesAvx2 v t
       = fold_left
           (fun acc i =>
              if qualifies v t i
              then SFadd IEEE.prec32 IEEE.emax32 acc (rd (Balances v) i IEEE.pzero)
              else acc)
           (tail_indices 16 (Count v))
           (Znver2.horizontal_sum (fst (Znver2.main_loop v t))
                                  (snd (Znver2.main_loop v t)))
    /\ (forall g acc,
          lanes64 (Avx2Double.main_body (Balances v) (Active v)
                     (m256_set1 t) (m256_set1 one32) g acc)
          = zip_with
              (fun a i => SFadd IEEE.prec64 IEEE.emax64 a
                            (IEEE.convert IEEE.prec64 IEEE.emax64 (contribution v t i)))
              (lanes64 acc) (seq g 8))
    /\ (forall g acc,
          lanes32 (Znver2.main_body (Balances v) (Active v)
                     (m256_set1 t) (m256_set1 one32) g acc)
          = zip_with
              (fun a i => SFadd IEEE.prec32 IEEE.emax32 a (contribution v t i))
              (lanes32 acc) (seq g 16))
    /\ (finite_b32_view v ->
        (IEEE.is_finite (SumActiveBalancesScalar v t) = true ->
         IEEE.is_finite (Avx2Double.SumActiveBalancesAvx2 v t) = true ->
         Rabs (SF2R (Avx2Double.SumActiveBalancesAvx2 v t)
               - SF2R (SumActiveBalancesScalar v t))
         <= (gamma u64 (Count v / 8 + 3 + Count v mod 8) + gamma u32 (Count v))
            * filtered_magnitude v t)%R
        /\ (IEEE.is_finite (SumActiveBalancesScalar v t) = true ->
            IEEE.is_finite (Znver2.SumActiveBalancesAvx2 v t) = true ->
            Rabs (SF2R (Znver2.SumActiveBalancesAvx2 v t)
                  - SF2R (SumActiveBalancesScalar v t))
            <= (gamma u32 (Count v / 16 + 4 + Count v mod 16) + gamma u32 (Count v))
               * filtered_magnitude v t)%R)
    /\ (forall (w : @UsersView Exact.arith) (s : Qc),
          Avx2Double.SumActiveBalancesAvx2 w s = SumActiveBalancesScalar w s
          /\ Znver2.SumActiveBalancesAvx2 w s = SumActiveBalancesScalar w s).
Proof.
  intros v t.
  split; [|split; [|split; [|split; [|split; [|split]]]]].
  - intros count. repeat split; try apply indices_cover; apply tail_indices_length; lia.
  - rewrite Avx2Double_fold. reflexivity.
  - rewrite Znver2_fold. reflexivity.
  - intros g acc. exact (@main64_lanes IEEE.arith IEEE_laws v t g acc).
  - intros g acc. exact (@main32_lanes IEEE.arith IEEE_laws v t g acc).
  - intros valid. split.
    + apply Avx2Double_Scalar_tolerance; assumption.
    + apply Znver2_Scalar_tolerance; assumption.
  - intros w s. rewrite Exact_Avx2Double, Exact_Znver2, Exact_Scalar. split; reflexivity.
Qed.

Lemma remainder_handled_once_witness :
  (Count Samples.nineteen mod 8 = 3)%nat
  /\ (Count Samples.nineteen mod 16 = 3)%nat
  /\ (Rabs (SF2R (Avx2Double.SumActiveBalancesAvx2 Samples.nineteen (Inputs.f 250))
            - SF2R (SumActiveBalancesScalar Samples.nineteen (Inputs.f 250)))
      <= (gamma u64 (Count Samples.nineteen / 8 + 3 + Count Samples.nineteen mod 8)
          + gamma u32 (Count Samples.nineteen))
         * filtered_magnitude Samples.nineteen (Inputs.f 250))%R
  /\ (Rabs (SF2R (Znver2.SumActiveBalancesAvx2 Samples.nineteen (Inputs.f 250))
            - SF2R (SumActiveBalancesScalar Samples.nineteen (Inputs.f 250)))
      <= (gamma u32 (Count Samples.nineteen / 16 + 4 + Count Samples.nineteen mod 16)
          + gamma u32 (Count Samples.nineteen))
         * filtered_magnitude Samples.nineteen (Inputs.f 250))%R.
Proof.
  destruct (remainder_handled_once Samples.nineteen (Inputs.f 250))
    as (_ & _ & _ & _ & _ & Hfinite & _).
  destruct Hfinite as (H64 & H32).
  - intros i Hi. split; by_index i.
  - split; [reflexivity|]. split; [reflexivity|].
    split; [apply H64 | apply H32]; reflexivity.
Defined.

(** C5 as stated fails under IEEE arithmetic: with 8k+1 (16k+1) inactive
    elements, the last of balance +infinity, the tail loop evaluates the
    predicate on the last element and skips it, and the kernel returns +0,
    while the scalar reducer multiplies it by 0 and returns a NaN: no
    tolerance relates the two. *)
Lemma remainder_counterexample :
  (Count (Inputs.inf_last 8) mod 8 = 1)%nat
  /\ Avx2Double.SumActiveBalancesAvx2 (Inputs.inf_last 8) (Inputs.f 0) = IEEE.pzero
  /\ SumActiveBalancesScalar (Inputs.inf_last 8) (Inputs.f 0) = S754_nan
  /\ (forall epsilon,
        SFleb (SFabs (SFsub IEEE.prec64 IEEE.emax64
                        (Avx2Double.SumActiveBalancesAvx2 (Inputs.inf_last 8) (Inputs.f 0))
                        (IEEE.convert IEEE.prec64 IEEE.emax64
                           (SumActiveBalancesScalar (Inputs.inf_last 8) (Inputs.f 0)))))
              epsilon = false)
  /\ (Count (Inputs.inf_last 16) mod 16 = 1)%nat
  /\ Znver2.SumActiveBalancesAvx2 (Inputs.inf_last 16) (Inputs.f 0) = IEEE.pzero
  /\ SumActiveBalancesScalar (Inputs.inf_last 16) (Inputs.f 0) = S754_nan
  /\ (forall epsilon,
        SFleb (SFabs (SFsub IEEE.prec32 IEEE.emax32
                        (Znver2.SumActiveBalancesAvx2 (Inputs.inf_last 16) (Inputs.f 0))
                        (SumActiveBalancesScalar (Inputs.inf_last 16) (Inputs.f 0))))
              epsilon = false).
Proof.
  split; [reflexivity|]. split; [reflexivity|]. split; [reflexivity|].
  split; [intros epsilon; destruct epsilon; reflexivity|].
  split; [reflexivity|]. split; [reflexivity|]. split; [reflexivity|].
  intros epsilon; destruct epsilon; reflexivity.
Qed.

(** ** Permutations *)

(** C7, as it holds.  For a view of finite binary32 balances and a
    permutation of its indices applied to the three arrays: the real
    filtered sum and its magnitude are unchanged, so the finite results of
    each reducer before and after differ by at most twice the reducer's
    rounding bound; and in exact arithmetic the per-element products are
    permuted and the result of each reducer is unchanged. *)
Theorem permutation_invariance :
  forall (v : @UsersView IEEE.arith) (t : spec_float) (p : list nat),
    Permutation p (seq 0 (Count v)) ->
    finite_b32_view v ->
    filtered_sum (permute_view p v) t = filtered_sum v t
    /\ filtered_magnitude (permute_view p v) t = filtered_magnitude v t
    /\ (IEEE.is_finite (SumActiveBalancesScalar v t) = true ->
        IEEE.is_finite (SumActiveBalancesScalar (permute_view p v) t) = true ->
        Rabs (SF2R (SumActiveBalancesScalar (permute_view p v) t)
              - SF2R (SumActiveBalancesScalar v t))
        <= (gamma u32 (Count v) + gamma u32 (Count v)) * filtered_magnitude v t)%R
    /\ (IEEE.is_finite (Znver2.SumActiveBalancesAvx2 v t) = true ->
        IEEE.is_finite (Znver2.SumActiveBalancesAvx2 (permute_view p v) t) = true ->
        Rabs (SF2R (Znver2.SumActiveBalancesAvx2 (permute_view p v) t)
              - SF2R (Znver2.SumActiveBalancesAvx2 v t))
        <= (gamma u32 (Count v / 16 + 4 + Count v mod 16)
            + gamma u32 (Count v / 16 + 4 + Count v mod 16)) * filtered_magnitude v t)%R
    /\ (IEEE.is_finite (Avx2Double.SumActiveBalancesAvx2 v t) = true ->
        IEEE.is_finite (Avx2Double.SumActiveBalancesAvx2 (permute_view p v) t) = true ->
        Rabs (SF2R (Avx2Double.SumActiveBalancesAvx2 (permute_view p v) t)
              - SF2R (Avx2Double.SumActiveBalancesAvx2 v t))
        <= (gamma u64 (Count v / 8 + 3 + Count v mod 8)
            + gamma u64 (Count v / 8 + 3 + Count v mod 8)) * filtered_magnitude v t)%R
    /\ (forall (w : @UsersView Exact.arith) (s : Qc) (q : list nat),
          Permutation q (seq 0 (Count w)) ->
          Permutation (map (contribution (permute_view q w) s) (seq 0 (Count w)))
                      (map (contribution w s) (seq 0 (Count w)))
          /\ SumActiveBalancesScalar (permute_view q w) s = SumActiveBalancesScalar w s
          /\ Avx2Double.SumActiveBalancesAvx2 (permute_view q w) s
             = Avx2Double.SumActiveBalancesAvx2 w s
          /\ Znver2.SumActiveBalancesAvx2 (permute_view q w) s
             = Znver2.SumActiveBalancesAvx2 w s).
Proof.
  intros v t p Hp valid.
  pose proof (permuted_finite v p Hp valid) as valid'.
  pose proof (permuted_filtered_sum v t p Hp) as HE.
  pose proof (permuted_filtered_magnitude v t p Hp) as HM.
  split; [exact HE|]. split; [exact HM|].
  split; [|split; [|split]].
  - intros H1 H2.
    pose proof (Scalar_error (permute_view p v) t valid' H2) as A2.
    rewrite HE, HM in A2. cbn [permute_view Count] in A2.
    apply (approx_distance IEEE.prec32 IEEE.prec32 _ _ _ _ (filtered_sum v t) _ A2).
    apply Scalar_error; assumption.
  - intros H1 H2.
    pose proof (Znver2_error (permute_view p v) t valid' H2) as A2.
    rewrite HE, HM in A2. cbn [permute_view Count] in A2.
    apply (approx_distance IEEE.prec32 IEEE.prec32 _ _ _ _ (filtered_sum v t) _ A2).
    apply Znver2_error; assumption.
  - intros H1 H2.
    pose proof (Avx2Double_error (permute_view p v) t valid' H2) as A2.
    rewrite HE, HM in A2. cbn [permute_view Count] in A2.
    apply (approx_distance IEEE.prec64 IEEE.prec64 _ _ _ _ (filtered_sum v t) _ A2).
    apply Avx2Double_error; assumption.
  - intros w s q Hq.
    pose proof (contributions_permuted w s q Hq) as H.
    split; [exact H|].
    rewrite !Exact_Scalar, !Exact_Avx2Double, !Exact_Znver2.
    cbn [permute_view Count].
    rewrite (Qcsum_Permutation _ _ H). repeat split.
Qed.

Lemma permutation_invariance_witness :
  filtered_sum (permute_view [1; 0; 2; 3]%nat Inputs.spec_example) (Inputs.f 250)
  = filtered_sum Inputs.spec_example (Inputs.f 250).
Proof.
  apply (permutation_invariance Inputs.spec_example (Inputs.f 250) [1; 0; 2; 3]%nat).
  - perm.
  - intros i Hi. split; by_index i.
Defined.

(** C7 as stated fails under IEEE arithmetic: nine (seventeen) inactive
    elements, the first of balance +infinity.  In the main loop the
    infinity is multiplied by 0 and the kernel returns a NaN; exchanged
    with the last element it falls in the tail, is skipped, and the kernel
    returns +0. *)
Lemma permutation_counterexample :
  Permutation (Inputs.swap_first_last 8) (seq 0 (Count (Inputs.inf_first 8)))
  /\ Avx2Double.SumActiveBalancesAvx2 (Inputs.inf_first 8) (Inputs.f 0) = S754_nan
  /\ Avx2Double.SumActiveBalancesAvx2
       (permute_view (Inputs.swap_first_last 8) (Inputs.inf_first 8)) (Inputs.f 0)
     = IEEE.pzero
  /\ Permutation (Inputs.swap_first_last 16) (seq 0 (Count (Inputs.inf_first 16)))
  /\ Znver2.SumActiveBalancesAvx2 (Inputs.inf_first 16) (Inputs.f 0) = S754_nan
  /\ Znver2.SumActiveBalancesAvx2
       (permute_view (Inputs.swap_first_last 16) (Inputs.inf_first 16)) (Inputs.f 0)
     = IEEE.pzero.
Proof.
  split; [perm|]. split; [reflexivity|]. split; [reflexivity|].
  split; [perm|]. split; reflexivity.
Qed.
(** ** What the reducers read *)

Section ReadsBelowCount.
Context {AR : Arith}.
Variables (v1 v2 : UsersView) (t : f32).

Lemma contrib8_ext : forall (th one : m256 f32) (g : nat),
  (forall k, (k < 8)%nat ->
     rd (Balances v1) (g + k) zero32 = rd (Balances v2) (g + k) zero32
     /\ rd (Active v1) (g + k) x00 = rd (Active v2) (g + k) x00) ->
  contrib8 (Balances v1) (Active v1) th one g
  = contrib8 (Balances v2) (Active v2) th one g.
Proof.
  intros th one g H.
  unfold contrib8, mm_loadl_epi64, load8.
  pose proof (H 0%nat ltac:(lia)) as H0. rewrite Nat.add_0_r in H0.
  destruct H0 as [B0 A0].
  destruct (H 1%nat ltac:(lia)) as [B1 A1].
  destruct (H 2%nat ltac:(lia)) as [B2 A2].
  destruct (H 3%nat ltac:(lia)) as [B3 A3].
  destruct (H 4%nat ltac:(lia)) as [B4 A4].
  destruct (H 5%nat ltac:(lia)) as [B5 A5].
  destruct (H 6%nat ltac:(lia)) as [B6 A6].
  destruct (H 7%nat ltac:(lia)) as [B7 A7].
  rewrite B0, B1, B2, B3, B4, B5, B6, B7, A0, A1, A2, A3, A4, A5, A6, A7.
  reflexivity.
Qed.

Hypothesis same_count : Count v1 = Count v2.

Lemma group_bound : forall w g k,
  (0 < w)%nat -> In g (counters 0 w (Count v1 / w)) -> (k < w)%nat ->
  (g + k < Count v1 / w * w)%nat.
Proof.
  intros w g k Hw Hg Hk.
  apply (group_lane_bound w (Count v1 / w * w) g (g + k)).
  - rewrite Nat.div_mul by lia. exact Hg.
  - apply in_seq. lia.
Qed.

(** The main loops read below the last multiple of their width. *)
Lemma ext_main64 :
  (forall i, (i < Count v1 / 8 * 8)%nat ->
     rd (Balances v1) i zero32 = rd (Balances v2) i zero32
     /\ rd (Active v1) i x00 = rd (Active v2) i x00) ->
  Avx2Double.main_loop v1 t = Avx2Double.main_loop v2 t.
Proof.
  intros same. unfold Avx2Double.main_loop. rewrite <- same_count.
  apply fold_left_ext_in. intros acc g Hg.
  unfold Avx2Double.main_body. destruct acc as [acc0 acc1].
  rewrite (contrib8_ext _ _ g); [reflexivity|].
  intros k Hk. apply same. apply (group_bound 8); [lia | exact Hg | exact Hk].
Qed.

Lemma ext_main32 :
  (forall i, (i < Count v1 / 16 * 16)%nat ->
     rd (Balances v1) i zero32 = rd (Balances v2) i zero32
     /\ rd (Active v1) i x00 = rd (Active v2) i x00) ->
  Znver2.main_loop v1 t = Znver2.main_loop v2 t.
Proof.
  intros same. unfold Znver2.main_loop. rewrite <- same_count.
  apply fold_left_ext_in. intros acc g Hg.
  unfold Znver2.main_body. destruct acc as [acc0 acc1].
  rewrite (contrib8_ext _ _ g), (contrib8_ext _ _ (g + 8)); [reflexivity| |].
  - intros k Hk. rewrite <- Nat.add_assoc. apply same.
    apply (group_bound 16); [lia | exact Hg | lia].
  - intros k Hk. apply same. apply (group_bound 16); [lia | exact Hg | lia].
Qed.

(** The tail loops read from there to [Count], and only what decides
    the branch and, where it is taken, the balance. *)
Lemma ext_tail64 : forall acc,
  (forall i, (Count v1 / 8 * 8 <= i < Count v1)%nat ->
     qualifies v1 t i = qualifies v2 t i
     /\ (qualifies v1 t i = true ->
         rd (Balances v1) i zero32 = rd (Balances v2) i zero32)) ->
  Avx2Double.tail_loop v1 t acc = Avx2Double.tail_loop v2 t acc.
Proof.
  intros acc same. unfold Avx2Double.tail_loop. rewrite <- same_count.
  apply fold_left_ext_in. intros a i Hi. apply in_seq in Hi.
  assert (Hlt : (Count v1 / 8 * 8 <= i < Count v1)%nat).
  { pose proof (Nat.Div0.mul_div_le (Count v1) 8). lia. }
  destruct (same i Hlt) as [Hq Hb].
  unfold Avx2Double.tail_body. unfold qualifies in Hq, Hb. rewrite <- Hq.
  destruct (_ && _); [rewrite Hb|]; reflexivity.
Qed.

Lemma ext_tail32 : forall acc,
  (forall i, (Count v1 / 16 * 16 <= i < Count v1)%nat ->
     qualifies v1 t i = qualifies v2 t i
     /\ (qualifies v1 t i = true ->
         rd (Balances v1) i zero32 = rd (Balances v2) i zero32)) ->
  Znver2.tail_loop v1 t acc = Znver2.tail_loop v2 t acc.
Proof.
  intros acc same. unfold Znver2.tail_loop. rewrite <- same_count.
  apply fold_left_ext_in. intros a i Hi. apply in_seq in Hi.
  assert (Hlt : (Count v1 / 16 * 16 <= i < Count v1)%nat).
  { pose proof (Nat.Div0.mul_div_le (Count v1) 16). lia. }
  destruct (same i Hlt) as [Hq Hb].
  unfold Znver2.tail_body. unfold qualifies in Hq, Hb. rewrite <- Hq.
  destruct (_ && _); [rewrite Hb|]; reflexivity.
Qed.

Hypothesis same_below : forall i, (i < Count v1)%nat ->
  rd (Balances v1) i zero32 = rd (Balances v2) i zero32
  /\ rd (Active v1) i x00 = rd (Active v2) i x00.

Lemma ext_Scalar : SumActiveBalancesScalar v1 t = SumActiveBalancesScalar v2 t.
Proof.
  rewrite !Scalar_fold. unfold scalar_sum. rewrite <- same_count.
  apply fold_left_ext_in. intros acc i Hi.
  apply in_seq in Hi. destruct (same_below i ltac:(lia)) as [Hb Ha].
  unfold contribution, take_value, qualifies. rewrite Hb, Ha. reflexivity.
Qed.

Lemma same_qualifies : forall i, (i < Count v1)%nat ->
  qualifies v1 t i = qualifies v2 t i
  /\ (qualifies v1 t i = true ->
      rd (Balances v1) i zero32 = rd (Balances v2) i zero32).
Proof.
  intros i Hi. destruct (same_below i Hi) as [Hb Ha].
  unfold qualifies. rewrite Hb, Ha. split; [reflexivity | intros _; reflexivity].
Qed.

Lemma ext_Avx2Double :
  Avx2Double.SumActiveBalancesAvx2 v1 t = Avx2Double.SumActiveBalancesAvx2 v2 t.
Proof.
  pose proof (Nat.Div0.mul_div_le (Count v1) 8) as Hle.
  rewrite !Avx2Double_fold, ext_main64.
  - apply ext_tail64. intros i Hi. apply same_qualifies. lia.
  - intros i Hi. apply same_below. lia.
Qed.

Lemma ext_Znver2 :
  Znver2.SumActiveBalancesAvx2 v1 t = Znver2.SumActiveBalancesAvx2 v2 t.
Proof.
  pose proof (Nat.Div0.mul_div_le (Count v1) 16) as Hle.
  rewrite !Znver2_fold, ext_main32.
  - apply ext_tail32. intros i Hi. apply same_qualifies. lia.
  - intros i Hi. apply same_below. lia.
Qed.
End ReadsBelowCount.

(** X1: the reducers read the balances and the activity bytes at the
    indices below [Count] and nothing else: two views of the same count
    that agree there (whatever their ids, and whatever lies at or past
    [Count], the region the same-precision kernel prefetches) give the same
    result, in the scalar reducer and in both vector kernels, in any
    arithmetic. *)
Theorem reducers_read_below_Count :
  forall (AR : Arith) (v1 v2 : UsersView) (t : f32),
    Count v1 = Count v2 ->
    (forall i, (i < Count v1)%nat ->
       rd (Balances v1) i zero32 = rd (Balances v2) i zero32
       /\ rd (Active v1) i x00 = rd (Active v2) i x00) ->
    SumActiveBalancesScalar v1 t = SumActiveBalancesScalar v2 t
    /\ Dod.SumActiveBalances v1 t = Dod.SumActiveBalances v2 t
    /\ Avx2Double.SumActiveBalancesAvx2 v1 t = Avx2Double.SumActiveBalancesAvx2 v2 t
    /\ Znver2.SumActiveBalancesAvx2 v1 t = Znver2.SumActiveBalancesAvx2 v2 t.
Proof.
  intros AR v1 v2 t Hc Hs.
  split; [apply ext_Scalar; assumption|].
  split; [rewrite !Dod_is_Scalar; apply ext_Scalar; assumption|].
  split; [apply ext_Avx2Double | apply ext_Znver2]; assumption.
Qed.
Lemma reducers_read_below_Count_witness :
  SumActiveBalancesScalar Inputs.spec_example (Inputs.f 250)
  = SumActiveBalancesScalar Samples.spec_example_padded (Inputs.f 250)
  /\ Dod.SumActiveBalances Inputs.spec_example (Inputs.f 250)
     = Dod.SumActiveBalances Samples.spec_example_padded (Inputs.f 250)
  /\ Avx2Double.SumActiveBalancesAvx2 Inputs.spec_example (Inputs.f 250)
     = Avx2Double.SumActiveBalancesAvx2 Samples.spec_example_padded (Inputs.f 250)
  /\ Znver2.SumActiveBalancesAvx2 Inputs.spec_example (Inputs.f 250)
     = Znver2.SumActiveBalancesAvx2 Samples.spec_example_padded (Inputs.f 250).
Proof.
  apply (reducers_read_below_Count IEEE.arith
           Inputs.spec_example Samples.spec_example_padded).
  - reflexivity.
  - intros i Hi. split; by_index i.
Defined.

(** ** The repository: visiting and looking up *)

Lemma FindById_app : forall (AR : Arith) (users more : list Repository.User) (id : Z),
  Repository.VectorUserRepository_FindById (users ++ more) id
  = match Repository.VectorUserRepository_FindById users id with
    | Some user => Some user
    | None => Repository.VectorUserRepository_FindById more id
    end.
Proof.
  intros AR users more id. induction users as [|u users IH]; [reflexivity|].
  simpl. destruct (Repository.Id u =? id)%Z; [reflexivity | exact IH].
Qed.

Lemma FindById_none : forall (AR : Arith) (users : list Repository.User) (id : Z),
  ~ In id (map Repository.Id users) ->
  Repository.VectorUserRepository_FindById users id = None.
Proof.
  intros AR users id. induction users as [|u users IH]; intros Hn; [reflexivity|].
  simpl in *. destruct (Z.eqb_spec (Repository.Id u) id) as [E|E].
  - exfalso. apply Hn. left. exact E.
  - apply IH. intros Hin. apply Hn. right. exact Hin.
Qed.

Lemma FindById_found : forall (AR : Arith) (users : list Repository.User)
    (user : Repository.User),
  NoDup (map Repository.Id users) -> In user users ->
  Repository.VectorUserRepository_FindById users (Repository.Id user) = Some user.
Proof.
  intros AR users user Hnd Hin.
  induction users as [|u users IH]; [destruct Hin|].
  simpl in *. inversion Hnd as [|x l Hnotin Hnd']; subst.
  destruct Hin as [E | Hin].
  - subst u. rewrite Z.eqb_refl. reflexivity.
  - destruct (Z.eqb_spec (Repository.Id u) (Repository.Id user)) as [E|E].
    + exfalso. apply Hnotin. rewrite E. apply in_map. exact Hin.
    + apply IH; assumption.
Qed.

(** X2: looking up the id of a stored record gives that record back when
    no two records share an id (with duplicates the first wins, so a later
    record of the same id is never returned), and an id no record has gives
    nothing. *)
Theorem FindById_round_trip :
  forall (AR : Arith) (users : list Repository.User),
    NoDup (map Repository.Id users) ->
    (forall user, In user users ->
       Repository.FindById (Repository.VectorUserRepository users) (Repository.Id user)
       = Some user)
    /\ (forall id, ~ In id (map Repository.Id users) ->
          Repository.FindById (Repository.VectorUserRepository users) id = None).
Proof.
  intros AR users Hnd. split.
  - intros user Hin. simpl. apply FindById_found; assumption.
  - intros id Hn. simpl. apply FindById_none. exact Hn.
Qed.

Lemma FindById_round_trip_witness :
  (forall user, In user Inputs.spec_example_users ->
     Repository.FindById (Repository.VectorUserRepository Inputs.spec_example_users)
       (Repository.Id user)
     = Some user)
  /\ (forall id, ~ In id (map (@Repository.Id IEEE.arith) Inputs.spec_example_users) ->
        Repository.FindById (Repository.VectorUserRepository Inputs.spec_example_users) id
        = None).
Proof.
  apply (FindById_round_trip IEEE.arith Inputs.spec_example_users).
  repeat constructor; simpl; intuition discriminate.
Defined.

(** X3: a lookup in a repository of two record sequences, one after the
    other, is the lookup in the first and, only if that finds nothing, the
    lookup in the second. *)
Theorem FindById_append :
  forall (AR : Arith) (users more : list Repository.User) (id : Z),
    Repository.FindById (Repository.VectorUserRepository (users ++ more)) id
    = match Repository.FindById (Repository.VectorUserRepository users) id with
      | Some user => Some user
      | None => Repository.FindById (Repository.VectorUserRepository more) id
      end.
Proof.
  intros AR users more id. simpl. apply FindById_app.
Qed.

(** X4: [ForEach] calls the visitor once on every record, in storage
    order, and threads the visitor's state from one call to the next: a
    visitor that logs what it is given ends with the stored sequence,
    and visiting two sequences one after the other is visiting the second
    from the state the first was left in. *)
Theorem ForEach_visits_in_order :
  forall (AR : Arith) (users more : list Repository.User),
    Repository.ForEach (Repository.VectorUserRepository users)
      (fun user log => log ++ [user]) [] = users
    /\ (forall (S : Type) (fn : Repository.User -> S -> S) (st : S),
          Repository.ForEach (Repository.VectorUserRepository (users ++ more)) fn st
          = Repository.ForEach (Repository.VectorUserRepository more) fn
              (Repository.ForEach (Repository.VectorUserRepository users) fn st)).
Proof.
  intros AR users more. split.
  - rewrite ForEach_fold.
    assert (H : forall l log, fold_left (fun st (user : Repository.User) => st ++ [user]) l log
                              = log ++ l).
    { induction l as [|u l IH]; intros log; simpl.
      - symmetry. apply app_nil_r.
      - rewrite IH, <- app_assoc. reflexivity. }
    apply H.
  - intros S fn st. rewrite !ForEach_fold. apply fold_left_app.
Qed.

(** ** The repository sum *)

Lemma repository_fold_filter : forall (AR : Arith) (users : list Repository.User)
    (t acc : f32),
  fold_left
    (fun acc (user : Repository.User) =>
       if Repository.Qualifies user t then add32 acc (Repository.Balance user) else acc)
    users acc
  = fold_left add32
      (map Repository.Balance (filter (fun user => Repository.Qualifies user t) users))
      acc.
Proof.
  intros AR users t. induction users as [|u users IH]; intros acc; [reflexivity|].
  simpl. destruct (Repository.Qualifies u t); simpl; apply IH.
Qed.

Lemma repository_sum_filter : forall (AR : Arith) (users : list Repository.User) (t : f32),
  Repository.SumActiveBalances (Repository.VectorUserRepository users) t
  = fold_left add32
      (map Repository.Balance (filter (fun user => Repository.Qualifies user t) users))
      zero32.
Proof.
  intros AR users t. unfold Repository.SumActiveBalances. rewrite ForEach_fold.
  apply repository_fold_filter.
Qed.

(** X5: the repository sum is the left-to-right sum, from 0.0f, of the
    balances of the qualifying records in storage order: records that do
    not qualify leave no trace in the result (not even a rounding), in any
    arithmetic. *)
Theorem repository_sum_over_qualifying :
  forall (AR : Arith) (users : list Repository.User) (t : f32),
    Repository.SumActiveBalances (Repository.VectorUserRepository users) t
    = fold_left add32
        (map Repository.Balance
           (filter (fun user => Repository.Qualifies user t) users))
        zero32
    /\ Repository.SumActiveBalances (Repository.VectorUserRepository users) t
       = Repository.SumActiveBalances
           (Repository.VectorUserRepository
              (filter (fun user => Repository.Qualifies user t) users)) t.
Proof.
  intros AR users t.
  pose proof (repository_sum_filter AR) as H.
  split; [apply H|].
  rewrite (H users t), (H (filter _ users) t).
  f_equal. f_equal.
  induction users as [|u users IH]; [reflexivity|].
  simpl. destruct (Repository.Qualifies u t) eqn:E; simpl; [rewrite E|]; congruence.
Qed.
(** ** NaNs and infinities in the data *)

Section NaN.
Variables (prec emax : Z).

Lemma SFadd_nan_l : forall y, SFadd prec emax S754_nan y = S754_nan.
Proof. reflexivity. Qed.

Lemma SFadd_nan_r : forall x, SFadd prec emax x S754_nan = S754_nan.
Proof. intros [ | | | ]; reflexivity. Qed.

Lemma SFmul_nan_l : forall y, SFmul prec emax S754_nan y = S754_nan.
Proof. reflexivity. Qed.

(** A sum that meets a NaN term, or starts from a NaN, is a NaN. *)
Lemma fold_nan : forall (X : Type) (c : X -> spec_float) (l : list X) (acc : spec_float),
  acc = S754_nan \/ (exists x, In x l /\ c x = S754_nan) ->
  fold_left (fun acc x => SFadd prec emax acc (c x)) l acc = S754_nan.
Proof.
  intros X c l. induction l as [|x l IH]; intros acc H.
  - destruct H as [H | (x & [] & _)]. exact H.
  - cbn [fold_left]. apply IH.
    destruct H as [H | (y & [E | Hin] & Hy)].
    + left. rewrite H. apply SFadd_nan_l.
    + left. subst y. rewrite Hy. apply SFadd_nan_r.
    + right. exists y. split; assumption.
Qed.
End NaN.

Lemma ge_nan_l : forall t, IEEE.ge S754_nan t = false.
Proof. intros [ | | | ]; reflexivity. Qed.

Lemma ge_nan_r : forall b, IEEE.ge b S754_nan = false.
Proof. reflexivity. Qed.

Lemma convert_nan : forall prec emax, IEEE.convert prec emax S754_nan = S754_nan.
Proof. reflexivity. Qed.

Section NaNKernels.
Local Notation "'View'" := (@UsersView IEEE.arith).
Variables (v : View) (t : spec_float).

Lemma nan_contribution : forall i, nan_product v t i -> contribution v t i = S754_nan.
Proof.
  intros i [H | [[s H] Hq]]; unfold contribution, take_value.
  - change (@zero32 IEEE.arith) with IEEE.pzero. rewrite H. reflexivity.
  - rewrite Hq. change (@zero32 IEEE.arith) with IEEE.pzero. rewrite H. reflexivity.
Qed.

Lemma nan_Scalar : forall i, (i < Count v)%nat -> nan_product v t i ->
  SumActiveBalancesScalar v t = S754_nan.
Proof.
  intros i Hi Hn. rewrite Scalar_fold. unfold scalar_sum.
  apply (fold_nan IEEE.prec32 IEEE.emax32 _ (contribution v t)).
  right. exists i. split; [apply in_seq; lia | apply nan_contribution; exact Hn].
Qed.

(** Index [i] of the main loop of a kernel of width [w] is in lane
    [i mod w] of group [i / w * w]. *)
Lemma main_index_lane : forall w i,
  (0 < w)%nat -> (i < Count v / w * w)%nat ->
  In i (map (fun g => g + i mod w)%nat (counters 0 w (Count v / w))).
Proof.
  intros w i Hw Hi. apply in_map_iff. exists (i / w * w)%nat. split.
  - pose proof (Nat.div_mod_eq i w). lia.
  - unfold counters. apply in_map_iff. exists (i / w)%nat. split; [lia|].
    apply in_seq. split; [lia|]. cbn [plus].
    apply Nat.Div0.div_lt_upper_bound. lia.
Qed.

Lemma nan_lane64 : forall i, (i < Count v / 8 * 8)%nat -> nan_product v t i ->
  nth (i mod 8) (lanes64 (Avx2Double.main_loop v t)) IEEE.pzero = S754_nan.
Proof.
  intros i Hi Hn. unfold Avx2Double.main_loop.
  rewrite (@lanes64_fold IEEE.arith IEEE_laws).
  rewrite (lane_fold _ _ 8) by (reflexivity || (apply Nat.mod_upper_bound; lia)).
  apply (fold_nan IEEE.prec64 IEEE.emax64 _
           (fun i => @cvtps_pd IEEE.arith (contribution v t i))).
  right. exists i. split; [apply main_index_lane; [lia | exact Hi]|].
  rewrite (nan_contribution i Hn). reflexivity.
Qed.

Lemma nan_lane32 : forall i, (i < Count v / 16 * 16)%nat -> nan_product v t i ->
  nth (i mod 16) (lanes32 (Znver2.main_loop v t)) IEEE.pzero = S754_nan.
Proof.
  intros i Hi Hn. unfold Znver2.main_loop.
  rewrite (@lanes32_fold IEEE.arith IEEE_laws).
  rewrite (lane_fold _ _ 16) by (reflexivity || (apply Nat.mod_upper_bound; lia)).
  apply (fold_nan IEEE.prec32 IEEE.emax32 _ (contribution v t)).
  right. exists i. split; [apply main_index_lane; [lia | exact Hi]|].
  apply nan_contribution. exact Hn.
Qed.
End NaNKernels.

Ltac nan_sum :=
  repeat first [rewrite SFadd_nan_l | rewrite SFadd_nan_r]; reflexivity.

Lemma nan_hsum64 : forall (acc : m256d spec_float * m256d spec_float) (j : nat),
  (j < 8)%nat -> nth j (lanes64 acc) IEEE.pzero = S754_nan ->
  @Avx2Double.horizontal_sum IEEE.arith (fst acc) (snd acc) = S754_nan.
Proof.
  intros [[[a0 a1] [a2 a3]] [[b0 b1] [b2 b3]]] j Hj H.
  unfold Avx2Double.horizontal_sum, mm_unpackhi_pd, m256d_map2, m128d_map2.
  cbn [fst snd dlo dhi d0 d1].
  change (@add64 IEEE.arith) with (SFadd IEEE.prec64 IEEE.emax64).
  do 8 (destruct j as [|j]; [cbn in H; subst; nan_sum|]). lia.
Qed.

Lemma nan_hsum32 : forall (acc : m256 spec_float * m256 spec_float) (j : nat),
  (j < 16)%nat -> nth j (lanes32 acc) IEEE.pzero = S754_nan ->
  @Znver2.horizontal_sum IEEE.arith (fst acc) (snd acc) = S754_nan.
Proof.
  intros [[[a0 a1 a2 a3] [a4 a5 a6 a7]] [[b0 b1 b2 b3] [b4 b5 b6 b7]]] j Hj H.
  unfold Znver2.horizontal_sum, mm_hadd_ps, m256_map2, m128_map2.
  cbn [fst snd lo hi x0 x1 x2 x3].
  change (@add32 IEEE.arith) with (SFadd IEEE.prec32 IEEE.emax32).
  do 16 (destruct j as [|j]; [cbn in H; subst; nan_sum|]). lia.
Qed.

Lemma nan_tail64 : forall (v : @UsersView IEEE.arith) t,
  Avx2Double.tail_loop v t S754_nan = S754_nan.
Proof.
  intros v t. unfold Avx2Double.tail_loop.
  apply fold_left_inv; [reflexivity|].
  intros s i _ ->. unfold Avx2Double.tail_body.
  destruct (_ && _); reflexivity.
Qed.

Lemma nan_tail32 : forall (v : @UsersView IEEE.arith) t,
  Znver2.tail_loop v t S754_nan = S754_nan.
Proof.
  intros v t. unfold Znver2.tail_loop.
  apply fold_left_inv; [reflexivity|].
  intros s i _ ->. unfold Znver2.tail_body.
  destruct (_ && _); reflexivity.
Qed.

(** X6: one NaN balance among the [Count] elements, active or not, makes
    the scalar reducer return a NaN, whatever the threshold; so does one
    infinite balance on an element that does not qualify.  The scalar
    loop has no branch: it multiplies every balance by 0.0f or 1.0f. *)
Theorem scalar_reducer_propagates_nan :
  forall (v : @UsersView IEEE.arith) (t : spec_float) (i : nat),
    (i < Count v)%nat ->
    nan_product v t i ->
    SumActiveBalancesScalar v t = S754_nan
    /\ Dod.SumActiveBalances v t = S754_nan.
Proof.
  intros v t i Hi Hn.
  split; [|rewrite Dod_is_Scalar]; apply (nan_Scalar v t i Hi Hn).
Qed.
Lemma scalar_reducer_propagates_nan_witness :
  SumActiveBalancesScalar Inputs.inf_inactive (Inputs.f 0) = S754_nan
  /\ Dod.SumActiveBalances Inputs.inf_inactive (Inputs.f 0) = S754_nan.
Proof.
  apply (scalar_reducer_propagates_nan Inputs.inf_inactive (Inputs.f 0) 0).
  - simpl. lia.
  - right. split; [exists false|]; reflexivity.
Defined.

Lemma nan_not_qualifying : forall (v : @UsersView IEEE.arith) t i,
  nan_product v t i -> qualifies v t i = false.
Proof.
  intros v t i [H | [_ H]]; [|exact H].
  unfold qualifies. change (@zero32 IEEE.arith) with IEEE.pzero. rewrite H.
  change (@ge32 IEEE.arith) with IEEE.ge. rewrite ge_nan_l. apply andb_false_r.
Qed.

Section SkippedInTail.
Local Notation "'View'" := (@UsersView IEEE.arith).
Variables (v v' : View) (t : spec_float) (i : nat).
Hypothesis same_count : Count v' = Count v.
Hypothesis same_elsewhere : forall k, (k < Count v)%nat -> k <> i ->
  rd (Balances v') k IEEE.pzero = rd (Balances v) k IEEE.pzero
  /\ rd (Active v') k x00 = rd (Active v) k x00.
Hypothesis skipped : qualifies v t i = false.
Hypothesis skipped' : qualifies v' t i = false.

Lemma tail_same_qualifies : forall k, (k < Count v')%nat ->
  qualifies v' t k = qualifies v t k
  /\ (qualifies v' t k = true ->
      rd (Balances v') k zero32 = rd (Balances v) k zero32).
Proof.
  intros k Hk. destruct (Nat.eq_dec k i) as [-> | Hne].
  - rewrite skipped, skipped'. split; [reflexivity | discriminate].
  - destruct (same_elsewhere k ltac:(lia) Hne) as [Hb Ha].
    unfold qualifies. change (@zero32 IEEE.arith) with IEEE.pzero.
    rewrite Hb, Ha. split; [reflexivity | intros _; reflexivity].
Qed.

Lemma skipped_tail64 : (Count v / 8 * 8 <= i)%nat ->
  Avx2Double.SumActiveBalancesAvx2 v' t = Avx2Double.SumActiveBalancesAvx2 v t.
Proof.
  intros Hi. rewrite !Avx2Double_fold, (ext_main64 v' v t same_count).
  - apply (ext_tail64 v' v t same_count). intros k Hk. apply tail_same_qualifies. lia.
  - intros k Hk. rewrite same_count in Hk. apply same_elsewhere; [|lia].
    pose proof (Nat.Div0.mul_div_le (Count v) 8). lia.
Qed.

Lemma skipped_tail32 : (Count v / 16 * 16 <= i)%nat ->
  Znver2.SumActiveBalancesAvx2 v' t = Znver2.SumActiveBalancesAvx2 v t.
Proof.
  intros Hi. rewrite !Znver2_fold, (ext_main32 v' v t same_count).
  - apply (ext_tail32 v' v t same_count). intros k Hk. apply tail_same_qualifies. lia.
  - intros k Hk. rewrite same_count in Hk. apply same_elsewhere; [|lia].
    pose proof (Nat.Div0.mul_div_le (Count v) 16). lia.
Qed.
End SkippedInTail.

(** X7: what a NaN balance (or an infinite balance on an element that
    does not qualify) does to a vector kernel depends on where it lies.
    In the part the main loop covers, it makes the result a NaN, as in the
    scalar reducer.  In the remainder the tail loop covers, it is skipped
    by the branch: the result is the one for any view that differs at that
    index only and does not qualify there. *)
Theorem vector_kernels_nan_by_position :
  forall (v : @UsersView IEEE.arith) (t : spec_float) (i : nat),
    nan_product v t i ->
    ((i < Count v / 8 * 8)%nat ->
       Avx2Double.SumActiveBalancesAvx2 v t = S754_nan)
    /\ ((i < Count v / 16 * 16)%nat ->
          Znver2.SumActiveBalancesAvx2 v t = S754_nan)
    /\ (forall v' : @UsersView IEEE.arith,
          Count v' = Count v ->
          (forall k, (k < Count v)%nat -> k <> i ->
             rd (Balances v') k IEEE.pzero = rd (Balances v) k IEEE.pzero
             /\ rd (Active v') k x00 = rd (Active v) k x00) ->
          qualifies v' t i = false ->
          ((Count v / 8 * 8 <= i)%nat ->
             Avx2Double.SumActiveBalancesAvx2 v' t = Avx2Double.SumActiveBalancesAvx2 v t)
          /\ ((Count v / 16 * 16 <= i)%nat ->
                Znver2.SumActiveBalancesAvx2 v' t = Znver2.SumActiveBalancesAvx2 v t)).
Proof.
  intros v t i Hn. split; [|split].
  - intros Hi. rewrite Avx2Double_fold.
    rewrite (nan_hsum64 _ (i mod 8)).
    + apply nan_tail64.
    + apply Nat.mod_upper_bound. lia.
    + apply nan_lane64; assumption.
  - intros Hi. rewrite Znver2_fold.
    rewrite (nan_hsum32 _ (i mod 16)).
    + apply nan_tail32.
    + apply Nat.mod_upper_bound. lia.
    + apply nan_lane32; assumption.
  - intros v' Hc Hs Hq. pose proof (nan_not_qualifying v t i Hn) as Hq'.
    split; intros Hi.
    + apply (skipped_tail64 v v' t i); assumption.
    + apply (skipped_tail32 v v' t i); assumption.
Qed.
Lemma vector_kernels_nan_by_position_witness :
  ((0 < Count (Inputs.inf_first 16) / 8 * 8)%nat ->
     Avx2Double.SumActiveBalancesAvx2 (Inputs.inf_first 16) (Inputs.f 0) = S754_nan)
  /\ ((0 < Count (Inputs.inf_first 16) / 16 * 16)%nat ->
        Znver2.SumActiveBalancesAvx2 (Inputs.inf_first 16) (Inputs.f 0) = S754_nan)
  /\ (forall v' : @UsersView IEEE.arith,
        Count v' = Count (Inputs.inf_first 16) ->
        (forall k, (k < Count (Inputs.inf_first 16))%nat -> k <> 0%nat ->
           rd (Balances v') k IEEE.pzero = rd (Balances (Inputs.inf_first 16)) k IEEE.pzero
           /\ rd (Active v') k x00 = rd (Active (Inputs.inf_first 16)) k x00) ->
        qualifies v' (Inputs.f 0) 0 = false ->
        ((Count (Inputs.inf_first 16) / 8 * 8 <= 0)%nat ->
           Avx2Double.SumActiveBalancesAvx2 v' (Inputs.f 0)
           = Avx2Double.SumActiveBalancesAvx2 (Inputs.inf_first 16) (Inputs.f 0))
        /\ ((Count (Inputs.inf_first 16) / 16 * 16 <= 0)%nat ->
              Znver2.SumActiveBalancesAvx2 v' (Inputs.f 0)
              = Znver2.SumActiveBalancesAvx2 (Inputs.inf_first 16) (Inputs.f 0))).
Proof.
  apply (vector_kernels_nan_by_position (Inputs.inf_first 16) (Inputs.f 0) 0).
  right. split; [exists false|]; reflexivity.
Defined.

(** X8: a record whose balance is a NaN never qualifies, and no record
    qualifies against a NaN threshold.  So a NaN balance never reaches the
    repository sum (the sum is the one without that record), and the sum
    against a NaN threshold is +0.0f. *)
Theorem repository_skips_nan :
  forall (users more : list (@Repository.User IEEE.arith))
         (user : @Repository.User IEEE.arith) (t : spec_float),
    Repository.Balance user = S754_nan ->
    Repository.Qualifies user t = false
    /\ Repository.SumActiveBalances
         (Repository.VectorUserRepository (users ++ user :: more)) t
       = Repository.SumActiveBalances
           (Repository.VectorUserRepository (users ++ more)) t
    /\ Repository.SumActiveBalances
         (Repository.VectorUserRepository (users ++ user :: more)) S754_nan
       = IEEE.pzero.
Proof.
  intros users more user t Hn.
  assert (Hq : Repository.Qualifies user t = false).
  { unfold Repository.Qualifies. rewrite Hn.
    change (@ge32 IEEE.arith) with IEEE.ge. rewrite ge_nan_l. apply andb_false_r. }
  split; [exact Hq|]. split.
  - rewrite !repository_sum_filter, !filter_app. cbn [filter]. rewrite Hq. reflexivity.
  - rewrite repository_sum_filter.
    assert (H : forall l : list (@Repository.User IEEE.arith),
               filter (fun u => @Repository.Qualifies IEEE.arith u S754_nan) l = []).
    { induction l as [|u l IH]; [reflexivity|]. cbn [filter].
      unfold Repository.Qualifies at 1.
      change (@ge32 IEEE.arith) with IEEE.ge. rewrite ge_nan_r, andb_false_r. exact IH. }
    rewrite H. reflexivity.
Qed.

Lemma repository_skips_nan_witness :
  Repository.Qualifies (@Repository.Build_User IEEE.arith 9%Z S754_nan true) (Inputs.f 250)
  = false
  /\ Repository.SumActiveBalances
       (Repository.VectorUserRepository
          (Inputs.spec_example_users
           ++ @Repository.Build_User IEEE.arith 9%Z S754_nan true :: Samples.twins))
       (Inputs.f 250)
     = Repository.SumActiveBalances
         (Repository.VectorUserRepository (Inputs.spec_example_users ++ Samples.twins))
         (Inputs.f 250)
  /\ Repository.SumActiveBalances
       (Repository.VectorUserRepository
          (Inputs.spec_example_users
           ++ @Repository.Build_User IEEE.arith 9%Z S754_nan true :: Samples.twins))
       S754_nan
     = IEEE.pzero.
Proof.
  apply (repository_skips_nan Inputs.spec_example_users Samples.twins
           (@Repository.Build_User IEEE.arith 9%Z S754_nan true) (Inputs.f 250)).
  reflexivity.
Defined.

(** ** The sign of a zero result *)

Section NeverNegativeZero.
Local Notation "'good32'" := (IEEE.good IEEE.prec32 IEEE.emax32).
Local Notation "'good64'" := (IEEE.good IEEE.prec64 IEEE.emax64).
Local Notation "'View'" := (@UsersView IEEE.arith).

Lemma add_good : forall prec emax x y, (0 < prec)%Z ->
  IEEE.good prec emax x -> IEEE.good prec emax y ->
  IEEE.good prec emax (SFadd prec emax x y).
Proof.
  intros prec emax x y Hp Hx [_ Hy]. apply SFadd_good; assumption.
Qed.

Lemma good_hsum64 : forall acc : m256d spec_float * m256d spec_float,
  Forall good64 (lanes64 acc) ->
  good64 (@Avx2Double.horizontal_sum IEEE.arith (fst acc) (snd acc)).
Proof.
  intros [[[a0 a1] [a2 a3]] [[b0 b1] [b2 b3]]] H.
  cbv [lanes64 lanes32 m256d_lanes m256_lanes m128_lanes app fst snd
       dlo dhi d0 d1 lo hi x0 x1 x2 x3] in H.
  repeat match goal with H : Forall _ (_ :: _) |- _ => inversion H; clear H; subst end.
  unfold Avx2Double.horizontal_sum, mm_unpackhi_pd, m256d_map2, m128d_map2.
  cbn [fst snd dlo dhi d0 d1].
  change (@add64 IEEE.arith) with (SFadd IEEE.prec64 IEEE.emax64).
  repeat (apply add_good; [reflexivity| |]); assumption.
Qed.

Lemma good_hsum32 : forall acc : m256 spec_float * m256 spec_float,
  Forall good32 (lanes32 acc) ->
  good32 (@Znver2.horizontal_sum IEEE.arith (fst acc) (snd acc)).
Proof.
  intros [[[a0 a1 a2 a3] [a4 a5 a6 a7]] [[b0 b1 b2 b3] [b4 b5 b6 b7]]] H.
  cbv [lanes64 lanes32 m256d_lanes m256_lanes m128_lanes app fst snd
       dlo dhi d0 d1 lo hi x0 x1 x2 x3] in H.
  repeat match goal with H : Forall _ (_ :: _) |- _ => inversion H; clear H; subst end.
  unfold Znver2.horizontal_sum, mm_hadd_ps, m256_map2, m128_map2.
  cbn [fst snd lo hi x0 x1 x2 x3].
  change (@add32 IEEE.arith) with (SFadd IEEE.prec32 IEEE.emax32).
  repeat (apply add_good; [reflexivity| |]); assumption.
Qed.

Lemma zip_with_Forall : forall (A B : Type) (f : A -> B -> A) (P : A -> Prop)
    (la : list A) (lb : list B),
  (forall a b, P a -> P (f a b)) -> Forall P la -> Forall P (zip_with f la lb).
Proof.
  intros A B f P la lb Hf H. revert lb.
  induction H as [|a la Ha _ IH]; intros [|b lb]; simpl; constructor; auto.
Qed.

Variables (v : View) (t : spec_float).

Lemma good_Scalar : good32 (SumActiveBalancesScalar v t).
Proof.
  rewrite Scalar_fold. unfold scalar_sum.
  apply (fold_left_inv _ _ _ good32); [apply good_pzero|].
  intros acc i _ H. apply add32_good. exact H.
Qed.

Lemma good_main64 : Forall good64 (lanes64 (Avx2Double.main_loop v t)).
Proof.
  unfold Avx2Double.main_loop. rewrite (@lanes64_fold IEEE.arith IEEE_laws).
  apply (fold_left_inv _ _ _ (Forall good64)); [repeat (apply Forall_cons; [apply good_pzero|]); apply Forall_nil|].
  intros L g _ HL. apply zip_with_Forall; [|exact HL].
  intros a i Ha. apply add64_good. exact Ha.
Qed.

Lemma good_main32 : Forall good32 (lanes32 (Znver2.main_loop v t)).
Proof.
  unfold Znver2.main_loop. rewrite (@lanes32_fold IEEE.arith IEEE_laws).
  apply (fold_left_inv _ _ _ (Forall good32)); [repeat (apply Forall_cons; [apply good_pzero|]); apply Forall_nil|].
  intros L g _ HL. apply zip_with_Forall; [|exact HL].
  intros a i Ha. unfold contribution. apply add32_good. exact Ha.
Qed.

Lemma good_Avx2Double : good64 (Avx2Double.SumActiveBalancesAvx2 v t).
Proof.
  rewrite Avx2Double_fold. unfold Avx2Double.tail_loop.
  apply (fold_left_inv _ _ _ good64); [apply good_hsum64, good_main64|].
  intros acc i _ H. unfold Avx2Double.tail_body.
  destruct (_ && _); [apply add64_good|]; exact H.
Qed.

Lemma good_Znver2 :
  (forall i, (i < Count v)%nat -> IEEE.is_b32 (rd (Balances v) i IEEE.pzero) = true) ->
  good32 (Znver2.SumActiveBalancesAvx2 v t).
Proof.
  intros valid. rewrite Znver2_fold. unfold Znver2.tail_loop.
  apply (fold_left_inv _ _ _ good32); [apply good_hsum32, good_main32|].
  intros acc i Hi H. unfold Znver2.tail_body.
  destruct (_ && _); [|exact H].
  apply SFadd_good; [reflexivity | exact H |].
  apply valid_expo_ok. apply valid. apply in_seq in Hi.
  pose proof (Nat.Div0.mul_div_le (Count v) 16). lia.
Qed.
End NeverNegativeZero.

Lemma good_Repository : forall (users : list (@Repository.User IEEE.arith)) t,
  Forall (fun u : @Repository.User IEEE.arith =>
            IEEE.is_b32 (Repository.Balance u) = true) users ->
  IEEE.good IEEE.prec32 IEEE.emax32
    (Repository.SumActiveBalances (Repository.VectorUserRepository users) t).
Proof.
  intros users t valid. unfold Repository.SumActiveBalances. rewrite ForEach_fold.
  apply (fold_left_inv _ _ _ (IEEE.good IEEE.prec32 IEEE.emax32)); [apply good_pzero|].
  intros acc u Hu H. destruct (Repository.Qualifies u t); [|exact H].
  apply SFadd_good; [reflexivity | exact H |].
  apply valid_expo_ok. rewrite Forall_forall in valid. apply valid. exact Hu.
Qed.

(** X9: no reducer returns -0.0: the accumulators start at +0.0 and a
    rounded sum is -0.0 only when both terms are.  This holds for the
    scalar reducer and the wide-accumulation kernel on any data (NaNs and
    infinities included), and for the same-precision kernel and the
    repository sum when the balances are binary32 data. *)
Theorem results_never_negative_zero :
  forall (v : @UsersView IEEE.arith) (t : spec_float),
    SumActiveBalancesScalar v t <> IEEE.nzero
    /\ Dod.SumActiveBalances v t <> IEEE.nzero
    /\ Avx2Double.SumActiveBalancesAvx2 v t <> IEEE.nzero
    /\ ((forall i, (i < Count v)%nat ->
           IEEE.is_b32 (rd (Balances v) i IEEE.pzero) = true) ->
        Znver2.SumActiveBalancesAvx2 v t <> IEEE.nzero)
    /\ (forall users : list (@Repository.User IEEE.arith),
          Forall (fun u : @Repository.User IEEE.arith =>
                    IEEE.is_b32 (Repository.Balance u) = true) users ->
          Repository.SumActiveBalances (Repository.VectorUserRepository users) t
          <> IEEE.nzero).
Proof.
  intros v t.
  split; [apply good_Scalar|].
  split; [rewrite Dod_is_Scalar; apply good_Scalar|].
  split; [apply good_Avx2Double|].
  split; [intros valid; apply good_Znver2; exact valid|].
  intros users valid. apply good_Repository. exact valid.
Qed.
Lemma results_never_negative_zero_witness :
  SumActiveBalancesScalar Inputs.spec_example (Inputs.f 250) <> IEEE.nzero
  /\ Avx2Double.SumActiveBalancesAvx2 Inputs.spec_example (Inputs.f 250) <> IEEE.nzero
  /\ Znver2.SumActiveBalancesAvx2 Inputs.spec_example (Inputs.f 250) <> IEEE.nzero
  /\ Repository.SumActiveBalances
       (Repository.VectorUserRepository Inputs.spec_example_users) (Inputs.f 250)
     <> IEEE.nzero.
Proof.
  destruct (results_never_negative_zero Inputs.spec_example (Inputs.f 250))
    as (H1 & _ & H3 & H4 & H5).
  split; [exact H1|]. split; [exact H3|]. split.
  - apply H4. intros i Hi. by_index i.
  - apply H5. repeat constructor.
Defined.

(** ** The repository path in exact arithmetic *)

Section RecordsAndViews.
Context {AR : Arith}.
Variables (users : list Repository.User) (v : UsersView) (t : f32).
Hypothesis same : Repository.same_values users v.

Let nobody : Repository.User := Repository.Build_User 0%Z zero32 false.

(** The scalar reducer, as a fold over the records, in any arithmetic. *)
Lemma Scalar_over_any_records :
  SumActiveBalancesScalar v t
  = fold_left
      (fun (acc : f32) (user : Repository.User) =>
         add32 acc
           (mul32 (Repository.Balance user)
              (if Repository.Qualifies user t then one32 else zero32)))
      users zero32.
Proof.
  rewrite Scalar_fold. unfold scalar_sum.
  destruct same as (Hc & _ & Hb & Ha). unfold Repository.view_flags in Ha.
  rewrite Hc.
  rewrite <- (map_nth_seq _ users nobody) at 2.
  rewrite fold_left_map.
  apply fold_left_ext_in. intros acc i _.
  unfold contribution, take_value, qualifies, Repository.Qualifies, rd.
  rewrite Hb.
  change zero32 with (Repository.Balance nobody).
  rewrite (map_nth Repository.Balance users nobody i).
  rewrite <- (map_nth Repository.Active users nobody i), <- Ha.
  change (Repository.Active nobody) with (byte_true x00).
  rewrite (map_nth byte_true). reflexivity.
Qed.
End RecordsAndViews.

Section ExactRepository.
Local Existing Instance Exact.arith.
Local Open Scope Qc_scope.

Ltac exact_arith :=
  change (@f32 Exact.arith) with Qc in *;
  change (@add32 Exact.arith) with Qcplus in *;
  change (@mul32 Exact.arith) with Qcmult in *;
  change (@zero32 Exact.arith) with (Q2Qc 0) in *;
  change (@one32 Exact.arith) with (Q2Qc 1) in *;
  cbv beta in *.

Lemma fold_left_Qcplus : forall (l : list Qc) (acc : Qc),
  fold_left Qcplus l acc = acc + Qcsum l.
Proof.
  induction l as [|x l IH]; intros acc; cbn [fold_left].
  - unfold Qcsum; simpl. ring.
  - rewrite IH. unfold Qcsum; cbn [fold_right]. ring.
Qed.

Lemma Exact_repository_sum : forall (users : list (@Repository.User Exact.arith)) (s : Qc),
  Repository.SumActiveBalances (Repository.VectorUserRepository users) s
  = Qcsum (map (@Repository.Balance Exact.arith)
             (filter (fun user => Repository.Qualifies user s) users)).
Proof.
  intros users s. rewrite repository_sum_filter. exact_arith.
  rewrite fold_left_Qcplus. ring.
Qed.

Lemma Exact_products_of_records : forall (users : list (@Repository.User Exact.arith))
    (s acc : Qc),
  fold_left
    (fun (acc : Qc) (user : @Repository.User Exact.arith) =>
       @add32 Exact.arith acc
         (@mul32 Exact.arith (Repository.Balance user)
            (if Repository.Qualifies user s
             then @one32 Exact.arith else @zero32 Exact.arith)))
    users acc
  = acc + Qcsum (map (@Repository.Balance Exact.arith)
                   (filter (fun user => Repository.Qualifies user s) users)).
Proof.
  intros users s. induction users as [|u users IH]; intros acc; cbn [fold_left filter].
  - unfold Qcsum; simpl. ring.
  - rewrite IH. destruct (Repository.Qualifies u s); exact_arith.
    + cbn [map]. unfold Qcsum; cbn [fold_right]. ring.
    + ring.
Qed.
End ExactRepository.

(** X10: in exact arithmetic the repository sum is the sum of the
    balances of the qualifying records, so it does not depend on the
    order of the records, and it is the result of the scalar reducer and
    of both vector kernels on the flat-array view holding the same
    values, with no condition on the data. *)
Theorem exact_repository_sum :
  forall (users : list (@Repository.User Exact.arith)) (w : @UsersView Exact.arith)
         (s : Qc),
    Repository.same_values users w ->
    Repository.SumActiveBalances (Repository.VectorUserRepository users) s
    = Qcsum (map (@Repository.Balance Exact.arith)
               (filter (fun user => @Repository.Qualifies Exact.arith user s) users))
    /\ Repository.SumActiveBalances (Repository.VectorUserRepository users) s
       = Dod.SumActiveBalances w s
    /\ Repository.SumActiveBalances (Repository.VectorUserRepository users) s
       = Avx2Double.SumActiveBalancesAvx2 w s
    /\ Repository.SumActiveBalances (Repository.VectorUserRepository users) s
       = Znver2.SumActiveBalancesAvx2 w s
    /\ (forall users' : list (@Repository.User Exact.arith),
          Permutation users users' ->
          Repository.SumActiveBalances (Repository.VectorUserRepository users') s
          = Repository.SumActiveBalances (Repository.VectorUserRepository users) s).
Proof.
  intros users w s same.
  assert (HS : Repository.SumActiveBalances (Repository.VectorUserRepository users) s
               = SumActiveBalancesScalar w s).
  { rewrite (Scalar_over_any_records users w s same), Exact_products_of_records.
    rewrite Exact_repository_sum. symmetry. apply Qcplus_0_l. }
  split; [apply Exact_repository_sum|].
  split; [rewrite Dod_is_Scalar; exact HS|].
  split; [rewrite Exact_Avx2Double, <- Exact_Scalar; exact HS|].
  split; [rewrite Exact_Znver2, <- Exact_Scalar; exact HS|].
  intros users' Hp. rewrite !Exact_repository_sum.
  apply Qcsum_Permutation. apply Permutation_map. apply Permutation_sym.
  clear same HS. induction Hp as [|x l l' Hp IH|x y l|l l' l'' H1 IH1 H2 IH2].
  - constructor.
  - cbn [filter]. destruct (Repository.Qualifies x s); [apply perm_skip|]; exact IH.
  - cbn [filter]. destruct (Repository.Qualifies x s), (Repository.Qualifies y s);
      try apply Permutation_refl. apply perm_swap.
  - exact (Permutation_trans IH1 IH2).
Qed.

Lemma exact_repository_sum_witness :
  Repository.SumActiveBalances (Repository.VectorUserRepository Samples.exact_users)
    (Inputs.q 250)
  = Qcsum (map (@Repository.Balance Exact.arith)
             (filter (fun user => @Repository.Qualifies Exact.arith user (Inputs.q 250))
                Samples.exact_users))
  /\ Repository.SumActiveBalances (Repository.VectorUserRepository Samples.exact_users)
       (Inputs.q 250)
     = Dod.SumActiveBalances Inputs.exact_example (Inputs.q 250)
  /\ Repository.SumActiveBalances (Repository.VectorUserRepository Samples.exact_users)
       (Inputs.q 250)
     = Avx2Double.SumActiveBalancesAvx2 Inputs.exact_example (Inputs.q 250)
  /\ Repository.SumActiveBalances (Repository.VectorUserRepository Samples.exact_users)
       (Inputs.q 250)
     = Znver2.SumActiveBalancesAvx2 Inputs.exact_example (Inputs.q 250)
  /\ (forall users' : list (@Repository.User Exact.arith),
        Permutation Samples.exact_users users' ->
        Repository.SumActiveBalances (Repository.VectorUserRepository users')
          (Inputs.q 250)
        = Repository.SumActiveBalances
            (Repository.VectorUserRepository Samples.exact_users) (Inputs.q 250)).
Proof.
  apply (exact_repository_sum Samples.exact_users Inputs.exact_example (Inputs.q 250)).
  repeat split.
Defined.
(** ** The timing harness *)

Lemma for_loop_calls : forall (S : Type) (step : S -> S) (n : nat) (st : S),
  for_loop n 1 n (fun (_ : nat) (st : S) => step st) 0 st
  = (n, Nat.iter n step st).
Proof.
  intros S step n st. rewrite for_loop_unit_step by lia.
  f_equal. rewrite Nat.sub_0_r.
  generalize 0%nat as i. revert st.
  induction n as [|n IH]; intros st i; [reflexivity|].
  rewrite seq_S, fold_left_app. cbn [fold_left Nat.iter nat_rect]. rewrite IH. reflexivity.
Qed.

Section TimingFacts.
Context {AR : Arith}.
Variable World : Type.
Variable now : World -> Z * World.
Variable seconds : Z -> f64.

(** The world after [n] calls of the callable. *)
Lemma Measure_unfold : forall (iterations : nat) (f : World -> f32 * World) (w : World),
  MeasureExecutionTime now seconds iterations f w
  = (seconds (fst (now (Nat.iter iterations (fun w => snd (f w)) (snd (now w))))
              - fst (now w))%Z,
     snd (now (Nat.iter iterations (fun w => snd (f w)) (snd (now w))))).
Proof.
  intros iterations f w. unfold MeasureExecutionTime.
  destruct (now w) as [start w1]. cbn [fst snd].
  rewrite (for_loop_calls _ (fun st : f32 * World => f (snd st))).
  assert (H : forall n st,
             snd (Nat.iter (Datatypes.S n) (fun st : f32 * World => f (snd st)) st)
             = Nat.iter (Datatypes.S n) (fun w => snd (f w)) (snd st)).
  { induction n as [|n IH]; intros st; [reflexivity|].
    change (Nat.iter (Datatypes.S (Datatypes.S n)) (fun w => snd (f w)) (snd st))
      with (snd (f (Nat.iter (Datatypes.S n) (fun w => snd (f w)) (snd st)))).
    rewrite <- IH. reflexivity. }
  destruct iterations as [|n].
  - cbn [Nat.iter nat_rect]. destruct (now w1) as [end_ w2]. reflexivity.
  - specialize (H n (zero32, w1)).
    destruct (Nat.iter (Datatypes.S n) (fun st : f32 * World => f (snd st)) (zero32, w1))
      as [sink w2].
    cbn [snd] in H. rewrite <- H.
    destruct (now w2) as [end_ w3]. reflexivity.
Qed.
End TimingFacts.

(** X11: [MeasureExecutionTime] reads the clock, calls the callable
    exactly [iterations] times, each call in the world the previous one
    left, reads the clock again and returns the difference of the two
    readings in seconds; the values the callable returns are discarded.
    With a clock that never goes back, as [steady_clock] is, the measured
    duration is not negative. *)
Theorem MeasureExecutionTime_times_the_calls :
  forall (AR : Arith) (World : Type) (now : World -> Z * World) (seconds : Z -> f64)
         (clock : World -> Z) (iterations : nat) (f : World -> f32 * World) (w : World),
    (forall w, fst (now w) = clock w /\ (clock w <= clock (snd (now w)))%Z) ->
    (forall w, (clock w <= clock (snd (f w)))%Z) ->
    let after := Nat.iter iterations (fun w => snd (f w)) (snd (now w)) in
    MeasureExecutionTime now seconds iterations f w
    = (seconds (clock after - clock w)%Z, snd (now after))
    /\ (0 <= clock after - clock w)%Z.
Proof.
  intros AR World now seconds clock iterations f w Hnow Hf after.
  split.
  - rewrite Measure_unfold. fold after.
    rewrite (proj1 (Hnow after)), (proj1 (Hnow w)). reflexivity.
  - assert (H : (clock (snd (now w)) <= clock after)%Z).
    { unfold after. induction iterations as [|n IH]; cbn [Nat.iter nat_rect]; [lia|].
      etransitivity; [exact IH | apply Hf]. }
    pose proof (proj2 (Hnow w)). lia.
Qed.
Lemma MeasureExecutionTime_times_the_calls_witness :
  MeasureExecutionTime (AR := IEEE.arith) Samples.ticking_now Samples.tick_seconds 3
    Samples.five_ticks 0%Z
  = (Samples.tick_seconds (16 - 0)%Z, 17%Z)
  /\ (0 <= 16 - 0)%Z.
Proof.
  apply (MeasureExecutionTime_times_the_calls IEEE.arith Z
           Samples.ticking_now Samples.tick_seconds (fun w => w) 3
           Samples.five_ticks 0%Z).
  - intros w. split; [reflexivity | simpl; lia].
  - intros w. simpl. lia.
Defined.

(** ** The generated data *)

Lemma store_length : forall (A : Type) (p : list A) (i : nat) (x : A),
  length (store p i x) = length p.
Proof.
  intros A p. induction p as [|a p IH]; intros [|i] x; simpl; auto.
Qed.

Lemma store_middle : forall (A : Type) (l r : list A) (a x : A) (i : nat),
  length l = i -> store (l ++ a :: r) i x = l ++ x :: r.
Proof.
  intros A l r a x i <-. induction l as [|b l IH]; simpl; [reflexivity | rewrite IH; reflexivity].
Qed.

Lemma static_cast_int32_small : forall i : nat,
  (Z.of_nat i < 2147483648)%Z -> static_cast_int32 i = Z.of_nat i.
Proof.
  intros i Hi. unfold static_cast_int32.
  rewrite Z.mod_small by lia.
  destruct (Z.ltb_spec (Z.of_nat i) 2147483648); [reflexivity | lia].
Qed.

Lemma NoDup_indices : forall n s : nat, NoDup (map Z.of_nat (seq s n)).
Proof.
  induction n as [|n IH]; intros s; simpl; constructor; [|apply IH].
  intros Hin. apply in_map_iff in Hin. destruct Hin as (k & Hk & Hin).
  apply in_seq in Hin. lia.
Qed.

Section GenerationFacts.
Context {AR : Arith}.
Variable Engine : Type.
Variable balanceDistribution : Engine -> f32 * Engine.
Variable activeDistribution : Engine -> bool * Engine.

Local Notation "'fill'" := (fill_body balanceDistribution activeDistribution).
Local Notation "'emplace'" := (emplace_body balanceDistribution activeDistribution).

(** The byte the flat-array binaries store for a drawn flag. *)
Let flag_byte (active : bool) : byte := if active then x01 else x00.

(** After [k] rounds the two generating loops have drawn the same values
    and left the engine in the same state; the vectors hold them in their
    first [k] slots. *)
Lemma generation_invariant : forall (n : nat) (randomEngine : Engine) (k : nat),
  (k <= n)%nat ->
  exists (users : list Repository.User) (e : Engine),
    fold_left (fun st i => emplace i st) (seq 0 k) ([], randomEngine) = (users, e)
    /\ fold_left (fun st i => fill i st) (seq 0 k)
         ({| userIds := repeat 0%Z n;
             userBalances := repeat zero32 n;
             userActiveFlags := repeat x00 n |}, randomEngine)
       = ({| userIds := map Repository.Id users ++ repeat 0%Z (n - k);
             userBalances := map Repository.Balance users ++ repeat zero32 (n - k);
             userActiveFlags :=
               map (fun u => flag_byte (Repository.Active u)) users
               ++ repeat x00 (n - k) |}, e)
    /\ length users = k
    /\ map Repository.Id users = map static_cast_int32 (seq 0 k).
Proof.
  intros n randomEngine k. induction k as [|k IH]; intros Hk.
  - exists [], randomEngine. rewrite Nat.sub_0_r. repeat split.
  - destruct (IH ltac:(lia)) as (users & e & Hu & Ha & Hl & Hi).
    rewrite seq_S, !fold_left_app, Hu, Ha. cbn [fold_left plus].
    unfold emplace_body, fill_body. cbn [userIds userBalances userActiveFlags].
    destruct (balanceDistribution e) as [balance e1].
    destruct (activeDistribution e1) as [active e2].
    eexists. exists e2. split; [reflexivity|].
    replace (n - k)%nat with (Datatypes.S (n - Datatypes.S k)) by lia.
    cbn [repeat].
    rewrite !store_middle by (rewrite length_map; exact Hl).
    rewrite !map_app, <- !app_assoc. cbn [map app].
    split; [reflexivity|]. split.
    + rewrite length_app, Hl. simpl. lia.
    + rewrite Hi. reflexivity.
Qed.

Lemma generated : forall (n : nat) (randomEngine : Engine),
  exists (users : list Repository.User) (e : Engine),
    generate_users balanceDistribution activeDistribution n randomEngine = (users, e)
    /\ generate_arrays balanceDistribution activeDistribution n randomEngine
       = ({| userIds := map Repository.Id users;
             userBalances := map Repository.Balance users;
             userActiveFlags := map (fun u => flag_byte (Repository.Active u)) users |},
          e)
    /\ length users = n
    /\ map Repository.Id users = map static_cast_int32 (seq 0 n).
Proof.
  intros n randomEngine.
  destruct (generation_invariant n randomEngine n (le_n n))
    as (users & e & Hu & Ha & Hl & Hi).
  exists users, e.
  unfold generate_users, generate_arrays.
  rewrite !for_loop_unit_step by lia. rewrite Nat.sub_0_r. cbn [snd].
  rewrite Hu, Ha, Nat.sub_diag. cbn [repeat]. rewrite !app_nil_r.
  repeat split; assumption.
Qed.

Lemma generated_same_values : forall (n : nat) (randomEngine : Engine),
  Repository.same_values
    (fst (generate_users balanceDistribution activeDistribution n randomEngine))
    (make_view
       (fst (generate_arrays balanceDistribution activeDistribution n randomEngine)) n).
Proof.
  intros n eng.
  destruct (generated n eng) as (users & e & Hu & Ha & Hl & Hi).
  rewrite Hu, Ha. cbn [fst snd].
  unfold Repository.same_values, Repository.view_flags, make_view.
  cbn [Ids Balances Active Count userIds userBalances userActiveFlags].
  repeat split; [symmetry; exact Hl|].
  rewrite map_map. apply map_ext. intros u. destruct (Repository.Active u); reflexivity.
Qed.

(** What holds of every draw holds of every generated balance. *)
Lemma generated_balances : forall (P : f32 -> Prop) (n : nat) (randomEngine : Engine),
  (forall e, P (fst (balanceDistribution e))) ->
  Forall (fun u => P (Repository.Balance u))
    (fst (generate_users balanceDistribution activeDistribution n randomEngine)).
Proof.
  intros P n randomEngine HP. unfold generate_users.
  rewrite for_loop_unit_step by lia. rewrite Nat.sub_0_r. cbn [snd].
  apply (fold_left_inv _ _ _
           (fun st : list Repository.User * Engine =>
              Forall (fun u => P (Repository.Balance u)) (fst st))).
  - constructor.
  - intros [users e] i _ H. unfold emplace_body.
    pose proof (HP e) as Hb.
    destruct (balanceDistribution e) as [balance e1].
    destruct (activeDistribution e1) as [active e2].
    cbn [fst] in *. apply Forall_app. split; [exact H|].
    constructor; [exact Hb | constructor].
Qed.

Lemma ids_are_indices : forall n : nat,
  (Z.of_nat n <= 2147483648)%Z ->
  map static_cast_int32 (seq 0 n) = map Z.of_nat (seq 0 n).
Proof.
  intros n Hn. apply map_ext_in. intros i Hi. apply in_seq in Hi.
  apply static_cast_int32_small. lia.
Qed.

Lemma warm_up_last : forall (T : Type) (checksum : T) (n : nat) (reduce : unit -> T),
  warm_up checksum n reduce = match n with O => checksum | _ => reduce tt end.
Proof.
  intros T checksum n reduce. unfold warm_up.
  rewrite (for_loop_calls _ (fun _ => reduce tt)). cbn [snd].
  destruct n; reflexivity.
Qed.
End GenerationFacts.
(** X12: the generating loop of the flat-array binaries fills every
    slot of its three vectors: for an element count up to 2^31 (the
    binaries use 10^7 and 10^9) the view [main] builds has [Count]
    elements in each array, the ids are the indices 0, 1, ... and so
    pairwise different, and every activity byte is 0 or 1. *)
Theorem generated_view_well_formed :
  forall (AR : Arith) (Engine : Type)
         (balanceDistribution : Engine -> f32 * Engine)
         (activeDistribution : Engine -> bool * Engine)
         (elementsCount : nat) (randomEngine : Engine),
    (Z.of_nat elementsCount <= 2147483648)%Z ->
    let arrays :=
      fst (generate_arrays balanceDistribution activeDistribution
             elementsCount randomEngine) in
    wf_view (make_view arrays elementsCount)
    /\ userIds arrays = map Z.of_nat (seq 0 elementsCount)
    /\ NoDup (userIds arrays)
    /\ Forall (fun a => a = x00 \/ a = x01) (userActiveFlags arrays).
Proof.
  intros AR Engine bd ad n eng Hn arrays.
  destruct (generated Engine bd ad n eng) as (users & e & Hu & Ha & Hl & Hi).
  unfold arrays. rewrite Ha. cbn [fst userIds userBalances userActiveFlags].
  split; [|split; [|split]].
  - unfold wf_view, make_view. cbn [Ids Balances Active Count userIds userBalances
                                     userActiveFlags].
    rewrite !length_map. repeat split; exact Hl.
  - rewrite Hi. apply ids_are_indices. exact Hn.
  - rewrite Hi, ids_are_indices by exact Hn. apply NoDup_indices.
  - apply Forall_forall. intros a Ha'. apply in_map_iff in Ha'.
    destruct Ha' as (u & <- & _). destruct (Repository.Active u); [right | left]; reflexivity.
Qed.

Lemma generated_view_well_formed_witness :
  let arrays :=
    fst (generate_arrays (AR := IEEE.arith) Samples.counting_balance
           Samples.counting_active 3 0%nat) in
  wf_view (make_view arrays 3)
  /\ userIds arrays = map Z.of_nat (seq 0 3)
  /\ NoDup (userIds arrays)
  /\ Forall (fun a => a = x00 \/ a = x01) (userActiveFlags arrays).
Proof.
  apply (generated_view_well_formed IEEE.arith nat Samples.counting_balance
           Samples.counting_active 3 0%nat).
  simpl. lia.
Defined.

(** X13: from the same engine state the generating loop of
    [bench-repository.cpp] and that of the flat-array binaries draw the
    same values in the same order and leave the engine in the same state:
    the records and the view hold the same ids and balances, and a
    record is active exactly when its activity byte is nonzero. *)
Theorem generated_records_match_arrays :
  forall (AR : Arith) (Engine : Type)
         (balanceDistribution : Engine -> f32 * Engine)
         (activeDistribution : Engine -> bool * Engine)
         (elementsCount : nat) (randomEngine : Engine),
    Repository.same_values
      (fst (generate_users balanceDistribution activeDistribution
              elementsCount randomEngine))
      (make_view
         (fst (generate_arrays balanceDistribution activeDistribution
                 elementsCount randomEngine))
         elementsCount)
    /\ snd (generate_users balanceDistribution activeDistribution
              elementsCount randomEngine)
       = snd (generate_arrays balanceDistribution activeDistribution
                elementsCount randomEngine).
Proof.
  intros AR Engine bd ad n eng. split; [apply generated_same_values|].
  destruct (generated Engine bd ad n eng) as (users & e & Hu & Ha & _).
  rewrite Hu, Ha. reflexivity.
Qed.

(** X14: in the repository [bench-repository.cpp] generates, for an
    element count up to 2^31, looking up the id [k] of a position below
    the count returns the record stored at position [k], and looking up
    any other id returns nothing. *)
Theorem generated_repository_lookup :
  forall (AR : Arith) (Engine : Type)
         (balanceDistribution : Engine -> f32 * Engine)
         (activeDistribution : Engine -> bool * Engine)
         (elementsCount : nat) (randomEngine : Engine),
    (Z.of_nat elementsCount <= 2147483648)%Z ->
    let users :=
      fst (generate_users balanceDistribution activeDistribution
             elementsCount randomEngine) in
    (forall k : nat, (k < elementsCount)%nat ->
       Repository.FindById (Repository.VectorUserRepository users) (Z.of_nat k)
       = nth_error users k
       /\ nth_error users k <> None)
    /\ (forall id : Z, (id < 0 \/ Z.of_nat elementsCount <= id)%Z ->
          Repository.FindById (Repository.VectorUserRepository users) id = None).
Proof.
  intros AR Engine bd ad n eng Hn users0.
  destruct (generated Engine bd ad n eng) as (users & e & Hu & _ & Hl & Hi).
  unfold users0. rewrite Hu. cbn [fst]. clear users0 Hu.
  rewrite ids_are_indices in Hi by exact Hn.
  assert (Hnd : NoDup (map Repository.Id users)).
  { rewrite Hi. apply NoDup_indices. }
  split.
  - intros k Hk.
    destruct (nth_error users k) as [u|] eqn:Eu.
    + split; [|discriminate]. simpl.
      assert (Hid : Repository.Id u = Z.of_nat k).
      { pose proof (f_equal (fun l => nth_error l k) Hi) as H. cbv beta in H.
        rewrite !nth_error_map, Eu in H.
        rewrite nth_error_nth' with (d := 0%nat) in H by (rewrite length_seq; exact Hk).
        rewrite seq_nth in H by exact Hk. cbn in H. inversion H. reflexivity. }
      rewrite <- Hid. apply FindById_found; [exact Hnd|].
      apply (nth_error_In _ _ Eu).
    + exfalso. apply nth_error_None in Eu. lia.
  - intros id Hid. simpl. apply FindById_none. rewrite Hi.
    intros Hin. apply in_map_iff in Hin. destruct Hin as (k & <- & Hk).
    apply in_seq in Hk. lia.
Qed.

Lemma generated_repository_lookup_witness :
  let users :=
    fst (generate_users (AR := IEEE.arith) Samples.counting_balance
           Samples.counting_active 3 0%nat) in
  (forall k : nat, (k < 3)%nat ->
     Repository.FindById (Repository.VectorUserRepository users) (Z.of_nat k)
     = nth_error users k
     /\ nth_error users k <> None)
  /\ (forall id : Z, (id < 0 \/ Z.of_nat 3 <= id)%Z ->
        Repository.FindById (Repository.VectorUserRepository users) id = None).
Proof.
  apply (generated_repository_lookup IEEE.arith nat Samples.counting_balance
           Samples.counting_active 3 0%nat).
  simpl. lia.
Defined.
(** ** The checksums the binaries print *)

(** Over records whose balances are finite binary32 numbers, adding the
    balance where the record qualifies is adding the product of the
    balance with 1.0f or 0.0f. *)
Lemma finite_records_sum : forall (users : list (@Repository.User IEEE.arith))
    (t : spec_float),
  all_finite_users users ->
  Repository.SumActiveBalances (Repository.VectorUserRepository users) t
  = fold_left
      (fun (acc : spec_float) (user : @Repository.User IEEE.arith) =>
         @add32 IEEE.arith acc
           (@mul32 IEEE.arith (Repository.Balance user)
              (if @Repository.Qualifies IEEE.arith user t
               then @one32 IEEE.arith else @zero32 IEEE.arith)))
      users (@zero32 IEEE.arith).
Proof.
  intros users t finite.
  unfold Repository.SumActiveBalances. rewrite ForEach_fold.
  symmetry.
  apply (fold_left_sim _ _ _ _ (IEEE.good IEEE.prec32 IEEE.emax32)).
  - apply good_pzero.
  - intros acc u Hu Hacc.
    unfold all_finite_users in finite. rewrite Forall_forall in finite.
    destruct (finite u Hu) as [Hv Hf].
    split; [|apply add32_good; assumption].
    destruct (Repository.Qualifies u t).
    + change (@mul32 IEEE.arith (Repository.Balance u) one32)
        with (SFmul IEEE.prec32 IEEE.emax32 (Repository.Balance u) IEEE.one).
      rewrite SFmul_one_r by assumption. reflexivity.
    + destruct (SFmul_finite_zero IEEE.prec32 IEEE.emax32 (Repository.Balance u) false Hf)
        as [s Hs].
      change (@mul32 IEEE.arith (Repository.Balance u) zero32)
        with (SFmul IEEE.prec32 IEEE.emax32 (Repository.Balance u) (S754_zero false)).
      rewrite Hs. apply add_zero_good. assumption.
Qed.

(** X15: when the balance distribution only yields finite binary32
    numbers, [bench-repository] and [bench-dod], run with the same
    constants from the same engine state, print the same checksum, bit
    for bit; so do [bench-dod-znver2] and, widened to [double],
    [bench-dod-avx2-double] whenever their dispatcher runs the scalar
    reducer (AVX2 not compiled in, or not reported by the CPU). *)
Theorem checksums_agree :
  forall (Engine : Type)
         (balanceDistribution : Engine -> spec_float * Engine)
         (activeDistribution : Engine -> bool * Engine)
         (elementsCount : nat) (minimumBalance : spec_float)
         (warmupIterations : nat) (randomEngine : Engine),
    (forall e, IEEE.is_b32 (fst (balanceDistribution e)) = true
               /\ IEEE.is_finite (fst (balanceDistribution e)) = true) ->
    repository_checksum (AR := IEEE.arith) balanceDistribution activeDistribution
      elementsCount minimumBalance warmupIterations randomEngine
    = dod_checksum (AR := IEEE.arith) balanceDistribution activeDistribution
        elementsCount minimumBalance warmupIterations randomEngine
    /\ (forall build cpu_supports_avx2,
          AVX2_defined build && (COMPILER_CLANG build || COMPILER_GCC build)
            && cpu_supports_avx2 = false ->
          znver2_checksum (AR := IEEE.arith) balanceDistribution activeDistribution
            build cpu_supports_avx2
            elementsCount minimumBalance warmupIterations randomEngine
          = dod_checksum (AR := IEEE.arith) balanceDistribution activeDistribution
              elementsCount minimumBalance warmupIterations randomEngine
          /\ avx2_double_checksum (AR := IEEE.arith) balanceDistribution
               activeDistribution build cpu_supports_avx2
               elementsCount minimumBalance warmupIterations randomEngine
             = @cvtps_pd IEEE.arith
                 (dod_checksum (AR := IEEE.arith) balanceDistribution
                    activeDistribution
                    elementsCount minimumBalance warmupIterations randomEngine)).
Proof.
  intros Engine bd ad n t warm eng Hd.
  pose proof (generated_same_values (AR := IEEE.arith) Engine bd ad n eng) as same.
  pose proof (generated_balances (AR := IEEE.arith) Engine bd ad
                (fun b => IEEE.is_b32 b = true /\ IEEE.is_finite b = true) n eng Hd)
    as finite.
  unfold repository_checksum, dod_checksum, znver2_checksum, avx2_double_checksum.
  destruct (generate_users (AR := IEEE.arith) bd ad n eng) as [users e1].
  destruct (generate_arrays (AR := IEEE.arith) bd ad n eng) as [arrays e2].
  cbn [fst] in same, finite.
  rewrite !warm_up_last.
  split.
  - destruct warm as [|warm]; [reflexivity|].
    rewrite Dod_is_Scalar, (Scalar_over_any_records users _ t same).
    apply finite_records_sum. exact finite.
  - intros build cpu Hoff.
    assert (H32 : Znver2.SumActiveBalances build cpu (make_view arrays n) t
                  = SumActiveBalancesScalar (make_view arrays n) t).
    { unfold Znver2.SumActiveBalances, Znver2.SumActiveBalancesScalar.
      destruct (AVX2_defined build); [|reflexivity].
      cbn [andb] in Hoff. rewrite Hoff. reflexivity. }
    assert (H64 : Avx2Double.SumActiveBalances build cpu (make_view arrays n) t
                  = SumActiveBalancesScalar (make_view arrays n) t).
    { unfold Avx2Double.SumActiveBalances, Avx2Double.SumActiveBalancesScalar.
      destruct (AVX2_defined build); [|reflexivity].
      cbn [andb] in Hoff. rewrite Hoff. reflexivity. }
    rewrite !warm_up_last.
    destruct warm as [|warm]; [split; reflexivity|].
    split.
    + etransitivity; [exact H32 | symmetry; apply Dod_is_Scalar].
    + f_equal. etransitivity; [exact H64 | symmetry; apply Dod_is_Scalar].
Qed.

Lemma checksums_agree_witness :
  repository_checksum (AR := IEEE.arith) Samples.counting_balance Samples.counting_active
    9 (Inputs.f 250) 2 0%nat
  = dod_checksum (AR := IEEE.arith) Samples.counting_balance Samples.counting_active
      9 (Inputs.f 250) 2 0%nat
  /\ (forall build cpu_supports_avx2,
        AVX2_defined build && (COMPILER_CLANG build || COMPILER_GCC build)
          && cpu_supports_avx2 = false ->
        znver2_checksum (AR := IEEE.arith) Samples.counting_balance
          Samples.counting_active build cpu_supports_avx2 9 (Inputs.f 250) 2 0%nat
        = dod_checksum (AR := IEEE.arith) Samples.counting_balance
            Samples.counting_active 9 (Inputs.f 250) 2 0%nat
        /\ avx2_double_checksum (AR := IEEE.arith) Samples.counting_balance
             Samples.counting_active build cpu_supports_avx2 9 (Inputs.f 250) 2 0%nat
           = @cvtps_pd IEEE.arith
               (dod_checksum (AR := IEEE.arith) Samples.counting_balance
                  Samples.counting_active 9 (Inputs.f 250) 2 0%nat)).
Proof.
  apply (checksums_agree nat Samples.counting_balance Samples.counting_active
           9 (Inputs.f 250) 2 0%nat).
  intros e. unfold Samples.counting_balance. cbn [fst].
  pose proof (Nat.mod_upper_bound e 4 ltac:(lia)) as H.
  destruct (e mod 4)%nat as [|[|[|[|k]]]]; try (split; reflexivity).
  exfalso. lia.
Defined.

(** X16: in exact arithmetic the four binaries, run with the same
    constants from the same engine state, print the same checksum,
    whatever the build and the CPU. *)
Theorem exact_checksums_agree :
  forall (Engine : Type)
         (balanceDistribution : Engine -> Qc * Engine)
         (activeDistribution : Engine -> bool * Engine)
         (build : Build) (cpu_supports_avx2 : bool)
         (elementsCount : nat) (minimumBalance : Qc)
         (warmupIterations : nat) (randomEngine : Engine),
    repository_checksum (AR := Exact.arith) balanceDistribution activeDistribution
      elementsCount minimumBalance warmupIterations randomEngine
    = dod_checksum (AR := Exact.arith) balanceDistribution activeDistribution
        elementsCount minimumBalance warmupIterations randomEngine
    /\ znver2_checksum (AR := Exact.arith) balanceDistribution activeDistribution
         build cpu_supports_avx2
         elementsCount minimumBalance warmupIterations randomEngine
       = dod_checksum (AR := Exact.arith) balanceDistribution activeDistribution
           elementsCount minimumBalance warmupIterations randomEngine
    /\ avx2_double_checksum (AR := Exact.arith) balanceDistribution activeDistribution
         build cpu_supports_avx2
         elementsCount minimumBalance warmupIterations randomEngine
       = dod_checksum (AR := Exact.arith) balanceDistribution activeDistribution
           elementsCount minimumBalance warmupIterations randomEngine.
Proof.
  intros Engine bd ad build cpu n t warm eng.
  pose proof (generated_same_values (AR := Exact.arith) Engine bd ad n eng) as same.
  unfold repository_checksum, dod_checksum, znver2_checksum, avx2_double_checksum.
  destruct (generate_users (AR := Exact.arith) bd ad n eng) as [users e1].
  destruct (generate_arrays (AR := Exact.arith) bd ad n eng) as [arrays e2].
  cbn [fst] in same.
  rewrite !warm_up_last.
  destruct warm as [|warm]; [repeat split|].
  assert (HD : Dod.SumActiveBalances (make_view arrays n) t
               = Qcsum (map (contribution (make_view arrays n) t)
                          (seq 0 (Count (make_view arrays n))))).
  { rewrite Dod_is_Scalar. apply Exact_Scalar. }
  split; [|split].
  - rewrite HD, <- (Exact_Scalar (make_view arrays n) t).
    rewrite (Scalar_over_any_records users _ t same), Exact_products_of_records.
    rewrite Exact_repository_sum. symmetry. apply Qcplus_0_l.
  - rewrite HD. unfold Znver2.SumActiveBalances, Znver2.SumActiveBalancesScalar.
    destruct (AVX2_defined build), ((COMPILER_CLANG build || COMPILER_GCC build) && cpu);
      first [apply Exact_Znver2 | apply Exact_Scalar].
  - rewrite HD. unfold Avx2Double.SumActiveBalances, Avx2Double.SumActiveBalancesScalar.
    change (@cvtps_pd Exact.arith) with (fun x : Qc => x).
    change (@cvtpd_ps Exact.arith) with (fun x : Qc => x). cbv beta.
    destruct (AVX2_defined build), ((COMPILER_CLANG build || COMPILER_GCC build) && cpu);
      first [apply Exact_Avx2Double | apply Exact_Scalar].
Qed.
(** ** Results that stay finite

    An addition overflows only if the exact sum is large: below
    2^(emax - prec - 1) in magnitude the rounded sum is finite.  So a
    reducer whose terms have a total magnitude below that, after the
    growth of its roundings, returns a finite float, and the error bounds
    above hold of it without a proviso. *)

Section Finite.
Variables prec emax : Z.
Hypothesis prec_pos : (0 < prec)%Z.
Local Notation "'emin'" := (SpecFloat.emin prec emax).
Local Notation "'u'" := (powerRZ 2 (- prec)).
Local Notation "'limit'" := (powerRZ 2 (emax - prec - 1)).
Local Open Scope R_scope.

Lemma u_le_1 : u <= 1.
Proof. change 1 with (powerRZ 2 0). apply powerRZ_2_mono. lia. Qed.

Lemma binary_round_finite : forall s m e,
  (emin <= e)%Z -> IZR (Zpos m) * powerRZ 2 e < limit ->
  IEEE.is_finite (binary_round prec emax s m e) = true.
Proof.
  intros s m e He Hlt.
  destruct (binary_round_correct prec emax prec_pos s m e He) as (m2 & e2 & Hr & Herr & _).
  rewrite Hr. destruct (Z.leb_spec e2 (emax - prec)); [reflexivity|]. exfalso.
  pose proof u_le_1 as Hu1. pose proof (powerRZ_2_pos (- prec)) as Hu0.
  pose proof (powerRZ_2_pos e) as Hpe. pose proof (powerRZ_2_pos e2) as Hpe2.
  set (V := IZR (Zpos m) * powerRZ 2 e) in *.
  set (X := IZR (Zpos m2) * powerRZ 2 e2) in *.
  assert (HV : 0 <= V).
  { apply Rmult_le_pos; [apply IZR_le; lia | lra]. }
  assert (H2 : X <= 2 * V).
  { pose proof (Rle_abs (X - V)).
    assert (u * V <= 1 * V) by (apply Rmult_le_compat_r; lra). lra. }
  assert (H3 : powerRZ 2 (emax - prec) <= powerRZ 2 e2) by (apply powerRZ_2_mono; lia).
  assert (H4 : powerRZ 2 e2 <= X).
  { unfold X. rewrite <- (Rmult_1_l (powerRZ 2 e2)) at 1.
    apply Rmult_le_compat_r; [lra | apply IZR_le; lia]. }
  assert (H5 : powerRZ 2 (emax - prec) = 2 * limit).
  { replace (emax - prec)%Z with (1 + (emax - prec - 1))%Z at 1 by lia.
    rewrite powerRZ_add by lra. simpl. ring. }
  lra.
Qed.

Lemma binary_normalize_finite : forall z e sz,
  (emin <= e)%Z -> Rabs (IZR z * powerRZ 2 e) < limit ->
  IEEE.is_finite (binary_normalize prec emax z e sz) = true.
Proof.
  intros z e sz He Hlt. unfold binary_normalize.
  pose proof (powerRZ_2_pos e) as Hp.
  assert (Hpos : forall m, 0 <= IZR (Zpos m) * powerRZ 2 e).
  { intros m. apply Rmult_le_pos; [apply IZR_le; lia | lra]. }
  destruct z as [|m|m]; [reflexivity| |]; apply binary_round_finite; try exact He.
  - rewrite Rabs_pos_eq in Hlt by apply Hpos. exact Hlt.
  - rewrite <- (Pos2Z.opp_pos m), opp_IZR in Hlt.
    replace (- IZR (Zpos m) * powerRZ 2 e) with (- (IZR (Zpos m) * powerRZ 2 e)) in Hlt
      by ring.
    rewrite Rabs_Ropp, Rabs_pos_eq in Hlt by apply Hpos. exact Hlt.
Qed.

(** An addition whose exact sum is below the limit does not overflow. *)
Lemma SFadd_finite : forall x y,
  IEEE.expo_ok prec emax x -> IEEE.expo_ok prec emax y ->
  IEEE.is_finite x = true -> IEEE.is_finite y = true ->
  Rabs (SF2R x + SF2R y) < limit ->
  IEEE.is_finite (SFadd prec emax x y) = true.
Proof.
  intros x y Ex Ey Fx Fy Hlt.
  destruct x as [sx|sx| |sx mx ex], y as [sy|sy| |sy my ey]; try discriminate;
    try reflexivity; try (destruct sx, sy; reflexivity).
  cbn [SFadd]. cbn [IEEE.expo_ok] in Ex, Ey.
  match goal with
  | |- context [binary_normalize _ _ _ ?e _] =>
      assert (Hez : (e <= ex /\ e <= ey /\ emin <= e)%Z) by lia;
      set (ez := e) in *
  end.
  apply binary_normalize_finite; [lia|].
  rewrite plus_IZR, Rmult_plus_distr_r, !aligned_value by lia. exact Hlt.
Qed.

Lemma tracks_bound : forall k x e M,
  tracks prec emax k x e M -> IEEE.is_finite x = true ->
  Rabs (SF2R x) <= (1 + u) ^ k * M.
Proof.
  intros k x e M T F. destruct (T F) as [_ [H1 H2]]. unfold gamma in H1.
  replace (SF2R x) with ((SF2R x - e) + e) by ring.
  pose proof (Rabs_triang (SF2R x - e) e). lra.
Qed.

Lemma pow_1u_pos : forall k, 1 <= (1 + u) ^ k.
Proof.
  intros k. pose proof (powerRZ_2_pos (- prec)). apply pow_R1_Rle. lra.
Qed.

Lemma pow_1u_mono : forall k k', (k <= k')%nat -> (1 + u) ^ k <= (1 + u) ^ k'.
Proof.
  intros k k' H. pose proof (powerRZ_2_pos (- prec)). apply Rle_pow; [lra | exact H].
Qed.

Lemma safe_weaken : forall k k' x e M,
  (k <= k')%nat -> safe prec emax k x e M -> safe prec emax k' x e M.
Proof.
  intros k k' x e M Hk (HM & T & F).
  split; [exact HM|]. split; [apply tracks_weaken with (2 := T); assumption|].
  intros HB. apply F.
  pose proof (pow_1u_mono k k' Hk).
  assert ((1 + u) ^ k * M <= (1 + u) ^ k' * M) by (apply Rmult_le_compat_r; lra).
  lra.
Qed.

Lemma safe_eq : forall k x e e' M M',
  e = e' -> M = M' -> safe prec emax k x e M -> safe prec emax k x e' M'.
Proof. intros k x e e' M M' -> ->. exact (fun H => H). Qed.

Lemma safe_zero : forall s, safe prec emax 0 (S754_zero s) 0 0.
Proof.
  intros s. split; [lra|]. split; [apply tracks_zero; exact prec_pos|].
  intros _. reflexivity.
Qed.

Lemma safe_exact : forall x,
  IEEE.expo_ok prec emax x -> IEEE.is_finite x = true ->
  safe prec emax 0 x (SF2R x) (Rabs (SF2R x)).
Proof.
  intros x E F. split; [apply Rabs_pos|]. split; [apply tracks_exact; assumption|].
  intros _. exact F.
Qed.

Lemma safe_add : forall k a b ea eb Ma Mb,
  safe prec emax k a ea Ma -> safe prec emax k b eb Mb ->
  safe prec emax (S k) (SFadd prec emax a b) (ea + eb) (Ma + Mb).
Proof.
  intros k a b ea eb Ma Mb (HMa & Ta & Fa) (HMb & Tb & Fb).
  split; [lra|]. split; [apply tracks_add; assumption|].
  intros HB.
  pose proof (pow_1u_pos k) as Hk. pose proof (powerRZ_2_pos (- prec)) as Hu.
  assert (Hgrow : (1 + u) ^ k * (Ma + Mb) <= (1 + u) ^ S k * (Ma + Mb)).
  { apply Rmult_le_compat_r; [lra | apply pow_1u_mono; lia]. }
  assert (Ha : (1 + u) ^ k * Ma <= (1 + u) ^ k * (Ma + Mb))
    by (apply Rmult_le_compat_l; lra).
  assert (Hb : (1 + u) ^ k * Mb <= (1 + u) ^ k * (Ma + Mb))
    by (apply Rmult_le_compat_l; lra).
  assert (FA : IEEE.is_finite a = true) by (apply Fa; lra).
  assert (FB : IEEE.is_finite b = true) by (apply Fb; lra).
  pose proof (tracks_bound k a ea Ma Ta FA) as Ba.
  pose proof (tracks_bound k b eb Mb Tb FB) as Bb.
  apply SFadd_finite; try assumption.
  - apply (Ta FA).
  - apply (Tb FB).
  - pose proof (Rabs_triang (SF2R a) (SF2R b)).
    rewrite Rmult_plus_distr_l in Hgrow. lra.
Qed.

Lemma safe_accumulate : forall k acc c e M x,
  safe prec emax k acc e M -> safe prec emax 0 c x (Rabs x) ->
  safe prec emax (S k) (SFadd prec emax acc c) (e + x) (M + Rabs x).
Proof.
  intros k acc c e M x Ta Tc.
  apply safe_add; [exact Ta|].
  apply safe_weaken with (2 := Tc). lia.
Qed.

Lemma safe_skip : forall k acc e M,
  safe prec emax k acc e M -> safe prec emax (S k) acc (e + 0) (M + Rabs 0).
Proof.
  intros k acc e M T.
  apply safe_eq with (e := e) (M := M); [ring | rewrite Rabs_R0; ring|].
  apply safe_weaken with (2 := T). lia.
Qed.
End Finite.
(** ** What the kernels carry from the terms to the result

    The error analysis above follows one pattern: a property of an
    accumulator, indexed by the number of roundings, the exact value and
    the magnitude of the terms, that holds of a zero and of each
    qualifying balance and is kept by an addition, holds of the result of
    each reducer.  The pattern is proved once here, for any such
    property. *)

Section Carried.
Variables (v : @UsersView IEEE.arith) (t : spec_float).
Hypothesis valid : finite_b32_view v.
Variables P32 P64 : nat -> spec_float -> R -> R -> Prop.
Hypothesis P32_zero : forall s, P32 0 (S754_zero s) 0%R 0%R.
Hypothesis P64_zero : forall s, P64 0 (S754_zero s) 0%R 0%R.
Hypothesis P32_weaken : forall k k' x e M,
  (k <= k')%nat -> P32 k x e M -> P32 k' x e M.
Hypothesis P64_weaken : forall k k' x e M,
  (k <= k')%nat -> P64 k x e M -> P64 k' x e M.
Hypothesis P32_add : forall k a b ea eb Ma Mb,
  P32 k a ea Ma -> P32 k b eb Mb ->
  P32 (S k) (SFadd IEEE.prec32 IEEE.emax32 a b) (ea + eb)%R (Ma + Mb)%R.
Hypothesis P64_add : forall k a b ea eb Ma Mb,
  P64 k a ea Ma -> P64 k b eb Mb ->
  P64 (S k) (SFadd IEEE.prec64 IEEE.emax64 a b) (ea + eb)%R (Ma + Mb)%R.
Hypothesis P32_balance : forall i, (i < Count v)%nat -> qualifies v t i = true ->
  P32 0 (rd (Balances v) i IEEE.pzero) (rcontrib v t i) (Rabs (rcontrib v t i)).
Hypothesis P64_balance : forall i, (i < Count v)%nat -> qualifies v t i = true ->
  P64 0 (IEEE.convert IEEE.prec64 IEEE.emax64 (rd (Balances v) i IEEE.pzero))
    (rcontrib v t i) (Rabs (rcontrib v t i)).
Local Open Scope R_scope.

Lemma carried_eq : forall (P : nat -> spec_float -> R -> R -> Prop) k x e e' M M',
  e = e' -> M = M' -> P k x e M -> P k x e' M'.
Proof. intros P k x e e' M M' -> ->. exact (fun H => H). Qed.

Lemma accumulate32 : forall k acc c e M x,
  P32 k acc e M -> P32 0 c x (Rabs x) ->
  P32 (S k) (SFadd IEEE.prec32 IEEE.emax32 acc c) (e + x) (M + Rabs x).
Proof.
  intros k acc c e M x Ta Tc. apply P32_add; [exact Ta|].
  apply P32_weaken with (2 := Tc). lia.
Qed.

Lemma accumulate64 : forall k acc c e M x,
  P64 k acc e M -> P64 0 c x (Rabs x) ->
  P64 (S k) (SFadd IEEE.prec64 IEEE.emax64 acc c) (e + x) (M + Rabs x).
Proof.
  intros k acc c e M x Ta Tc. apply P64_add; [exact Ta|].
  apply P64_weaken with (2 := Tc). lia.
Qed.

Lemma skip32 : forall k acc e M,
  P32 k acc e M -> P32 (S k) acc (e + 0) (M + Rabs 0).
Proof.
  intros k acc e M T.
  apply (carried_eq P32) with (e := e) (M := M); [ring | rewrite Rabs_R0; ring|].
  apply P32_weaken with (2 := T). lia.
Qed.

Lemma skip64 : forall k acc e M,
  P64 k acc e M -> P64 (S k) acc (e + 0) (M + Rabs 0).
Proof.
  intros k acc e M T.
  apply (carried_eq P64) with (e := e) (M := M); [ring | rewrite Rabs_R0; ring|].
  apply P64_weaken with (2 := T). lia.
Qed.

Lemma term32 : forall i, (i < Count v)%nat ->
  P32 0 (contribution v t i) (rcontrib v t i) (Rabs (rcontrib v t i)).
Proof.
  intros i Hi. rewrite (contribution_value v t valid i Hi).
  destruct (qualifies v t i) eqn:Hq.
  - apply P32_balance; assumption.
  - unfold rcontrib. rewrite Hq, Rabs_R0. apply P32_zero.
Qed.

Lemma term64 : forall i, (i < Count v)%nat ->
  P64 0 (IEEE.convert IEEE.prec64 IEEE.emax64 (contribution v t i))
    (rcontrib v t i) (Rabs (rcontrib v t i)).
Proof.
  intros i Hi. rewrite (contribution_value v t valid i Hi).
  destruct (qualifies v t i) eqn:Hq.
  - apply P64_balance; assumption.
  - unfold rcontrib. rewrite Hq, Rabs_R0. apply P64_zero.
Qed.

(** A run of additions of products, in single precision. *)
Lemma products32 : forall l,
  (forall i, In i l -> (i < Count v)%nat) ->
  forall k acc e M,
    P32 k acc e M ->
    P32 (k + length l) (scalar_sum v t l acc)
      (e + exact_sum v t l) (M + magnitude v t l).
Proof.
  induction l as [|i l IH]; intros Hl k acc e M T.
  - unfold exact_sum, magnitude. simpl. rewrite Nat.add_0_r, !Rplus_0_r. exact T.
  - unfold exact_sum, magnitude in *. cbn [map Rsum fold_right length scalar_sum fold_left].
    replace (k + S (length l))%nat with (S k + length l)%nat by lia.
    rewrite <- !Rplus_assoc.
    apply (IH (fun j Hj => Hl j (or_intror Hj))).
    apply accumulate32; [exact T|].
    apply term32. apply Hl. left; reflexivity.
Qed.

(** The same with each product widened and added in double precision. *)
Lemma products64 : forall l,
  (forall i, In i l -> (i < Count v)%nat) ->
  forall k acc e M,
    P64 k acc e M ->
    P64 (k + length l)
      (fold_left (fun a i => SFadd IEEE.prec64 IEEE.emax64 a
                               (IEEE.convert IEEE.prec64 IEEE.emax64 (contribution v t i)))
                 l acc)
      (e + exact_sum v t l) (M + magnitude v t l).
Proof.
  induction l as [|i l IH]; intros Hl k acc e M T.
  - unfold exact_sum, magnitude. simpl. rewrite Nat.add_0_r, !Rplus_0_r. exact T.
  - unfold exact_sum, magnitude in *. cbn [map Rsum fold_right length fold_left].
    replace (k + S (length l))%nat with (S k + length l)%nat by lia.
    rewrite <- !Rplus_assoc.
    apply (IH (fun j Hj => Hl j (or_intror Hj))).
    apply accumulate64; [exact T|].
    apply term64. apply Hl. left; reflexivity.
Qed.

(** The tail loops. *)
Lemma tail32 : forall l,
  (forall i, In i l -> (i < Count v)%nat) ->
  forall k acc e M,
    P32 k acc e M ->
    P32 (k + length l)
      (fold_left (fun a i => Znver2.tail_body (Balances v) (Active v) t i a) l acc)
      (e + exact_sum v t l) (M + magnitude v t l).
Proof.
  induction l as [|i l IH]; intros Hl k acc e M T.
  - unfold exact_sum, magnitude. simpl. rewrite Nat.add_0_r, !Rplus_0_r. exact T.
  - unfold exact_sum, magnitude in *. cbn [map Rsum fold_right length fold_left].
    replace (k + S (length l))%nat with (S k + length l)%nat by lia.
    rewrite <- !Rplus_assoc.
    apply (IH (fun j Hj => Hl j (or_intror Hj))).
    assert (Hi : (i < Count v)%nat) by (apply Hl; left; reflexivity).
    unfold Znver2.tail_body. fold (qualifies v t i).
    destruct (qualifies v t i) eqn:Hq.
    + apply accumulate32; [exact T|]. apply P32_balance; assumption.
    + unfold rcontrib. rewrite Hq. apply skip32. exact T.
Qed.

Lemma tail64 : forall l,
  (forall i, In i l -> (i < Count v)%nat) ->
  forall k acc e M,
    P64 k acc e M ->
    P64 (k + length l)
      (fold_left (fun a i => Avx2Double.tail_body (Balances v) (Active v) t i a) l acc)
      (e + exact_sum v t l) (M + magnitude v t l).
Proof.
  induction l as [|i l IH]; intros Hl k acc e M T.
  - unfold exact_sum, magnitude. simpl. rewrite Nat.add_0_r, !Rplus_0_r. exact T.
  - unfold exact_sum, magnitude in *. cbn [map Rsum fold_right length fold_left].
    replace (k + S (length l))%nat with (S k + length l)%nat by lia.
    rewrite <- !Rplus_assoc.
    apply (IH (fun j Hj => Hl j (or_intror Hj))).
    assert (Hi : (i < Count v)%nat) by (apply Hl; left; reflexivity).
    unfold Avx2Double.tail_body. fold (qualifies v t i).
    destruct (qualifies v t i) eqn:Hq.
    + apply accumulate64; [exact T|]. apply P64_balance; assumption.
    + unfold rcontrib. rewrite Hq. apply skip64. exact T.
Qed.

(** The lanes of the main loops. *)
Lemma lane32 : forall j, (j < 16)%nat ->
  P32 (Count v / 16)
    (nth j (lanes32 (Znver2.main_loop v t)) IEEE.pzero)
    (exact_sum v t (map (fun g => g + j)%nat (counters 0 16 (Count v / 16))))
    (magnitude v t (map (fun g => g + j)%nat (counters 0 16 (Count v / 16)))).
Proof.
  intros j Hj. unfold Znver2.main_loop.
  rewrite (@lanes32_fold IEEE.arith IEEE_laws).
  rewrite (lane_fold _ _ 16) by (reflexivity || exact Hj).
  rewrite nth_all_equal by (repeat constructor).
  set (l := map (fun g => (g + j)%nat) (counters 0 16 (Count v / 16))).
  apply (carried_eq P32 (Count v / 16) _
           (0 + exact_sum v t l) _ (0 + magnitude v t l)); [ring | ring |].
  replace (Count v / 16)%nat with (0 + length l)%nat
    by (unfold l; rewrite length_map, counters_length; reflexivity).
  apply (products32 l).
  - intros i Hi. unfold l in Hi. apply in_map_iff in Hi. destruct Hi as (g & <- & Hg).
    apply (group_lane_bound 16 (Count v) g); [exact Hg|]. apply in_seq. lia.
  - apply P32_zero.
Qed.

Lemma lane64 : forall j, (j < 8)%nat ->
  P64 (Count v / 8)
    (nth j (lanes64 (Avx2Double.main_loop v t)) IEEE.pzero)
    (exact_sum v t (map (fun g => g + j)%nat (counters 0 8 (Count v / 8))))
    (magnitude v t (map (fun g => g + j)%nat (counters 0 8 (Count v / 8)))).
Proof.
  intros j Hj. unfold Avx2Double.main_loop.
  rewrite (@lanes64_fold IEEE.arith IEEE_laws).
  rewrite (lane_fold _ _ 8) by (reflexivity || exact Hj).
  rewrite nth_all_equal by (repeat constructor).
  set (l := map (fun g => (g + j)%nat) (counters 0 8 (Count v / 8))).
  apply (carried_eq P64 (Count v / 8) _
           (0 + exact_sum v t l) _ (0 + magnitude v t l)); [ring | ring |].
  replace (Count v / 8)%nat with (0 + length l)%nat
    by (unfold l; rewrite length_map, counters_length; reflexivity).
  apply (products64 l).
  - intros i Hi. unfold l in Hi. apply in_map_iff in Hi. destruct Hi as (g & <- & Hg).
    apply (group_lane_bound 8 (Count v) g); [exact Hg|]. apply in_seq. lia.
  - apply P64_zero.
Qed.

(** The horizontal sums. *)
Lemma hsum32 : forall (acc : m256 spec_float * m256 spec_float) (K : nat) (E M : nat -> R),
  (forall j, (j < 16)%nat -> P32 K (nth j (lanes32 acc) IEEE.pzero) (E j) (M j)) ->
  P32 (K + 4) (@Znver2.horizontal_sum IEEE.arith (fst acc) (snd acc))
    (Rsum (map E (seq 0 16))) (Rsum (map M (seq 0 16))).
Proof.
  intros [[[a0 a1 a2 a3] [a4 a5 a6 a7]] [[b0 b1 b2 b3] [b4 b5 b6 b7]]] K E M H.
  pose proof (H 0%nat ltac:(lia)) as H0. pose proof (H 1%nat ltac:(lia)) as H1.
  pose proof (H 2%nat ltac:(lia)) as H2. pose proof (H 3%nat ltac:(lia)) as H3.
  pose proof (H 4%nat ltac:(lia)) as H4. pose proof (H 5%nat ltac:(lia)) as H5.
  pose proof (H 6%nat ltac:(lia)) as H6. pose proof (H 7%nat ltac:(lia)) as H7.
  pose proof (H 8%nat ltac:(lia)) as H8. pose proof (H 9%nat ltac:(lia)) as H9.
  pose proof (H 10%nat ltac:(lia)) as H10. pose proof (H 11%nat ltac:(lia)) as H11.
  pose proof (H 12%nat ltac:(lia)) as H12. pose proof (H 13%nat ltac:(lia)) as H13.
  pose proof (H 14%nat ltac:(lia)) as H14. pose proof (H 15%nat ltac:(lia)) as H15.
  clear H.
  cbv [lanes32 m256_lanes m128_lanes fst snd lo hi x0 x1 x2 x3 app nth] in *.
  replace (K + 4)%nat with (S (S (S (S K)))) by lia.
  cbv [Znver2.horizontal_sum mm_hadd_ps m256_map2 m128_map2 fst snd lo hi x0 x1 x2 x3].
  change (@add32 IEEE.arith) with (SFadd IEEE.prec32 IEEE.emax32).
  eapply (carried_eq P32); [ | | repeat (apply P32_add); eassumption ].
  - cbv [seq map Rsum fold_right]. ring.
  - cbv [seq map Rsum fold_right]. ring.
Qed.

Lemma hsum64 : forall (acc : m256d spec_float * m256d spec_float) (K : nat) (E M : nat -> R),
  (forall j, (j < 8)%nat -> P64 K (nth j (lanes64 acc) IEEE.pzero) (E j) (M j)) ->
  P64 (K + 3) (@Avx2Double.horizontal_sum IEEE.arith (fst acc) (snd acc))
    (Rsum (map E (seq 0 8))) (Rsum (map M (seq 0 8))).
Proof.
  intros [[[a0 a1] [a2 a3]] [[b0 b1] [b2 b3]]] K E M H.
  pose proof (H 0%nat ltac:(lia)) as H0. pose proof (H 1%nat ltac:(lia)) as H1.
  pose proof (H 2%nat ltac:(lia)) as H2. pose proof (H 3%nat ltac:(lia)) as H3.
  pose proof (H 4%nat ltac:(lia)) as H4. pose proof (H 5%nat ltac:(lia)) as H5.
  pose proof (H 6%nat ltac:(lia)) as H6. pose proof (H 7%nat ltac:(lia)) as H7.
  clear H.
  cbv [lanes64 m256d_lanes fst snd dlo dhi d0 d1 app nth] in *.
  replace (K + 3)%nat with (S (S (S K))) by lia.
  cbv [Avx2Double.horizontal_sum mm_unpackhi_pd m256d_map2 m128d_map2 fst snd dlo dhi d0 d1].
  change (@add64 IEEE.arith) with (SFadd IEEE.prec64 IEEE.emax64).
  eapply (carried_eq P64); [ | | repeat (apply P64_add); eassumption ].
  - cbv [seq map Rsum fold_right]. ring.
  - cbv [seq map Rsum fold_right]. ring.
Qed.

(** The three reducers. *)
Lemma Scalar_carried :
  P32 (Count v) (SumActiveBalancesScalar v t)
    (filtered_sum v t) (filtered_magnitude v t).
Proof.
  unfold filtered_sum, filtered_magnitude.
  rewrite Scalar_fold.
  apply (carried_eq P32 (Count v) _
           (0 + exact_sum v t (seq 0 (Count v))) _
           (0 + magnitude v t (seq 0 (Count v)))); [ring | ring |].
  replace (Count v) with (0 + length (seq 0 (Count v)))%nat at 1
    by (rewrite length_seq; reflexivity).
  apply products32.
  - intros i Hi. apply in_seq in Hi. lia.
  - apply P32_zero.
Qed.

Lemma Znver2_carried :
  P32 (Count v / 16 + 4 + Count v mod 16) (Znver2.SumActiveBalancesAvx2 v t)
    (filtered_sum v t) (filtered_magnitude v t).
Proof.
  unfold filtered_sum, filtered_magnitude.
  rewrite Znver2_fold. unfold Znver2.tail_loop.
  fold (tail_indices 16 (Count v)).
  rewrite <- (exact_sum_cover v t 16), <- (magnitude_cover v t 16).
  rewrite <- (tail_indices_length 16 (Count v)) by lia.
  apply tail32.
  - apply tail_indices_bound.
  - unfold main_indices, exact_sum, magnitude.
    rewrite <- (Rsum_lanes (rcontrib v t) 16).
    rewrite <- (Rsum_lanes (fun i => Rabs (rcontrib v t i)) 16).
    apply (hsum32 (Znver2.main_loop v t) (Count v / 16)
             (fun j => exact_sum v t (map (fun g => (g + j)%nat) (counters 0 16 (Count v / 16))))
             (fun j => magnitude v t (map (fun g => (g + j)%nat) (counters 0 16 (Count v / 16))))).
    intros j Hj. apply lane32; assumption.
Qed.

Lemma Avx2Double_carried :
  P64 (Count v / 8 + 3 + Count v mod 8) (Avx2Double.SumActiveBalancesAvx2 v t)
    (filtered_sum v t) (filtered_magnitude v t).
Proof.
  unfold filtered_sum, filtered_magnitude.
  rewrite Avx2Double_fold. unfold Avx2Double.tail_loop.
  fold (tail_indices 8 (Count v)).
  rewrite <- (exact_sum_cover v t 8), <- (magnitude_cover v t 8).
  rewrite <- (tail_indices_length 8 (Count v)) by lia.
  apply tail64.
  - apply tail_indices_bound.
  - unfold main_indices, exact_sum, magnitude.
    rewrite <- (Rsum_lanes (rcontrib v t) 8).
    rewrite <- (Rsum_lanes (fun i => Rabs (rcontrib v t i)) 8).
    apply (hsum64 (Avx2Double.main_loop v t) (Count v / 8)
             (fun j => exact_sum v t (map (fun g => (g + j)%nat) (counters 0 8 (Count v / 8))))
             (fun j => magnitude v t (map (fun g => (g + j)%nat) (counters 0 8 (Count v / 8))))).
    intros j Hj. apply lane64; assumption.
Qed.
End Carried.

(** The reducers stay finite within their budget. *)
Section SafeReducers.
Local Notation "'safe32'" := (safe IEEE.prec32 IEEE.emax32).
Local Notation "'safe64'" := (safe IEEE.prec64 IEEE.emax64).
Variables (v : @UsersView IEEE.arith) (t : spec_float).
Hypothesis valid : finite_b32_view v.
Local Open Scope R_scope.

Lemma balance_safe32 : forall i, (i < Count v)%nat -> qualifies v t i = true ->
  safe32 0 (rd (Balances v) i IEEE.pzero) (rcontrib v t i) (Rabs (rcontrib v t i)).
Proof.
  intros i Hi Hq. destruct (valid i Hi) as [Hv Hf].
  unfold rcontrib. rewrite Hq.
  apply safe_exact; [apply valid_expo_ok; exact Hv | exact Hf].
Qed.

Lemma balance_safe64 : forall i, (i < Count v)%nat -> qualifies v t i = true ->
  safe64 0 (IEEE.convert IEEE.prec64 IEEE.emax64 (rd (Balances v) i IEEE.pzero))
    (rcontrib v t i) (Rabs (rcontrib v t i)).
Proof.
  intros i Hi Hq. destruct (valid i Hi) as [Hv Hf].
  destruct (cvtps_pd_exact _ Hv Hf) as [Hfin Hval].
  unfold rcontrib. rewrite Hq, <- Hval.
  apply safe_exact; [apply convert_expo | exact Hfin].
Qed.

Lemma Scalar_safe :
  safe32 (Count v) (SumActiveBalancesScalar v t)
    (filtered_sum v t) (filtered_magnitude v t).
Proof.
  apply (Scalar_carried v t valid safe32);
    [ apply safe_zero | apply safe_weaken
    | apply safe_add; exact prec32_pos | apply balance_safe32 ].
Qed.

Lemma Znver2_safe :
  safe32 (Count v / 16 + 4 + Count v mod 16) (Znver2.SumActiveBalancesAvx2 v t)
    (filtered_sum v t) (filtered_magnitude v t).
Proof.
  apply (Znver2_carried v t valid safe32);
    [ apply safe_zero | apply safe_weaken
    | apply safe_add; exact prec32_pos | apply balance_safe32 ].
Qed.

Lemma Avx2Double_safe :
  safe64 (Count v / 8 + 3 + Count v mod 8) (Avx2Double.SumActiveBalancesAvx2 v t)
    (filtered_sum v t) (filtered_magnitude v t).
Proof.
  apply (Avx2Double_carried v t valid safe64);
    [ apply safe_zero | apply safe_weaken
    | apply safe_add; exact prec64_pos | apply balance_safe64 ].
Qed.
End SafeReducers.
Section Budget.
Local Open Scope R_scope.

(** The growth of [n] roundings, while [n] times the unit roundoff is
    below 1. *)
Lemma pow_budget : forall (x : R) (n : nat),
  0 <= x -> INR n * x < 1 -> (1 + x) ^ n * (1 - INR n * x) <= 1.
Proof.
  intros x n Hx. induction n as [|n IH]; intros Hn.
  - simpl. lra.
  - rewrite S_INR in *.
    assert (Hn' : INR n * x < 1).
    { assert (0 <= 1 * x) by lra. lra. }
    specialize (IH Hn').
    assert (HP : 1 <= (1 + x) ^ n) by (apply pow_R1_Rle; lra).
    assert (HN : 0 <= INR n) by apply pos_INR.
    cbn [pow]. set (P := (1 + x) ^ n) in *. set (N := INR n) in *.
    assert (H1 : (1 + x) * (1 - (N + 1) * x) <= 1 - N * x).
    { assert (0 <= (N + 1) * (x * x)).
      { apply Rmult_le_pos; [lra | apply Rmult_le_pos; lra]. }
      lra. }
    assert (H2 : P * ((1 + x) * (1 - (N + 1) * x)) <= P * (1 - N * x))
      by (apply Rmult_le_compat_l; lra).
    lra.
Qed.

Lemma u32_value : 16777216 * u32 = 1.
Proof.
  unfold u32. pose proof (u_pow IEEE.prec32 prec32_pos) as H.
  change (2 ^ IEEE.prec32)%Z with 16777216%Z in H. exact H.
Qed.

(** Up to 3 * 2^22 roundings in single precision grow a sum at most
    fourfold. *)
Lemma growth_below_4 : forall n : nat,
  (Z.of_nat n <= 12582912)%Z -> (1 + u32) ^ n <= 4.
Proof.
  intros n Hn. pose proof u32_value as Hu.
  assert (Hu0 : 0 < u32) by (apply powerRZ_2_pos).
  assert (HN : INR n <= 12582912).
  { rewrite INR_IZR_INZ. apply IZR_le. exact Hn. }
  assert (Hnu : INR n * u32 <= 12582912 * u32)
    by (apply Rmult_le_compat_r; lra).
  pose proof (pow_budget u32 n ltac:(lra) ltac:(lra)) as HB.
  assert (HP : 1 <= (1 + u32) ^ n) by (apply pow_R1_Rle; lra).
  assert (H4 : (1 + u32) ^ n * (1 / 4) <= (1 + u32) ^ n * (1 - INR n * u32))
    by (apply Rmult_le_compat_l; lra).
  lra.
Qed.

Lemma magnitude_bound : forall (v : @UsersView IEEE.arith) (t : spec_float) (B : R)
    (l : list nat),
  (forall i, In i l -> Rabs (SF2R (rd (Balances v) i IEEE.pzero)) <= B) ->
  magnitude v t l <= INR (length l) * B.
Proof.
  intros v t B l. unfold magnitude, Rsum.
  induction l as [|i l IH]; intros H.
  - simpl. lra.
  - cbn [map fold_right length]. rewrite S_INR.
    specialize (IH (fun j Hj => H j (or_intror Hj))).
    pose proof (H i (or_introl eq_refl)) as Hi.
    assert (Rabs (rcontrib v t i) <= B).
    { unfold rcontrib. destruct (qualifies v t i); [exact Hi|].
      rewrite Rabs_R0. pose proof (Rabs_pos (SF2R (rd (Balances v) i IEEE.pzero))). lra. }
    lra.
Qed.
End Budget.

(** The reducers within their budget: while the magnitude of the terms,
    grown by the roundings, stays below 2^103, all three results are
    finite. *)
Lemma reducers_finite_in_budget : forall (v : @UsersView IEEE.arith) (t : spec_float),
  finite_b32_view v ->
  ((1 + u32) ^ (Count v + 4) * filtered_magnitude v t < powerRZ 2 103)%R ->
  IEEE.is_finite (SumActiveBalancesScalar v t) = true
  /\ IEEE.is_finite (Znver2.SumActiveBalancesAvx2 v t) = true
  /\ IEEE.is_finite (Avx2Double.SumActiveBalancesAvx2 v t) = true.
Proof.
  intros v t valid HB.
  destruct (Scalar_safe v t valid) as (HM & _ & F1).
  destruct (Znver2_safe v t valid) as (_ & _ & F2).
  destruct (Avx2Double_safe v t valid) as (_ & _ & F3).
  assert (Hu : (0 < u32)%R) by apply powerRZ_2_pos.
  assert (Hu' : (0 < u64)%R) by apply powerRZ_2_pos.
  pose proof (Nat.Div0.mul_div_le (Count v) 16) as H16.
  pose proof (Nat.Div0.mul_div_le (Count v) 8) as H8.
  pose proof (Nat.mod_upper_bound (Count v) 16 ltac:(lia)) as M16.
  pose proof (Nat.mod_upper_bound (Count v) 8 ltac:(lia)) as M8.
  pose proof (Nat.div_mod_eq (Count v) 16) as D16.
  pose proof (Nat.div_mod_eq (Count v) 8) as D8.
  assert (mono : forall k, (k <= Count v + 4)%nat ->
            ((1 + u32) ^ k * filtered_magnitude v t < powerRZ 2 103)%R).
  { intros k Hk.
    assert ((1 + u32) ^ k <= (1 + u32) ^ (Count v + 4))%R
      by (apply Rle_pow; [lra | exact Hk]).
    assert ((1 + u32) ^ k * filtered_magnitude v t
            <= (1 + u32) ^ (Count v + 4) * filtered_magnitude v t)%R
      by (apply Rmult_le_compat_r; assumption).
    lra. }
  split; [|split].
  - apply F1. apply mono. lia.
  - apply F2. apply mono. lia.
  - apply F3.
    set (k := (Count v / 8 + 3 + Count v mod 8)%nat).
    assert ((1 + u64) ^ k <= (1 + u32) ^ k)%R.
    { apply pow_incr. pose proof u64_le_u32. unfold u64, u32 in *. lra. }
    assert ((1 + u64) ^ k * filtered_magnitude v t
            <= (1 + u32) ^ k * filtered_magnitude v t)%R
      by (apply Rmult_le_compat_r; assumption).
    pose proof (mono k ltac:(unfold k; lia)).
    assert (powerRZ 2 103 <= powerRZ 2 (IEEE.emax64 - IEEE.prec64 - 1))%R
      by (apply powerRZ_2_mono; unfold IEEE.emax64, IEEE.prec64; lia).
    unfold u64 in *. lra.
Qed.

(** X17: on up to 12582908 elements whose balances are finite binary32
    numbers of magnitude at most 2^77, no reducer overflows: the scalar
    reducer and both vector kernels return finite floats, each within its
    rounding bound of the real sum of the qualifying balances.  (The
    benchmark draws 10^7 balances below 1000.) *)
Theorem reducers_do_not_overflow :
  forall (v : @UsersView IEEE.arith) (t : spec_float),
    finite_b32_view v ->
    (Z.of_nat (Count v) + 4 <= 12582912)%Z ->
    (forall i, (i < Count v)%nat ->
       (Rabs (SF2R (rd (Balances v) i IEEE.pzero)) <= powerRZ 2 77)%R) ->
    IEEE.is_finite (SumActiveBalancesScalar v t) = true
    /\ IEEE.is_finite (Znver2.SumActiveBalancesAvx2 v t) = true
    /\ IEEE.is_finite (Avx2Double.SumActiveBalancesAvx2 v t) = true
    /\ (Rabs (SF2R (SumActiveBalancesScalar v t) - filtered_sum v t)
        <= gamma u32 (Count v) * filtered_magnitude v t)%R
    /\ (Rabs (SF2R (Znver2.SumActiveBalancesAvx2 v t) - filtered_sum v t)
        <= gamma u32 (Count v / 16 + 4 + Count v mod 16) * filtered_magnitude v t)%R
    /\ (Rabs (SF2R (Avx2Double.SumActiveBalancesAvx2 v t) - filtered_sum v t)
        <= gamma u64 (Count v / 8 + 3 + Count v mod 8) * filtered_magnitude v t)%R.
Proof.
  intros v t valid Hn HB.
  assert (Hfin : IEEE.is_finite (SumActiveBalancesScalar v t) = true
                 /\ IEEE.is_finite (Znver2.SumActiveBalancesAvx2 v t) = true
                 /\ IEEE.is_finite (Avx2Double.SumActiveBalancesAvx2 v t) = true).
  { apply reducers_finite_in_budget; [exact valid|].
    pose proof (growth_below_4 (Count v + 4) ltac:(lia)) as H4.
    assert (HM : (filtered_magnitude v t <= INR (Count v) * powerRZ 2 77)%R).
    { unfold filtered_magnitude.
      pose proof (magnitude_bound v t (powerRZ 2 77) (seq 0 (Count v))) as Hm.
      rewrite length_seq in Hm. apply Hm.
      intros i Hi. apply in_seq in Hi. apply HB. lia. }
    assert (HM0 : (0 <= filtered_magnitude v t)%R)
      by (destruct (Scalar_safe v t valid) as (H & _); exact H).
    assert (HN : (INR (Count v) <= 12582908)%R).
    { rewrite INR_IZR_INZ. apply IZR_le. lia. }
    assert (HP : (0 < powerRZ 2 77)%R) by apply powerRZ_2_pos.
    assert (H103 : (powerRZ 2 103 = 67108864 * powerRZ 2 77)%R).
    { replace 103%Z with (26 + 77)%Z by lia. rewrite powerRZ_add by lra.
      f_equal. change 67108864%R with (IZR (2 ^ 26)). symmetry.
      rewrite <- (Z2Nat.id 26) at 1 2 by lia.
      rewrite <- pow_IZR, <- pow_powerRZ. reflexivity. }
    rewrite H103.
    assert (H1 : ((1 + u32) ^ (Count v + 4) * filtered_magnitude v t
                  <= 4 * filtered_magnitude v t)%R)
      by (apply Rmult_le_compat_r; assumption).
    assert (H2 : (INR (Count v) * powerRZ 2 77 <= 12582908 * powerRZ 2 77)%R)
      by (apply Rmult_le_compat_r; lra).
    lra. }
  destruct Hfin as (F1 & F2 & F3).
  split; [exact F1|]. split; [exact F2|]. split; [exact F3|].
  split; [|split].
  - apply (Scalar_error v t valid F1).
  - apply (Znver2_error v t valid F2).
  - apply (Avx2Double_error v t valid F3).
Qed.
Lemma SF2R_small : forall (s : bool) (m : positive) (e : Z),
  (Zpos m < 16777216)%Z -> (e <= 53)%Z ->
  (Rabs (SF2R (S754_finite s m e)) <= powerRZ 2 77)%R.
Proof.
  intros s m e Hm He.
  pose proof (powerRZ_2_pos e) as Hp.
  assert (Hv : (0 <= IZR (Zpos m) * powerRZ 2 e)%R).
  { apply Rmult_le_pos; [apply IZR_le; lia | lra]. }
  assert (Hb : (IZR (Zpos m) * powerRZ 2 e <= powerRZ 2 77)%R).
  { replace 77%Z with (24 + 53)%Z by lia. rewrite powerRZ_add by lra.
    apply Rmult_le_compat; try lra.
    - apply IZR_le; lia.
    - rewrite <- (IZR_pow2 24) by lia. apply IZR_le.
      change (2 ^ 24)%Z with 16777216%Z. lia.
    - apply powerRZ_2_mono. exact He. }
  rewrite SF2R_cond_Zopp. destruct s.
  - replace (-1 * (IZR (Zpos m) * powerRZ 2 e))%R
      with (- (IZR (Zpos m) * powerRZ 2 e))%R by ring.
    rewrite Rabs_Ropp, Rabs_pos_eq; assumption.
  - rewrite Rmult_1_l, Rabs_pos_eq; assumption.
Qed.

(** The magnitude of a concrete balance. *)
Ltac small_balance :=
  match goal with
  | |- (Rabs (SF2R ?x) <= _)%R =>
      let y := eval vm_compute in x in
      change x with y; apply SF2R_small; [reflexivity | lia]
  end.

Lemma reducers_do_not_overflow_witness :
  IEEE.is_finite (SumActiveBalancesScalar Inputs.spec_example (Inputs.f 250)) = true
  /\ IEEE.is_finite (Znver2.SumActiveBalancesAvx2 Inputs.spec_example (Inputs.f 250)) = true
  /\ IEEE.is_finite (Avx2Double.SumActiveBalancesAvx2 Inputs.spec_example (Inputs.f 250))
     = true
  /\ (Rabs (SF2R (SumActiveBalancesScalar Inputs.spec_example (Inputs.f 250))
            - filtered_sum Inputs.spec_example (Inputs.f 250))
      <= gamma u32 (Count Inputs.spec_example)
         * filtered_magnitude Inputs.spec_example (Inputs.f 250))%R
  /\ (Rabs (SF2R (Znver2.SumActiveBalancesAvx2 Inputs.spec_example (Inputs.f 250))
            - filtered_sum Inputs.spec_example (Inputs.f 250))
      <= gamma u32 (Count Inputs.spec_example / 16 + 4 + Count Inputs.spec_example mod 16)
         * filtered_magnitude Inputs.spec_example (Inputs.f 250))%R
  /\ (Rabs (SF2R (Avx2Double.SumActiveBalancesAvx2 Inputs.spec_example (Inputs.f 250))
            - filtered_sum Inputs.spec_example (Inputs.f 250))
      <= gamma u64 (Count Inputs.spec_example / 8 + 3 + Count Inputs.spec_example mod 8)
         * filtered_magnitude Inputs.spec_example (Inputs.f 250))%R.
Proof.
  apply (reducers_do_not_overflow Inputs.spec_example (Inputs.f 250)).
  - intros i Hi. split; by_index i.
  - simpl. lia.
  - intros i Hi.
    do 4 (destruct i as [|i]; [small_balance|]).
    exfalso. simpl in Hi. lia.
Defined.
(** ** Sums that are exact

    Rounding a number the format holds returns that number.  So the
    reducers add integer-valued balances without any rounding while the
    magnitudes sum to less than 2^prec. *)

Section ExactRounding.
Local Open Scope Z_scope.
Variables prec emax : Z.
Hypothesis prec_pos : 0 < prec.
Local Notation "'emin'" := (SpecFloat.emin prec emax).
Local Notation "'fexp'" := (SpecFloat.fexp prec emax).

(** A mantissa of more than [prec] digits whose digits past the first
    [prec] are zero is rounded to its first [prec] digits. *)
Lemma binary_round_aux_divisible : forall s (mz : positive) ez (c : Z),
  emin <= ez ->
  prec < Zpos (digits2_pos mz) ->
  Zpos mz = c * 2 ^ (Zpos (digits2_pos mz) - prec) ->
  exists m2 : positive,
    Zpos m2 = c
    /\ binary_round_aux prec emax s (Zpos mz) ez loc_Exact
       = (if ez + (Zpos (digits2_pos mz) - prec) <=? emax - prec
          then S754_finite s m2 (ez + (Zpos (digits2_pos mz) - prec))
          else S754_infinity s).
Proof.
  intros s mz ez c Hez Hd Hc. unfold binary_round_aux.
  destruct (shr_fexp_exact_spec prec emax (Zpos mz) ez) as (mrs1 & e1 & H1 & He1 & S1); [lia|].
  rewrite H1. cbn [Zdigits2] in He1.
  set (d := Zpos (digits2_pos mz)) in *.
  pose proof (digits2_bounds mz) as [Dlo Dhi]. fold d in Dlo, Dhi.
  assert (Hf : fexp (d + ez) = d + ez - prec) by (unfold SpecFloat.fexp; lia).
  assert (Hk1 : e1 - ez = d - prec) by lia.
  rewrite Hk1 in S1.
  assert (HP : 0 < 2 ^ (d - prec)) by (apply Z.pow_pos_nonneg; lia).
  assert (Hd2 : 2 ^ d = 2 ^ prec * 2 ^ (d - prec)).
  { rewrite <- Z.pow_add_r by lia. f_equal. lia. }
  assert (Hd1 : 2 ^ (d - 1) = 2 ^ (prec - 1) * 2 ^ (d - prec)).
  { rewrite <- Z.pow_add_r by lia. f_equal. lia. }
  destruct mrs1 as [q r st]. destruct S1 as (T & H2m & HT & Hs & Hq).
  cbn [shr_m shr_r shr_s] in *.
  remember (2 ^ (d - prec)) as P.
  assert (Hc_lo : 2 ^ (prec - 1) <= c) by (remember (2 ^ (prec - 1)) as Q; nia).
  assert (Hc_hi : c < 2 ^ prec) by (remember (2 ^ prec) as Q; nia).
  assert (HD : 2 * c - 2 * q - Z.b2z r = 0).
  { assert (Hb : Z.b2z r = 0 \/ Z.b2z r = 1) by (destruct r; auto). nia. }
  assert (Hr : r = false) by (destruct r; cbn [Z.b2z] in HD; [lia | reflexivity]).
  subst r. cbn [Z.b2z] in *.
  assert (HT0 : T = 0) by nia.
  assert (Hst : st = false).
  { destruct st; [|reflexivity]. assert (0 < T) by (apply Hs; reflexivity). lia. }
  subst st. cbn [loc_of_shr_record round_nearest_even].
  assert (Hqc : q = c) by lia. subst q.
  assert (Hpp : 0 < 2 ^ (prec - 1)) by (apply Z.pow_pos_nonneg; lia).
  destruct c as [|cp|cp]; try lia.
  assert (Hdig : Zpos (digits2_pos cp) = prec) by (apply digits2_unique; lia).
  destruct (shr_fexp_exact_spec prec emax (Zpos cp) e1) as (mrs2 & e2 & H2 & He2 & S2); [lia|].
  rewrite H2. cbn [Zdigits2] in He2. rewrite Hdig in He2.
  assert (Hee : e2 = e1) by (unfold SpecFloat.fexp in *; lia).
  rewrite Hee in *. clear Hee.
  rewrite Z.sub_diag in S2. apply shifted_0 in S2. subst mrs2. cbn [shr_m].
  exists cp. split; [reflexivity|].
  replace (ez + (d - prec)) with e1 by lia. reflexivity.
Qed.
End ExactRounding.

Section ExactSum.
Variables prec emax : Z.
Hypothesis prec_pos : (0 < prec)%Z.
Hypothesis room : (prec <= emax - prec)%Z.
Local Notation "'emin'" := (SpecFloat.emin prec emax).
Local Notation "'fexp'" := (SpecFloat.fexp prec emax).

(** An integer given as a mantissa and an exponent. *)
Lemma integer_value : forall (z e n : Z),
  (IZR z * powerRZ 2 e = IZR n)%R ->
  ((0 <= e -> z * 2 ^ e = n) /\ (e < 0 -> z = n * 2 ^ (- e)))%Z.
Proof.
  intros z e n H. split; intros He.
  - apply eq_IZR. rewrite mult_IZR, IZR_pow2 by exact He. exact H.
  - apply eq_IZR. rewrite mult_IZR, IZR_pow2 by lia. rewrite <- H.
    rewrite Rmult_assoc, <- powerRZ_add by lra.
    replace (e + - e)%Z with 0%Z by lia. simpl. ring.
Qed.

Lemma value_integer : forall (z e n : Z),
  ((0 <= e -> z * 2 ^ e = n) /\ (e < 0 -> z = n * 2 ^ (- e)))%Z ->
  (IZR z * powerRZ 2 e = IZR n)%R.
Proof.
  intros z e n [H1 H2]. destruct (Z_lt_le_dec e 0) as [He|He].
  - rewrite (H2 He), mult_IZR, IZR_pow2 by lia.
    rewrite Rmult_assoc, <- powerRZ_add by lra.
    replace (- e + e)%Z with 0%Z by lia. simpl. ring.
  - rewrite <- (H1 He), mult_IZR, IZR_pow2 by exact He. reflexivity.
Qed.

(** Rounding a positive integer below 2^prec returns it. *)
Lemma binary_round_integer : forall s (m : positive) (e N : Z),
  (emin <= e)%Z -> (0 < N < 2 ^ prec)%Z ->
  (IZR (Zpos m) * powerRZ 2 e = IZR N)%R ->
  exists (m2 : positive) (e2 : Z),
    binary_round prec emax s m e = S754_finite s m2 e2
    /\ (IZR (Zpos m2) * powerRZ 2 e2 = IZR N)%R.
Proof.
  intros s m e N He HN Hval.
  destruct (integer_value _ _ _ Hval) as [Hpos Hneg].
  pose proof (digits2_bounds m) as [Dlo Dhi].
  set (d := Zpos (digits2_pos m)) in *.
  assert (Hd0 : (0 < d)%Z) by (unfold d; lia).
  destruct (Z_le_gt_dec d prec) as [Hfit | Hlong].
  - (* at most prec digits: the mantissa is only aligned *)
    destruct (binary_round_correct prec emax prec_pos s m e He)
      as (m2 & e2 & Hr & _ & Hex).
    destruct Hex as [Hv He2]; [fold d; unfold SpecFloat.fexp; lia|].
    exists m2, e2. split; [|rewrite Hv; exact Hval].
    rewrite Hr.
    assert (Hle : (e2 <= emax - prec)%Z).
    { destruct (Z_lt_le_dec e 0) as [Hn|Hp]; [lia|].
      specialize (Hpos Hp).
      assert (2 ^ e <= Zpos m * 2 ^ e)%Z.
      { assert (0 < 2 ^ e)%Z by (apply Z.pow_pos_nonneg; lia). nia. }
      assert (e < prec)%Z by (apply (Z.pow_lt_mono_r_iff 2); lia).
      lia. }
    apply Z.leb_le in Hle. rewrite Hle. reflexivity.
  - (* more than prec digits: those past the first prec are zero *)
    assert (Hen : (e < 0)%Z).
    { destruct (Z_lt_le_dec e 0) as [Hn|Hp]; [exact Hn|]. exfalso.
      specialize (Hpos Hp).
      assert (0 < 2 ^ e)%Z by (apply Z.pow_pos_nonneg; lia).
      assert (Zpos m < 2 ^ prec)%Z by nia.
      assert (2 ^ (d - 1) < 2 ^ prec)%Z by lia.
      assert (d - 1 < prec)%Z by (apply (Z.pow_lt_mono_r_iff 2); lia).
      lia. }
    specialize (Hneg Hen).
    assert (Hk : (d - prec <= - e)%Z).
    { assert (H1 : (2 ^ (d - 1) < 2 ^ (prec - e))%Z).
      { replace (prec - e)%Z with (prec + - e)%Z by lia.
        rewrite Z.pow_add_r by lia.
        assert (0 < 2 ^ (- e))%Z by (apply Z.pow_pos_nonneg; lia).
        remember (2 ^ (- e))%Z as P. remember (2 ^ prec)%Z as Q. nia. }
      assert (d - 1 < prec - e)%Z by (apply (Z.pow_lt_mono_r_iff 2); lia).
      lia. }
    unfold binary_round.
    pose proof (shl_align_spec m e (fexp (Zpos (digits2_pos m) + e))) as Hs.
    fold d in Hs |- *.
    assert (Hf : (fexp (d + e) = d + e - prec)%Z) by (unfold SpecFloat.fexp; lia).
    rewrite Hf in Hs |- *.
    destruct (shl_align m e (d + e - prec)) as [mz ez].
    destruct Hs as (Hez & Hmz & Hdz).
    subst ez. rewrite Z.min_l in * by lia.
    rewrite Z.sub_diag, Z.pow_0_r, Z.mul_1_r in Hmz.
    injection Hmz as Hmz. subst mz.
    destruct (binary_round_aux_divisible prec emax prec_pos s m e
                (N * 2 ^ (- e - (d - prec)))%Z He) as (m2 & Hm2 & Hr).
    + fold d. lia.
    + fold d. rewrite Hneg, <- Z.mul_assoc, <- Z.pow_add_r by lia.
      do 2 f_equal. lia.
    + fold d in Hr. exists m2, (e + (d - prec))%Z. split.
      * rewrite Hr.
        assert (Hle : (e + (d - prec) <= emax - prec)%Z) by lia.
        apply Z.leb_le in Hle. rewrite Hle. reflexivity.
      * rewrite Hm2, mult_IZR, IZR_pow2 by lia.
        rewrite Rmult_assoc, <- powerRZ_add by lra.
        replace (- e - (d - prec) + (e + (d - prec)))%Z with 0%Z by lia.
        simpl. ring.
Qed.
(** Normalizing an integer of magnitude below 2^prec returns it. *)
Lemma binary_normalize_integer : forall (z e n : Z) (sz : bool),
  (emin <= e)%Z -> (Z.abs n < 2 ^ prec)%Z ->
  (IZR z * powerRZ 2 e = IZR n)%R ->
  IEEE.is_finite (binary_normalize prec emax z e sz) = true
  /\ SF2R (binary_normalize prec emax z e sz) = IZR n.
Proof.
  intros z e n sz He Hn Hval. unfold binary_normalize.
  pose proof (powerRZ_2_pos e) as Hp.
  destruct z as [|m|m].
  - split; [reflexivity|]. cbn [SF2R]. rewrite <- Hval. ring.
  - assert (H0 : (0 < n)%Z).
    { apply lt_IZR. rewrite <- Hval. apply Rmult_lt_0_compat; [apply IZR_lt; lia | lra]. }
    destruct (binary_round_integer false m e n He ltac:(lia) Hval)
      as (m2 & e2 & Hr & Hv).
    rewrite Hr. split; [reflexivity|].
    rewrite SF2R_cond_Zopp, Rmult_1_l. exact Hv.
  - assert (H0 : (n < 0)%Z).
    { apply lt_IZR. rewrite <- Hval.
      rewrite <- (Pos2Z.opp_pos m), opp_IZR.
      assert (0 < IZR (Zpos m) * powerRZ 2 e)%R
        by (apply Rmult_lt_0_compat; [apply IZR_lt; lia | lra]).
      lra. }
    assert (Hval' : (IZR (Zpos m) * powerRZ 2 e = IZR (- n))%R).
    { rewrite opp_IZR, <- Hval, <- (Pos2Z.opp_pos m), opp_IZR. ring. }
    destruct (binary_round_integer true m e (- n)%Z He ltac:(lia) Hval')
      as (m2 & e2 & Hr & Hv).
    rewrite Hr. split; [reflexivity|].
    rewrite SF2R_cond_Zopp, Hv, opp_IZR. ring.
Qed.

(** Adding two integer-valued floats whose sum is below 2^prec in
    magnitude is exact. *)
Lemma SFadd_integer : forall (x y : spec_float) (n1 n2 : Z),
  IEEE.expo_ok prec emax x -> IEEE.expo_ok prec emax y ->
  IEEE.is_finite x = true -> IEEE.is_finite y = true ->
  SF2R x = IZR n1 -> SF2R y = IZR n2 ->
  (Z.abs (n1 + n2) < 2 ^ prec)%Z ->
  IEEE.is_finite (SFadd prec emax x y) = true
  /\ SF2R (SFadd prec emax x y) = IZR (n1 + n2).
Proof.
  intros x y n1 n2 Ex Ey Fx Fy Hx Hy Hn.
  rewrite plus_IZR, <- Hx, <- Hy.
  destruct x as [sx|sx| |sx mx ex], y as [sy|sy| |sy my ey]; try discriminate;
    try (split; [reflexivity | cbn [SFadd SF2R]; ring]);
    try (destruct sx, sy; (split; [reflexivity | cbn [SFadd SF2R]; ring])).
  cbn [SFadd]. cbn [IEEE.expo_ok] in Ex, Ey.
  match goal with
  | |- context [binary_normalize _ _ _ ?e _] =>
      assert (Hez : (e <= ex /\ e <= ey /\ emin <= e)%Z) by lia;
      set (ez := e) in *
  end.
  rewrite Hx, Hy, <- plus_IZR.
  apply binary_normalize_integer; [lia | exact Hn |].
  rewrite plus_IZR, Rmult_plus_distr_r, !aligned_value by lia.
  rewrite Hx, Hy, plus_IZR. reflexivity.
Qed.
End ExactSum.
Section Exactly.
Variables prec emax : Z.
Hypothesis prec_pos : (0 < prec)%Z.
Hypothesis room : (prec <= emax - prec)%Z.
Local Open Scope R_scope.

Lemma exactly_zero : forall s, exactly prec emax (S754_zero s) 0 0.
Proof.
  intros s. split; [rewrite Rabs_R0; lra|]. split; [exists 0%Z; reflexivity|].
  intros _. repeat split.
Qed.

Lemma exactly_integer : forall x (z : Z),
  IEEE.expo_ok prec emax x -> IEEE.is_finite x = true -> SF2R x = IZR z ->
  exactly prec emax x (SF2R x) (Rabs (SF2R x)).
Proof.
  intros x z E F H. split; [lra|]. split; [exists z; exact H|].
  intros _. repeat split; assumption.
Qed.

Lemma exactly_add : forall a b ea eb Ma Mb,
  exactly prec emax a ea Ma -> exactly prec emax b eb Mb ->
  exactly prec emax (SFadd prec emax a b) (ea + eb) (Ma + Mb).
Proof.
  intros a b ea eb Ma Mb (Ba & [na Ha] & Fa) (Bb & [nb Hb] & Fb).
  pose proof (Rabs_pos ea). pose proof (Rabs_pos eb).
  split; [pose proof (Rabs_triang ea eb); lra|].
  split; [exists (na + nb)%Z; rewrite plus_IZR; congruence|].
  intros HM.
  destruct (Fa ltac:(lra)) as (FA & EA & VA).
  destruct (Fb ltac:(lra)) as (FB & EB & VB).
  assert (Hn : (Z.abs (na + nb) < 2 ^ prec)%Z).
  { apply lt_IZR. rewrite abs_IZR, plus_IZR, <- Ha, <- Hb, IZR_pow2 by lia.
    pose proof (Rabs_triang ea eb). lra. }
  destruct (SFadd_integer prec emax prec_pos room a b na nb EA EB FA FB
              ltac:(congruence) ltac:(congruence) Hn) as [F V].
  split; [exact F|]. split; [apply SFadd_expo; assumption|].
  rewrite V, plus_IZR. congruence.
Qed.
End Exactly.

Section ExactReducers.
Variables (v : @UsersView IEEE.arith) (t : spec_float).
Hypothesis valid : finite_b32_view v.
Hypothesis integers : integer_view v.
Local Open Scope R_scope.

Lemma room32 : (IEEE.prec32 <= IEEE.emax32 - IEEE.prec32)%Z.
Proof. unfold IEEE.prec32, IEEE.emax32. lia. Qed.

Lemma room64 : (IEEE.prec64 <= IEEE.emax64 - IEEE.prec64)%Z.
Proof. unfold IEEE.prec64, IEEE.emax64. lia. Qed.

Lemma balance_exactly32 : forall i, (i < Count v)%nat -> qualifies v t i = true ->
  exactly IEEE.prec32 IEEE.emax32 (rd (Balances v) i IEEE.pzero)
    (rcontrib v t i) (Rabs (rcontrib v t i)).
Proof.
  intros i Hi Hq. destruct (valid i Hi) as [Hv Hf]. destruct (integers i Hi) as [z Hz].
  unfold rcontrib. rewrite Hq.
  apply (exactly_integer _ _ _ z); [apply valid_expo_ok; exact Hv | exact Hf | exact Hz].
Qed.

Lemma balance_exactly64 : forall i, (i < Count v)%nat -> qualifies v t i = true ->
  exactly IEEE.prec64 IEEE.emax64
    (IEEE.convert IEEE.prec64 IEEE.emax64 (rd (Balances v) i IEEE.pzero))
    (rcontrib v t i) (Rabs (rcontrib v t i)).
Proof.
  intros i Hi Hq. destruct (valid i Hi) as [Hv Hf]. destruct (integers i Hi) as [z Hz].
  destruct (cvtps_pd_exact _ Hv Hf) as [Hfin Hval].
  unfold rcontrib. rewrite Hq, <- Hval.
  apply (exactly_integer _ _ _ z); [apply convert_expo | exact Hfin | congruence].
Qed.

Lemma Scalar_exactly :
  exactly IEEE.prec32 IEEE.emax32 (SumActiveBalancesScalar v t)
    (filtered_sum v t) (filtered_magnitude v t).
Proof.
  apply (Scalar_carried v t valid (fun _ => exactly IEEE.prec32 IEEE.emax32));
    [ apply exactly_zero | intros k k' x e M _ H; exact H
    | intros k; apply exactly_add; [exact prec32_pos | exact room32]
    | apply balance_exactly32 ].
Qed.

Lemma Znver2_exactly :
  exactly IEEE.prec32 IEEE.emax32 (Znver2.SumActiveBalancesAvx2 v t)
    (filtered_sum v t) (filtered_magnitude v t).
Proof.
  apply (Znver2_carried v t valid (fun _ => exactly IEEE.prec32 IEEE.emax32));
    [ apply exactly_zero | intros k k' x e M _ H; exact H
    | intros k; apply exactly_add; [exact prec32_pos | exact room32]
    | apply balance_exactly32 ].
Qed.

Lemma Avx2Double_exactly :
  exactly IEEE.prec64 IEEE.emax64 (Avx2Double.SumActiveBalancesAvx2 v t)
    (filtered_sum v t) (filtered_magnitude v t).
Proof.
  apply (Avx2Double_carried v t valid (fun _ => exactly IEEE.prec64 IEEE.emax64));
    [ apply exactly_zero | intros k k' x e M _ H; exact H
    | intros k; apply exactly_add; [exact prec64_pos | exact room64]
    | apply balance_exactly64 ].
Qed.
End ExactReducers.

(** The records of a repository holding the values of a view of finite
    binary32 balances. *)
Lemma same_values_finite : forall (users : list (@Repository.User IEEE.arith))
    (v : @UsersView IEEE.arith),
  Repository.same_values users v -> finite_b32_view v -> all_finite_users users.
Proof.
  intros users v (Hc & _ & Hb & _) valid.
  unfold all_finite_users. apply Forall_forall. intros u Hu.
  destruct (In_nth users u u Hu) as (i & Hi & Hn).
  specialize (valid i ltac:(lia)). unfold rd in valid. rewrite Hb in valid.
  change IEEE.pzero with (@zero32 IEEE.arith) in valid.
  rewrite (nth_indep _ zero32 (Repository.Balance u)) in valid
    by (rewrite length_map; exact Hi).
  rewrite (map_nth Repository.Balance users u i), Hn in valid. exact valid.
Qed.

(** X18: on a view whose balances are integers (as finite binary32
    numbers) and whose qualifying balances have magnitudes summing to
    less than 2^24, nothing is rounded: the scalar reducer, both vector
    kernels and the repository sum over the same values each return a
    finite float whose value is exactly the sum of the qualifying
    balances, so all four agree. *)
Theorem integer_sums_are_exact :
  forall (v : @UsersView IEEE.arith) (t : spec_float)
         (users : list (@Repository.User IEEE.arith)),
    finite_b32_view v ->
    integer_view v ->
    (filtered_magnitude v t < 16777216)%R ->
    Repository.same_values users v ->
    (exists n : Z, filtered_sum v t = IZR n)
    /\ (IEEE.is_finite (SumActiveBalancesScalar v t) = true
        /\ SF2R (SumActiveBalancesScalar v t) = filtered_sum v t)
    /\ (IEEE.is_finite (Znver2.SumActiveBalancesAvx2 v t) = true
        /\ SF2R (Znver2.SumActiveBalancesAvx2 v t) = filtered_sum v t)
    /\ (IEEE.is_finite (Avx2Double.SumActiveBalancesAvx2 v t) = true
        /\ SF2R (Avx2Double.SumActiveBalancesAvx2 v t) = filtered_sum v t)
    /\ (IEEE.is_finite
          (Repository.SumActiveBalances (Repository.VectorUserRepository users) t) = true
        /\ SF2R (Repository.SumActiveBalances (Repository.VectorUserRepository users) t)
           = filtered_sum v t).
Proof.
  intros v t users valid integers HM same.
  destruct (Scalar_exactly v t valid integers) as (_ & Hint & F1).
  destruct (Znver2_exactly v t valid integers) as (_ & _ & F2).
  destruct (Avx2Double_exactly v t valid integers) as (_ & _ & F3).
  assert (H24 : (powerRZ 2 IEEE.prec32 = 16777216)%R).
  { rewrite <- IZR_pow2 by (unfold IEEE.prec32; lia). reflexivity. }
  assert (H53 : (16777216 <= powerRZ 2 IEEE.prec64)%R).
  { rewrite <- H24. apply powerRZ_2_mono. unfold IEEE.prec32, IEEE.prec64. lia. }
  destruct (F1 ltac:(lra)) as (Fa & _ & Va).
  destruct (F2 ltac:(lra)) as (Fb & _ & Vb).
  destruct (F3 ltac:(lra)) as (Fc & _ & Vc).
  split; [exact Hint|].
  split; [split; assumption|]. split; [split; assumption|]. split; [split; assumption|].
  assert (HR : Repository.SumActiveBalances (Repository.VectorUserRepository users) t
               = SumActiveBalancesScalar v t).
  { rewrite (Scalar_over_any_records users v t same).
    apply finite_records_sum. apply (same_values_finite users v same valid). }
  rewrite HR. split; assumption.
Qed.
(** The value of a float whose mantissa is a multiple of 2^-e. *)
Lemma SF2R_integer : forall (s : bool) (m : positive) (e c : Z),
  (e <= 0)%Z -> Zpos m = (c * 2 ^ (- e))%Z ->
  SF2R (S754_finite s m e) = IZR (cond_Zopp s c).
Proof.
  intros s m e c He Hm.
  assert (H : (IZR (Zpos m) * powerRZ 2 e = IZR c)%R).
  { apply value_integer. split; intros H.
    - assert (e = 0)%Z by lia. subst e. change (- 0)%Z with 0%Z in Hm.
      rewrite Z.pow_0_r in *. lia.
    - exact Hm. }
  rewrite SF2R_cond_Zopp, H. destruct s; cbn [cond_Zopp].
  - rewrite opp_IZR. ring.
  - ring.
Qed.

Lemma SF2R_below : forall (s : bool) (m : positive) (e E : Z),
  (Zpos m < 16777216)%Z -> (e <= E)%Z ->
  (Rabs (SF2R (S754_finite s m e)) <= powerRZ 2 (24 + E))%R.
Proof.
  intros s m e E Hm He.
  pose proof (powerRZ_2_pos e) as Hp.
  assert (Hv : (0 <= IZR (Zpos m) * powerRZ 2 e)%R).
  { apply Rmult_le_pos; [apply IZR_le; lia | lra]. }
  assert (Hb : (IZR (Zpos m) * powerRZ 2 e <= powerRZ 2 (24 + E))%R).
  { rewrite powerRZ_add by lra.
    apply Rmult_le_compat; try lra.
    - apply IZR_le; lia.
    - rewrite <- (IZR_pow2 24) by lia. apply IZR_le.
      change (2 ^ 24)%Z with 16777216%Z. lia.
    - apply powerRZ_2_mono. exact He. }
  rewrite SF2R_cond_Zopp. destruct s.
  - replace (-1 * (IZR (Zpos m) * powerRZ 2 e))%R
      with (- (IZR (Zpos m) * powerRZ 2 e))%R by ring.
    rewrite Rabs_Ropp, Rabs_pos_eq; assumption.
  - rewrite Rmult_1_l, Rabs_pos_eq; assumption.
Qed.

(** The example of the specification holds integers below 1024. *)
Lemma spec_example_integers : integer_view Inputs.spec_example.
Proof.
  intros i Hi.
  assert (value : forall (x : spec_float) (c : Z),
            match x with
            | S754_finite false m e => (e <=? 0)%Z && (Zpos m =? c * 2 ^ (- e))%Z
            | _ => false
            end = true ->
            SF2R x = IZR c).
  { intros [| | |[|] m e] c H; try discriminate.
    apply andb_prop in H. destruct H as [H1 H2].
    apply (SF2R_integer false m e c); [apply Z.leb_le | apply Z.eqb_eq]; assumption. }
  destruct i as [|[|[|[|i]]]]; [| | | |exfalso; simpl in Hi; lia].
  - exists 100%Z. apply value. reflexivity.
  - exists 300%Z. apply value. reflexivity.
  - exists 250%Z. apply value. reflexivity.
  - exists 999%Z. apply value. reflexivity.
Qed.

Lemma spec_example_magnitude :
  (filtered_magnitude Inputs.spec_example (Inputs.f 250) < 16777216)%R.
Proof.
  unfold filtered_magnitude.
  pose proof (magnitude_bound Inputs.spec_example (Inputs.f 250) (powerRZ 2 (24 + -14))
                (seq 0 (Count Inputs.spec_example))) as H.
  assert (Hb : (magnitude Inputs.spec_example (Inputs.f 250)
                  (seq 0 (Count Inputs.spec_example))
                <= INR 4 * powerRZ 2 10)%R).
  { apply H. intros i Hi. apply in_seq in Hi.
    destruct i as [|[|[|[|i]]]]; [| | | |exfalso; simpl in Hi; lia];
      match goal with
      | |- (Rabs (SF2R ?x) <= _)%R =>
          let y := eval vm_compute in x in
          change x with y; apply SF2R_below; [reflexivity | lia]
      end. }
  assert (H10 : (powerRZ 2 10 = 1024)%R).
  { rewrite <- IZR_pow2 by lia. reflexivity. }
  rewrite H10 in Hb. simpl INR in Hb. lra.
Qed.

Lemma integer_sums_are_exact_witness :
  (exists n : Z, filtered_sum Inputs.spec_example (Inputs.f 250) = IZR n)
  /\ (IEEE.is_finite (SumActiveBalancesScalar Inputs.spec_example (Inputs.f 250)) = true
      /\ SF2R (SumActiveBalancesScalar Inputs.spec_example (Inputs.f 250))
         = filtered_sum Inputs.spec_example (Inputs.f 250))
  /\ (IEEE.is_finite (Znver2.SumActiveBalancesAvx2 Inputs.spec_example (Inputs.f 250))
      = true
      /\ SF2R (Znver2.SumActiveBalancesAvx2 Inputs.spec_example (Inputs.f 250))
         = filtered_sum Inputs.spec_example (Inputs.f 250))
  /\ (IEEE.is_finite (Avx2Double.SumActiveBalancesAvx2 Inputs.spec_example (Inputs.f 250))
      = true
      /\ SF2R (Avx2Double.SumActiveBalancesAvx2 Inputs.spec_example (Inputs.f 250))
         = filtered_sum Inputs.spec_example (Inputs.f 250))
  /\ (IEEE.is_finite
        (Repository.SumActiveBalances
           (Repository.VectorUserRepository Inputs.spec_example_users) (Inputs.f 250))
      = true
      /\ SF2R (Repository.SumActiveBalances
                 (Repository.VectorUserRepository Inputs.spec_example_users)
                 (Inputs.f 250))
         = filtered_sum Inputs.spec_example (Inputs.f 250)).
Proof.
  apply (integer_sums_are_exact Inputs.spec_example (Inputs.f 250)
           Inputs.spec_example_users).
  - intros i Hi. split; by_index i.
  - exact spec_example_integers.
  - exact spec_example_magnitude.
  - repeat split.
Defined.
(** ** One representation per value

    What an addition or a conversion returns is in canonical form, and
    two canonical floats of the same value, neither the negative zero,
    are the same float.  So results that are equal as numbers are equal
    bit for bit. *)

Section Canonical.
Local Open Scope Z_scope.
Variables prec emax : Z.
Hypothesis prec_pos : 0 < prec.
Local Notation "'emin'" := (SpecFloat.emin prec emax).
Local Notation "'fexp'" := (SpecFloat.fexp prec emax).

(** Rounding a mantissa of more than [prec] digits returns one of
    exactly [prec] digits. *)
Lemma binary_round_aux_digits : forall s (mz : positive) ez,
  emin <= ez ->
  prec < Zpos (digits2_pos mz) ->
  exists (m2 : positive) (e2 : Z),
    binary_round_aux prec emax s (Zpos mz) ez loc_Exact
    = (if e2 <=? emax - prec then S754_finite s m2 e2 else S754_infinity s)
    /\ Zpos (digits2_pos m2) = prec
    /\ ez < e2.
Proof.
  intros s mz ez Hez Hlong. unfold binary_round_aux.
  destruct (shr_fexp_exact_spec prec emax (Zpos mz) ez) as (mrs1 & e1 & H1 & He1 & S1); [lia|].
  rewrite H1. cbn [Zdigits2] in He1.
  set (d := Zpos (digits2_pos mz)) in *.
  pose proof (digits2_bounds mz) as [Dlo Dhi]. fold d in Dlo, Dhi.
  assert (Hf : fexp (d + ez) = d + ez - prec) by (unfold SpecFloat.fexp in *; lia).
  assert (Hk1 : e1 - ez = d - prec) by lia.
  rewrite Hk1 in S1.
  pose proof (round_shifted (Zpos mz) (d - prec) mrs1 ltac:(lia) S1) as [Hm1 _].
  set (m1 := round_nearest_even (shr_m mrs1) (loc_of_shr_record mrs1)) in *.
  destruct S1 as (T & H2m & HT & _ & Hq).
  assert (HP : 0 < 2 ^ (d - prec)) by (apply Z.pow_pos_nonneg; lia).
  assert (Hd : 2 ^ d = 2 ^ prec * 2 ^ (d - prec)).
  { rewrite <- Z.pow_add_r by lia. f_equal. lia. }
  assert (Hd1 : 2 ^ (d - 1) = 2 ^ (prec - 1) * 2 ^ (d - prec)).
  { rewrite <- Z.pow_add_r by lia. f_equal. lia. }
  assert (Hpp : 2 ^ prec = 2 * 2 ^ (prec - 1)).
  { rewrite <- Z.pow_succ_r by lia. f_equal. lia. }
  assert (Hpp1 : 0 < 2 ^ (prec - 1)) by (apply Z.pow_pos_nonneg; lia).
  assert (Hq_hi : shr_m mrs1 < 2 ^ prec).
  { assert (Z.b2z (shr_r mrs1) = 0 \/ Z.b2z (shr_r mrs1) = 1) by (destruct (shr_r mrs1); auto).
    remember (2 ^ (d - prec)) as P. remember (2 ^ prec) as Q. nia. }
  assert (Hq_lo : 2 ^ (prec - 1) <= shr_m mrs1).
  { assert (Z.b2z (shr_r mrs1) = 0 \/ Z.b2z (shr_r mrs1) = 1) by (destruct (shr_r mrs1); auto).
    remember (2 ^ (d - prec)) as P. remember (2 ^ (prec - 1)) as Q. nia. }
  assert (Hm1pos : 0 < m1) by lia.
  destruct m1 as [|m1p|m1p] eqn:Em1; try lia.
  destruct (shr_fexp_exact_spec prec emax (Zpos m1p) e1) as (mrs2 & e2 & H2 & He2 & S2); [lia|].
  rewrite H2. cbn [Zdigits2] in He2.
  destruct (Z_lt_le_dec (Zpos m1p) (2 ^ prec)) as [Hnorm | Hcarry].
  - assert (Hdig : Zpos (digits2_pos m1p) = prec) by (apply digits2_unique; lia).
    rewrite Hdig in He2.
    assert (Hee : e2 = e1) by (unfold SpecFloat.fexp in *; lia). rewrite Hee in *. clear Hee.
    rewrite Z.sub_diag in S2. apply shifted_0 in S2. subst mrs2. cbn [shr_m].
    exists m1p, e1. split; [reflexivity|]. split; [exact Hdig | lia].
  - assert (Hm1eq : Zpos m1p = 2 ^ prec) by lia.
    assert (Hdig : Zpos (digits2_pos m1p) = prec + 1).
    { apply digits2_unique. replace (prec + 1 - 1) with prec by lia.
      rewrite Z.pow_add_r, Z.pow_1_r by lia. lia. }
    rewrite Hdig in He2.
    assert (Hk2 : e2 - e1 = 1) by (unfold SpecFloat.fexp in *; lia).
    rewrite Hk2 in S2.
    destruct S2 as (T2 & H2m2 & HT2 & _ & Hm2).
    rewrite Z.pow_1_r in *.
    assert (T2 = 0) by lia. subst T2.
    assert (Hb2 : Z.b2z (shr_r mrs2) = 0).
    { destruct (shr_r mrs2); cbn [Z.b2z] in *; lia. }
    rewrite Hb2 in H2m2.
    destruct (shr_m mrs2) as [|m2p|m2p] eqn:Em2; try lia.
    exists m2p, e2. split; [reflexivity|]. split; [|lia].
    apply digits2_unique. lia.
Qed.

Lemma binary_round_canonical : forall s m e,
  emin <= e -> canonical prec emax (binary_round prec emax s m e).
Proof.
  intros s m e He. unfold binary_round.
  pose proof (shl_align_spec m e (fexp (Zpos (digits2_pos m) + e))) as Hs.
  pose proof (fexp_ge_emin prec emax (Zpos (digits2_pos m) + e)) as Hfe.
  destruct (shl_align m e _) as [mz ez]. destruct Hs as (Hez & Hmz & Hdz).
  destruct (Z_le_gt_dec (fexp (Zpos (digits2_pos m) + e)) e) as [Hfit | Hlong].
  - destruct (binary_round_aux_correct prec emax prec_pos s mz ez)
      as (m2 & e2 & Hr & _ & _ & Hsame); [lia|].
    assert (Hfz : fexp (Zpos (digits2_pos mz) + ez) = ez).
    { rewrite Hdz. replace (Zpos (digits2_pos m) + (e - ez) + ez)
        with (Zpos (digits2_pos m) + e) by lia. lia. }
    destruct (Hsame ltac:(lia)) as [-> ->].
    rewrite Hr. destruct (ez <=? emax - prec); [|exact I].
    cbn [canonical]. symmetry. exact Hfz.
  - subst ez. rewrite Z.min_l in * by lia.
    assert (Hd : prec < Zpos (digits2_pos mz)).
    { rewrite Hdz. unfold SpecFloat.fexp in Hlong. lia. }
    destruct (binary_round_aux_digits s mz e He Hd) as (m2 & e2 & Hr & Hdig & Hlt).
    rewrite Hr. destruct (e2 <=? emax - prec); [|exact I].
    cbn [canonical]. rewrite Hdig. unfold SpecFloat.fexp, SpecFloat.emin in *. lia.
Qed.

Lemma binary_normalize_canonical : forall z e sz,
  emin <= e -> canonical prec emax (binary_normalize prec emax z e sz).
Proof.
  intros z e sz He. unfold binary_normalize.
  destruct z as [|m|m]; [exact I | |]; apply binary_round_canonical; exact He.
Qed.

Lemma SFadd_canonical : forall x y,
  IEEE.expo_ok prec emax x -> IEEE.expo_ok prec emax y ->
  canonical prec emax x -> canonical prec emax y ->
  canonical prec emax (SFadd prec emax x y).
Proof.
  intros x y Ex Ey Cx Cy.
  destruct x as [sx|sx| |sx mx ex], y as [sy|sy| |sy my ey]; cbn [SFadd];
    try assumption; try exact I; try (destruct sx, sy; exact I).
  cbn [IEEE.expo_ok] in Ex, Ey.
  apply binary_normalize_canonical. lia.
Qed.

Lemma valid_canonical : forall x, valid_binary prec emax x = true -> canonical prec emax x.
Proof.
  intros [s|s| |s m e] H; try exact I.
  cbn in H. unfold bounded, canonical_mantissa in H.
  apply andb_prop in H. destruct H as [H _].
  cbn [canonical]. symmetry. apply Z.eqb_eq. exact H.
Qed.

(** The digits of a mantissa shifted left. *)
Lemma digits_shift : forall (m1 m2 : positive) (k : Z),
  0 <= k -> Zpos m1 = Zpos m2 * 2 ^ k ->
  Zpos (digits2_pos m1) = Zpos (digits2_pos m2) + k.
Proof.
  intros m1 m2 k Hk H. apply digits2_unique.
  pose proof (digits2_bounds m2) as [Lo Hi].
  assert (0 < 2 ^ k) by (apply Z.pow_pos_nonneg; lia).
  replace (Zpos (digits2_pos m2) + k - 1) with (Zpos (digits2_pos m2) - 1 + k) by lia.
  rewrite !Z.pow_add_r by lia. rewrite H. split; nia.
Qed.

Lemma canonical_same_magnitude : forall (m1 m2 : positive) (e1 e2 : Z),
  e1 = fexp (Zpos (digits2_pos m1) + e1) ->
  e2 = fexp (Zpos (digits2_pos m2) + e2) ->
  e1 <= e2 ->
  Zpos m1 = Zpos m2 * 2 ^ (e2 - e1) ->
  m1 = m2 /\ e1 = e2.
Proof.
  intros m1 m2 e1 e2 C1 C2 Hle H.
  pose proof (digits_shift m1 m2 (e2 - e1) ltac:(lia) H) as Hd.
  assert (He : e1 = e2).
  { rewrite C1, C2. f_equal. lia. }
  subst e2. rewrite Z.sub_diag, Z.pow_0_r, Z.mul_1_r in H.
  split; [congruence | reflexivity].
Qed.
End Canonical.
Section SameFloat.
Variables prec emax : Z.
Hypothesis prec_pos : (0 < prec)%Z.
Local Notation "'emin'" := (SpecFloat.emin prec emax).
Local Open Scope R_scope.

Lemma magnitude_pos : forall (m : positive) (e : Z), 0 < IZR (Zpos m) * powerRZ 2 e.
Proof.
  intros m e. apply Rmult_lt_0_compat; [apply IZR_lt; lia | apply powerRZ_2_pos].
Qed.

Lemma same_magnitude : forall (m1 m2 : positive) (e1 e2 : Z),
  (e1 <= e2)%Z ->
  IZR (Zpos m1) * powerRZ 2 e1 = IZR (Zpos m2) * powerRZ 2 e2 ->
  Zpos m1 = (Zpos m2 * 2 ^ (e2 - e1))%Z.
Proof.
  intros m1 m2 e1 e2 Hle H.
  rewrite (powerRZ_2_split e1 e2 Hle) in H.
  pose proof (powerRZ_2_pos e1) as Hp.
  apply eq_IZR. rewrite mult_IZR.
  apply (Rmult_eq_reg_r (powerRZ 2 e1)); [|lra].
  rewrite H. ring.
Qed.

(** Two canonical floats of the same value, neither the negative zero,
    are the same. *)
Lemma canonical_unique : forall x y,
  canonical prec emax x -> canonical prec emax y ->
  IEEE.is_finite x = true -> IEEE.is_finite y = true ->
  x <> S754_zero true -> y <> S754_zero true ->
  SF2R x = SF2R y -> x = y.
Proof.
  intros x y Cx Cy Fx Fy Nx Ny H.
  destruct x as [sx|sx| |sx mx ex], y as [sy|sy| |sy my ey]; try discriminate.
  - destruct sx, sy; congruence.
  - exfalso. rewrite SF2R_cond_Zopp in H. cbn [SF2R] in H.
    pose proof (magnitude_pos my ey). destruct sy; lra.
  - exfalso. rewrite SF2R_cond_Zopp in H. cbn [SF2R] in H.
    pose proof (magnitude_pos mx ex). destruct sx; lra.
  - rewrite !SF2R_cond_Zopp in H.
    pose proof (magnitude_pos mx ex). pose proof (magnitude_pos my ey).
    assert (Hs : sx = sy) by (destruct sx, sy; try reflexivity; exfalso; lra).
    subst sy.
    assert (Hv : IZR (Zpos mx) * powerRZ 2 ex = IZR (Zpos my) * powerRZ 2 ey)
      by (destruct sx; lra).
    cbn [canonical] in Cx, Cy.
    destruct (Z_le_gt_dec ex ey) as [Hle | Hgt].
    + destruct (canonical_same_magnitude prec emax mx my ex ey Cx Cy Hle
                  (same_magnitude mx my ex ey Hle Hv)) as [-> ->].
      reflexivity.
    + destruct (canonical_same_magnitude prec emax my mx ey ex Cy Cx ltac:(lia)
                  (same_magnitude my mx ey ex ltac:(lia) (eq_sym Hv))) as [-> ->].
      reflexivity.
Qed.

(** The exponent of a canonical float whose value is a nonzero integer. *)
Lemma canonical_integer_exponent : forall s m e (n : Z),
  canonical prec emax (S754_finite s m e) ->
  SF2R (S754_finite s m e) = IZR n ->
  (1 - prec <= e)%Z.
Proof.
  intros s m e n C H. cbn [canonical] in C.
  rewrite SF2R_cond_Zopp in H.
  pose proof (magnitude_pos m e) as Hpos.
  assert (Hn : 1 <= IZR (Zpos m) * powerRZ 2 e).
  { assert (Hz : (n <> 0)%Z) by (intros ->; destruct s; lra).
    assert (Ha : (1 <= Z.abs n)%Z) by lia.
    apply IZR_le in Ha. rewrite abs_IZR, <- H in Ha.
    destruct s.
    - replace (-1 * (IZR (Zpos m) * powerRZ 2 e)) with (- (IZR (Zpos m) * powerRZ 2 e))
        in Ha by ring.
      rewrite Rabs_Ropp, Rabs_pos_eq in Ha by lra. exact Ha.
    - rewrite Rmult_1_l, Rabs_pos_eq in Ha by lra. exact Ha. }
  destruct (Z_lt_le_dec 0 (Zpos (digits2_pos m) + e)) as [Hd | Hd].
  - rewrite C. unfold SpecFloat.fexp. lia.
  - exfalso.
    pose proof (digits2_bounds m) as [_ Hhi].
    apply IZR_lt in Hhi. rewrite IZR_pow2 in Hhi by lia.
    pose proof (powerRZ_2_pos e) as Hp.
    assert (IZR (Zpos m) * powerRZ 2 e < powerRZ 2 (Zpos (digits2_pos m)) * powerRZ 2 e)
      by (apply Rmult_lt_compat_r; assumption).
    rewrite <- powerRZ_add in H0 by lra.
    pose proof (powerRZ_2_mono _ _ Hd) as Hm. change (powerRZ 2 0) with 1 in Hm. lra.
Qed.

(** Converting an integer-valued float to a format that holds the
    integer. *)
Lemma convert_integer : forall (x : spec_float) (n : Z),
  (prec <= emax - prec)%Z ->
  IEEE.is_finite x = true ->
  match x with S754_finite _ _ e => (emin <= e)%Z | _ => True end ->
  SF2R x = IZR n -> (Z.abs n < 2 ^ prec)%Z ->
  x <> S754_zero true ->
  IEEE.is_finite (IEEE.convert prec emax x) = true
  /\ SF2R (IEEE.convert prec emax x) = IZR n
  /\ canonical prec emax (IEEE.convert prec emax x)
  /\ IEEE.convert prec emax x <> S754_zero true.
Proof.
  intros x n room F E H Hn N.
  destruct x as [s|s| |s m e]; try discriminate.
  - cbn [IEEE.convert]. repeat split; assumption.
  - cbn [IEEE.convert].
    destruct (binary_normalize_integer prec emax prec_pos room
                (cond_Zopp s (Zpos m)) e n s E Hn H) as [Fy Vy].
    split; [exact Fy|]. split; [exact Vy|].
    split; [apply binary_normalize_canonical; assumption|].
    intros Hz. rewrite Hz in Vy. cbn [SF2R] in Vy.
    rewrite <- H, SF2R_cond_Zopp in Vy.
    pose proof (magnitude_pos m e). destruct s; lra.
Qed.
End SameFloat.
Section CanonicalReducers.
Variables (v : @UsersView IEEE.arith) (t : spec_float).
Hypothesis valid : finite_b32_view v.

Lemma formed_add : forall prec emax, (0 < prec)%Z ->
  forall k a b ea eb Ma Mb,
    formed prec emax k a ea Ma -> formed prec emax k b eb Mb ->
    formed prec emax (S k) (SFadd prec emax a b) (ea + eb)%R (Ma + Mb)%R.
Proof.
  intros prec emax Hp k a b ea eb Ma Mb [Ca Ea] [Cb Eb]. split.
  - apply SFadd_canonical; assumption.
  - apply SFadd_expo; assumption.
Qed.

Lemma formed_balance32 : forall i, (i < Count v)%nat -> qualifies v t i = true ->
  formed IEEE.prec32 IEEE.emax32 0 (rd (Balances v) i IEEE.pzero)
    (rcontrib v t i) (Rabs (rcontrib v t i)).
Proof.
  intros i Hi _. destruct (valid i Hi) as [Hv _]. split.
  - apply valid_canonical. exact Hv.
  - apply valid_expo_ok. exact Hv.
Qed.

Lemma formed_balance64 : forall i, (i < Count v)%nat -> qualifies v t i = true ->
  formed IEEE.prec64 IEEE.emax64 0
    (IEEE.convert IEEE.prec64 IEEE.emax64 (rd (Balances v) i IEEE.pzero))
    (rcontrib v t i) (Rabs (rcontrib v t i)).
Proof.
  intros i Hi _. destruct (valid i Hi) as [Hv _]. split; [|apply convert_expo].
  apply valid_expo_ok in Hv.
  destruct (rd (Balances v) i IEEE.pzero) as [s|s| |s m e]; try exact I.
  cbn [IEEE.convert]. apply binary_normalize_canonical; [exact prec64_pos|].
  cbn [IEEE.expo_ok] in Hv.
  unfold SpecFloat.emin, IEEE.prec32, IEEE.emax32, IEEE.prec64, IEEE.emax64 in *. lia.
Qed.

Lemma Scalar_canonical :
  canonical IEEE.prec32 IEEE.emax32 (SumActiveBalancesScalar v t).
Proof.
  apply (Scalar_carried v t valid (formed IEEE.prec32 IEEE.emax32));
    [ intros s; split; exact I | intros k k' x e M _ H; exact H
    | apply formed_add; exact prec32_pos | apply formed_balance32 ].
Qed.

Lemma Znver2_canonical :
  canonical IEEE.prec32 IEEE.emax32 (Znver2.SumActiveBalancesAvx2 v t).
Proof.
  apply (Znver2_carried v t valid (formed IEEE.prec32 IEEE.emax32));
    [ intros s; split; exact I | intros k k' x e M _ H; exact H
    | apply formed_add; exact prec32_pos | apply formed_balance32 ].
Qed.

Lemma Avx2Double_canonical :
  canonical IEEE.prec64 IEEE.emax64 (Avx2Double.SumActiveBalancesAvx2 v t).
Proof.
  apply (Avx2Double_carried v t valid (formed IEEE.prec64 IEEE.emax64));
    [ intros s; split; exact I | intros k k' x e M _ H; exact H
    | apply formed_add; exact prec64_pos | apply formed_balance64 ].
Qed.
End CanonicalReducers.

(** X19: on a view whose balances are integers and whose qualifying
    balances have magnitudes summing to less than 2^24, every path
    returns the same float, bit for bit: the same-precision kernel, the
    repository sum and both dispatchers, whatever the build and the CPU,
    return the float of the scalar reducer, and the wide kernel returns
    that float widened to double. *)
Theorem integer_results_agree_bitwise :
  forall (v : @UsersView IEEE.arith) (t : spec_float)
         (users : list (@Repository.User IEEE.arith)),
    finite_b32_view v ->
    integer_view v ->
    (filtered_magnitude v t < 16777216)%R ->
    Repository.same_values users v ->
    Znver2.SumActiveBalancesAvx2 v t = SumActiveBalancesScalar v t
    /\ Repository.SumActiveBalances (Repository.VectorUserRepository users) t
       = SumActiveBalancesScalar v t
    /\ Avx2Double.SumActiveBalancesAvx2 v t
       = @cvtps_pd IEEE.arith (SumActiveBalancesScalar v t)
    /\ (forall build cpu_supports_avx2,
          Znver2.SumActiveBalances build cpu_supports_avx2 v t
          = SumActiveBalancesScalar v t)
    /\ (forall build cpu_supports_avx2,
          Avx2Double.SumActiveBalances build cpu_supports_avx2 v t
          = SumActiveBalancesScalar v t).
Proof.
  intros v t users valid integers HM same.
  destruct (Scalar_exactly v t valid integers) as (HB & [n Hn] & F1).
  destruct (Znver2_exactly v t valid integers) as (_ & _ & F2).
  destruct (Avx2Double_exactly v t valid integers) as (_ & _ & F3).
  assert (H24 : (powerRZ 2 IEEE.prec32 = 16777216)%R).
  { rewrite <- IZR_pow2 by (unfold IEEE.prec32; lia). reflexivity. }
  assert (H53 : (16777216 <= powerRZ 2 IEEE.prec64)%R).
  { rewrite <- H24. apply powerRZ_2_mono. unfold IEEE.prec32, IEEE.prec64. lia. }
  destruct (F1 ltac:(lra)) as (Fa & Ea & Va).
  destruct (F2 ltac:(lra)) as (Fb & Eb & Vb).
  destruct (F3 ltac:(lra)) as (Fc & Ec & Vc).
  pose proof (Scalar_canonical v t valid) as Ca.
  pose proof (Znver2_canonical v t valid) as Cb.
  pose proof (Avx2Double_canonical v t valid) as Cc.
  destruct (good_Scalar v t) as [Na _].
  destruct (good_Znver2 v t (fun i Hi => proj1 (valid i Hi))) as [Nb _].
  destruct (good_Avx2Double v t) as [Nc _].
  assert (Habs : (Z.abs n < 2 ^ 24)%Z).
  { apply lt_IZR. rewrite abs_IZR, <- Hn. change (2 ^ 24)%Z with 16777216%Z. lra. }
  assert (HZ : Znver2.SumActiveBalancesAvx2 v t = SumActiveBalancesScalar v t).
  { apply (canonical_unique IEEE.prec32 IEEE.emax32); try assumption. congruence. }
  assert (HW : Avx2Double.SumActiveBalancesAvx2 v t
               = @cvtps_pd IEEE.arith (SumActiveBalancesScalar v t)).
  { destruct (convert_integer IEEE.prec64 IEEE.emax64 prec64_pos
                (SumActiveBalancesScalar v t) n room64 Fa) as (Fw & Vw & Cw & Nw).
    - destruct (SumActiveBalancesScalar v t) as [s|s| |s m e]; try exact I.
      cbn [IEEE.expo_ok] in Ea.
      unfold SpecFloat.emin, IEEE.prec32, IEEE.emax32, IEEE.prec64, IEEE.emax64 in *. lia.
    - congruence.
    - unfold IEEE.prec64. lia.
    - exact Na.
    - change (@cvtps_pd IEEE.arith (SumActiveBalancesScalar v t))
        with (IEEE.convert IEEE.prec64 IEEE.emax64 (SumActiveBalancesScalar v t)).
      apply (canonical_unique IEEE.prec64 IEEE.emax64); try assumption. congruence. }
  assert (HN : @cvtpd_ps IEEE.arith (Avx2Double.SumActiveBalancesAvx2 v t)
               = SumActiveBalancesScalar v t).
  { destruct (convert_integer IEEE.prec32 IEEE.emax32 prec32_pos
                (Avx2Double.SumActiveBalancesAvx2 v t) n room32 Fc) as (Fw & Vw & Cw & Nw).
    - destruct (Avx2Double.SumActiveBalancesAvx2 v t) as [s|s| |s m e] eqn:E; try exact I.
      pose proof (canonical_integer_exponent IEEE.prec64 IEEE.emax64 s m e n Cc
                    ltac:(congruence)) as He.
      unfold SpecFloat.emin, IEEE.prec32, IEEE.emax32, IEEE.prec64 in *. lia.
    - congruence.
    - exact Habs.
    - exact Nc.
    - change (@cvtpd_ps IEEE.arith (Avx2Double.SumActiveBalancesAvx2 v t))
        with (IEEE.convert IEEE.prec32 IEEE.emax32 (Avx2Double.SumActiveBalancesAvx2 v t)).
      apply (canonical_unique IEEE.prec32 IEEE.emax32); try assumption. congruence. }
  split; [exact HZ|]. split.
  - rewrite (Scalar_over_any_records users v t same).
    apply finite_records_sum. apply (same_values_finite users v same valid).
  - split; [exact HW|]. split; intros build cpu.
    + unfold Znver2.SumActiveBalances, Znver2.SumActiveBalancesScalar.
      destruct (AVX2_defined build), ((COMPILER_CLANG build || COMPILER_GCC build) && cpu);
        first [exact HZ | reflexivity].
    + unfold Avx2Double.SumActiveBalances, Avx2Double.SumActiveBalancesScalar.
      destruct (AVX2_defined build), ((COMPILER_CLANG build || COMPILER_GCC build) && cpu);
        first [exact HN | reflexivity].
Qed.

Lemma integer_results_agree_bitwise_witness :
  Znver2.SumActiveBalancesAvx2 Inputs.spec_example (Inputs.f 250)
  = SumActiveBalancesScalar Inputs.spec_example (Inputs.f 250)
  /\ Repository.SumActiveBalances
       (Repository.VectorUserRepository Inputs.spec_example_users) (Inputs.f 250)
     = SumActiveBalancesScalar Inputs.spec_example (Inputs.f 250)
  /\ Avx2Double.SumActiveBalancesAvx2 Inputs.spec_example (Inputs.f 250)
     = @cvtps_pd IEEE.arith (SumActiveBalancesScalar Inputs.spec_example (Inputs.f 250))
  /\ (forall build cpu_supports_avx2,
        Znver2.SumActiveBalances build cpu_supports_avx2 Inputs.spec_example (Inputs.f 250)
        = SumActiveBalancesScalar Inputs.spec_example (Inputs.f 250))
  /\ (forall build cpu_supports_avx2,
        Avx2Double.SumActiveBalances build cpu_supports_avx2 Inputs.spec_example
          (Inputs.f 250)
        = SumActiveBalancesScalar Inputs.spec_example (Inputs.f 250)).
Proof.
  apply (integer_results_agree_bitwise Inputs.spec_example (Inputs.f 250)
           Inputs.spec_example_users).
  - intros i Hi. split; by_index i.
  - exact spec_example_integers.
  - exact spec_example_magnitude.
  - repeat split.
Defined.
